(** * transcribe.py: batch transcription driver

    A shallow embedding of [src/transcribe.py] and the properties of its
    file locator, its file-system helpers, its format validation and its
    batch loop.

    Modelling conventions.
    - A Python [str] is a [string]; a character is a code point below 256,
      and [lower]/[strip] follow Python on that range.
    - The file system is the tree of directories and regular files under
      the root directory, together with the working directory of the
      process and with what the operating system lets the process create
      (it refuses a name that is too long, a place the process may not
      write to, and so on).  Paths are resolved as POSIX does: from the
      root or from the working directory, [.] stays in place and [..]
      leaves a directory for the one above it.  There are no symbolic
      links.
    - The speech model, [json.dumps] and the caption writers of the
      [whisper] package are external: they are fields of [Env].
    - Every interaction with the outside world is appended to a trace. *)

From Stdlib Require Import String Ascii List Bool Arith ZArith Lia.
From Stdlib Require Import Sorted Permutation.
Import ListNotations.
Local Open Scope string_scope.
Local Open Scope list_scope.
Local Open Scope nat_scope.

(* ================================================================== *)
(** ** Python string primitives *)

Module Py.

Definition ord (c : ascii) : nat := nat_of_ascii c.

(** [str.isspace] on one character. *)
Definition isspace (c : ascii) : bool :=
  let n := ord c in
  ((9 <=? n) && (n <=? 13)) || ((28 <=? n) && (n <=? 32))
  || (n =? 133) || (n =? 160).

Definition lower_char (c : ascii) : ascii :=
  let n := ord c in
  if ((65 <=? n) && (n <=? 90))
     || ((192 <=? n) && (n <=? 222) && negb (n =? 215))
  then ascii_of_nat (n + 32) else c.

(** [s.lower()] *)
Fixpoint lower (s : string) : string :=
  match s with
  | EmptyString => EmptyString
  | String c t => String (lower_char c) (lower t)
  end.

Fixpoint lstrip (s : string) : string :=
  match s with
  | EmptyString => EmptyString
  | String c t => if isspace c then lstrip t else s
  end.

Fixpoint rstrip (s : string) : string :=
  match s with
  | EmptyString => EmptyString
  | String c t =>
      match rstrip t with
      | EmptyString => if isspace c then EmptyString else String c EmptyString
      | t' => String c t'
      end
  end.

(** [s.strip()] *)
Definition strip (s : string) : string := rstrip (lstrip s).

(** Truth value of a string: non-empty. *)
Definition truthy (s : string) : bool := negb (s =? "")%string.

(** [s.split(sep)] for a one-character separator: never an empty list. *)
Fixpoint split (sep : ascii) (s : string) : list string :=
  match s with
  | EmptyString => [EmptyString]
  | String c t =>
      if Ascii.eqb c sep then EmptyString :: split sep t
      else match split sep t with
           | h :: r => String c h :: r
           | [] => [String c EmptyString]
           end
  end.

(** [s.endswith(suffix)] *)
Fixpoint endswith (s suffix : string) : bool :=
  (s =? suffix)%string
  || match s with
     | EmptyString => false
     | String _ t => endswith t suffix
     end.

(** [s.endswith(tuple(suffixes))] *)
Definition endswith_any (s : string) (suffixes : list string) : bool :=
  existsb (endswith s) suffixes.

(** [s.startswith(p)] *)
Definition startswith (s p : string) : bool := String.prefix p s.

(** [s.rfind(c)]: index of the last occurrence, [-1] when there is none. *)
Fixpoint rfind (c : ascii) (s : string) : Z :=
  match s with
  | EmptyString => (-1)%Z
  | String a t =>
      let r := rfind c t in
      if (0 <=? r)%Z then (r + 1)%Z
      else if Ascii.eqb a c then 0%Z else (-1)%Z
  end.

Fixpoint drop (n : nat) (s : string) : string :=
  match n, s with
  | O, _ => s
  | S n', String _ t => drop n' t
  | S _, EmptyString => EmptyString
  end.

Fixpoint take (n : nat) (s : string) : string :=
  match n, s with
  | O, _ => EmptyString
  | S n', String c t => String c (take n' t)
  | S _, EmptyString => EmptyString
  end.

(** [s[i:]], [s[:i]] and [s[i:j]] for indices that are not negative. *)
Definition slice_from (i : Z) (s : string) : string := drop (Z.to_nat i) s.
Definition slice_to (i : Z) (s : string) : string := take (Z.to_nat i) s.
Definition slice (i j : Z) (s : string) : string :=
  take (Z.to_nat j - Z.to_nat i) (drop (Z.to_nat i) s).

(** [c in s] for a character. *)
Fixpoint has_char (c : ascii) (s : string) : bool :=
  match s with
  | EmptyString => false
  | String a t => Ascii.eqb a c || has_char c t
  end.

(** [x in xs] for a list or a set of strings. *)
Definition contains (xs : list string) (x : string) : bool :=
  existsb (String.eqb x) xs.

(** [sorted(xs)] on strings: code-point lexicographic order.  The order
    is total, so every sorting algorithm returns the same list. *)
Fixpoint insert_sorted (x : string) (xs : list string) : list string :=
  match xs with
  | [] => [x]
  | y :: ys => if String.leb x y then x :: xs else y :: insert_sorted x ys
  end.

Definition sorted (xs : list string) : list string :=
  fold_right insert_sorted [] xs.

End Py.

(* ================================================================== *)
(** ** os.path (posixpath) *)

Module OsPath.

(** [os.path.join(a, b)] *)
Definition join (a b : string) : string :=
  if Py.startswith b "/" then b
  else if negb (Py.truthy a) || Py.endswith a "/" then a ++ b
  else a ++ "/" ++ b.

(** [os.path.basename(p)]: [p[p.rfind('/') + 1:]] *)
Definition basename (p : string) : string :=
  Py.slice_from (Py.rfind "/" p + 1) p.

Fixpoint only_dots (s : string) : bool :=
  match s with
  | EmptyString => true
  | String c t => Ascii.eqb c "." && only_dots t
  end.

(** [os.path.splitext(p)].  The extension starts at the last dot of the
    last component, unless only dots precede it in that component (the
    loop over [filenameIndex] in [genericpath._splitext]). *)
Definition splitext (p : string) : string * string :=
  let sepIndex := Py.rfind "/" p in
  let dotIndex := Py.rfind "." p in
  if (sepIndex <? dotIndex)%Z then
    if only_dots (Py.slice (sepIndex + 1) dotIndex p) then (p, "")
    else (Py.slice_to dotIndex p, Py.slice_from dotIndex p)
  else (p, "").

End OsPath.

(* ================================================================== *)
(** ** The file system *)

(** Directories and regular files.  The operations follow POSIX and
    CPython: [stat], [mkdir] and [open] fail where a regular file stands
    in for a directory, where a directory is opened for writing, where a
    parent is missing, and where the operating system refuses to create
    an entry. *)
Module Fs.

#[warnings="-register-all"]
Inductive node : Type :=
| File (content : string)
| Dir (entries : list (string * node)).

(** Entry of a directory by name: the first one wins. *)
Fixpoint get (name : string) (es : list (string * node)) : option node :=
  match es with
  | [] => None
  | (k, n) :: rest => if (k =? name)%string then Some n else get name rest
  end.

(** Replace the entry of that name, or add it last. *)
Fixpoint put (name : string) (n : node) (es : list (string * node))
  : list (string * node) :=
  match es with
  | [] => [(name, n)]
  | (k, m) :: rest =>
      if (k =? name)%string then (k, n) :: rest
      else (k, m) :: put name n rest
  end.

(** The steps of a path: empty components and [.] stay in place and are
    left out; [..] is a step like a name, see [locate]. *)
Definition components (p : string) : list string :=
  filter (fun c => negb ((c =? "") || (c =? "."))%string) (Py.split "/" p).

(** A path that ends in a slash or in [.] can only name a directory. *)
Definition names_directory (p : string) : bool :=
  let c := last (Py.split "/" p) "" in
  ((c =? "") || (c =? "."))%string.

Fixpoint lookup (cs : list string) (n : node) : option node :=
  match cs with
  | [] => Some n
  | c :: rest =>
      match n with
      | File _ => None
      | Dir es =>
          match get c es with
          | Some child => lookup rest child
          | None => None
          end
      end
  end.

(** The file system: the tree under the root directory, the working
    directory of the process as the names that lead to it from the root,
    and what the operating system permits the process (it refuses a name
    that is too long, a place the process may not write to, and so
    on). *)
Record sys : Type := mkSys {
  tree : node;
  cwd : list string;
  (** [permits q]: the process may make a directory at the place [q], and
      may open a file there for writing *)
  permits : list string -> bool
}.

(** Where the steps [cs] lead from the directory at [here]: a name goes
    down, and [..] goes up from what must be a directory (the root is
    above itself).  [None] when a [..] follows what is no directory. *)
Fixpoint locate (here cs : list string) (t : node) : option (list string) :=
  match cs with
  | [] => Some here
  | c :: rest =>
      if (c =? "..")%string then
        match lookup here t with
        | Some (Dir _) => locate (removelast here) rest t
        | _ => None
        end
      else locate (here ++ [c]) rest t
  end.

(** Where the resolution of a path starts. *)
Definition origin (p : string) (s : sys) : list string :=
  if Py.startswith p "/" then [] else cwd s.

(** The place a path names: the names that lead to it from the root. *)
Definition place (p : string) (s : sys) : option (list string) :=
  locate (origin p s) (components p) (tree s).

(** What [stat(p)] finds, [None] when it fails. *)
Definition stat (p : string) (s : sys) : option node :=
  if (p =? "")%string then None
  else match place p s with
       | Some q =>
           match lookup q (tree s) with
           | Some (File c) => if names_directory p then None else Some (File c)
           | r => r
           end
       | None => None
       end.

(** [os.path.isfile(p)] *)
Definition isfile (p : string) (s : sys) : bool :=
  match stat p s with Some (File _) => true | _ => false end.

(** [os.path.isdir(p)] *)
Definition isdir (p : string) (s : sys) : bool :=
  match stat p s with Some (Dir _) => true | _ => false end.

(** [os.listdir(p)] *)
Definition listdir (p : string) (s : sys) : option (list string) :=
  match stat p s with
  | Some (Dir es) => Some (map fst es)
  | _ => None
  end.

(** Content of the regular file at [p]. *)
Definition read (p : string) (s : sys) : option string :=
  match stat p s with Some (File c) => Some c | _ => None end.

(** Create the directory at the place [cs] and the missing ones above
    it; [None] when a file is in the way. *)
Fixpoint mkdir_p (cs : list string) (n : node) : option node :=
  match n with
  | File _ => None
  | Dir es =>
      match cs with
      | [] => Some n
      | c :: rest =>
          let child := match get c es with Some ch => ch | None => Dir [] end in
          match mkdir_p rest child with
          | Some child' => Some (Dir (put c child' es))
          | None => None
          end
      end
  end.

(** The walk of [os.makedirs] through the steps [cs] from the directory
    at [here]: a directory that is missing is made, if the operating
    system permits, before the walk goes on.  The result is the tree
    with what was made, and whether the walk came to its end: it stops
    at a regular file and at a refusal, and what it made before that
    stays. *)
Fixpoint mkdirs (ok : list string -> bool) (here cs : list string) (t : node)
  : node * bool :=
  match lookup here t with
  | Some (Dir _) =>
      match cs with
      | [] => (t, true)
      | c :: rest =>
          if (c =? "..")%string then mkdirs ok (removelast here) rest t
          else
            match lookup (here ++ [c]) t with
            | Some _ => mkdirs ok (here ++ [c]) rest t
            | None =>
                if ok (here ++ [c]) then
                  match mkdir_p (here ++ [c]) t with
                  | Some t' => mkdirs ok (here ++ [c]) rest t'
                  | None => (t, false)
                  end
                else (t, false)
            end
      end
  | _ => (t, false)
  end.

(** [os.makedirs(p, exist_ok=True)]: the file system it leaves, and
    [false] when it raises. *)
Definition makedirs (p : string) (s : sys) : sys * bool :=
  if (p =? "")%string then (s, false)
  else
    let '(t, done) := mkdirs (permits s) (origin p s) (components p) (tree s) in
    (mkSys t (cwd s) (permits s), done).

(** Create or truncate the regular file at the place [cs] with that
    content; [None] when the parent is missing or is a file, or [cs] is
    a directory. *)
Fixpoint store (cs : list string) (content : string) (n : node)
  : option node :=
  match cs, n with
  | [], _ => None
  | _, File _ => None
  | [c], Dir es =>
      match get c es with
      | Some (Dir _) => None
      | _ => Some (Dir (put c (File content) es))
      end
  | c :: rest, Dir es =>
      match get c es with
      | Some child =>
          match store rest content child with
          | Some child' => Some (Dir (put c child' es))
          | None => None
          end
      | None => None
      end
  end.

(** [with open(p, 'w') as f: f.write(content)]; [None] when [open]
    raises: by the shape of the tree, or because the operating system
    does not permit it. *)
Definition open_write (p content : string) (s : sys) : option sys :=
  if ((p =? "")%string || names_directory p) then None
  else
    match place p s with
    | Some q =>
        if permits s q then
          match store q content (tree s) with
          | Some t => Some (mkSys t (cwd s) (permits s))
          | None => None
          end
        else None
    | None => None
    end.

Definition dirnames (es : list (string * node)) : list string :=
  map fst (filter (fun e => match snd e with Dir _ => true | File _ => false end) es).

Definition filenames (es : list (string * node)) : list string :=
  map fst (filter (fun e => match snd e with Dir _ => false | File _ => true end) es).

(** The triples [os.walk] yields for the directory [n] reached as [top],
    top-down, in the order of the directory entries. *)
Fixpoint walk_node (top : string) (n : node)
  : list (string * list string * list string) :=
  match n with
  | File _ => []
  | Dir es =>
      (top, dirnames es, filenames es)
      :: flat_map (fun e => walk_node (OsPath.join top (fst e)) (snd e)) es
  end.

(** [os.walk(top)]: nothing when [top] is not a directory. *)
Definition walk (top : string) (s : sys)
  : list (string * list string * list string) :=
  match stat top s with
  | Some (Dir es) => walk_node top (Dir es)
  | _ => []
  end.

End Fs.

(* ================================================================== *)
(** ** The outside world, exceptions and the command monad *)

(** The external collaborators of the script. *)
Record Env : Type := {
  (** the dict [model.transcribe] returns *)
  Result : Type;
  (** [result.get('text')], [None] when the key is missing *)
  result_text : Result -> option string;
  (** [json.dumps(result, ensure_ascii=False, indent=2)] *)
  json_dumps : Result -> string;
  (** [torch.cuda.is_available()] *)
  cuda_is_available : bool;
  (** [whisper.load_model(model_name, device=device)] followed by
      [model.transcribe(file_path, verbose=False, fp16=fp16,
      language=language)]: the message of the exception ([inl]) or the
      result ([inr]).  A failing import is an exception too. *)
  model_transcribe :
    string -> string -> string -> bool -> option string -> string + Result;
  (** The caption writer of that kind on a result: [inl] is the message
      of an exception raised before the writer opens its file; [inr] is
      what it puts into the file, with the message of the exception it
      raises after that, if any. *)
  render_captions : string -> Result -> string + string * option string;
  (** [str(exc)] of the [OSError] that a failed call on that path raises,
      as the operating system words it:
      [[Errno 21] Is a directory: 'out/b/b.vtt'] *)
  oserror_text : string -> string
}.

Inductive event : Type :=
| EvStdout (line : string)
| EvStderr (line : string)
| EvScan (root : string)
| EvMakedirs (path : string) (done : bool)
| EvOpenWrite (path : string) (done : bool)
| EvTranscribe (file_path model_name device : string) (fp16 : bool)
               (language : option string)
| EvTraceback (message : string).

Record world : Type := mkWorld {
  fs : Fs.sys;
  trace : list event
}.

Inductive exn : Type :=
| OSError (path : string)
| RuntimeError (message : string)
| SystemExit (code : Z).

(** [isinstance(e, Exception)]: [SystemExit] derives from
    [BaseException] only. *)
Definition is_Exception (e : exn) : bool :=
  match e with SystemExit _ => false | _ => true end.


Inductive outcome (A : Type) : Type :=
| Ok (value : A)
| Raise (e : exn).
Arguments Ok {A} value.
Arguments Raise {A} e.

Definition M (A : Type) : Type := world -> outcome A * world.

Definition ret {A} (a : A) : M A := fun w => (Ok a, w).

Definition bind {A B} (m : M A) (k : A -> M B) : M B :=
  fun w =>
    match m w with
    | (Ok a, w') => k a w'
    | (Raise e, w') => (Raise e, w')
    end.

Definition raise {A} (e : exn) : M A := fun w => (Raise e, w).

Declare Scope cmd_scope.
Delimit Scope cmd_scope with cmd.
Notation "x <- m ;; k" := (bind m (fun x => k))
  (at level 61, m at next level, right associativity) : cmd_scope.
Notation "m ;; k" := (bind m (fun _ => k))
  (at level 61, right associativity) : cmd_scope.
Local Open Scope cmd_scope.

(** [try: m  except Exception as exc: ...]: the caught exception comes
    back as [inl]; what is not an [Exception] goes on. *)
Definition try_except {A} (m : M A) : M (exn + A) :=
  fun w =>
    match m w with
    | (Ok a, w') => (Ok (inr a), w')
    | (Raise e, w') =>
        if is_Exception e then (Ok (inl e), w') else (Raise e, w')
    end.

Definition emit (e : event) : M unit :=
  fun w => (Ok tt, mkWorld (fs w) (trace w ++ [e])).

(** [print(line)] *)
Definition print (line : string) : M unit := emit (EvStdout line).

(** [eprint(line)]: [print] to [sys.stderr] *)
Definition eprint (line : string) : M unit := emit (EvStderr line).

(** A file-system call: it changes the tree, or raises [OSError] and
    leaves the tree as it was.  The trace records the call and whether it
    was carried out. *)
Definition fs_call (ev : bool -> event) (f : Fs.sys -> option Fs.sys)
           (path : string) : M unit :=
  fun w =>
    match f (fs w) with
    | Some s => (Ok tt, mkWorld s (trace w ++ [ev true]))
    | None => (Raise (OSError path), mkWorld (fs w) (trace w ++ [ev false]))
    end.

(* ================================================================== *)
(** ** transcribe.py *)

Section Script.

Variable env : Env.

(** [str(exc)] for the exceptions the script catches; a [SystemExit] is
    never caught. *)
Definition exn_message (e : exn) : string :=
  match e with
  | OSError p => oserror_text env p
  | RuntimeError m => m
  | SystemExit _ => ""
  end.

(** [find_audio_files] on a given file system. *)
Definition find_audio_files_in (t : Fs.sys) (root : string)
           (exts : list string) : list string :=
  if Fs.isfile root t then
    if Py.endswith_any (Py.lower root) exts then [root] else []
  else
    Py.sorted
      (flat_map
         (fun y =>
            let '(dirpath, _, filenames) := y in
            map (OsPath.join dirpath)
                (filter (fun name => Py.endswith_any (Py.lower name) exts)
                        filenames))
         (Fs.walk root t)).

Definition find_audio_files (root : string) (exts : list string)
  : M (list string) :=
  emit (EvScan root) ;;
  fun w => (Ok (find_audio_files_in (fs w) root exts), w).

(** [os.makedirs] raises [OSError] when it cannot go on; the
    directories it made before that stay. *)
Definition ensure_dir (path : string) : M unit :=
  fun w =>
    let '(s, done) := Fs.makedirs path (fs w) in
    (if done then Ok tt else Raise (OSError path),
     mkWorld s (trace w ++ [EvMakedirs path done])).

Definition save_text (path content : string) : M unit :=
  fs_call (EvOpenWrite path) (Fs.open_write path content) path.

Definition transcribe_whisper (file_path model_name device : string)
           (language : option string) : M (Result env) :=
  let device :=
    if (device =? "auto")%string
    then (if cuda_is_available env then "cuda" else "cpu")
    else device in
  (* fp16 only on GPU *)
  let fp16 := (device =? "cuda")%string in
  emit (EvTranscribe file_path model_name device fp16 language) ;;
  match model_transcribe env model_name device file_path fp16 language with
  | inl message => raise (RuntimeError message)
  | inr result => ret result
  end.

(** [write_timecoded]: the writer [whisper.utils.get_writer(kind,
    out_folder)] opens [<out_folder>/<audio basename>.<kind>] for
    writing and renders the result into it. *)
Definition write_timecoded (result : Result env)
           (file_path out_folder kind : string) : M unit :=
  let audio_basename := fst (OsPath.splitext (OsPath.basename file_path)) in
  let output_path := OsPath.join out_folder (audio_basename ++ "." ++ kind) in
  match render_captions env kind result with
  | inl message => raise (RuntimeError message)
  | inr (written, failure) =>
      save_text output_path written ;;
      match failure with
      | Some message => raise (RuntimeError message)
      | None => ret tt
      end
  end.

Record Args : Type := mkArgs {
  input : string;
  out_dir : string;
  model : string;
  device : string;
  language : option string;
  formats : string;
  fail_on_error : bool
}.

(** The defaults of the argument parser. *)
Definition default_args : Args :=
  mkArgs "." "transcripts" "medium" "auto" None "txt,json,srt,vtt" false.

Definition supported : list string := ["txt"; "json"; "srt"; "vtt"].

(** [[fmt.strip().lower() for fmt in s.split(',') if fmt.strip()]] *)
Definition parse_formats (s : string) : list string :=
  map (fun fmt => Py.lower (Py.strip fmt))
      (filter (fun fmt => Py.truthy (Py.strip fmt)) (Py.split "," s)).

(** The validation loop: the first unsupported name ends the process. *)
Fixpoint check_formats (fmts : list string) : M unit :=
  match fmts with
  | [] => ret tt
  | fmt :: rest =>
      if negb (Py.contains supported fmt) then
        eprint ("Unsupported format: " ++ fmt
                ++ ". Supported: ['json', 'srt', 'txt', 'vtt']") ;;
        raise (SystemExit 2)
      else check_formats rest
  end.

Definition audio_exts : list string :=
  [".mp3"; ".wav"; ".m4a"; ".mp4"; ".mpeg"; ".mpga"; ".webm"; ".ogg"; ".flac"].

Definition when (b : bool) (m : M unit) : M unit :=
  if b then m else ret tt.

(** The part of the loop body after a successful transcription. *)
Definition write_outputs (fmts : list string) (file_path out_folder base : string)
           (result : Result env) : M unit :=
  when (Py.contains fmts "txt")
    (save_text (OsPath.join out_folder (base ++ ".txt"))
       (Py.strip (match result_text env result with
                  | Some t => t
                  | None => ""
                  end))) ;;
  when (Py.contains fmts "json")
    (save_text (OsPath.join out_folder (base ++ ".json"))
       (json_dumps env result)) ;;
  when (Py.contains fmts "srt")
    (r <- try_except (write_timecoded result file_path out_folder "srt") ;;
     match r with
     | inl exc => eprint ("Failed SRT writing for " ++ file_path ++ ": "
                          ++ exn_message exc)
     | inr _ => ret tt
     end) ;;
  when (Py.contains fmts "vtt")
    (r <- try_except (write_timecoded result file_path out_folder "vtt") ;;
     match r with
     | inl exc => eprint ("Failed VTT writing for " ++ file_path ++ ": "
                          ++ exn_message exc)
     | inr _ => ret tt
     end) ;;
  print ("Saved transcripts to: " ++ out_folder).

Definition base_of (file_path : string) : string :=
  fst (OsPath.splitext (OsPath.basename file_path)).

Definition out_folder_of (a : Args) (file_path : string) : string :=
  OsPath.join (out_dir a) (base_of file_path).

(** The [for file_path in files] loop of [main] with the statements
    after it; [failures] is the list built so far. *)
Fixpoint batch (a : Args) (fmts : list string) (files failures : list string)
  : M Z :=
  match files with
  | [] =>
      if negb (Nat.eqb (List.length failures) 0) && fail_on_error a
      then ret 1%Z else ret 0%Z
  | file_path :: rest =>
      let base := base_of file_path in
      let out_folder := out_folder_of a file_path in
      ensure_dir out_folder ;;
      print ("Transcribing: " ++ file_path) ;;
      r <- try_except
             (transcribe_whisper file_path (model a) (device a) (language a)) ;;
      match r with
      | inl exc =>
          eprint ("Failed transcription for " ++ file_path ++ ": "
                  ++ exn_message exc) ;;
          let failures := failures ++ [file_path] in
          if fail_on_error a then ret 1%Z
          else batch a fmts rest failures
      | inr result =>
          write_outputs fmts file_path out_folder base result ;;
          batch a fmts rest failures
      end
  end.

(** The Batch Driver on the discovered files. *)
Definition batch_driver (a : Args) (fmts files : list string) : M Z :=
  match files with
  | [] => eprint "No audio files found to transcribe." ;; ret 0%Z
  | _ :: _ =>
      ensure_dir (out_dir a) ;;
      batch a fmts files []
  end.

Definition main (a : Args) : M Z :=
  let fmts := parse_formats (formats a) in
  check_formats fmts ;;
  files <- find_audio_files (input a) audio_exts ;;
  batch_driver a fmts files.

(** The exit status [sys.exit(main())] gives the process: what [main]
    returns, the code of a [SystemExit], and 1 for an exception nobody
    caught. *)
Definition exit_status (r : outcome Z) : Z :=
  match r with
  | Ok status => status
  | Raise (SystemExit status) => status
  | Raise _ => 1%Z
  end.

(** [sys.exit(main())]; an exception nobody caught prints a traceback. *)
Definition run (a : Args) (w : world) : Z * world :=
  let '(r, w') := main a w in
  (exit_status r,
   match r with
   | Raise (OSError m) | Raise (RuntimeError m) =>
       mkWorld (fs w') (trace w' ++ [EvTraceback m])
   | _ => w'
   end).

End Script.

(* ================================================================== *)
(** ** Observations *)

(** The files handed to the recognition capability, in order. *)
Fixpoint attempts (tr : list event) : list string :=
  match tr with
  | [] => []
  | EvTranscribe f _ _ _ _ :: rest => f :: attempts rest
  | _ :: rest => attempts rest
  end.

(** Calls that may change the file system. *)
Definition touches_fs (e : event) : bool :=
  match e with
  | EvMakedirs _ _ | EvOpenWrite _ _ => true
  | _ => false
  end.

(** What the recognition capability answers for a file under the
    arguments of the run. *)
Definition transcription (env : Env) (a : Args) (file_path : string)
  : string + Result env :=
  let d := if (device a =? "auto")%string
           then (if cuda_is_available env then "cuda" else "cpu")
           else device a in
  model_transcribe env (model a) d file_path (d =? "cuda")%string (language a).

Definition fails (env : Env) (a : Args) (file_path : string) : bool :=
  match transcription env a file_path with inl _ => true | inr _ => false end.

(** The event of handing a file to the recognition capability. *)
Definition attempt_event (env : Env) (a : Args) (file_path : string) : event :=
  let d := if (device a =? "auto")%string
           then (if cuda_is_available env then "cuda" else "cpu")
           else device a in
  EvTranscribe file_path (model a) d (d =? "cuda")%string (language a).

Definition is_makedirs (e : event) : bool :=
  match e with EvMakedirs _ _ => true | _ => false end.

(** Events of the output writer: file writes and messages. *)
Definition is_output (e : event) : bool :=
  match e with
  | EvOpenWrite _ _ | EvStdout _ | EvStderr _ => true
  | _ => false
  end.

(** [only p m]: whatever [m] does, it appends events of the class [p] to
    the trace, removes no directory, and lets nothing escape but an
    [Exception]. *)
Definition only (p : event -> bool) {A} (m : M A) : Prop :=
  forall w r w', m w = (r, w') ->
    (exists evs, trace w' = trace w ++ evs /\ forallb p evs = true)
    /\ (forall q, Fs.isdir q (fs w) = true -> Fs.isdir q (fs w') = true)
    /\ (forall e, r = Raise e -> is_Exception e = true).

(** [returns m]: no exception leaves [m]. *)
Definition returns {A} (m : M A) : Prop :=
  forall w, exists a w', m w = (Ok a, w').

(** A file name the locator keeps. *)
Definition wanted (exts : list string) (name : string) : bool :=
  Py.endswith_any (Py.lower name) exts.

(** What the locator takes from one triple of the walk. *)
Definition collect (exts : list string)
           (y : string * list string * list string) : list string :=
  let '(dirpath, _, filenames) := y in
  map (OsPath.join dirpath) (filter (wanted exts) filenames).

(** [total I m J]: from a file system that satisfies [I] the command [m]
    returns, and leaves one that satisfies [J]. *)
Definition total (I : Fs.sys -> Prop) {A} (m : M A) (J : Fs.sys -> Prop)
  : Prop :=
  forall w, I (fs w) ->
    exists x w', m w = (Ok x, w') /\ J (fs w').

(** A directory that holds regular files only. *)
Definition only_files (es : list (string * Fs.node)) : Prop :=
  Forall (fun e => exists content, snd e = Fs.File content) es.

(** A directory that holds only folders of regular files. *)
Definition only_folders (es : list (string * Fs.node)) : Prop :=
  Forall (fun e => exists sub, snd e = Fs.Dir sub /\ only_files sub) es.

(** The output root is there and holds nothing but folders of regular
    files. *)
Definition tidy_root (a : Args) (s : Fs.sys) : Prop :=
  exists eo, Fs.stat (out_dir a) s = Some (Fs.Dir eo) /\ only_folders eo.

(** The operating system lets the process make the output folders and
    the output files of [files] under the output root. *)
Definition may_write (a : Args) (files : list string) (s : Fs.sys) : Prop :=
  forall q0 f,
    Fs.place (out_dir a) s = Some q0 -> In f files ->
    Fs.permits s (q0 ++ [base_of f]) = true
    /\ forall k, In k supported ->
         Fs.permits s ((q0 ++ [base_of f])
                       ++ [(base_of f ++ "." ++ k)%string]) = true.

(** A tidy root that has the folder [b]. *)
Definition tidy_with (a : Args) (b : string) (s : Fs.sys) : Prop :=
  exists eo sub,
    Fs.stat (out_dir a) s = Some (Fs.Dir eo)
    /\ only_folders eo
    /\ Fs.get b eo = Some (Fs.Dir sub).

(** A base name that makes a folder of its own under the output root. *)
Definition proper_base (file_path : string) : Prop :=
  base_of file_path <> "" /\ base_of file_path <> "."
  /\ base_of file_path <> "..".

(** The diagnostic of the validation loop. *)
Definition unsupported_message (fmt : string) : string :=
  "Unsupported format: " ++ fmt ++ ". Supported: ['json', 'srt', 'txt', 'vtt']".

(** Some entry of the comma-separated list is not blank and does not
    normalise to a supported name. *)
Definition has_bad_entry (s : string) : Prop :=
  exists e, In e (Py.split "," s) /\ Py.strip e <> ""
            /\ ~ In (Py.lower (Py.strip e)) supported.

(** *** The format list in the words of the specification *)

(** White space: tab, line feed, vertical tab, form feed, carriage
    return, the four information separators, space, next line and
    no-break space. *)
Definition blanks : list ascii :=
  ["009"; "010"; "011"; "012"; "013"; "028"; "029"; "030"; "031"; " ";
   "133"; "160"]%char.

(** Nothing but white space. *)
Fixpoint blank (s : string) : Prop :=
  match s with
  | EmptyString => True
  | String c t => In c blanks /\ blank t
  end.

(** The capital of a small letter. *)
Definition capital (c : ascii) : ascii :=
  ascii_of_nat (nat_of_ascii c - 32).

(** [s] spells [name], in small letters and capitals mixed at will. *)
Fixpoint spells (s name : string) : Prop :=
  match s, name with
  | EmptyString, EmptyString => True
  | String c s', String d name' => (c = d \/ c = capital d) /\ spells s' name'
  | _, _ => False
  end.

(** The entry is a supported name, in any case, with white space around
    it or none. *)
Definition names_format (e : string) : Prop :=
  exists pre core post name,
    e = (pre ++ core ++ post)%string
    /\ blank pre /\ blank post /\ In name supported /\ spells core name.

Fixpoint comma_free (s : string) : Prop :=
  match s with
  | EmptyString => True
  | String c t => c <> ","%char /\ comma_free t
  end.

(** [es] are the entries of the comma-separated list [s]. *)
Definition entries_of (s : string) (es : list string) : Prop :=
  s = String.concat "," es /\ Forall comma_free es.


(** [s] ends with [suffix]. *)
Definition ends_with (s suffix : string) : Prop :=
  exists front, s = (front ++ suffix)%string.

(** [s] ends with [suffix] when the case of [s] is ignored: the lowercase
    of an end of [s] is [suffix]. *)
Definition ends_with_nocase (s suffix : string) : Prop :=
  exists front back, s = (front ++ back)%string /\ Py.lower back = suffix.

(** [file_under top n path name]: a regular file called [name] lies in the
    directory [n] or below it, and [path] is [top] joined with the names
    that lead to it. *)
Inductive file_under : string -> Fs.node -> string -> string -> Prop :=
| FileHere top es name content :
    In (name, Fs.File content) es ->
    file_under top (Fs.Dir es) (OsPath.join top name) name
| FileBelow top es d sub path name :
    In (d, sub) es ->
    file_under (OsPath.join top d) sub path name ->
    file_under top (Fs.Dir es) path name.

(** Every attempt in [evs] comes after a successful [makedirs] of the
    output folder of its file ([made] lists the folders made before). *)
Fixpoint folders_first (a : Args) (made : list string) (evs : list event)
  : Prop :=
  match evs with
  | [] => True
  | EvMakedirs p true :: rest => folders_first a (p :: made) rest
  | EvTranscribe f _ _ _ _ :: rest =>
      In (out_folder_of a f) made /\ folders_first a made rest
  | _ :: rest => folders_first a made rest
  end.

(** The output file of the format [k] for a file. *)
Definition output_path (a : Args) (file_path k : string) : string :=
  OsPath.join (out_folder_of a file_path) (base_of file_path ++ "." ++ k).

(** The text the script saves for a result:
    [result.get('text', '').strip()] *)
Definition transcript (env : Env) (result : Result env) : string :=
  Py.strip (match result_text env result with
            | Some t => t
            | None => ""
            end).

(** [steps R m]: every run of [m] takes a world to one that [R] relates
    to it. *)
Definition steps (R : world -> world -> Prop) {A} (m : M A) : Prop :=
  forall w r w', m w = (r, w') -> R w w'.

(** Events of [P], and no others, were added to the trace. *)
Definition emitted (P : event -> Prop) (w w' : world) : Prop :=
  exists evs, trace w' = trace w ++ evs /\ Forall P evs.

(** [emits P m]: every event [m] appends to the trace satisfies [P]. *)
Definition emits (P : event -> Prop) {A} (m : M A) : Prop :=
  steps (emitted P) m.

(** The process and the operating system are the same in both. *)
Definition same_process (s s' : Fs.sys) : Prop :=
  Fs.cwd s' = Fs.cwd s /\ Fs.permits s' = Fs.permits s.

(** Directories stay: what is a directory in [t] is one in [t']. *)
Definition dirs_stay (t t' : Fs.node) : Prop :=
  forall q es, Fs.lookup q t = Some (Fs.Dir es) ->
    exists es', Fs.lookup q t' = Some (Fs.Dir es').

(** Nothing was removed.  What was a directory is one afterwards; what
    was a regular file is one afterwards, with the content it had unless
    it was opened for writing in between. *)
Definition kept (w w' : world) : Prop :=
  exists evs,
    trace w' = trace w ++ evs
    /\ same_process (fs w) (fs w')
    /\ dirs_stay (Fs.tree (fs w)) (Fs.tree (fs w'))
    /\ (forall q c, Fs.lookup q (Fs.tree (fs w)) = Some (Fs.File c) ->
          exists c',
            Fs.lookup q (Fs.tree (fs w')) = Some (Fs.File c')
            /\ (c' = c
                \/ exists p, In (EvOpenWrite p true) evs
                             /\ Fs.place p (fs w') = Some q)).

(** No directory of [t'] holds a name twice, as far as none of [t]
    does. *)
Definition tidier (t t' : Fs.node) : Prop :=
  forall q es', Fs.lookup q t' = Some (Fs.Dir es') ->
    (forall es, Fs.lookup q t = Some (Fs.Dir es) -> NoDup (map fst es)) ->
    NoDup (map fst es').

(** The report of the loop that the outputs of a file are saved. *)
Definition saved_line (a : Args) (file_path : string) : event :=
  EvStdout ("Saved transcripts to: " ++ out_folder_of a file_path).

(** Events of the output writer before its report: file writes and
    messages on the error stream. *)
Definition is_quiet (e : event) : bool :=
  match e with
  | EvOpenWrite _ _ | EvStderr _ => true
  | _ => false
  end.

(** [reports d m]: [m] writes files and messages on the error stream,
    and then, unless an exception ends it, reports the folder [d]
    saved. *)
Definition reports (d : string) (m : M unit) : Prop :=
  forall w ro w3, m w = (ro, w3) ->
    exists outs,
      forallb is_quiet outs = true
      /\ trace w3
         = trace w ++ outs
           ++ match ro with
              | Ok _ => [EvStdout ("Saved transcripts to: " ++ d)]
              | Raise _ => []
              end.

(** What is new came from the calls in the trace.  The process and the
    directories stay; a regular file that was not there before was
    opened for writing, with success, through a path that names its
    place; a directory that was not there before is a place that the
    walk along the path of a [makedirs] call passes; and no directory
    comes to hold a name twice. *)
Definition grown (w w' : world) : Prop :=
  exists evs,
    trace w' = trace w ++ evs
    /\ same_process (fs w) (fs w')
    /\ dirs_stay (Fs.tree (fs w)) (Fs.tree (fs w'))
    /\ (forall q c, Fs.lookup q (Fs.tree (fs w')) = Some (Fs.File c) ->
          (exists c0, Fs.lookup q (Fs.tree (fs w)) = Some (Fs.File c0))
          \/ exists p, In (EvOpenWrite p true) evs
                       /\ Fs.place p (fs w') = Some q)
    /\ (forall q es', Fs.lookup q (Fs.tree (fs w')) = Some (Fs.Dir es') ->
          (exists es, Fs.lookup q (Fs.tree (fs w)) = Some (Fs.Dir es))
          \/ exists p ok cs rest,
               In (EvMakedirs p ok) evs /\ Fs.components p = cs ++ rest
               /\ Fs.locate (Fs.origin p (fs w')) cs (Fs.tree (fs w'))
                  = Some q)
    /\ tidier (Fs.tree (fs w)) (Fs.tree (fs w')).

(** Two paths that name one place. *)
Definition same_place (p q : string) (s : Fs.sys) : Prop :=
  exists at_, Fs.place p s = Some at_ /\ Fs.place q s = Some at_.

(** [keeps m]: [m] removes nothing. *)
Definition keeps {A} (m : M A) : Prop := steps kept m.

(** What the output step of a file may do. *)
Definition output_event (a : Args) (fmts : list string) (file_path : string)
           (e : event) : Prop :=
  match e with
  | EvStdout _ | EvStderr _ => True
  | EvOpenWrite p _ =>
      exists k, In k fmts /\ In k supported /\ p = output_path a file_path k
  | _ => False
  end.

(** What the loop over [files] may do. *)
Definition batch_event (env : Env) (a : Args) (fmts files : list string)
           (e : event) : Prop :=
  match e with
  | EvStdout _ | EvStderr _ => True
  | EvMakedirs p _ => exists f, In f files /\ p = out_folder_of a f
  | EvTranscribe f _ _ _ _ => In f files /\ e = attempt_event env a f
  | EvOpenWrite p _ =>
      exists f, In f files /\ fails env a f = false
                /\ output_event a fmts f e
  | EvScan _ | EvTraceback _ => False
  end.

(** What [main] may do. *)
Definition main_event (env : Env) (a : Args) (fmts files : list string)
           (e : event) : Prop :=
  match e with
  | EvScan root => root = input a
  | EvMakedirs p _ => p = out_dir a \/ batch_event env a fmts files e
  | _ => batch_event env a fmts files e
  end.

(** [stops Q m]: when an exception [e] leaves [m], the last event of the
    trace is some [ev] with [Q e ev]. *)
Definition stops (Q : exn -> event -> Prop) {A} (m : M A) : Prop :=
  forall w e w', m w = (Raise e, w') ->
    exists tr ev, trace w' = tr ++ [ev] /\ Q e ev.

(** A text or JSON write of [file_path] that failed. *)
Definition output_stop (a : Args) (fmts : list string) (file_path : string)
           (e : exn) (ev : event) : Prop :=
  exists k, (k = "txt" \/ k = "json") /\ In k fmts
            /\ e = OSError (output_path a file_path k)
            /\ ev = EvOpenWrite (output_path a file_path k) false.

(** What ends the loop over [files] with an exception: a folder that
    cannot be made, or a text or JSON file that cannot be written. *)
Definition batch_stop (env : Env) (a : Args) (fmts files : list string)
           (e : exn) (ev : event) : Prop :=
  (exists f, In f files /\ e = OSError (out_folder_of a f)
             /\ ev = EvMakedirs (out_folder_of a f) false)
  \/ (exists f, In f files /\ fails env a f = false
                /\ output_stop a fmts f e ev).

(** The lines printed on standard output, in order. *)
Fixpoint stdout (tr : list event) : list string :=
  match tr with
  | [] => []
  | EvStdout line :: rest => line :: stdout rest
  | _ :: rest => stdout rest
  end.

(** The progress report of a complete batch: a line for each file when
    its turn begins, and one for each file whose outputs were saved. *)
Definition progress (env : Env) (a : Args) (files : list string)
  : list string :=
  flat_map
    (fun f =>
       ("Transcribing: " ++ f)%string
       :: (if fails env a f then []
           else [("Saved transcripts to: " ++ out_folder_of a f)%string]))
    files.

(** An event that prints nothing on standard output. *)
Definition quiet (e : event) : Prop :=
  match e with EvStdout _ => False | _ => True end.

(** [reordered n n']: [n'] holds what [n] holds, with the entries of each
    directory in some other order. *)
#[warnings="-register-all"]
Inductive reordered : Fs.node -> Fs.node -> Prop :=
| ReorderedFile content content' :
    reordered (Fs.File content) (Fs.File content')
| ReorderedDir es es1 es' :
    Permutation es es1 ->
    Forall2 (fun e e' => fst e = fst e' /\ reordered (snd e) (snd e')) es1 es' ->
    reordered (Fs.Dir es) (Fs.Dir es').

(** A name as a directory lists it: not empty, not [.] or [..], without
    a slash. *)
Definition entry_name (s : string) : Prop :=
  s <> "" /\ s <> "." /\ s <> ".." /\ Py.has_char "/" s = false.

(** Every directory of the tree holds entry names, each of them once. *)
#[warnings="-register-all"]
Inductive well_named : Fs.node -> Prop :=
| WellNamedFile content : well_named (Fs.File content)
| WellNamedDir es :
    NoDup (map fst es) ->
    Forall (fun e => entry_name (fst e) /\ well_named (snd e)) es ->
    well_named (Fs.Dir es).

(** A node that is a regular file. *)
Definition regular (n : Fs.node) : bool :=
  match n with Fs.File _ => true | Fs.Dir _ => false end.

(** What the locator collects from what is found at a path. *)
Definition found (exts : list string) (top : string) (o : option Fs.node)
  : list string :=
  match o with
  | Some n => flat_map (collect exts) (Fs.walk_node top n)
  | None => []
  end.

(** [same_audio exts t t']: the tree [t'] holds the files of [t] and
    possibly more, none of the new ones under a name the locator keeps;
    so at every place the locator collects from both the same. *)
Definition same_audio (exts : list string) (t t' : Fs.node) : Prop :=
  forall q,
    (forall top, found exts top (Fs.lookup q t') = found exts top (Fs.lookup q t))
    /\ (forall c, Fs.lookup q t = Some (Fs.File c) ->
          exists c', Fs.lookup q t' = Some (Fs.File c'))
    /\ (forall c', Fs.lookup q t' = Some (Fs.File c') ->
          wanted exts (last q "") = true ->
          exists c, Fs.lookup q t = Some (Fs.File c)).

(** The file systems of two worlds hold the same audio files. *)
Definition audio_same (exts : list string) (w w' : world) : Prop :=
  same_process (fs w) (fs w')
  /\ dirs_stay (Fs.tree (fs w)) (Fs.tree (fs w'))
  /\ same_audio exts (Fs.tree (fs w)) (Fs.tree (fs w')).

(** The operating system does not let the process write at the place of
    [p]. *)
Definition refused (p : string) (s : Fs.sys) : Prop :=
  exists q, Fs.place p s = Some q /\ Fs.permits s q = false.

(** It lets the process write there. *)
Definition writable (p : string) (s : Fs.sys) : Prop :=
  exists q, Fs.place p s = Some q /\ Fs.permits s q = true.

(** The file at [p] holds [c], or a directory is in its place, or the
    process may not write there. *)
Definition settled (p c : string) (s : Fs.sys) : Prop :=
  Fs.read p s = Some c \/ Fs.isdir p s = true \/ refused p s.

(** [done_for env a fmts t f]: the tree [t] holds what the turn of the
    loop for [f] leaves.  The output folder is there; when the
    recognition capability accepts [f], the text and the JSON file that
    were asked for hold the transcript and the serialised result, and
    each caption file that was asked for and rendered is settled; when it
    refuses [f], fail-fast is off. *)
Definition done_for (env : Env) (a : Args) (fmts : list string)
           (t : Fs.sys) (f : string) : Prop :=
  Fs.isdir (out_folder_of a f) t = true
  /\ match transcription env a f with
     | inl _ => fail_on_error a = false
     | inr result =>
         (In "txt" fmts ->
          Fs.read (output_path a f "txt") t = Some (transcript env result)
          /\ writable (output_path a f "txt") t)
         /\ (In "json" fmts ->
             Fs.read (output_path a f "json") t
             = Some (json_dumps env result)
             /\ writable (output_path a f "json") t)
         /\ (forall k written failure,
               k = "srt" \/ k = "vtt" -> In k fmts ->
               render_captions env k result = inr (written, failure) ->
               settled (output_path a f k) written t)
     end.

(* ================================================================== *)
(** ** A small world to run the script in *)

Module Demo.

(** A recognition capability that fails on files called [bad.mp3], and
    an SRT writer that always fails. *)
Definition env : Env := {|
  Result := string;
  result_text := fun r => Some r;
  json_dumps := fun r => ("{ text: " ++ r ++ " }")%string;
  cuda_is_available := false;
  model_transcribe := fun _ _ f _ _ =>
    if Py.endswith f "bad.mp3" then inl "corrupt file"
    else inr ("  words of " ++ f ++ " ")%string;
  render_captions := fun kind r =>
    if (kind =? "srt")%string then inl "no segments"
    else inr ("WEBVTT", None);
  oserror_text := fun p => ("[Errno 21] Is a directory: '" ++ p ++ "'")%string
|}.

(** A file system whose root is the working directory, and where the
    operating system permits everything. *)
Definition at_root (n : Fs.node) : Fs.sys := Fs.mkSys n [] (fun _ => true).

Definition tree : Fs.sys :=
  at_root
    (Fs.Dir [("in", Fs.Dir [("b.MP3", Fs.File "");
                            ("bad.mp3", Fs.File "");
                            ("notes.txt", Fs.File "");
                            ("sub", Fs.Dir [("a.wav", Fs.File "")])])]).

Definition w0 : world := mkWorld tree [].

(** The output root exists and holds a directory where the transcript
    of [b.MP3] belongs. *)
Definition blocked_tree : Fs.sys :=
  at_root
    (Fs.Dir [("in", Fs.Dir [("b.MP3", Fs.File ""); ("c.mp3", Fs.File "")]);
             ("out", Fs.Dir [("b", Fs.Dir [("b.txt", Fs.Dir [])])])]).

Definition blocked : world := mkWorld blocked_tree [].

(** The output root exists and is empty. *)
Definition ready : world :=
  mkWorld (at_root (Fs.Dir [("in", Fs.Dir [("b.MP3", Fs.File "")]);
                            ("out", Fs.Dir [])])) [].

(** The output folder of [b.MP3] holds a file of an earlier run. *)
Definition stale : world :=
  mkWorld
    (at_root
       (Fs.Dir [("in", Fs.Dir [("b.MP3", Fs.File "")]);
                ("out", Fs.Dir [("b", Fs.Dir [("old.srt", Fs.File "1")])])]))
    [].

Definition args (fmts : string) (fail_fast : bool) : Args :=
  mkArgs "in" "out" "medium" "auto" None fmts fail_fast.

(** Two audio files with one base name. *)
Definition twins : world :=
  mkWorld (at_root (Fs.Dir [("in", Fs.Dir [("a.mp3", Fs.File "");
                                           ("a.wav", Fs.File "")])])) [].

(** The operating system refuses to make anything at the place
    [refused]. *)
Definition refusing (refused : list string) : world :=
  mkWorld
    (Fs.mkSys (Fs.Dir [("in", Fs.Dir [("b.MP3", Fs.File "")])]) []
       (fun q => if list_eq_dec string_dec q refused then false else true))
    [].

(** The text of [b.MP3] is there from an earlier run. *)
Definition rerun : world :=
  mkWorld
    (at_root
       (Fs.Dir [("in", Fs.Dir [("b.MP3", Fs.File "")]);
                ("out", Fs.Dir [("b", Fs.Dir [("b.txt", Fs.File "old")])])]))
    [].

(** A tree that is no file system: a directory holds an entry called
    [..]. *)
Definition misnamed : Fs.sys :=
  at_root (Fs.Dir [("in", Fs.Dir [("..", Fs.Dir [("x.mp3", Fs.File "")])])]).

(** The output root is given as [o/b/c/../..]: the directory [o], where
    [o/b] holds a file of an earlier run and [o/b/c] is missing. *)
Definition roundabout : world :=
  mkWorld
    (at_root
       (Fs.Dir [("in", Fs.Dir [("b.MP3", Fs.File "")]);
                ("o", Fs.Dir [("b", Fs.Dir [("old.srt", Fs.File "1")])])]))
    [].

Definition args_to (out fmts : string) : Args :=
  mkArgs "in" out "medium" "auto" None fmts false.

(** [tree] with the entries of its directories in another order. *)
Definition shuffled : Fs.sys :=
  at_root
    (Fs.Dir [("in", Fs.Dir [("sub", Fs.Dir [("a.wav", Fs.File "")]);
                            ("notes.txt", Fs.File "");
                            ("bad.mp3", Fs.File "");
                            ("b.MP3", Fs.File "")])]).

End Demo.

(* ================================================================== *)
(** * Properties *)

(** ** Strings *)

Module PyFacts.

Lemma insert_sorted_perm x xs :
  Permutation (Py.insert_sorted x xs) (x :: xs).
Proof.
  induction xs as [|y ys IH]; simpl.
  - apply Permutation_refl.
  - destruct (String.leb x y).
    + apply Permutation_refl.
    + apply perm_trans with (y :: x :: ys).
      * now apply perm_skip.
      * apply perm_swap.
Qed.

Lemma sorted_perm xs : Permutation (Py.sorted xs) xs.
Proof.
  induction xs as [|x xs IH]; simpl.
  - apply perm_nil.
  - apply perm_trans with (x :: Py.sorted xs).
    + apply insert_sorted_perm.
    + now apply perm_skip.
Qed.

Lemma sorted_In xs p : In p (Py.sorted xs) <-> In p xs.
Proof.
  split; apply Permutation_in.
  - apply sorted_perm.
  - apply Permutation_sym, sorted_perm.
Qed.




Lemma endswith_spec s suffix :
  Py.endswith s suffix = true <-> ends_with s suffix.
Proof.
  split.
  - induction s as [|c t IH]; cbn [Py.endswith]; intros H.
    + rewrite orb_false_r in H. apply String.eqb_eq in H. subst.
      now exists "".
    + apply orb_true_iff in H. destruct H as [H|H].
      * apply String.eqb_eq in H. exists "". now rewrite H.
      * destruct (IH H) as [front ->]. now exists (String c front).
  - intros [front ->]. induction front as [|c f IH].
    + change ("" ++ suffix)%string with suffix.
      destruct suffix; cbn [Py.endswith]; now rewrite String.eqb_refl.
    + change (String c f ++ suffix)%string with (String c (f ++ suffix)).
      cbn [Py.endswith]. rewrite IH. apply orb_true_r.
Qed.

Lemma lower_app a b : Py.lower (a ++ b) = (Py.lower a ++ Py.lower b)%string.
Proof.
  induction a as [|c a IH]; cbn [String.append Py.lower]; trivial.
  now rewrite IH.
Qed.

(** Lowercasing works character by character, so an end of the lowercase
    is the lowercase of an end. *)
Lemma ends_with_lower s suffix :
  ends_with (Py.lower s) suffix <-> ends_with_nocase s suffix.
Proof.
  split.
  - intros [front E]. revert s E.
    induction front as [|c front IH]; intros s E.
    + exists "", s. split; trivial.
    + destruct s as [|a s]; [discriminate|].
      cbn [Py.lower String.append] in E. injection E as _ E.
      destruct (IH s E) as [f [b [-> Hb]]].
      exists (String a f), b. split; trivial.
  - intros [front [back [-> <-]]]. exists (Py.lower front). apply lower_app.
Qed.

Lemma endswith_any_spec s suffixes :
  Py.endswith_any s suffixes = true
  <-> exists e, In e suffixes /\ ends_with s e.
Proof.
  unfold Py.endswith_any. rewrite existsb_exists.
  split; intros [e [Hin H]]; exists e; split; trivial;
    now apply endswith_spec.
Qed.

Lemma contains_spec xs x : Py.contains xs x = true <-> In x xs.
Proof.
  unfold Py.contains. rewrite existsb_exists. split.
  - intros [y [Hin H]]. apply String.eqb_eq in H. now subst.
  - intros H. exists x. split; trivial. apply String.eqb_refl.
Qed.

End PyFacts.

(** ** The entries of a format list *)

Module EntryFacts.

Lemma isspace_blanks c : Py.isspace c = true <-> In c blanks.
Proof.
  split.
  - destruct c as [[] [] [] [] [] [] [] []]; vm_compute; intros H;
      try discriminate H; tauto.
  - intros H. repeat (destruct H as [<-|H]; [reflexivity|]). destruct H.
Qed.

Lemma lstrip_parts s :
  exists pre, s = (pre ++ Py.lstrip s)%string /\ blank pre.
Proof.
  induction s as [|c t [pre [E B]]]; [now exists ""|].
  cbn [Py.lstrip]. destruct (Py.isspace c) eqn:S.
  - exists (String c pre). cbn. split; [now rewrite <- E|].
    split; trivial. now apply isspace_blanks.
  - now exists "".
Qed.

Lemma rstrip_parts s :
  exists post, s = (Py.rstrip s ++ post)%string /\ blank post.
Proof.
  induction s as [|c t [post [E B]]]; [now exists ""|].
  cbn [Py.rstrip]. destruct (Py.rstrip t) as [|d t'] eqn:R.
  - destruct (Py.isspace c) eqn:S.
    + exists (String c post). cbn in *. split; [congruence|].
      split; trivial. now apply isspace_blanks.
    + exists post. cbn in *. split; [congruence | trivial].
  - exists post. cbn in *. split; [congruence | trivial].
Qed.

Lemma lstrip_blank pre s : blank pre -> Py.lstrip (pre ++ s) = Py.lstrip s.
Proof.
  induction pre as [|c pre IH]; [trivial|]. intros [C B]. cbn.
  apply isspace_blanks in C. now rewrite C, IH.
Qed.

Lemma rstrip_all_blank post : blank post -> Py.rstrip post = "".
Proof.
  induction post as [|c post IH]; [trivial|]. intros [C B]. cbn.
  apply isspace_blanks in C. now rewrite (IH B), C.
Qed.

Lemma rstrip_blank s post :
  blank post -> Py.rstrip (s ++ post) = Py.rstrip s.
Proof.
  intros B. induction s as [|c s IH]; cbn; [now apply rstrip_all_blank|].
  now rewrite IH.
Qed.

Lemma strip_blank e : Py.strip e = "" <-> blank e.
Proof.
  unfold Py.strip. split.
  - intros E. destruct (lstrip_parts e) as [pre [E1 B1]].
    destruct (rstrip_parts (Py.lstrip e)) as [post [E2 B2]].
    rewrite E in E2. cbn in E2. rewrite E2 in E1. rewrite E1.
    clear - B1 B2. induction pre as [|c pre IH]; [exact B2|].
    destruct B1 as [C B]. cbn. auto.
  - intros B. assert (E : Py.lstrip e = "").
    { induction e as [|c e IH]; [trivial|]. destruct B as [C B]. cbn.
      apply isspace_blanks in C. rewrite C. auto. }
    now rewrite E.
Qed.

(** A character is the small letter it lowers to, or its capital. *)
Lemma lower_char_cases c :
  c = Py.lower_char c \/ c = capital (Py.lower_char c).
Proof.
  destruct c as [[] [] [] [] [] [] [] []]; vm_compute; auto.
Qed.

Lemma spells_lower s : spells s (Py.lower s).
Proof.
  induction s as [|c s IH]; cbn; trivial. split; trivial.
  apply lower_char_cases.
Qed.

Ltac spell core :=
  let c := fresh "c" in
  destruct core as [|c core]; cbn [spells];
  lazymatch goal with
  | |- False -> _ => intros []
  | |- True -> _ => intros _
  | |- _ /\ _ -> _ =>
      let H := fresh "H" in
      intros [[->| ->] H]; revert H; spell core
  end.

(** What spells a supported name is that name in lower case, and begins
    and ends with a letter. *)
Lemma spells_supported core name :
  In name supported -> spells core name ->
  Py.lower core = name /\ Py.lstrip core = core /\ Py.rstrip core = core
  /\ core <> "".
Proof.
  intros Hin. unfold supported in Hin.
  repeat (destruct Hin as [<-|Hin]); [..|destruct Hin];
    spell core; repeat split; try reflexivity; discriminate.
Qed.

Lemma names_format_spec e :
  names_format e
  <-> Py.strip e <> "" /\ In (Py.lower (Py.strip e)) supported.
Proof.
  split.
  - intros [pre [core [post [name [-> [B1 [B2 [Hin S]]]]]]]].
    destruct (spells_supported core name Hin S) as [L [Ls [Rs Ne]]].
    assert (E : Py.strip (pre ++ core ++ post) = core).
    { unfold Py.strip. rewrite (lstrip_blank _ _ B1).
      destruct core as [|c core]; [now elim Ne|].
      cbn [Py.lstrip String.append] in Ls |- *.
      destruct (Py.isspace c) eqn:Sp.
      - exfalso. clear - Ls. 
        assert (Hl : forall s, String.length (Py.lstrip s) <= String.length s).
        { induction s as [|a s IH]; cbn; [lia|].
          destruct (Py.isspace a); cbn; lia. }
        specialize (Hl core). rewrite Ls in Hl. cbn in Hl. lia.
      - change (String c (core ++ post)) with (String c core ++ post)%string.
        now rewrite (rstrip_blank _ _ B2). }
    rewrite E, L. now split.
  - intros [Ne Hin]. unfold Py.strip in *.
    destruct (lstrip_parts e) as [pre [E1 B1]].
    destruct (rstrip_parts (Py.lstrip e)) as [post [E2 B2]].
    exists pre, (Py.rstrip (Py.lstrip e)), post, (Py.lower (Py.rstrip (Py.lstrip e))).
    repeat split; trivial; [now rewrite <- E2 | apply spells_lower].
Qed.

(** Splitting at commas gives the entries back. *)
Lemma split_comma_free e : comma_free e -> Py.split "," e = [e].
Proof.
  induction e as [|c e IH]; [trivial|]. intros [C F]. cbn [Py.split].
  destruct (Ascii.eqb_spec c ","); [contradiction|]. now rewrite (IH F).
Qed.

Lemma split_entry e rest :
  comma_free e ->
  Py.split "," (e ++ "," ++ rest) = e :: Py.split "," rest.
Proof.
  induction e as [|c e IH]; [trivial|]. intros [C F].
  specialize (IH F). cbn [Py.split String.append] in IH |- *.
  destruct (Ascii.eqb_spec c ","); [contradiction|]. now rewrite IH.
Qed.

Lemma split_concat es :
  Forall comma_free es -> es <> [] ->
  Py.split "," (String.concat "," es) = es.
Proof.
  induction 1 as [|e es He Hes IH]; intros Hne; [now elim Hne|].
  destruct es as [|e' es'].
  - now apply split_comma_free.
  - change (String.concat "," (e :: e' :: es'))
      with (e ++ "," ++ String.concat "," (e' :: es'))%string.
    rewrite (split_entry _ _ He), IH; [trivial | discriminate].
Qed.

Lemma split_entries s : entries_of s (Py.split "," s).
Proof.
  induction s as [|c s [E F]]; [split; [trivial | now repeat constructor]|].
  cbn [Py.split]. destruct (Ascii.eqb_spec c ",") as [->|C].
  - split; [|now constructor].
    destruct (Py.split "," s) as [|h r] eqn:S; [|cbn in *; congruence].
    destruct s as [|a s]; [discriminate S|]. cbn [Py.split] in S.
    destruct (Ascii.eqb a ","); [discriminate S|].
    destruct (Py.split "," s); discriminate S.
  - destruct (Py.split "," s) as [|h r] eqn:S.
    + cbn in E. subst s. split; [trivial | now repeat constructor].
    + inversion F as [|? ? Fh Fr]; subst. split.
      * destruct r; cbn in *; congruence.
      * constructor; [now split | trivial].
Qed.

(** The entries of a list are what the split gives, but for the empty
    list of entries. *)
Lemma entries_split s es :
  entries_of s es ->
  forall e, In e (Py.split "," s) <-> In e es \/ (es = [] /\ e = "").
Proof.
  intros [-> F] e. destruct es as [|e0 es].
  - cbn. split; [intros [<-|[]]; now right | intros [[]|[_ ->]]; now left].
  - rewrite (split_concat _ F); [|discriminate].
    split; [now left | intros [H|[[=] _]]; exact H].
Qed.

Lemma blank_decide e : blank e \/ ~ blank e.
Proof.
  destruct (string_dec (Py.strip e) "") as [E|E].
  - left. now apply strip_blank.
  - right. intros B. now apply E, strip_blank.
Qed.

Lemma names_format_decide e : names_format e \/ ~ names_format e.
Proof.
  destruct (string_dec (Py.strip e) "") as [E|E].
  - right. intros N. now apply names_format_spec in N.
  - destruct (in_dec string_dec (Py.lower (Py.strip e)) supported) as [H|H].
    + left. now apply names_format_spec.
    + right. intros N. now apply names_format_spec in N.
Qed.

(** The entries the validation loop stops at. *)
Lemma bad_entries s es :
  entries_of s es ->
  has_bad_entry s
  <-> exists e, In e es /\ ~ blank e /\ ~ names_format e.
Proof.
  intros Hes. unfold has_bad_entry. split.
  - intros [e [Hin [Hne Hbad]]].
    apply (entries_split _ _ Hes) in Hin.
    destruct Hin as [Hin|[_ ->]]; [|now elim Hne].
    exists e. split; trivial. split.
    + intros B. now apply Hne, strip_blank.
    + intros N. now apply names_format_spec in N.
  - intros [e [Hin [Hb Hn]]]. exists e.
    split; [apply (entries_split _ _ Hes); now left|].
    assert (Hne : Py.strip e <> "").
    { intros E. now apply Hb, strip_blank. }
    split; trivial. intros H. apply Hn. now apply names_format_spec.
Qed.

End EntryFacts.

(** ** Paths *)

Module PathFacts.

Lemma append_assoc (a b c : string) :
  ((a ++ b) ++ c = a ++ (b ++ c))%string.
Proof. induction a as [|x a IH]; cbn; [reflexivity | now rewrite IH]. Qed.

Lemma split_nonempty c s : Py.split c s <> [].
Proof.
  destruct s as [|a t]; simpl; [discriminate|].
  destruct (Ascii.eqb a c); [discriminate|].
  destruct (Py.split c t); discriminate.
Qed.

(** Splitting distributes over a separator. *)
Lemma split_sep c a b :
  Py.split c (a ++ String c b) = Py.split c a ++ Py.split c b.
Proof.
  induction a as [|x a IH]; cbn [String.append Py.split].
  - now rewrite Ascii.eqb_refl.
  - destruct (Ascii.eqb x c); rewrite IH; [reflexivity|].
    pose proof (split_nonempty c a) as Hne.
    destruct (Py.split c a); [contradiction | reflexivity].
Qed.

Lemma split_plain c s : Py.has_char c s = false -> Py.split c s = [s].
Proof.
  induction s as [|a t IH]; cbn [Py.has_char Py.split]; trivial.
  intros H. apply orb_false_iff in H. destruct H as [-> H].
  now rewrite (IH H).
Qed.

Lemma has_char_app c a b :
  Py.has_char c (a ++ b) = Py.has_char c a || Py.has_char c b.
Proof.
  induction a as [|x a IH]; cbn [String.append Py.has_char]; trivial.
  now rewrite IH, orb_assoc.
Qed.

Lemma has_char_take c n : forall s,
  Py.has_char c s = false -> Py.has_char c (Py.take n s) = false.
Proof.
  induction n as [|n IH]; intros [|a t]; cbn [Py.take Py.has_char]; trivial.
  intros H. apply orb_false_iff in H. destruct H as [-> H]. now apply IH.
Qed.

Lemma rfind_range c s : (-1 <= Py.rfind c s)%Z.
Proof.
  induction s as [|a t IH]; cbn [Py.rfind]; [lia|].
  destruct (Z.leb_spec 0 (Py.rfind c t)); [lia|].
  destruct (Ascii.eqb a c); lia.
Qed.

Lemma rfind_none c s : (Py.rfind c s < 0)%Z -> Py.has_char c s = false.
Proof.
  induction s as [|a t IH]; cbn [Py.rfind Py.has_char]; trivial.
  destruct (Z.leb_spec 0 (Py.rfind c t)); [lia|].
  destruct (Ascii.eqb a c); [lia|]. intros _. now apply IH.
Qed.

(** A base name holds no slash. *)
Lemma basename_plain p : Py.has_char "/" (OsPath.basename p) = false.
Proof.
  unfold OsPath.basename, Py.slice_from.
  induction p as [|a t IH]; trivial.
  cbn [Py.rfind]. pose proof (rfind_range "/" t) as R.
  destruct (Z.leb_spec 0 (Py.rfind "/" t)) as [Hr|Hr].
  - replace (Z.to_nat (Py.rfind "/" t + 1 + 1))
      with (S (Z.to_nat (Py.rfind "/" t + 1))) by lia.
    exact IH.
  - destruct (Ascii.eqb a "/") eqn:E.
    + change (Py.has_char "/" t = false). apply rfind_none. lia.
    + change (Py.has_char "/" (String a t) = false).
      cbn [Py.has_char]. rewrite E. apply rfind_none. lia.
Qed.

Lemma splitext_plain p :
  Py.has_char "/" p = false ->
  Py.has_char "/" (fst (OsPath.splitext p)) = false.
Proof.
  intros H. unfold OsPath.splitext.
  destruct (_ <? _)%Z; trivial.
  destruct (OsPath.only_dots _); trivial.
  now apply has_char_take.
Qed.

Lemma base_of_plain f : Py.has_char "/" (base_of f) = false.
Proof. apply splitext_plain, basename_plain. Qed.

(** A name with a suffix of at least two characters is a proper
    component. *)
Lemma suffixed_proper base x y rest :
  let name := (base ++ String x (String y rest))%string in
  name <> "" /\ name <> ".".
Proof.
  destruct base as [|a [|b t]]; cbn; split; discriminate.
Qed.

Lemma txt_json_differ base : (base ++ ".txt" =? base ++ ".json")%string = false.
Proof.
  apply String.eqb_neq. induction base as [|a t IH]; cbn.
  - discriminate.
  - intros [= E]. now apply IH.
Qed.

Lemma components_plain b :
  Py.has_char "/" b = false ->
  Fs.components b
  = if ((b =? "") || (b =? "."))%string then [] else [b].
Proof.
  intros H. unfold Fs.components. rewrite (split_plain _ _ H). cbn.
  now destruct (_ || _).
Qed.

Lemma startswith_slash b :
  Py.has_char "/" b = false -> Py.startswith b "/" = false.
Proof.
  destruct b as [|a t]; trivial. cbn.
  intros H. apply orb_false_iff in H. destruct H as [H _].
  destruct a as [[] [] [] [] [] [] [] []]; try reflexivity; discriminate.
Qed.

(** Joining a directory and a plain name: the name is cut off after a
    slash. *)
Lemma join_plain d b :
  Py.has_char "/" b = false ->
  exists d', OsPath.join d b = (d' ++ String "/" b)%string
             /\ Fs.components d' = Fs.components d
             \/ d = "" /\ OsPath.join d b = b.
Proof.
  intros H. unfold OsPath.join. rewrite (startswith_slash _ H).
  unfold Py.truthy. destruct (String.eqb_spec d "") as [->|Hd]; cbn [negb orb].
  - exists "". now right.
  - destruct (Py.endswith d "/") eqn:E.
    + apply PyFacts.endswith_spec in E. destruct E as [d' ->].
      exists d'. left. split.
      * now rewrite append_assoc.
      * unfold Fs.components. rewrite split_sep, filter_app. cbn.
        now rewrite app_nil_r.
    + exists d. now left.
Qed.

Lemma components_join d b :
  Py.has_char "/" b = false ->
  Fs.components (OsPath.join d b) = Fs.components d ++ Fs.components b.
Proof.
  intros H. destruct (join_plain d b H) as [d' [[-> E]|[-> ->]]].
  - unfold Fs.components at 1. rewrite split_sep, filter_app.
    fold (Fs.components d') (Fs.components b). now rewrite E.
  - reflexivity.
Qed.

Lemma last_app_single {A} (l : list A) x y : last (l ++ [x]) y = x.
Proof.
  induction l as [|a l IH]; trivial.
  cbn [app]. destruct (l ++ [x]) eqn:E; [destruct l; discriminate|].
  exact IH.
Qed.

Lemma names_directory_join d b :
  Py.has_char "/" b = false ->
  Fs.names_directory (OsPath.join d b) = ((b =? "") || (b =? "."))%string.
Proof.
  intros H. unfold Fs.names_directory.
  destruct (join_plain d b H) as [d' [[-> _]|[_ ->]]].
  - rewrite split_sep, (split_plain _ _ H). now rewrite last_app_single.
  - now rewrite (split_plain _ _ H).
Qed.

Lemma join_nonempty d b : d <> "" \/ b <> "" -> OsPath.join d b <> "".
Proof.
  unfold OsPath.join. intros H.
  destruct (Py.startswith b "/") eqn:S.
  - destruct b; [discriminate S | discriminate].
  - destruct (_ || _).
    + destruct d; [|discriminate]. destruct b; [|discriminate].
      destruct H as [H|H]; now elim H.
    + destruct d; discriminate.
Qed.

End PathFacts.

(** ** The file system *)

Module FsFacts.
Import Fs.

Lemma get_put_same c n es : get c (put c n es) = Some n.
Proof.
  induction es as [|[k m] rest IH]; simpl.
  - now rewrite String.eqb_refl.
  - destruct (String.eqb k c) eqn:E; simpl; now rewrite E.
Qed.

Lemma get_put_other c c' n es :
  c <> c' -> get c' (put c n es) = get c' es.
Proof.
  intros Hne. induction es as [|[k m] rest IH]; simpl.
  - destruct (String.eqb_spec c c'); [contradiction | reflexivity].
  - destruct (String.eqb_spec k c) as [->|Hk]; simpl.
    + destruct (String.eqb_spec c c'); [contradiction | reflexivity].
    + destruct (String.eqb k c'); [reflexivity | exact IH].
Qed.

Lemma put_get_id c n es : get c es = Some n -> put c n es = es.
Proof.
  induction es as [|[k m] rest IH]; simpl; [discriminate|].
  destruct (String.eqb k c).
  - now intros [= ->].
  - intros H. now rewrite IH.
Qed.

(** A directory that is there is left alone. *)
Lemma mkdir_p_idem cs : forall t es,
  lookup cs t = Some (Dir es) -> mkdir_p cs t = Some t.
Proof.
  induction cs as [|c rest IH]; intros t es H.
  - simpl in H. injection H as ->. reflexivity.
  - destruct t as [s|es0]; simpl in *; [discriminate|].
    destruct (get c es0) as [child|] eqn:G; [|discriminate].
    rewrite (IH _ _ H). now rewrite (put_get_id _ _ _ G).
Qed.

(** After [mkdir_p] the directory is there. *)
Lemma mkdir_p_lookup cs : forall t t',
  mkdir_p cs t = Some t' ->
  lookup cs t' =
    Some (match lookup cs t with Some n => n | None => Dir [] end)
  /\ exists es, lookup cs t' = Some (Dir es).
Proof.
  assert (fresh : forall cs, exists n,
             mkdir_p cs (Dir []) = Some n /\ lookup cs n = Some (Dir [])).
  { induction cs0 as [|c rest IH]; simpl.
    - now exists (Dir []).
    - destruct IH as [n [-> Hn]]. eexists. split; [reflexivity|].
      simpl. now rewrite String.eqb_refl. }
  induction cs as [|c rest IH]; intros t t' H.
  - destruct t; simpl in *; [discriminate|]. injection H as <-. eauto.
  - destruct t as [s|es0]; simpl in H |- *; [discriminate|].
    destruct (get c es0) as [child|] eqn:G.
    + destruct (mkdir_p rest child) as [child'|] eqn:E; [|discriminate].
      injection H as <-. simpl. rewrite get_put_same.
      exact (IH _ _ E).
    + destruct (fresh rest) as [n [E Hn]]. rewrite E in H.
      injection H as <-. simpl. rewrite get_put_same. rewrite Hn. eauto.
Qed.

(** [mkdir_p] removes no directory. *)
Lemma mkdir_p_keeps cs : forall q t t' es,
  lookup q t = Some (Dir es) -> mkdir_p cs t = Some t' ->
  exists es', lookup q t' = Some (Dir es').
Proof.
  induction cs as [|c rest IH]; intros q t t' es Hq H.
  - destruct t; simpl in H; [discriminate|]. injection H as <-. eauto.
  - destruct t as [s|es0]; simpl in H; [discriminate|].
    destruct (mkdir_p rest _) as [child'|] eqn:E; [|discriminate].
    injection H as <-.
    destruct q as [|c0 q']; simpl; [eauto|].
    simpl in Hq.
    destruct (String.eqb_spec c c0) as [<-|Hne].
    + rewrite get_put_same.
      destruct (get c es0) as [child|] eqn:G; [|discriminate].
      exact (IH _ _ _ _ Hq E).
    + rewrite (get_put_other _ _ _ _ Hne).
      destruct (get c0 es0); [eauto | discriminate].
Qed.

Lemma store_shape c rest s es t' :
  store (c :: rest) s (Dir es) = Some t' ->
  exists n', t' = Dir (put c n' es).
Proof.
  simpl. destruct rest as [|c1 rest'].
  - destruct (get c es) as [[s0|es0]|]; intros [= <-]; eauto.
  - destruct (get c es) as [child|]; [|discriminate].
    destruct (store (c1 :: rest') s child); intros [= <-]; eauto.
Qed.

(** Writing a file removes no directory. *)
Lemma store_keeps cs : forall q s t t' es,
  lookup q t = Some (Dir es) -> store cs s t = Some t' ->
  exists es', lookup q t' = Some (Dir es').
Proof.
  induction cs as [|c rest IH]; intros q s t t' es Hq H.
  - discriminate.
  - destruct t as [s0|es0]; [destruct rest; discriminate|].
    destruct q as [|c0 q'].
    { destruct (store_shape _ _ _ _ _ H) as [n' ->]. simpl. eauto. }
    simpl in H, Hq.
    destruct (get c0 es0) as [ch0|] eqn:G0; [|discriminate].
    destruct (String.eqb_spec c c0) as [<-|Hne].
    + rewrite G0 in H. destruct rest as [|c1 rest'].
      * destruct ch0 as [s1|es1]; [|discriminate].
        destruct q'; simpl in Hq; discriminate.
      * destruct (store (c1 :: rest') s ch0) as [child'|] eqn:E;
          [|discriminate].
        injection H as <-. simpl. rewrite get_put_same.
        exact (IH _ _ _ _ _ Hq E).
    + destruct (store_shape _ _ _ _ _ H) as [n' ->].
      simpl. rewrite (get_put_other _ _ _ _ Hne), G0. eauto.
Qed.

Lemma lookup_app p : forall q t,
  lookup (p ++ q) t
  = match lookup p t with Some n => lookup q n | None => None end.
Proof.
  induction p as [|c p IH]; intros q t; cbn [app lookup]; trivial.
  destruct t as [s|es]; trivial.
  destruct (get c es); trivial.
Qed.

(** What is above something is a directory. *)
Lemma lookup_parent q c t n :
  lookup (q ++ [c]) t = Some n -> exists es, lookup q t = Some (Dir es).
Proof.
  rewrite lookup_app. destruct (lookup q t) as [[s|es]|]; try discriminate.
  eauto.
Qed.

Lemma lookup_removelast q t es :
  lookup q t = Some (Dir es) ->
  exists es', lookup (removelast q) t = Some (Dir es').
Proof.
  destruct q as [|c q'] using rev_ind; [eauto|].
  rewrite removelast_last. apply lookup_parent.
Qed.

(** ** Places *)

Lemma locate_app cs1 : forall here cs2 t,
  locate here (cs1 ++ cs2) t
  = match locate here cs1 t with
    | Some h => locate h cs2 t
    | None => None
    end.
Proof.
  induction cs1 as [|c cs1 IH]; intros here cs2 t; cbn [app locate]; trivial.
  destruct (c =? "..")%string; [|apply IH].
  destruct (lookup here t) as [[s|es]|]; trivial.
Qed.

Lemma locate_name here c t :
  c <> ".." -> locate here [c] t = Some (here ++ [c]).
Proof.
  intros H. cbn [locate]. now destruct (String.eqb_spec c "..").
Qed.

(** A walk that goes through in a tree goes through, to the same place,
    in a tree that has its directories. *)
Lemma locate_stable t t' :
  dirs_stay t t' ->
  forall cs here q, locate here cs t = Some q -> locate here cs t' = Some q.
Proof.
  intros D. induction cs as [|c cs IH]; intros here q; cbn [locate]; trivial.
  destruct (c =? "..")%string; [|apply IH].
  destruct (lookup here t) as [[s|es]|] eqn:L; try discriminate.
  destruct (D _ _ L) as [es' ->]. apply IH.
Qed.

(** A walk that ends in a directory began in one. *)
Lemma locate_start cs : forall here t q es,
  locate here cs t = Some q -> lookup q t = Some (Dir es) ->
  exists es', lookup here t = Some (Dir es').
Proof.
  induction cs as [|c cs IH]; intros here t q es; cbn [locate].
  - intros [= ->]. eauto.
  - destruct (c =? "..")%string.
    + destruct (lookup here t) as [[s|es0]|]; try discriminate. eauto.
    + intros H L. destruct (IH _ _ _ _ H L) as [es' L'].
      exact (lookup_parent _ _ _ _ L').
Qed.

(** A walk that ends at a regular file ends with its name. *)
Lemma locate_file_last cs here t q c :
  cs <> [] -> locate here cs t = Some q -> lookup q t = Some (File c) ->
  last q "" = last cs "".
Proof.
  intros Hne H L. destruct (exists_last Hne) as [cs' [x ->]].
  rewrite locate_app in H.
  destruct (locate here cs' t) as [h|]; [|discriminate].
  rewrite last_last. cbn [locate] in H.
  destruct (x =? "..")%string.
  - destruct (lookup h t) as [[s|es]|] eqn:Lh; try discriminate.
    injection H as <-. destruct (lookup_removelast _ _ _ Lh) as [es' E].
    congruence.
  - injection H as <-. apply last_last.
Qed.

(** A walk that ends at a regular file ends below the root. *)
Lemma locate_file_below cs here t q c :
  cs <> [] -> locate here cs t = Some q -> lookup q t = Some (File c) ->
  q <> [].
Proof.
  intros Hne H L. destruct (exists_last Hne) as [cs' [x ->]].
  rewrite locate_app in H.
  destruct (locate here cs' t) as [h|]; [|discriminate].
  cbn [locate] in H. destruct (x =? "..")%string.
  - destruct (lookup h t) as [[s|es]|] eqn:Lh; try discriminate.
    injection H as <-. destruct (lookup_removelast _ _ _ Lh) as [es' E].
    congruence.
  - injection H as <-. now destruct h.
Qed.

(** A walk through names goes down by them. *)
Lemma locate_names cs : forall here t,
  Forall (fun x => x <> "..") cs -> locate here cs t = Some (here ++ cs).
Proof.
  induction cs as [|c cs IH]; intros here t F; cbn [locate].
  - now rewrite app_nil_r.
  - inversion F as [|? ? Hc F']; subst.
    destruct (String.eqb_spec c ".."); [contradiction|].
    rewrite (IH _ _ F'). now rewrite <- app_assoc.
Qed.

Lemma dirs_stay_refl t : dirs_stay t t.
Proof. intros q es H. eauto. Qed.

Lemma dirs_stay_trans t1 t2 t3 :
  dirs_stay t1 t2 -> dirs_stay t2 t3 -> dirs_stay t1 t3.
Proof.
  intros H12 H23 q es H. destruct (H12 _ _ H) as [es' H']. exact (H23 _ _ H').
Qed.

Lemma mkdir_p_stay cs t t' : mkdir_p cs t = Some t' -> dirs_stay t t'.
Proof. intros H q es L. exact (mkdir_p_keeps _ _ _ _ _ L H). Qed.

Lemma store_stay cs c t t' : store cs c t = Some t' -> dirs_stay t t'.
Proof. intros H q es L. exact (store_keeps _ _ _ _ _ _ L H). Qed.

(** ** The walk of [makedirs] *)

(** What holds of every [mkdir] holds of the walk. *)
Lemma mkdirs_steps (R : node -> node -> Prop) ok :
  (forall t, R t t) ->
  (forall t1 t2 t3, R t1 t2 -> R t2 t3 -> R t1 t3) ->
  (forall q t t', mkdir_p q t = Some t' -> R t t') ->
  forall cs here t t' done, mkdirs ok here cs t = (t', done) -> R t t'.
Proof.
  intros Rrefl Rtrans Rstep.
  induction cs as [|c cs IH]; intros here t t' done; cbn [mkdirs];
    destruct (lookup here t) as [[s|es]|];
    try (intros [= <- _]; apply Rrefl).
  destruct (c =? "..")%string; [apply IH|].
  destruct (lookup (here ++ [c]) t); [apply IH|].
  destruct (ok (here ++ [c])); [|intros [= <- _]; apply Rrefl].
  destruct (mkdir_p (here ++ [c]) t) as [t1|] eqn:E;
    [|intros [= <- _]; apply Rrefl].
  intros H. exact (Rtrans _ _ _ (Rstep _ _ _ E) (IH _ _ _ _ H)).
Qed.

Lemma mkdirs_stay ok cs here t t' done :
  mkdirs ok here cs t = (t', done) -> dirs_stay t t'.
Proof.
  apply (mkdirs_steps dirs_stay ok dirs_stay_refl dirs_stay_trans).
  intros q t0 t1. apply mkdir_p_stay.
Qed.

(** Where everything is there already the walk makes nothing. *)
Lemma mkdirs_idem ok cs : forall here t q es,
  locate here cs t = Some q -> lookup q t = Some (Dir es) ->
  mkdirs ok here cs t = (t, true).
Proof.
  induction cs as [|c cs IH]; intros here t q es H L;
    destruct (locate_start _ _ _ _ _ H L) as [es0 L0];
    cbn [mkdirs locate] in *; rewrite L0 in *; trivial.
  destruct (c =? "..")%string; [exact (IH _ _ _ _ H L)|].
  destruct (locate_start _ _ _ _ _ H L) as [es1 ->].
  exact (IH _ _ _ _ H L).
Qed.

(** A walk that came to its end ends in a directory. *)
Lemma mkdirs_done ok cs : forall here t t',
  mkdirs ok here cs t = (t', true) ->
  exists q es, locate here cs t' = Some q /\ lookup q t' = Some (Dir es).
Proof.
  induction cs as [|c cs IH]; intros here t t' H;
    pose proof (mkdirs_stay _ _ _ _ _ _ H) as D;
    cbn [mkdirs locate] in *;
    destruct (lookup here t) as [[s|es]|] eqn:L; try discriminate.
  - injection H as <-. eauto.
  - destruct (c =? "..")%string.
    + destruct (D _ _ L) as [es' ->]. exact (IH _ _ _ H).
    + destruct (lookup (here ++ [c]) t); [exact (IH _ _ _ H)|].
      destruct (ok (here ++ [c])); [|discriminate].
      destruct (mkdir_p (here ++ [c]) t) as [t1|]; [|discriminate].
      exact (IH _ _ _ H).
Qed.

(** ** Paths *)

Lemma sys_eta s : mkSys (tree s) (cwd s) (permits s) = s.
Proof. now destruct s. Qed.

Lemma isdir_spec p s :
  isdir p s = true
  <-> p <> ""
      /\ exists q es, place p s = Some q /\ lookup q (tree s) = Some (Dir es).
Proof.
  unfold isdir, stat. destruct (String.eqb_spec p "") as [->|Hp].
  - split; [discriminate | intros [H _]; now elim H].
  - destruct (place p s) as [q|].
    + destruct (lookup q (tree s)) as [[c|es]|] eqn:L.
      * destruct (names_directory p); split; try discriminate;
          intros [_ [q' [es [[= <-] L']]]]; congruence.
      * split; eauto.
      * split; [discriminate|]. intros [_ [q' [es [[= <-] L']]]]. congruence.
    + split; [discriminate|]. intros [_ [q' [es [[=] _]]]].
Qed.

(** The content of a regular file, by its place. *)
Lemma read_spec p s c :
  read p s = Some c
  <-> p <> "" /\ names_directory p = false
      /\ exists q, place p s = Some q /\ lookup q (tree s) = Some (File c).
Proof.
  unfold read, stat. destruct (String.eqb_spec p "") as [->|Hp].
  - split; [discriminate | intros [H _]; now elim H].
  - destruct (place p s) as [q|].
    + destruct (lookup q (tree s)) as [[c0|es]|] eqn:L.
      * destruct (names_directory p).
        -- split; [discriminate | intros [_ [[=] _]]].
        -- split.
           ++ intros [= ->]. eauto.
           ++ intros [_ [_ [q' [[= <-] L']]]]. congruence.
      * split; [discriminate|]. intros [_ [_ [q' [[= <-] L']]]]. congruence.
      * split; [discriminate|]. intros [_ [_ [q' [[= <-] L']]]]. congruence.
    + split; [discriminate|]. intros [_ [_ [q' [[=] _]]]].
Qed.

Lemma isfile_read p s : isfile p s = true <-> exists c, read p s = Some c.
Proof.
  unfold isfile, read. destruct (stat p s) as [[c|es]|]; split;
    try discriminate; eauto; intros [c0 [=]].
Qed.

(** A path names the same place where the directories stayed. *)
Lemma place_stable p s s' q :
  same_process s s' -> dirs_stay (tree s) (tree s') ->
  place p s = Some q -> place p s' = Some q.
Proof.
  intros [C _] D. unfold place, origin. rewrite C.
  apply (locate_stable _ _ D).
Qed.

Lemma startswith_app d x c :
  d <> "" -> Py.startswith (d ++ x) (String c "") = Py.startswith d (String c "").
Proof.
  destruct d as [|a d]; [intros H; now elim H|]. intros _.
  unfold Py.startswith. cbn. destruct (Ascii.ascii_dec c a); trivial.
  now destruct (d ++ x)%string, d.
Qed.

(** The path to a name in a directory starts where the path to the
    directory starts. *)
Lemma origin_join d name s :
  Py.has_char "/" name = false ->
  origin (OsPath.join d name) s = origin d s.
Proof.
  intros H. unfold origin, OsPath.join.
  rewrite (PathFacts.startswith_slash _ H). unfold Py.truthy.
  destruct (String.eqb_spec d "") as [->|Hd]; cbn [negb orb].
  - cbn [String.append]. now rewrite (PathFacts.startswith_slash _ H).
  - destruct (Py.endswith d "/"); now rewrite startswith_app.
Qed.

(** The place of a name in a directory. *)
Lemma place_join d name s :
  Py.has_char "/" name = false ->
  name <> "" -> name <> "." -> name <> ".." ->
  place (OsPath.join d name) s
  = match place d s with Some q => Some (q ++ [name]) | None => None end.
Proof.
  intros H N1 N2 N3. unfold place.
  rewrite (origin_join _ _ _ H), (PathFacts.components_join _ _ H).
  rewrite (PathFacts.components_plain _ H).
  destruct (String.eqb_spec name ""); [contradiction|].
  destruct (String.eqb_spec name "."); [contradiction|]. cbn [orb].
  rewrite locate_app.
  destruct (locate (origin d s) (components d) (tree s)); trivial.
  now apply locate_name.
Qed.

Lemma isdir_stable q s s' :
  same_process s s' -> dirs_stay (tree s) (tree s') ->
  isdir q s = true -> isdir q s' = true.
Proof.
  intros P D. rewrite !isdir_spec. intros [Hq [q0 [es [H L]]]].
  split; trivial. destruct (D _ _ L) as [es' L'].
  exists q0, es'. split; trivial. exact (place_stable _ _ _ _ P D H).
Qed.

Lemma makedirs_process p s s' done :
  makedirs p s = (s', done) -> same_process s s'.
Proof.
  unfold makedirs. destruct (p =? "")%string; [now intros [= <- _]|].
  destruct (mkdirs _ _ _ _) as [t d]. now intros [= <- _].
Qed.

Lemma makedirs_stay p s s' done :
  makedirs p s = (s', done) -> dirs_stay (tree s) (tree s').
Proof.
  unfold makedirs. destruct (p =? "")%string;
    [intros [= <- _]; apply dirs_stay_refl|].
  destruct (mkdirs _ _ _ _) as [t d] eqn:E. intros [= <- _].
  exact (mkdirs_stay _ _ _ _ _ _ E).
Qed.

(** [os.makedirs(p, exist_ok=True)] on a directory that exists: no
    error, no change. *)
Lemma makedirs_idem p s : isdir p s = true -> makedirs p s = (s, true).
Proof.
  intros H. apply isdir_spec in H. destruct H as [Hp [q [es [H L]]]].
  unfold makedirs. destruct (String.eqb_spec p ""); [contradiction|].
  unfold place in H. rewrite (mkdirs_idem _ _ _ _ _ _ H L).
  now rewrite sys_eta.
Qed.

Lemma makedirs_isdir p s s' : makedirs p s = (s', true) -> isdir p s' = true.
Proof.
  unfold makedirs. destruct (String.eqb_spec p ""); [discriminate|].
  destruct (mkdirs _ _ _ _) as [t d] eqn:E. intros [= <- ->].
  apply isdir_spec. split; trivial.
  destruct (mkdirs_done _ _ _ _ _ E) as [q [es [H L]]]. now exists q, es.
Qed.

Lemma makedirs_keeps p q s s' done :
  isdir q s = true -> makedirs p s = (s', done) -> isdir q s' = true.
Proof.
  intros H E. revert H. apply isdir_stable.
  - exact (makedirs_process _ _ _ _ E).
  - exact (makedirs_stay _ _ _ _ E).
Qed.

Lemma open_write_process p c s s' :
  open_write p c s = Some s' -> same_process s s'.
Proof.
  unfold open_write. destruct (_ || _); [discriminate|].
  destruct (place p s) as [q|]; [|discriminate].
  destruct (permits s q); [|discriminate].
  destruct (store q c (tree s)); [|discriminate]. now intros [= <-].
Qed.

(** What [open] does to the tree, by the place of the path. *)
Lemma open_write_spec p c s s' :
  open_write p c s = Some s'
  <-> p <> "" /\ names_directory p = false
      /\ exists q t,
           place p s = Some q /\ permits s q = true
           /\ store q c (tree s) = Some t
           /\ s' = mkSys t (cwd s) (permits s).
Proof.
  unfold open_write. destruct (String.eqb_spec p "") as [->|Hp]; cbn [orb].
  - split; [discriminate | intros [H _]; now elim H].
  - destruct (names_directory p).
    + split; [discriminate | intros [_ [[=] _]]].
    + destruct (place p s) as [q|].
      * destruct (permits s q) eqn:P.
        -- destruct (store q c (tree s)) as [t|] eqn:E; split.
           ++ intros [= <-]. repeat split; trivial. now exists q, t.
           ++ intros [_ [_ [q' [t' [[= <-] [_ [E' ->]]]]]]]. congruence.
           ++ discriminate.
           ++ intros [_ [_ [q' [t' [[= <-] [_ [E' _]]]]]]]. congruence.
        -- split; [discriminate|].
           intros [_ [_ [q' [t' [[= <-] [X _]]]]]]. congruence.
      * split; [discriminate|]. intros [_ [_ [q' [t' [[=] _]]]]].
Qed.

Lemma open_write_stay p c s s' :
  open_write p c s = Some s' -> dirs_stay (tree s) (tree s').
Proof.
  intros H. apply open_write_spec in H.
  destruct H as [_ [_ [q [t [_ [_ [E ->]]]]]]]. exact (store_stay _ _ _ _ E).
Qed.

Lemma open_write_keeps p c q s s' :
  isdir q s = true -> open_write p c s = Some s' -> isdir q s' = true.
Proof.
  intros H E. revert H. apply isdir_stable.
  - exact (open_write_process _ _ _ _ E).
  - exact (open_write_stay _ _ _ _ E).
Qed.

(** [mkdir_p] below a node that is there works on that node. *)
Lemma mkdir_p_focus p : forall q t n n',
  lookup p t = Some n -> mkdir_p q n = Some n' ->
  exists t', mkdir_p (p ++ q) t = Some t' /\ lookup p t' = Some n'.
Proof.
  induction p as [|c p IH]; intros q t n n' L E.
  - injection L as ->. exists n'. now split.
  - destruct t as [s|es]; cbn [lookup] in L; [discriminate|].
    destruct (get c es) as [child|] eqn:G; [|discriminate].
    destruct (IH _ _ _ _ L E) as [child' [E' L']].
    exists (Dir (put c child' es)). cbn [app mkdir_p lookup].
    now rewrite G, E', get_put_same.
Qed.

Lemma store_below c0 c1 r s es :
  store (c0 :: c1 :: r) s (Dir es)
  = match get c0 es with
    | Some child =>
        match store (c1 :: r) s child with
        | Some child' => Some (Dir (put c0 child' es))
        | None => None
        end
    | None => None
    end.
Proof. reflexivity. Qed.

(** [store] below a node that is there works on that node. *)
Lemma store_focus p : forall c q s t n n',
  lookup p t = Some n -> store (c :: q) s n = Some n' ->
  exists t', store (p ++ c :: q) s t = Some t' /\ lookup p t' = Some n'.
Proof.
  induction p as [|c0 p IH]; intros c q s t n n' L E.
  - injection L as ->. exists n'. now split.
  - destruct t as [s0|es]; cbn [lookup] in L; [discriminate|].
    destruct (get c0 es) as [child|] eqn:G; [|discriminate].
    destruct (IH _ _ _ _ _ _ L E) as [child' [E' L']].
    exists (Dir (put c0 child' es)). split.
    + cbn [app]. destruct (p ++ c :: q) as [|c1 r] eqn:A in E' |- *.
      * destruct p; discriminate.
      * now rewrite store_below, G, E'.
    + cbn [lookup]. now rewrite get_put_same.
Qed.

Lemma node_induction (P : node -> Prop) :
  (forall content, P (File content)) ->
  (forall es, Forall (fun e => P (snd e)) es -> P (Dir es)) ->
  forall n, P n.
Proof.
  intros Hfile Hdir. fix IH 1. intros [content|es].
  - apply Hfile.
  - apply Hdir. induction es as [|[k m] es IHes]; constructor.
    + apply IH.
    + exact IHes.
Qed.

Lemma filenames_In name es :
  In name (filenames es) <-> exists content, In (name, File content) es.
Proof.
  unfold filenames. rewrite in_map_iff. split.
  - intros [[k [c|es']] [<- H]]; apply filter_In in H;
      destruct H as [H T]; [eauto | discriminate].
  - intros [c H]. exists (name, File c). split; trivial.
    apply filter_In. now split.
Qed.

End FsFacts.

(** ** Commands *)

Section Commands.

Variable env : Env.

Lemma only_ret p {A} (a : A) : only p (ret a).
Proof.
  intros w r w' [= <- <-]. repeat split; trivial; try discriminate.
  exists []. now rewrite app_nil_r.
Qed.

Lemma only_raise p {A} e : is_Exception e = true -> only p (@raise A e).
Proof.
  intros He w r w' [= <- <-]. repeat split; trivial.
  - exists []. now rewrite app_nil_r.
  - now intros e' [= <-].
Qed.

Lemma only_emit (p : event -> bool) e : p e = true -> only p (emit e).
Proof.
  intros He w r w' [= <- <-]. repeat split; trivial; try discriminate.
  exists [e]. simpl. now rewrite He.
Qed.

Lemma only_fs_call (p : event -> bool) ev f message :
  p (ev true) = true -> p (ev false) = true ->
  (forall q t t', Fs.isdir q t = true -> f t = Some t' ->
                  Fs.isdir q t' = true) ->
  only p (fs_call ev f message).
Proof.
  intros Ht Hf Hkeep w r w'. unfold fs_call.
  destruct (f (fs w)) as [t|] eqn:E; intros [= <- <-]; simpl;
    repeat split; eauto; try discriminate.
  - exists [ev true]. simpl. now rewrite Ht.
  - exists [ev false]. simpl. now rewrite Hf.
  - now intros e [= <-].
Qed.

Lemma only_bind p {A B} (m : M A) (k : A -> M B) :
  only p m -> (forall a, only p (k a)) -> only p (bind m k).
Proof.
  intros Hm Hk w r w'. unfold bind.
  destruct (m w) as [[a|e] w1] eqn:E.
  - intros H. destruct (Hm _ _ _ E) as [[e1 [T1 P1]] [D1 _]].
    destruct (Hk a _ _ _ H) as [[e2 [T2 P2]] [D2 X2]].
    repeat split; auto.
    exists (e1 ++ e2). rewrite T2, T1, app_assoc. split; trivial.
    rewrite forallb_app. now rewrite P1, P2.
  - intros [= <- <-]. destruct (Hm _ _ _ E) as [T [D X]].
    repeat split; trivial. intros e' [= <-]. now apply X.
Qed.

Lemma only_try p {A} (m : M A) : only p m -> only p (try_except m).
Proof.
  intros Hm w r w'. unfold try_except.
  destruct (m w) as [[a|e] w1] eqn:E.
  - intros [= <- <-]. destruct (Hm _ _ _ E) as [T [D _]].
    repeat split; trivial. discriminate.
  - destruct (Hm _ _ _ E) as [T [D X]].
    rewrite (X e eq_refl). intros [= <- <-].
    repeat split; trivial. discriminate.
Qed.

Lemma only_when p b m : only p m -> only p (when b m).
Proof. destruct b; simpl; trivial. intros _. apply only_ret. Qed.

Lemma only_weaken (p p' : event -> bool) {A} (m : M A) :
  (forall e, p e = true -> p' e = true) -> only p m -> only p' m.
Proof.
  intros Hpp Hm w r w' E. destruct (Hm _ _ _ E) as [[evs [T P]] [D X]].
  repeat split; trivial. exists evs. split; trivial.
  rewrite forallb_forall in *. auto.
Qed.

(** [try_except] lets no [Exception] through. *)
Lemma try_except_ok p {A} (m : M A) w r w' :
  only p m -> try_except m w = (r, w') -> exists x, r = Ok x.
Proof.
  intros Hm. unfold try_except.
  destruct (m w) as [[a|e] w1] eqn:E.
  - intros [= <- <-]. eauto.
  - destruct (Hm _ _ _ E) as [_ [_ X]]. rewrite (X e eq_refl).
    intros [= <- <-]. eauto.
Qed.

Lemma only_ensure_dir path : only is_makedirs (ensure_dir path).
Proof.
  intros w r w'. unfold ensure_dir.
  destruct (Fs.makedirs path (fs w)) as [s done] eqn:E. intros [= <- <-].
  cbn [fs trace]. repeat split.
  - exists [EvMakedirs path done]. now split.
  - intros q Hq. exact (FsFacts.makedirs_keeps _ _ _ _ _ Hq E).
  - destruct done; [discriminate|]. now intros e [= <-].
Qed.

Lemma only_save_text path content :
  only is_output (save_text path content).
Proof.
  apply only_fs_call; trivial.
  intros q t t' Hq E. exact (FsFacts.open_write_keeps _ _ _ _ _ Hq E).
Qed.

Lemma only_write_timecoded result file_path out_folder kind :
  only is_output (write_timecoded env result file_path out_folder kind).
Proof.
  unfold write_timecoded.
  destruct (render_captions _ _ _) as [m0|[s [m|]]].
  - now apply only_raise.
  - apply only_bind; [apply only_save_text|]. intros _.
    now apply only_raise.
  - apply only_bind; [apply only_save_text|]. intros _. apply only_ret.
Qed.

Lemma only_write_outputs fmts file_path out_folder base result :
  only is_output (write_outputs env fmts file_path out_folder base result).
Proof.
  unfold write_outputs.
  repeat (apply only_bind; [apply only_when | intros _]);
    try apply only_save_text;
    try (apply only_bind;
         [apply only_try, only_write_timecoded
         |intros [exc|[]]; [now apply only_emit | apply only_ret]]).
  now apply only_emit.
Qed.

End Commands.

(** ** Format validation *)

Section Validation.

Variable env : Env.

Lemma parse_formats_In s fmt :
  In fmt (parse_formats s)
  <-> exists e, In e (Py.split "," s) /\ Py.strip e <> ""
                /\ fmt = Py.lower (Py.strip e).
Proof.
  unfold parse_formats. rewrite in_map_iff. split.
  - intros [e [<- H]]. apply filter_In in H. destruct H as [Hin Ht].
    exists e. repeat split; trivial.
    unfold Py.truthy in Ht. intros E. rewrite E in Ht. discriminate.
  - intros [e [Hin [Hne ->]]]. exists e. split; trivial.
    apply filter_In. split; trivial. unfold Py.truthy.
    destruct (String.eqb_spec (Py.strip e) ""); [contradiction | trivial].
Qed.

Lemma has_bad_entry_parse s :
  has_bad_entry s
  <-> exists fmt, In fmt (parse_formats s) /\ ~ In fmt supported.
Proof.
  split.
  - intros [e [Hin [Hne Hbad]]]. exists (Py.lower (Py.strip e)).
    split; trivial. apply parse_formats_In. eauto.
  - intros [fmt [Hin Hbad]]. apply parse_formats_In in Hin.
    destruct Hin as [e [Hin [Hne ->]]]. exists e. auto.
Qed.

Lemma check_formats_accept fmts w :
  (forall fmt, In fmt fmts -> In fmt supported) ->
  check_formats fmts w = (Ok tt, w).
Proof.
  induction fmts as [|fmt rest IH]; intros H; cbn [check_formats];
    [reflexivity|].
  assert (Hc : Py.contains supported fmt = true)
    by (apply PyFacts.contains_spec, H; now left).
  rewrite Hc. cbn [negb]. apply IH. intros f Hf. apply H. now right.
Qed.

Lemma check_formats_reject fmts w :
  (exists fmt, In fmt fmts /\ ~ In fmt supported) ->
  exists fmt,
    In fmt fmts /\ ~ In fmt supported
    /\ check_formats fmts w
       = (Raise (SystemExit 2),
          mkWorld (fs w) (trace w ++ [EvStderr (unsupported_message fmt)])).
Proof.
  induction fmts as [|fmt rest IH]; intros [bad [Hin Hbad]].
  - destruct Hin.
  - cbn [check_formats].
    destruct (Py.contains supported fmt) eqn:Hc; cbn [negb].
    + destruct Hin as [->|Hin].
      * apply PyFacts.contains_spec in Hc. contradiction.
      * destruct IH as [f [Hf [Hnf E]]]; [eauto|].
        exists f. repeat split; trivial. now right.
    + exists fmt. split; [now left | split].
      * intros Hs. apply PyFacts.contains_spec in Hs. congruence.
      * reflexivity.
Qed.

Lemma formats_decide fmts :
  (forall fmt, In fmt fmts -> In fmt supported)
  \/ (exists fmt, In fmt fmts /\ ~ In fmt supported).
Proof.
  induction fmts as [|fmt rest [IH|[bad [Hin Hbad]]]].
  - left. intros f [].
  - destruct (Py.contains supported fmt) eqn:Hc.
    + left. intros f [<-|Hf]; [now apply PyFacts.contains_spec | auto].
    + right. exists fmt. split; [now left|].
      intros Hs. apply PyFacts.contains_spec in Hs. congruence.
  - right. exists bad. split; [now right | trivial].
Qed.

(** With supported formats [main] goes on to scan and to the batch. *)
Lemma main_accept a w :
  (forall fmt, In fmt (parse_formats (formats a)) -> In fmt supported) ->
  main env a w
  = batch_driver env a (parse_formats (formats a))
      (find_audio_files_in (fs w) (input a) audio_exts)
      (mkWorld (fs w) (trace w ++ [EvScan (input a)])).
Proof.
  intros H. unfold main, bind. rewrite (check_formats_accept _ _ H).
  reflexivity.
Qed.

Lemma main_reject a w :
  (exists fmt, In fmt (parse_formats (formats a)) /\ ~ In fmt supported) ->
  exists fmt,
    main env a w
    = (Raise (SystemExit 2),
       mkWorld (fs w) (trace w ++ [EvStderr (unsupported_message fmt)])).
Proof.
  intros H. destruct (check_formats_reject _ w H) as [fmt [_ [_ E]]].
  exists fmt. unfold main, bind. now rewrite E.
Qed.

End Validation.

(** ** The batch loop *)

Section Batch.

Variable env : Env.
Lemma try_transcribe a f w :
  try_except (transcribe_whisper env f (model a) (device a) (language a)) w
  = (Ok (match transcription env a f with
         | inl m => inl (RuntimeError m)
         | inr r => inr r
         end),
     mkWorld (fs w) (trace w ++ [attempt_event env a f])).
Proof.
  unfold try_except, transcribe_whisper, transcription, attempt_event, bind, emit.
  destruct (model_transcribe _ _ _ _ _ _); reflexivity.
Qed.

Lemma batch_step a fmts f rest fl w r w' :
  batch env a fmts (f :: rest) fl w = (r, w') ->
  let d := out_folder_of a f in
  (snd (Fs.makedirs d (fs w)) = false /\ r = Raise (OSError d)
   /\ w' = mkWorld (fst (Fs.makedirs d (fs w)))
             (trace w ++ [EvMakedirs d false]))
  \/ exists t1,
      Fs.makedirs d (fs w) = (t1, true) /\
      let w2 := mkWorld t1 (trace w ++ [EvMakedirs d true;
                                       EvStdout ("Transcribing: " ++ f);
                                       attempt_event env a f]) in
      ((exists m,
           transcription env a f = inl m /\
           let w3 := mkWorld t1
                       (trace w2
                        ++ [EvStderr ("Failed transcription for " ++ f
                                      ++ ": " ++ m)]) in
           if fail_on_error a then r = Ok 1%Z /\ w' = w3
           else batch env a fmts rest (fl ++ [f]) w3 = (r, w'))
       \/ (exists result ro w3,
              transcription env a f = inr result /\
              write_outputs env fmts f d (base_of f) result w2 = (ro, w3) /\
              match ro with
              | Ok _ => batch env a fmts rest fl w3 = (r, w')
              | Raise e => r = Raise e /\ w' = w3
              end)).
Proof.
  intros H d. cbn [batch] in H. fold d in H.
  unfold bind at 1 in H. unfold ensure_dir in H.
  destruct (Fs.makedirs d (fs w)) as [t1 [|]] eqn:E.
  - right. exists t1. split; trivial. cbn zeta.
    unfold bind at 1 in H. unfold print, emit in H. cbn [fs trace] in H.
    unfold bind at 1 in H. rewrite try_transcribe in H. cbn [fs trace] in H.
    rewrite <- !app_assoc in H. cbn [app] in H.
    destruct (transcription env a f) as [m|result] eqn:T.
    + left. exists m. split; trivial.
      unfold bind at 1 in H. unfold eprint, emit in H. cbn [fs trace exn_message] in H.
      destruct (fail_on_error a).
      * injection H as <- <-. split; reflexivity.
      * exact H.
    + right. unfold bind at 1 in H.
      destruct (write_outputs _ _ _ _ _ _ _) as [ro w3] eqn:W.
      exists result, ro, w3. split; trivial. split; trivial.
      destruct ro; [exact H|]. injection H as <- <-. split; reflexivity.
  - left. injection H as <- <-. repeat split.
Qed.

Lemma attempts_app xs ys : attempts (xs ++ ys) = attempts xs ++ attempts ys.
Proof.
  induction xs as [|e xs IH]; simpl; trivial.
  destruct e; simpl; now rewrite ?IH.
Qed.

Lemma attempts_output evs : forallb is_output evs = true -> attempts evs = [].
Proof.
  induction evs as [|e evs IH]; simpl; trivial.
  intros H. apply andb_true_iff in H. destruct H as [He H].
  destruct e; try discriminate; auto.
Qed.

Lemma only_batch a fmts files : forall fl,
  only (fun _ => true) (batch env a fmts files fl).
Proof.
  induction files as [|f rest IH]; intros fl; cbn [batch].
  - destruct (_ && _); apply only_ret.
  - apply only_bind.
    { apply only_weaken with (p := is_makedirs); trivial.
      apply only_ensure_dir. }
    intros _. apply only_bind; [now apply only_emit|]. intros _.
    apply only_bind.
    { apply only_try. unfold transcribe_whisper.
      apply only_bind; [now apply only_emit|]. intros _.
      destruct (model_transcribe _ _ _ _ _ _);
        [now apply only_raise | apply only_ret]. }
    intros [exc|result].
    + apply only_bind; [now apply only_emit|]. intros _.
      destruct (fail_on_error a); [apply only_ret | apply IH].
    + apply only_bind; [|intros _; apply IH].
      apply only_weaken with (p := is_output); trivial.
      apply only_write_outputs.
Qed.

(** What [write_outputs] leaves behind, as the loop needs it. *)
Lemma write_outputs_quiet fmts f d base result w ro w3 :
  write_outputs env fmts f d base result w = (ro, w3) ->
  (exists evs, trace w3 = trace w ++ evs /\ forallb is_output evs = true)
  /\ (forall q, Fs.isdir q (fs w) = true -> Fs.isdir q (fs w3) = true).
Proof.
  intros H. destruct (only_write_outputs env _ _ _ _ _ _ _ _ H) as [T [D _]].
  now split.
Qed.

(** Fail-fast off: every file is attempted and the loop returns 0. *)
Lemma batch_all a fmts files : forall fl w code w',
  fail_on_error a = false ->
  batch env a fmts files fl w = (Ok code, w') ->
  code = 0%Z /\ attempts (trace w') = attempts (trace w) ++ files.
Proof.
  induction files as [|f rest IH]; intros fl w code w' Hff H.
  - cbn [batch] in H. rewrite Hff, andb_false_r in H.
    injection H as <- <-. now rewrite app_nil_r.
  - apply batch_step in H. cbn zeta in H.
    destruct H as [[_ [H _]]|[t1 [_ [[m [_ H]]|[res [ro [w3 [_ [W H]]]]]]]]].
    + discriminate.
    + rewrite Hff in H. destruct (IH _ _ _ _ Hff H) as [-> T].
      split; trivial. rewrite T. cbn [trace]. unfold attempt_event.
      rewrite !attempts_app. simpl. now rewrite app_nil_r, <- app_assoc.
    + destruct ro as [[]|e]; [|destruct H; discriminate].
      destruct (IH _ _ _ _ Hff H) as [-> T]. split; trivial.
      destruct (write_outputs_quiet _ _ _ _ _ _ _ _ W) as [[evs [Tw P]] _].
      rewrite T, Tw. cbn [trace]. unfold attempt_event.
      rewrite !attempts_app.
      rewrite (attempts_output _ P). simpl.
      now rewrite app_nil_r, <- app_assoc.
Qed.

(** A status other than zero needs the fail-fast flag and a failure. *)
Lemma batch_nonzero a fmts files : forall fl w code w',
  batch env a fmts files fl w = (Ok code, w') ->
  code <> 0%Z ->
  code = 1%Z /\ fail_on_error a = true
  /\ (fl <> [] \/ exists f, In f files /\ fails env a f = true).
Proof.
  induction files as [|f rest IH]; intros fl w code w' H Hc.
  - cbn [batch] in H. destruct fl as [|x fl]; simpl in H.
    + injection H as <- <-. now elim Hc.
    + destruct (fail_on_error a); injection H as <- <-;
        [|now elim Hc]. repeat split. left. discriminate.
  - apply batch_step in H. cbn zeta in H.
    destruct H as [[_ [H _]]|[t1 [_ [[m [Tm H]]|[res [ro [w3 [_ [W H]]]]]]]]].
    + discriminate.
    + assert (Hf : fails env a f = true) by (unfold fails; now rewrite Tm).
      destruct (fail_on_error a) eqn:Hff.
      * destruct H as [[= <-] _]. repeat split. right. exists f.
        split; [now left | trivial].
      * destruct (IH _ _ _ _ H Hc) as [-> [? _]]. discriminate.
    + destruct ro as [[]|e]; [|destruct H; discriminate].
      destruct (IH _ _ _ _ H Hc) as [-> [Hff [Hfl|[g [Hg Hgf]]]]];
        repeat split; trivial; [now left|].
      right. exists g. split; [now right | trivial].
Qed.


Lemma exit_status_exception e :
  is_Exception e = true -> exit_status (Raise e) = 1%Z.
Proof. destruct e; simpl; trivial; discriminate. Qed.

(** Fail-fast on: the loop ends at the first failing file. *)
Lemma batch_fail_fast a fmts pre f post :
  fail_on_error a = true ->
  fails env a f = true ->
  Forall (fun g => fails env a g = false) pre ->
  forall fl w r w',
    batch env a fmts (pre ++ f :: post) fl w = (r, w') ->
    exit_status r = 1%Z
    /\ (exists seen more,
           attempts (trace w') = attempts (trace w) ++ seen
           /\ pre ++ [f] = seen ++ more)
    /\ (forall code, r = Ok code ->
          attempts (trace w') = attempts (trace w) ++ pre ++ [f]).
Proof.
  intros Hff Hf Hpre. induction Hpre as [|g pre' Hg Hpre IH];
    intros fl w r w' H; cbn [app] in H; apply batch_step in H;
    cbn zeta in H;
    destruct H as [[_ [-> ->]]|[t1 [_ [[m [Tm H]]|[res [ro [w3 [Tr [W H]]]]]]]]].
  - repeat split; try discriminate.
    exists [], [f]. cbn [trace]. rewrite attempts_app. simpl.
    now rewrite !app_nil_r.
  - rewrite Hff in H. destruct H as [-> ->]. cbn [trace].
    unfold attempt_event. rewrite !attempts_app. simpl.
    rewrite app_nil_r. repeat split; trivial.
    exists [f], []. split; trivial.
  - unfold fails in Hf. rewrite Tr in Hf. discriminate.
  - repeat split; try discriminate.
    exists [], (g :: pre' ++ [f]). cbn [trace]. rewrite attempts_app.
    simpl. now rewrite !app_nil_r.
  - unfold fails in Hg. rewrite Tm in Hg. discriminate.
  - destruct (write_outputs_quiet _ _ _ _ _ _ _ _ W) as [[evs [Tw P]] _].
    assert (Tw3 : attempts (trace w3) = attempts (trace w) ++ [g]).
    { rewrite Tw. cbn [trace]. unfold attempt_event.
      rewrite !attempts_app. rewrite (attempts_output _ P). simpl.
      now rewrite app_nil_r. }
    destruct ro as [[]|e].
    + destruct (IH _ _ _ _ H) as [S [[seen [more [T E]]] A]].
      split; trivial. split.
      * exists (g :: seen), more. rewrite T, Tw3, <- app_assoc.
        split; trivial. simpl. now rewrite E.
      * intros code Hc. rewrite (A _ Hc), Tw3, <- app_assoc. reflexivity.
    + destruct H as [-> ->].
      destruct (only_write_outputs env _ _ _ _ _ _ _ _ W) as [_ [_ X]].
      split; [apply exit_status_exception; now apply X|].
      split; [|discriminate].
      exists [g], (pre' ++ [f]). split; trivial.
Qed.

(** Fail-fast on: when an attempted file fails, the loop returns 1 there;
    the files attempted are those before the first failing file, and that
    file. *)
Lemma batch_first_failure a fmts files :
  fail_on_error a = true ->
  forall fl w r w',
    batch env a fmts files fl w = (r, w') ->
    exists evs,
      trace w' = trace w ++ evs
      /\ ((exists g, In g (attempts evs) /\ fails env a g = true) ->
          r = Ok 1%Z
          /\ exists pre f post,
               files = pre ++ f :: post
               /\ Forall (fun g => fails env a g = false) pre
               /\ fails env a f = true
               /\ attempts evs = pre ++ [f]).
Proof.
  intros Hff. induction files as [|g rest IH]; intros fl w r w' H.
  - exists []. cbn [batch] in H.
    destruct (_ && _); injection H as <- <-;
      (split; [now rewrite app_nil_r | intros [f [[] _]]]).
  - apply batch_step in H. cbn zeta in H.
    destruct H as [[_ [-> ->]]|[t1 [_ [[m [Tm H]]|[res [ro [w3 [Tr [W H]]]]]]]]].
    + eexists. split; [reflexivity|]. intros [f [[] _]].
    + rewrite Hff in H. destruct H as [-> ->]. cbn [trace].
      rewrite <- app_assoc. eexists. split; [reflexivity|].
      intros _. split; trivial. exists [], g, rest.
      unfold fails, attempt_event. rewrite Tm. repeat split. constructor.
    + assert (Hg : fails env a g = false) by (unfold fails; now rewrite Tr).
      destruct (write_outputs_quiet _ _ _ _ _ _ _ _ W) as [[ev1 [Tw P]] _].
      cbn [trace] in Tw.
      destruct ro as [[]|e].
      * destruct (IH _ _ _ _ H) as [evs [T F]].
        rewrite Tw, <- !app_assoc in T.
        eexists. split; [exact T|].
        unfold attempt_event. cbn [app attempts].
        rewrite attempts_app, (attempts_output _ P). cbn [app].
        intros [f [[<-|Hin] Hf]]; [congruence|].
        destruct F as [-> [pre [f' [post [-> [Hpre [Hf' A]]]]]]]; [eauto|].
        split; trivial. exists (g :: pre), f', post.
        repeat split; trivial; [now constructor | now rewrite A].
      * destruct H as [-> ->]. rewrite <- app_assoc in Tw.
        eexists. split; [exact Tw|].
        unfold attempt_event. cbn [app attempts].
        rewrite (attempts_output _ P).
        intros [f [[<-|[]] Hf]]. congruence.
Qed.

Lemma folders_first_output a evs : forall made rest,
  forallb is_output evs = true ->
  folders_first a made rest -> folders_first a made (evs ++ rest).
Proof.
  induction evs as [|e evs IH]; intros made rest P H; simpl; trivial.
  simpl in P. apply andb_true_iff in P. destruct P as [Pe P].
  destruct e; try discriminate; simpl; auto.
Qed.

(** The output folder of a file is made before the file is attempted,
    and it is still there when the loop ends. *)
Lemma batch_folders a fmts files : forall fl w r w' made,
  batch env a fmts files fl w = (r, w') ->
  exists evs,
    trace w' = trace w ++ evs
    /\ folders_first a made evs
    /\ forall f, In f (attempts evs) ->
                 Fs.isdir (out_folder_of a f) (fs w') = true.
Proof.
  induction files as [|f rest IH]; intros fl w r w' made H.
  - exists []. cbn [batch] in H.
    destruct (_ && _); injection H as <- <-;
      rewrite app_nil_r; simpl; tauto.
  - apply batch_step in H. cbn zeta in H.
    destruct H as [[_ [-> ->]]|[t1 [Mk [[m [Tm H]]|[res [ro [w3 [Tr [W H]]]]]]]]].
    + eexists. split; [reflexivity|]. simpl. tauto.
    + apply FsFacts.makedirs_isdir in Mk.
      destruct (fail_on_error a).
      * destruct H as [-> ->]. cbn [trace fs]. rewrite <- app_assoc.
        eexists. split; [reflexivity|]. unfold attempt_event. simpl.
        split; [tauto|]. intros g [<-|[]]. exact Mk.
      * destruct (IH _ _ _ _ (out_folder_of a f :: made) H)
          as [evs [T [F D]]].
        destruct (only_batch _ _ _ _ _ _ _ H) as [_ [K _]].
        cbn [trace fs] in T, K. rewrite <- !app_assoc in T.
        eexists. split; [exact T|]. unfold attempt_event. simpl.
        split; [tauto|]. intros g [<-|Hg]; [now apply K | now apply D].
    + apply FsFacts.makedirs_isdir in Mk.
      destruct (write_outputs_quiet _ _ _ _ _ _ _ _ W) as [[ev1 [Tw P]] Kw].
      cbn [trace fs] in Tw, Kw.
      destruct ro as [[]|e].
      * destruct (IH _ _ _ _ (out_folder_of a f :: made) H)
          as [evs [T [F D]]].
        destruct (only_batch _ _ _ _ _ _ _ H) as [_ [K _]].
        rewrite Tw, <- !app_assoc in T.
        eexists. split; [exact T|]. unfold attempt_event. simpl.
        split; [split; [tauto | now apply folders_first_output]|].
        rewrite attempts_app, (attempts_output _ P). simpl.
        intros g [<-|Hg]; [now apply K, Kw | now apply D].
      * destruct H as [-> ->]. rewrite <- app_assoc in Tw.
        eexists. split; [exact Tw|]. unfold attempt_event. simpl.
        split.
        { split; [tauto|]. rewrite <- (app_nil_r ev1).
          now apply folders_first_output. }
        rewrite (attempts_output _ P). intros g [<-|[]]. now apply Kw.
Qed.

Lemma folders_first_sound a evs : forall made front f m d b l back,
  folders_first a made evs ->
  evs = front ++ EvTranscribe f m d b l :: back ->
  In (out_folder_of a f) made
  \/ In (EvMakedirs (out_folder_of a f) true) front.
Proof.
  induction evs as [|e evs IH]; intros made front f m d b l back F E.
  - destruct front; discriminate.
  - destruct front as [|e0 front]; cbn [app] in E.
    + injection E as -> _. left. simpl in F. tauto.
    + injection E as <- E.
      assert (step : forall made',
                 folders_first a made' evs ->
                 (In (out_folder_of a f) made' ->
                  In (out_folder_of a f) made \/ e = EvMakedirs (out_folder_of a f) true) ->
                 In (out_folder_of a f) made
                 \/ In (EvMakedirs (out_folder_of a f) true) (e :: front)).
      { intros made' F' Hm.
        destruct (IH _ _ _ _ _ _ _ _ F' E) as [H|H].
        - destruct (Hm H) as [H'|H']; [now left | right; now left].
        - right. now right. }
      destruct e as [| | |p ok| | |]; simpl in F;
        try (apply (step made); [tauto | now left]).
      destruct ok.
      * apply (step (p :: made)); trivial.
        intros [<-|H]; [now right | now left].
      * apply (step made); [tauto | now left].
Qed.

(** The three ways the Batch Driver can go. *)
Lemma batch_driver_cases a fmts files w r w' :
  batch_driver env a fmts files w = (r, w') ->
  (files = [] /\ r = Ok 0%Z
   /\ w' = mkWorld (fs w)
             (trace w ++ [EvStderr "No audio files found to transcribe."]))
  \/ (files <> [] /\ snd (Fs.makedirs (out_dir a) (fs w)) = false
      /\ r = Raise (OSError (out_dir a))
      /\ w' = mkWorld (fst (Fs.makedirs (out_dir a) (fs w)))
                (trace w ++ [EvMakedirs (out_dir a) false]))
  \/ (files <> [] /\ exists t1,
        Fs.makedirs (out_dir a) (fs w) = (t1, true)
        /\ batch env a fmts files []
             (mkWorld t1 (trace w ++ [EvMakedirs (out_dir a) true]))
           = (r, w')).
Proof.
  destruct files as [|f rest]; cbn [batch_driver].
  - intros [= <- <-]. left. repeat split.
  - unfold bind at 1, ensure_dir.
    destruct (Fs.makedirs (out_dir a) (fs w)) as [t1 [|]] eqn:E.
    + intros H. right. right. split; [discriminate|]. eauto.
    + intros [= <- <-]. right. left. repeat split. discriminate.
Qed.

End Batch.

(** ** The process *)

Section Process.

Variable env : Env.

Lemma run_status a w : fst (run env a w) = exit_status (fst (main env a w)).
Proof. unfold run. now destruct (main env a w) as [r w']. Qed.

Lemma run_returns a w code w' :
  main env a w = (Ok code, w') -> run env a w = (code, w').
Proof. unfold run. now intros ->. Qed.

(** Whatever the batch does, the status is 0 or 1. *)
Lemma batch_driver_status a fmts files w r w' :
  batch_driver env a fmts files w = (r, w') ->
  exit_status r = 0%Z \/ exit_status r = 1%Z.
Proof.
  intros H. apply batch_driver_cases in H.
  destruct H as [[_ [-> _]]|[[_ [_ [-> _]]]|[_ [t1 [_ H]]]]];
    [now left | now right |].
  destruct r as [code|e].
  - destruct (Z.eq_dec code 0) as [->|Hc]; [now left|].
    destruct (batch_nonzero _ _ _ _ _ _ _ _ H Hc) as [-> _]. now right.
  - destruct (only_batch _ _ _ _ _ _ _ _ H) as [_ [_ X]].
    right. apply exit_status_exception. now apply X.
Qed.

(** [main] returns only when the formats were accepted. *)
Lemma main_returns_accept a w code w' :
  main env a w = (Ok code, w') ->
  forall fmt, In fmt (parse_formats (formats a)) -> In fmt supported.
Proof.
  intros H. destruct (formats_decide (parse_formats (formats a)))
    as [Hok|Hbad]; trivial.
  destruct (main_reject env a w Hbad) as [fmt E]. congruence.
Qed.

(** With supported formats and nothing to transcribe the process only
    scans and reports. *)
Lemma run_no_files a w :
  (forall fmt, In fmt (parse_formats (formats a)) -> In fmt supported) ->
  find_audio_files_in (fs w) (input a) audio_exts = [] ->
  run env a w
  = (0%Z,
     mkWorld (fs w)
       (trace w ++ [EvScan (input a);
                    EvStderr "No audio files found to transcribe."])).
Proof.
  intros Hok Hnone. unfold run. rewrite (main_accept env a w Hok), Hnone.
  cbn. now rewrite <- app_assoc.
Qed.

Lemma returns_ret {A} (x : A) : returns (ret x).
Proof. intros w. now exists x, w. Qed.

Lemma returns_emit e : returns (emit e).
Proof. intros w. unfold emit. eauto. Qed.

Lemma returns_bind {A B} (m : M A) (k : A -> M B) :
  returns m -> (forall x, returns (k x)) -> returns (bind m k).
Proof.
  intros Hm Hk w. unfold bind. destruct (Hm w) as [x [w1 ->]].
  apply Hk.
Qed.

Lemma returns_try p {A} (m : M A) : only p m -> returns (try_except m).
Proof.
  intros Hm w. destruct (try_except m w) as [r w1] eqn:E.
  destruct (try_except_ok _ _ _ _ _ Hm E) as [x ->]. eauto.
Qed.

End Process.

(** ** The file locator *)

Section Locator.

Variable exts : list string.

(** The walk collects the wanted files under the directory, and only
    those. *)
Lemma walk_node_files n : forall top p,
  In p (flat_map (collect exts) (Fs.walk_node top n))
  <-> exists name, file_under top n p name /\ wanted exts name = true.
Proof.
  induction n as [content|es IH] using FsFacts.node_induction;
    intros top p.
  - simpl. split; [intros [] | intros [name [H _]]; inversion H].
  - cbn [Fs.walk_node flat_map]. rewrite in_app_iff. split.
    + intros [H|H].
      * unfold collect in H. apply in_map_iff in H.
        destruct H as [name [<- H]]. apply filter_In in H.
        destruct H as [H W]. apply FsFacts.filenames_In in H.
        destruct H as [content H]. exists name. split; trivial.
        now apply FileHere with content.
      * apply in_flat_map in H. destruct H as [y [Hy Hp]].
        apply in_flat_map in Hy. destruct Hy as [[d sub] [He Hy]].
        rewrite Forall_forall in IH.
        assert (Hin : In p (flat_map (collect exts)
                              (Fs.walk_node (OsPath.join top d) sub))).
        { apply in_flat_map. now exists y. }
        apply (IH _ He) in Hin. destruct Hin as [name [U W]].
        exists name. split; trivial. now apply FileBelow with d sub.
    + intros [name [U W]]. inversion U as [? ? ? content He|? ? d sub ? ? He Hu];
        subst.
      * left. unfold collect. apply in_map. apply filter_In. split; trivial.
        apply FsFacts.filenames_In. now exists content.
      * right. rewrite Forall_forall in IH.
        assert (Hin : In p (flat_map (collect exts)
                              (Fs.walk_node (OsPath.join top d) sub))).
        { apply (IH _ He). now exists name. }
        apply in_flat_map in Hin. destruct Hin as [y [Hy Hp]].
        apply in_flat_map. exists y. split; trivial.
        apply in_flat_map. now exists (d, sub).
Qed.

Lemma find_in_directory t root es :
  Fs.stat root t = Some (Fs.Dir es) ->
  find_audio_files_in t root exts
  = Py.sorted (flat_map (collect exts) (Fs.walk_node root (Fs.Dir es))).
Proof.
  intros H. unfold find_audio_files_in, Fs.isfile, Fs.walk.
  now rewrite H.
Qed.

End Locator.

(** ** Proper names *)

Lemma proper_components b :
  Py.has_char "/" b = false -> b <> "" -> b <> "." ->
  Fs.components b = [b].
Proof.
  intros Hplain Hne Hdot. rewrite (PathFacts.components_plain b Hplain).
  destruct (String.eqb_spec b ""); [contradiction|].
  destruct (String.eqb_spec b "."); [contradiction | reflexivity].
Qed.

(** ** Runs that end early *)

(** A text write that raises ends the loop on the spot: the exception
    leaves [batch], and neither the other formats of the file nor the
    files after it are touched. *)
Lemma text_write_error_aborts env a fmts f rest fl w t1 result :
  Fs.makedirs (out_folder_of a f) (fs w) = (t1, true) ->
  transcription env a f = inr result ->
  Py.contains fmts "txt" = true ->
  Fs.open_write (OsPath.join (out_folder_of a f) (base_of f ++ ".txt"))
    (Py.strip (match result_text env result with
               | Some t => t
               | None => ""
               end)) t1 = None ->
  batch env a fmts (f :: rest) fl w
  = (Raise (OSError (OsPath.join (out_folder_of a f) (base_of f ++ ".txt"))),
     mkWorld t1
       (trace w
        ++ [EvMakedirs (out_folder_of a f) true;
            EvStdout ("Transcribing: " ++ f);
            attempt_event env a f;
            EvOpenWrite (OsPath.join (out_folder_of a f) (base_of f ++ ".txt"))
              false])).
Proof.
  intros Mk T Ctxt W. cbn [batch].
  unfold bind at 1. unfold ensure_dir. rewrite Mk.
  unfold bind at 1. unfold print, emit. cbn [fs trace].
  unfold bind at 1. rewrite try_transcribe, T. cbn [fs trace].
  unfold bind at 1. unfold write_outputs. rewrite Ctxt. cbn [when].
  unfold bind at 1. unfold save_text, fs_call. cbn [fs trace]. rewrite W.
  now rewrite <- !app_assoc.
Qed.

(** Fail-fast on, and [f] the first discovered file whose transcription
    would fail: the process exits with status 1 and the files attempted
    are an initial part of those up to [f], also when an exception ends
    the run before [f]; when [main] returns, they are exactly the files
    up to [f]. *)
Lemma fail_fast_run_status env a w pre f post r w' :
  (forall fmt, In fmt (parse_formats (formats a)) -> In fmt supported) ->
  fail_on_error a = true ->
  find_audio_files_in (fs w) (input a) audio_exts = pre ++ f :: post ->
  Forall (fun g => fails env a g = false) pre ->
  fails env a f = true ->
  main env a w = (r, w') ->
  fst (run env a w) = 1%Z
  /\ (exists seen more,
         attempts (trace w') = attempts (trace w) ++ seen
         /\ pre ++ [f] = seen ++ more)
  /\ (forall code, r = Ok code ->
        code = 1%Z /\ attempts (trace w') = attempts (trace w) ++ pre ++ [f]).
Proof.
  intros Hok Hff Hfiles Hpre Hf H.
  rewrite run_status, H. cbn [fst].
  rewrite (main_accept env a w Hok), Hfiles in H.
  apply batch_driver_cases in H.
  destruct H as [[E _]|[[_ [_ [-> ->]]]|[_ [t1 [_ H]]]]].
  - destruct pre; discriminate.
  - repeat split; try discriminate.
    exists [], (pre ++ [f]). cbn [trace].
    rewrite <- app_assoc, attempts_app. simpl. now rewrite !app_nil_r.
  - destruct (batch_fail_fast env a _ pre f post Hff Hf Hpre _ _ _ _ H)
      as [S [[seen [more [T E]]] A]].
    cbn [trace] in T, A.
    assert (T0 : attempts ((trace w ++ [EvScan (input a)])
                           ++ [EvMakedirs (out_dir a) true])
                 = attempts (trace w)).
    { rewrite <- app_assoc, attempts_app. simpl. now rewrite app_nil_r. }
    rewrite T0 in T, A. split; [exact S|]. split.
    + now exists seen, more.
    + intros code ->. split; [exact S | now apply (A code)].
Qed.

(** ** Relations that every step of a command keeps *)

Section Steps.

Variable R : world -> world -> Prop.
Hypothesis R_refl : forall w, R w w.
Hypothesis R_trans : forall w1 w2 w3, R w1 w2 -> R w2 w3 -> R w1 w3.

Lemma steps_ret {A} (x : A) : steps R (ret x).
Proof. intros w r w' [= <- <-]. apply R_refl. Qed.

Lemma steps_raise {A} e : steps R (@raise A e).
Proof. intros w r w' [= <- <-]. apply R_refl. Qed.

(** A command that only reads the world. *)
Lemma steps_read {A} (f : world -> A) : steps R (fun w => (Ok (f w), w)).
Proof. intros w r w' [= <- <-]. apply R_refl. Qed.

Lemma steps_bind {A B} (m : M A) (k : A -> M B) :
  steps R m -> (forall x, steps R (k x)) -> steps R (bind m k).
Proof.
  intros Hm Hk w r w'. unfold bind.
  destruct (m w) as [[x|e] w1] eqn:E.
  - intros H. apply R_trans with w1; [exact (Hm _ _ _ E) | exact (Hk x _ _ _ H)].
  - intros [= <- <-]. exact (Hm _ _ _ E).
Qed.

Lemma steps_try {A} (m : M A) : steps R m -> steps R (try_except m).
Proof.
  intros Hm w r w'. unfold try_except.
  destruct (m w) as [[x|e] w1] eqn:E.
  - intros [= <- <-]. exact (Hm _ _ _ E).
  - destruct (is_Exception e); intros [= <- <-]; exact (Hm _ _ _ E).
Qed.

Lemma steps_when b m : steps R m -> steps R (when b m).
Proof. destruct b; cbn [when]; trivial. intros _. apply steps_ret. Qed.

End Steps.

(** A relation that the messages, the creation of directories and the
    writing of output files keep is kept by the whole script. *)
Section StepsOfMain.

Variable env : Env.
Variable R : world -> world -> Prop.
Hypothesis R_refl : forall w, R w w.
Hypothesis R_trans : forall w1 w2 w3, R w1 w2 -> R w2 w3 -> R w1 w3.
Hypothesis R_emit : forall e, steps R (emit e).
Hypothesis R_makedirs : forall path, steps R (ensure_dir path).
Hypothesis R_output : forall a f k content,
  In k supported -> steps R (save_text (output_path a f k) content).

Lemma steps_write_timecoded a f k result :
  In k supported ->
  steps R (write_timecoded env result f (out_folder_of a f) k).
Proof.
  intros Hk. unfold write_timecoded.
  destruct (render_captions env k result) as [m|[written [m|]]].
  - apply (steps_raise R R_refl).
  - apply (steps_bind R R_trans); [now apply (R_output a f k) | intros _].
    apply (steps_raise R R_refl).
  - apply (steps_bind R R_trans); [now apply (R_output a f k) | intros _].
    apply (steps_ret R R_refl).
Qed.

(** A caption writer inside its [try]. *)
Lemma steps_guarded a f k (msg : exn -> string) result :
  In k supported ->
  steps R
    (r0 <- try_except (write_timecoded env result f (out_folder_of a f) k) ;;
     match r0 with
     | inl exc => eprint (msg exc)
     | inr _ => ret tt
     end).
Proof.
  intros Hk. apply (steps_bind R R_trans).
  - now apply steps_try, steps_write_timecoded.
  - intros [exc|[]]; [apply R_emit | apply (steps_ret R R_refl)].
Qed.

Lemma steps_write_outputs a fmts f result :
  steps R (write_outputs env fmts f (out_folder_of a f) (base_of f) result).
Proof.
  unfold write_outputs.
  repeat (apply (steps_bind R R_trans);
          [apply (steps_when R R_refl) | intros _]).
  - apply (R_output a f "txt"). simpl; tauto.
  - apply (R_output a f "json"). simpl; tauto.
  - apply (steps_guarded a f "srt"
             (fun exc => "Failed SRT writing for " ++ f ++ ": "
                         ++ exn_message env exc)%string).
    simpl; tauto.
  - apply (steps_guarded a f "vtt"
             (fun exc => "Failed VTT writing for " ++ f ++ ": "
                         ++ exn_message env exc)%string).
    simpl; tauto.
  - apply R_emit.
Qed.

Lemma steps_batch a fmts files : forall fl,
  steps R (batch env a fmts files fl).
Proof.
  induction files as [|f rest IH]; intros fl; cbn [batch].
  - destruct (_ && _); apply (steps_ret R R_refl).
  - apply (steps_bind R R_trans); [apply R_makedirs | intros _].
    apply (steps_bind R R_trans); [apply R_emit | intros _].
    apply (steps_bind R R_trans).
    { apply steps_try. unfold transcribe_whisper.
      apply (steps_bind R R_trans); [apply R_emit | intros _].
      destruct (model_transcribe _ _ _ _ _ _);
        [apply (steps_raise R R_refl) | apply (steps_ret R R_refl)]. }
    intros [exc|result].
    + apply (steps_bind R R_trans); [apply R_emit | intros _].
      destruct (fail_on_error a); [apply (steps_ret R R_refl) | apply IH].
    + apply (steps_bind R R_trans);
        [apply steps_write_outputs | intros _; apply IH].
Qed.

Lemma steps_check_formats fmts : steps R (check_formats fmts).
Proof.
  induction fmts as [|fmt rest IH]; cbn [check_formats].
  - apply (steps_ret R R_refl).
  - destruct (negb _); trivial.
    apply (steps_bind R R_trans); [apply R_emit | intros _].
    apply (steps_raise R R_refl).
Qed.

Lemma steps_main a : steps R (main env a).
Proof.
  unfold main.
  apply (steps_bind R R_trans); [apply steps_check_formats | intros _].
  apply (steps_bind R R_trans).
  { unfold find_audio_files.
    apply (steps_bind R R_trans); [apply R_emit | intros _].
    exact (steps_read R R_refl
             (fun w => find_audio_files_in (fs w) (input a) audio_exts)). }
  intros [|f rest]; cbn [batch_driver].
  - apply (steps_bind R R_trans); [apply R_emit | intros _].
    apply (steps_ret R R_refl).
  - apply (steps_bind R R_trans); [apply R_makedirs | intros _].
    apply steps_batch.
Qed.

End StepsOfMain.

(** ** What a run writes, and where *)

Section Events.

Variable env : Env.

Lemma emitted_refl P w : emitted P w w.
Proof. exists []. now rewrite app_nil_r. Qed.

Lemma emitted_trans P w1 w2 w3 :
  emitted P w1 w2 -> emitted P w2 w3 -> emitted P w1 w3.
Proof.
  intros [e1 [T1 P1]] [e2 [T2 P2]]. exists (e1 ++ e2).
  rewrite T2, T1, app_assoc. split; trivial. apply Forall_app. now split.
Qed.

Lemma emits_ret P {A} (x : A) : emits P (ret x).
Proof. apply steps_ret, emitted_refl. Qed.

Lemma emits_raise P {A} e : emits P (@raise A e).
Proof. apply steps_raise, emitted_refl. Qed.

Lemma emits_bind P {A B} (m : M A) (k : A -> M B) :
  emits P m -> (forall x, emits P (k x)) -> emits P (bind m k).
Proof. apply steps_bind, emitted_trans. Qed.

Lemma emits_try P {A} (m : M A) : emits P m -> emits P (try_except m).
Proof. apply steps_try. Qed.

Lemma emits_when P b m : emits P m -> emits P (when b m).
Proof. apply steps_when, emitted_refl. Qed.

Lemma emits_emit (P : event -> Prop) e : P e -> emits P (emit e).
Proof. intros He w r w' [= <- <-]. exists [e]. split; trivial. now constructor. Qed.

Lemma emits_fs_call (P : event -> Prop) ev f message :
  P (ev true) -> P (ev false) -> emits P (fs_call ev f message).
Proof.
  intros Ht Hf w r w'. unfold fs_call.
  destruct (f (fs w)); intros [= <- <-]; cbn [trace];
    eexists; (split; [reflexivity | now constructor]).
Qed.

Lemma emits_ensure_dir (P : event -> Prop) path :
  (forall ok, P (EvMakedirs path ok)) -> emits P (ensure_dir path).
Proof.
  intros HP w r w'. unfold ensure_dir.
  destruct (Fs.makedirs path (fs w)) as [s done]. intros [= <- <-].
  cbn [trace]. eexists. split; [reflexivity | now constructor].
Qed.

Lemma emits_weaken (P Q : event -> Prop) {A} (m : M A) :
  (forall e, P e -> Q e) -> emits P m -> emits Q m.
Proof.
  intros PQ Hm w r w' E. destruct (Hm _ _ _ E) as [evs [T F]].
  exists evs. split; trivial. revert F. apply Forall_impl. exact PQ.
Qed.

Lemma output_event_write a fmts f k ok :
  Py.contains fmts k = true -> In k supported ->
  output_event a fmts f (EvOpenWrite (output_path a f k) ok).
Proof.
  intros C S. exists k. repeat split; trivial.
  now apply PyFacts.contains_spec.
Qed.

Lemma emits_save_output a fmts f k content :
  Py.contains fmts k = true -> In k supported ->
  emits (output_event a fmts f) (save_text (output_path a f k) content).
Proof. intros C S. apply emits_fs_call; now apply output_event_write. Qed.

Lemma emits_write_timecoded a fmts f k result :
  Py.contains fmts k = true -> In k supported ->
  emits (output_event a fmts f)
    (write_timecoded env result f (out_folder_of a f) k).
Proof.
  intros C S. unfold write_timecoded.
  destruct (render_captions env k result) as [m|[written [m|]]].
  - apply emits_raise.
  - apply emits_bind; [now apply emits_save_output | intros _].
    apply emits_raise.
  - apply emits_bind; [now apply emits_save_output | intros _].
    apply emits_ret.
Qed.

Lemma emits_write_outputs a fmts f result :
  emits (output_event a fmts f)
    (write_outputs env fmts f (out_folder_of a f) (base_of f) result).
Proof.
  unfold write_outputs.
  repeat (apply emits_bind; [|intros _]); try now apply emits_emit.
  - destruct (Py.contains fmts "txt") eqn:C; [|apply emits_ret].
    apply (emits_save_output a fmts f "txt"); simpl; tauto.
  - destruct (Py.contains fmts "json") eqn:C; [|apply emits_ret].
    apply (emits_save_output a fmts f "json"); simpl; tauto.
  - destruct (Py.contains fmts "srt") eqn:C; [|apply emits_ret].
    apply emits_bind.
    + apply emits_try, emits_write_timecoded; simpl; tauto.
    + intros [exc|[]]; [now apply emits_emit | apply emits_ret].
  - destruct (Py.contains fmts "vtt") eqn:C; [|apply emits_ret].
    apply emits_bind.
    + apply emits_try, emits_write_timecoded; simpl; tauto.
    + intros [exc|[]]; [now apply emits_emit | apply emits_ret].
Qed.

Lemma batch_event_more a fmts f files e :
  batch_event env a fmts files e -> batch_event env a fmts (f :: files) e.
Proof.
  destruct e; cbn; trivial.
  - intros [g [Hg E]]. exists g. split; [now right | trivial].
  - intros [g [Hg E]]. exists g. split; [now right | trivial].
  - intros [Hf E]. split; [now right | trivial].
Qed.

Lemma emits_batch a fmts files : forall fl,
  emits (batch_event env a fmts files) (batch env a fmts files fl).
Proof.
  induction files as [|f rest IH]; intros fl; cbn [batch].
  - destruct (_ && _); apply emits_ret.
  - assert (Here : In f (f :: rest)) by now left.
    assert (Rest : forall fl', emits (batch_event env a fmts (f :: rest))
                                 (batch env a fmts rest fl')).
    { intros fl'. apply emits_weaken with (2 := IH fl').
      apply batch_event_more. }
    apply emits_bind.
    { apply emits_ensure_dir. intros ok. exists f. now split. }
    intros _. apply emits_bind; [now apply emits_emit | intros _].
    intros w r w'. unfold bind at 1. rewrite try_transcribe.
    destruct (transcription env a f) as [m|result] eqn:T; intros H.
    + assert (Tail : emits (batch_event env a fmts (f :: rest))
                       (eprint ("Failed transcription for " ++ f ++ ": " ++ m) ;;
                        if fail_on_error a then ret 1%Z
                        else batch env a fmts rest (fl ++ [f]))).
      { apply emits_bind; [now apply emits_emit | intros _].
        destruct (fail_on_error a); [apply emits_ret | apply Rest]. }
      destruct (Tail _ _ _ H) as [evs [E F]]. cbn [trace] in E.
      exists (attempt_event env a f :: evs). split.
      * now rewrite E, <- app_assoc.
      * constructor; trivial. now split.
    + assert (Tail : emits (batch_event env a fmts (f :: rest))
                       (write_outputs env fmts f (out_folder_of a f) (base_of f)
                          result ;;
                        batch env a fmts rest fl)).
      { apply emits_bind; [|intros _; apply Rest].
        apply emits_weaken with (2 := emits_write_outputs a fmts f result).
        intros [] O; cbn in O |- *; trivial; try contradiction.
        exists f. split; [exact Here | split; trivial].
        unfold fails. now rewrite T. }
      destruct (Tail _ _ _ H) as [evs [E F]]. cbn [trace] in E.
      exists (attempt_event env a f :: evs). split.
      * now rewrite E, <- app_assoc.
      * constructor; trivial. now split.
Qed.

(** Every event of [main] is the scan, the creation of the output root,
    or an event of the loop over the discovered files. *)
Lemma main_events a w r w' :
  main env a w = (r, w') ->
  exists evs,
    trace w' = trace w ++ evs
    /\ Forall (main_event env a (parse_formats (formats a))
                 (find_audio_files_in (fs w) (input a) audio_exts)) evs.
Proof.
  intros H.
  destruct (formats_decide (parse_formats (formats a))) as [Hok|Hbad].
  - rewrite (main_accept env a w Hok) in H.
    apply batch_driver_cases in H.
    destruct H as [[_ [_ ->]]|[[_ [_ [_ ->]]]|[_ [t1 [_ H]]]]];
      cbn [trace].
    + rewrite <- app_assoc. eexists. split; [reflexivity|].
      repeat constructor.
    + rewrite <- app_assoc. eexists. split; [reflexivity|].
      constructor; [reflexivity|]. constructor; [now left | constructor].
    + destruct (emits_batch _ _ _ _ _ _ _ H) as [evs [E F]].
      cbn [trace] in E. rewrite <- !app_assoc in E.
      eexists. split; [exact E|].
      constructor; [reflexivity|]. constructor; [now left|].
      revert F. apply Forall_impl.
      intros [] B; cbn in B |- *; trivial; [contradiction | now right].
  - destruct (main_reject env a w Hbad) as [fmt E].
    rewrite E in H. injection H as <- <-. cbn [trace].
    eexists. split; [reflexivity|]. repeat constructor.
Qed.

End Events.

(** ** What a run leaves in place *)

Module FsFrame.
Import Fs FsFacts.

(** [mkdir_p] leaves every regular file as it is. *)
Lemma mkdir_p_keeps_file cs : forall q t t' c,
  lookup q t = Some (File c) -> mkdir_p cs t = Some t' ->
  lookup q t' = Some (File c).
Proof.
  induction cs as [|c0 rest IH]; intros q t t' c Hq H.
  - destruct t; simpl in H; [discriminate|]. now injection H as <-.
  - destruct t as [s|es]; simpl in H; [discriminate|].
    destruct (mkdir_p rest _) as [child'|] eqn:E; [|discriminate].
    injection H as <-.
    destruct q as [|c1 q']; [discriminate|]. simpl in Hq |- *.
    destruct (String.eqb_spec c0 c1) as [<-|Hne].
    + rewrite get_put_same.
      destruct (get c0 es) as [child|]; [|discriminate].
      exact (IH _ _ _ _ Hq E).
    + now rewrite (get_put_other _ _ _ _ Hne).
Qed.

(** What [store] writes is there afterwards. *)
Lemma store_lookup cs : forall s t t',
  store cs s t = Some t' -> lookup cs t' = Some (File s).
Proof.
  induction cs as [|c rest IH]; intros s t t' H; [discriminate|].
  destruct t as [s0|es]; [destruct rest; discriminate|].
  destruct rest as [|c1 rest'].
  - simpl in H. destruct (get c es) as [[s1|es1]|]; try discriminate;
      injection H as <-; simpl; now rewrite get_put_same.
  - rewrite store_below in H.
    destruct (get c es) as [child|]; [|discriminate].
    destruct (store (c1 :: rest') s child) as [child'|] eqn:E; [|discriminate].
    injection H as <-. cbn [lookup]. rewrite get_put_same.
    exact (IH _ _ _ E).
Qed.

(** [store] leaves every other regular file as it is. *)
Lemma store_keeps_file cs : forall q s t t' c,
  lookup q t = Some (File c) -> store cs s t = Some t' -> q <> cs ->
  lookup q t' = Some (File c).
Proof.
  induction cs as [|c0 rest IH]; intros q s t t' c Hq H Hne; [discriminate|].
  destruct t as [s0|es]; [destruct rest; discriminate|].
  destruct q as [|c1 q']; [discriminate|].
  destruct (store_shape _ _ _ _ _ H) as [n' E'].
  cbn [lookup] in Hq.
  destruct (get c1 es) as [ch|] eqn:G; [|discriminate].
  destruct (String.eqb_spec c0 c1) as [<-|Hc].
  - destruct rest as [|c2 rest'].
    + simpl in H. rewrite G in H. destruct ch as [s1|es1]; [|discriminate].
      destruct q'; [now elim Hne | discriminate].
    + rewrite store_below, G in H.
      destruct (store (c2 :: rest') s ch) as [child'|] eqn:E; [|discriminate].
      injection H as <-. cbn [lookup]. rewrite get_put_same.
      apply (IH _ _ _ _ _ Hq E). intros ->. now elim Hne.
  - subst t'. cbn [lookup]. now rewrite (get_put_other _ _ _ _ Hc), G.
Qed.

(** Without the directory above it, no file is made. *)
Lemma store_needs_parent p : forall c q s t,
  (forall es, lookup p t <> Some (Dir es)) -> store (p ++ c :: q) s t = None.
Proof.
  induction p as [|c0 p IH]; intros c q s t H.
  - destruct t as [s0|es]; [destruct q; reflexivity|].
    elim (H es). reflexivity.
  - cbn [app]. destruct (p ++ c :: q) as [|c1 r] eqn:A;
      [destruct p; discriminate|].
    destruct t as [s0|es]; [reflexivity|].
    rewrite store_below. cbn [lookup] in H.
    destruct (get c0 es) as [child|]; trivial.
    rewrite <- A. now rewrite (IH c q s child H).
Qed.

(** Writing what is there already changes nothing. *)
Lemma store_again cs : forall s t t',
  store cs s t = Some t' -> store cs s t' = Some t'.
Proof.
  induction cs as [|c rest IH]; intros s t t' H; [discriminate|].
  destruct t as [s0|es]; [destruct rest; discriminate|].
  destruct rest as [|c1 rest'].
  - simpl in H.
    assert (E : t' = Dir (put c (File s) es)).
    { destruct (get c es) as [[s1|es1]|]; try discriminate;
        now injection H as <-. }
    subst t'. simpl. rewrite get_put_same.
    now rewrite (put_get_id _ _ _ (get_put_same c (File s) es)).
  - rewrite store_below in H.
    destruct (get c es) as [child|]; [|discriminate].
    destruct (store (c1 :: rest') s child) as [child'|] eqn:E; [|discriminate].
    injection H as <-. rewrite store_below, get_put_same, (IH _ _ _ E).
    now rewrite (put_get_id _ _ _ (get_put_same c child' es)).
Qed.

(** The walk of [makedirs] leaves every regular file as it is. *)
Lemma mkdirs_keeps_file ok cs here t t' done q c :
  mkdirs ok here cs t = (t', done) ->
  lookup q t = Some (File c) -> lookup q t' = Some (File c).
Proof.
  intros H. revert q c.
  refine (mkdirs_steps
            (fun t t' => forall q c, lookup q t = Some (File c) ->
                                     lookup q t' = Some (File c))
            ok _ _ _ cs here t t' done H); auto.
  intros q0 t0 t1 E q c L. exact (mkdir_p_keeps_file _ _ _ _ _ L E).
Qed.

Lemma makedirs_keeps_file p s s' done q c :
  makedirs p s = (s', done) ->
  lookup q (tree s) = Some (File c) -> lookup q (tree s') = Some (File c).
Proof.
  unfold makedirs. destruct (p =? "")%string; [now intros [= <- _]|].
  destruct (mkdirs _ _ _ _) as [t d] eqn:E. intros [= <- _].
  apply (mkdirs_keeps_file _ _ _ _ _ _ _ _ E).
Qed.

(** What [open_write] writes can be read back. *)
Lemma open_write_read p c s s' :
  open_write p c s = Some s' -> read p s' = Some c.
Proof.
  intros H. pose proof (open_write_process _ _ _ _ H) as P.
  pose proof (open_write_stay _ _ _ _ H) as D.
  apply open_write_spec in H.
  destruct H as [Hp [N [q [t [Hq [_ [E ->]]]]]]].
  apply read_spec. repeat split; trivial. exists q. split.
  - exact (place_stable _ _ _ _ P D Hq).
  - exact (store_lookup _ _ _ _ E).
Qed.

End FsFrame.

Section Frame.

Variable env : Env.

Lemma same_process_refl s : same_process s s.
Proof. now split. Qed.

Lemma same_process_trans s1 s2 s3 :
  same_process s1 s2 -> same_process s2 s3 -> same_process s1 s3.
Proof. intros [C1 P1] [C2 P2]. split; congruence. Qed.

Lemma kept_refl w : kept w w.
Proof.
  exists []. rewrite app_nil_r. split; [reflexivity|].
  split; [apply same_process_refl|].
  split; [apply FsFacts.dirs_stay_refl|]. eauto.
Qed.

Lemma kept_trans w1 w2 w3 : kept w1 w2 -> kept w2 w3 -> kept w1 w3.
Proof.
  intros [e1 [T1 [P1 [D1 F1]]]] [e2 [T2 [P2 [D2 F2]]]].
  exists (e1 ++ e2). rewrite T2, T1, app_assoc. split; trivial.
  split; [exact (same_process_trans _ _ _ P1 P2)|].
  split; [exact (FsFacts.dirs_stay_trans _ _ _ D1 D2)|].
  intros q c L. destruct (F1 _ _ L) as [c1 [L1 W1]].
  destruct (F2 _ _ L1) as [c2 [L2 W2]].
  exists c2. split; trivial.
  destruct W2 as [->|[p [Hin Hp]]].
  - destruct W1 as [->|[p [Hin Hp]]]; [now left | right].
    exists p. split; [apply in_or_app; now left|].
    exact (FsFacts.place_stable _ _ _ _ P2 D2 Hp).
  - right. exists p. split; trivial. apply in_or_app. now right.
Qed.

(** A step that leaves the file system as it is. *)
Lemma kept_still w evs : kept w (mkWorld (fs w) (trace w ++ evs)).
Proof.
  exists evs. split; [reflexivity|]. cbn [fs].
  split; [apply same_process_refl|].
  split; [apply FsFacts.dirs_stay_refl|]. eauto.
Qed.

Lemma keeps_emit e : keeps (emit e).
Proof. intros w r w' [= <- <-]. apply kept_still. Qed.

Lemma keeps_ensure_dir path : keeps (ensure_dir path).
Proof.
  intros w r w'. unfold ensure_dir.
  destruct (Fs.makedirs path (fs w)) as [s done] eqn:E. intros [= <- <-].
  eexists. cbn [fs trace]. split; [reflexivity|].
  split; [exact (FsFacts.makedirs_process _ _ _ _ E)|].
  split; [exact (FsFacts.makedirs_stay _ _ _ _ E)|].
  intros q c L. exists c. split; [|now left].
  exact (FsFrame.makedirs_keeps_file _ _ _ _ _ _ E L).
Qed.

Lemma keeps_save_text path content : keeps (save_text path content).
Proof.
  intros w r w'. unfold save_text, fs_call.
  destruct (Fs.open_write path content (fs w)) as [s|] eqn:E;
    intros [= <- <-]; [|apply kept_still].
  pose proof (FsFacts.open_write_process _ _ _ _ E) as P.
  pose proof (FsFacts.open_write_stay _ _ _ _ E) as D.
  eexists. cbn [fs trace]. split; [reflexivity|].
  split; trivial. split; trivial.
  apply FsFacts.open_write_spec in E.
  destruct E as [_ [_ [q0 [t [Hq [_ [E ->]]]]]]]. cbn [Fs.tree] in *.
  intros q c L.
  destruct (list_eq_dec string_dec q q0) as [->|Hne].
  - exists content. split; [exact (FsFrame.store_lookup _ _ _ _ E)|].
    right. exists path. split; [now left|].
    exact (FsFacts.place_stable _ _ _ _ P D Hq).
  - exists c. split; [|now left].
    exact (FsFrame.store_keeps_file _ _ _ _ _ _ L E Hne).
Qed.

Lemma keeps_guarded a f k (msg : exn -> string) result :
  In k supported ->
  keeps
    (r0 <- try_except (write_timecoded env result f (out_folder_of a f) k) ;;
     match r0 with
     | inl exc => eprint (msg exc)
     | inr _ => ret tt
     end).
Proof.
  apply (steps_guarded env kept kept_refl kept_trans keeps_emit).
  intros a0 f0 k0 content _. apply keeps_save_text.
Qed.

Lemma keeps_batch a fmts files fl : keeps (batch env a fmts files fl).
Proof.
  apply (steps_batch env kept kept_refl kept_trans keeps_emit
           keeps_ensure_dir).
  intros a0 f0 k0 content _. apply keeps_save_text.
Qed.

Lemma keeps_main a : keeps (main env a).
Proof.
  apply (steps_main env kept kept_refl kept_trans keeps_emit
           keeps_ensure_dir).
  intros a0 f0 k0 content _. apply keeps_save_text.
Qed.

End Frame.


(** ** The base names of discovered files *)

Module PathMore.
Import PathFacts.

Lemma lower_char_slash c :
  Ascii.eqb (Py.lower_char c) "/" = Ascii.eqb c "/".
Proof. destruct c as [[] [] [] [] [] [] [] []]; reflexivity. Qed.

Lemma has_char_lower_slash s :
  Py.has_char "/" (Py.lower s) = Py.has_char "/" s.
Proof.
  induction s as [|c s IH]; cbn [Py.lower Py.has_char]; trivial.
  now rewrite lower_char_slash, IH.
Qed.

Lemma length_lower s : String.length (Py.lower s) = String.length s.
Proof. induction s as [|c s IH]; cbn; [reflexivity | now rewrite IH]. Qed.

Lemma length_app a b :
  String.length (a ++ b) = String.length a + String.length b.
Proof. induction a as [|c a IH]; cbn; [reflexivity | now rewrite IH]. Qed.

Lemma rfind_plain c s : Py.has_char c s = false -> Py.rfind c s = (-1)%Z.
Proof.
  induction s as [|a t IH]; cbn [Py.has_char Py.rfind]; trivial.
  intros H. apply orb_false_iff in H. destruct H as [-> H].
  now rewrite (IH H).
Qed.

Lemma basename_cons a t :
  OsPath.basename (String a t)
  = if (0 <=? Py.rfind "/" t)%Z then OsPath.basename t
    else if Ascii.eqb a "/" then t else String a t.
Proof.
  unfold OsPath.basename, Py.slice_from. cbn [Py.rfind].
  pose proof (rfind_range "/" t) as R.
  destruct (Z.leb_spec 0 (Py.rfind "/" t)) as [Hr|Hr].
  - replace (Z.to_nat (Py.rfind "/" t + 1 + 1))
      with (S (Z.to_nat (Py.rfind "/" t + 1))) by lia.
    reflexivity.
  - destruct (Ascii.eqb a "/"); reflexivity.
Qed.

(** The base name keeps every end of the path that holds no slash. *)
Lemma basename_suffix back : forall p,
  Py.has_char "/" back = false ->
  ends_with p back -> ends_with (OsPath.basename p) back.
Proof.
  intros p Hplain. induction p as [|a t IH]; intros [front E].
  - exists "". destruct front; [exact E | discriminate].
  - rewrite basename_cons. destruct front as [|b front].
    + cbn in E. subst back. cbn [Py.has_char] in Hplain.
      apply orb_false_iff in Hplain. destruct Hplain as [-> Ht].
      rewrite (rfind_plain _ _ Ht). now exists "".
    + injection E as <- E.
      assert (Ht : ends_with t back) by now exists front.
      destruct (0 <=? Py.rfind "/" t)%Z; [now apply IH|].
      destruct (Ascii.eqb a "/"); trivial.
      exists (String a front). cbn. now rewrite E.
Qed.

Lemma join_ends_with d b : ends_with (OsPath.join d b) b.
Proof.
  unfold OsPath.join. destruct (Py.startswith b "/"); [now exists ""|].
  destruct (_ || _); [now exists d|].
  exists (d ++ "/")%string. now rewrite append_assoc.
Qed.

Lemma ends_with_trans a b c : ends_with a b -> ends_with b c -> ends_with a c.
Proof.
  intros [f ->] [g ->]. exists (f ++ g)%string. now rewrite append_assoc.
Qed.

(** The root [splitext] gives for a name without a slash is the name, or
    a part of it that holds more than dots. *)
Lemma splitext_root n :
  Py.has_char "/" n = false ->
  fst (OsPath.splitext n) = n
  \/ OsPath.only_dots (fst (OsPath.splitext n)) = false.
Proof.
  intros H. unfold OsPath.splitext. rewrite (rfind_plain _ _ H).
  destruct (-1 <? Py.rfind "." n)%Z; [|now left].
  unfold Py.slice, Py.slice_to. cbn [Z.add Z.to_nat Py.drop].
  rewrite Nat.sub_0_r.
  destruct (OsPath.only_dots _) eqn:O; [now left | now right].
Qed.

Lemma only_dots_proper s :
  OsPath.only_dots s = false -> s <> "" /\ s <> "." /\ s <> "..".
Proof. intros H. repeat split; intros ->; discriminate. Qed.

(** A path whose lowercase ends with a suffix of three characters or
    more, none of them a slash, has a base that is a name of its own. *)
Lemma suffixed_base_proper p e :
  Py.has_char "/" e = false -> 2 < String.length e ->
  ends_with (Py.lower p) e ->
  base_of p <> "" /\ base_of p <> "." /\ base_of p <> "..".
Proof.
  intros Hplain Hlen He. apply PyFacts.ends_with_lower in He.
  destruct He as [front [back [-> Hb]]].
  assert (Pb : Py.has_char "/" back = false)
    by now rewrite <- has_char_lower_slash, Hb.
  assert (Lb : 2 < String.length back)
    by now rewrite <- length_lower, Hb.
  destruct (basename_suffix back (front ++ back) Pb) as [front' E];
    [now exists front|].
  unfold base_of.
  destruct (splitext_root _ (basename_plain (front ++ back))) as [R|R].
  - rewrite R, E.
    assert (L : 2 < String.length (front' ++ back))
      by (rewrite length_app; lia).
    repeat split; intros X; rewrite X in L; cbn in L; lia.
  - now apply only_dots_proper.
Qed.

End PathMore.

Section Found.

(** Every path the locator returns ends, in lowercase, with a member of
    the allow-list. *)
Lemma found_suffix t root exts p :
  In p (find_audio_files_in t root exts) ->
  Py.endswith_any (Py.lower p) exts = true.
Proof.
  unfold find_audio_files_in. destruct (Fs.isfile root t).
  - destruct (Py.endswith_any (Py.lower root) exts) eqn:E.
    + now intros [<-|[]].
    + intros [].
  - intros H. apply PyFacts.sorted_In, in_flat_map in H.
    destruct H as [[[dirpath dirs] files] [_ H]].
    apply in_map_iff in H. destruct H as [name [<- H]].
    apply filter_In in H. destruct H as [_ W].
    apply PyFacts.endswith_any_spec in W. destruct W as [e [He W]].
    apply PyFacts.endswith_any_spec. exists e. split; trivial.
    apply PathMore.ends_with_trans with (Py.lower name); trivial.
    destruct (PathMore.join_ends_with dirpath name) as [front ->].
    exists (Py.lower front). apply PyFacts.lower_app.
Qed.

Lemma audio_exts_plain e :
  In e audio_exts -> Py.has_char "/" e = false /\ 2 < String.length e.
Proof.
  intros [<-|[<-|[<-|[<-|[<-|[<-|[<-|[<-|[<-|[]]]]]]]]]]; split;
    trivial; cbn; lia.
Qed.

Lemma found_proper t root p :
  In p (find_audio_files_in t root audio_exts) ->
  proper_base p /\ base_of p <> "..".
Proof.
  intros H. apply found_suffix, PyFacts.endswith_any_spec in H.
  destruct H as [e [He H]]. destruct (audio_exts_plain e He) as [P L].
  destruct (PathMore.suffixed_base_proper p e P L H) as [A [B C]].
  now repeat split.
Qed.

End Found.

(** ** How a run can end *)

Section Stops.

Variable env : Env.

Lemma stops_returns Q {A} (m : M A) : returns m -> stops Q m.
Proof. intros Hm w e w' H. destruct (Hm w) as [x [w1 E]]. congruence. Qed.

Lemma stops_fs_call (Q : exn -> event -> Prop) ev f message :
  Q (OSError message) (ev false) -> stops Q (fs_call ev f message).
Proof.
  intros HQ w e w'. unfold fs_call.
  destruct (f (fs w)); intros [= <- <-]. cbn [trace]. eauto.
Qed.

Lemma stops_ensure_dir (Q : exn -> event -> Prop) path :
  Q (OSError path) (EvMakedirs path false) -> stops Q (ensure_dir path).
Proof.
  intros HQ w e w'. unfold ensure_dir.
  destruct (Fs.makedirs path (fs w)) as [s [|]]; intros [= <- <-].
  cbn [trace]. eauto.
Qed.

Lemma stops_bind Q {A B} (m : M A) (k : A -> M B) :
  stops Q m -> (forall x, stops Q (k x)) -> stops Q (bind m k).
Proof.
  intros Hm Hk w e w'. unfold bind.
  destruct (m w) as [[x|e0] w1] eqn:E.
  - apply Hk.
  - intros [= <- <-]. exact (Hm _ _ _ E).
Qed.

Lemma stops_weaken (Q Q' : exn -> event -> Prop) {A} (m : M A) :
  (forall e ev, Q e ev -> Q' e ev) -> stops Q m -> stops Q' m.
Proof.
  intros QQ Hm w e w' E. destruct (Hm _ _ _ E) as [tr [ev [T H]]].
  exists tr, ev. auto.
Qed.

Lemma stops_write_outputs a fmts f result :
  stops (output_stop a fmts f)
    (write_outputs env fmts f (out_folder_of a f) (base_of f) result).
Proof.
  unfold write_outputs.
  repeat (apply stops_bind; [|intros _]);
    try (apply stops_returns, returns_emit).
  - destruct (Py.contains fmts "txt") eqn:C; [|apply stops_returns, returns_ret].
    apply stops_fs_call. exists "txt". repeat split; auto.
    now apply PyFacts.contains_spec.
  - destruct (Py.contains fmts "json") eqn:C; [|apply stops_returns, returns_ret].
    apply stops_fs_call. exists "json". repeat split; auto.
    now apply PyFacts.contains_spec.
  - apply stops_returns. destruct (Py.contains fmts "srt"); [|apply returns_ret].
    apply returns_bind.
    + apply returns_try with (p := is_output), only_write_timecoded.
    + intros [exc|[]]; [apply returns_emit | apply returns_ret].
  - apply stops_returns. destruct (Py.contains fmts "vtt"); [|apply returns_ret].
    apply returns_bind.
    + apply returns_try with (p := is_output), only_write_timecoded.
    + intros [exc|[]]; [apply returns_emit | apply returns_ret].
Qed.

Lemma batch_stop_more a fmts f files e ev :
  batch_stop env a fmts files e ev -> batch_stop env a fmts (f :: files) e ev.
Proof.
  intros [[g [Hg H]]|[g [Hg H]]]; [left | right]; exists g;
    (split; [now right | exact H]).
Qed.

Lemma stops_batch a fmts files : forall fl,
  stops (batch_stop env a fmts files) (batch env a fmts files fl).
Proof.
  induction files as [|f rest IH]; intros fl; cbn [batch].
  - apply stops_returns. destruct (_ && _); apply returns_ret.
  - assert (Rest : forall fl', stops (batch_stop env a fmts (f :: rest))
                                 (batch env a fmts rest fl')).
    { intros fl'. apply stops_weaken with (2 := IH fl').
      intros e ev. apply batch_stop_more. }
    apply stops_bind.
    { apply stops_ensure_dir. left. exists f. repeat split. now left. }
    intros _. apply stops_bind; [apply stops_returns, returns_emit | intros _].
    intros w e w'. unfold bind at 1. rewrite try_transcribe.
    destruct (transcription env a f) as [m|result] eqn:T.
    + apply stops_bind; [apply stops_returns, returns_emit | intros _].
      destruct (fail_on_error a); [apply stops_returns, returns_ret | apply Rest].
    + apply stops_bind; [|intros _; apply Rest].
      apply stops_weaken with (2 := stops_write_outputs a fmts f result).
      intros e0 ev H. right. exists f. split; [now left | split; trivial].
      unfold fails. now rewrite T.
Qed.

(** With fail-fast on nothing is ever put on the list of failures; so a
    loop that returns something else than 0 returned from the handler of
    a failed transcription, right after its diagnostic. *)
Lemma batch_status_1 a fmts files : forall fl w code w',
  (fail_on_error a = true -> fl = []) ->
  batch env a fmts files fl w = (Ok code, w') ->
  code <> 0%Z ->
  exists tr f m,
    In f files /\ transcription env a f = inl m
    /\ trace w'
       = tr ++ [attempt_event env a f;
                EvStderr ("Failed transcription for " ++ f ++ ": " ++ m)].
Proof.
  induction files as [|f rest IH]; intros fl w code w' Hfl H Hc.
  - cbn [batch] in H. destruct (fail_on_error a) eqn:Hff.
    + rewrite (Hfl eq_refl) in H. injection H as <- <-. now elim Hc.
    + rewrite andb_false_r in H. injection H as <- <-. now elim Hc.
  - apply batch_step in H. cbn zeta in H.
    destruct H as [[_ [H _]]|[t1 [_ [[m [Tm H]]|[res [ro [w3 [_ [W H]]]]]]]]].
    + discriminate.
    + destruct (fail_on_error a) eqn:Hff.
      * destruct H as [_ ->]. cbn [trace].
        exists (trace w ++ [EvMakedirs (out_folder_of a f) true;
                            EvStdout ("Transcribing: " ++ f)]), f, m.
        split; [now left | split; trivial].
        now rewrite <- !app_assoc.
      * destruct (IH _ _ _ _ (fun X => False_ind _ (diff_false_true X)) H Hc)
          as [tr [g [m' [Hg R]]]].
        exists tr, g, m'. split; [now right | exact R].
    + destruct ro as [[]|e]; [|destruct H; discriminate].
      destruct (IH _ _ _ _ Hfl H Hc) as [tr [g [m' [Hg R]]]].
      exists tr, g, m'. split; [now right | exact R].
Qed.

End Stops.

(** ** The transcripts after a run *)

Section Outputs.

Variable env : Env.

Lemma same_place_sym p q s : same_place p q s -> same_place q p s.
Proof. intros [x [A B]]. now exists x. Qed.

(** A command that removes nothing and opens only files at other places
    than [q] leaves [q] as it is. *)
Lemma read_kept {A} (m : M A) (P : event -> Prop) q c w r w' :
  keeps m -> emits P m ->
  (forall p, P (EvOpenWrite p true) -> ~ same_place p q (fs w')) ->
  m w = (r, w') ->
  Fs.read q (fs w) = Some c -> Fs.read q (fs w') = Some c.
Proof.
  intros K E Hfree H Hq.
  destruct (K _ _ _ H) as [evs [T [Pr [D F]]]].
  destruct (E _ _ _ H) as [evs' [T' FA]].
  rewrite T in T'. apply app_inv_head in T'. subst evs'.
  apply FsFacts.read_spec in Hq. destruct Hq as [Hne [N [q0 [Hq0 L]]]].
  pose proof (FsFacts.place_stable _ _ _ _ Pr D Hq0) as Hq0'.
  apply FsFacts.read_spec. repeat split; trivial. exists q0. split; trivial.
  destruct (F _ _ L) as [c' [L' [->|[p [Hin Hp]]]]]; trivial.
  rewrite Forall_forall in FA. elim (Hfree p (FA _ Hin)). now exists q0.
Qed.

Lemma append_inj_l (a x y : string) : (a ++ x = a ++ y)%string -> x = y.
Proof. induction a as [|c a IH]; cbn; [trivial | intros [= E]; auto]. Qed.

(** The name of an output file is a proper name. *)
Lemma output_name_proper base k :
  In k supported ->
  let name := (base ++ "." ++ k)%string in
  Py.has_char "/" base = false ->
  Py.has_char "/" name = false
  /\ name <> "" /\ name <> "." /\ name <> "..".
Proof.
  intros Hk name Hb. unfold name. split.
  - rewrite PathFacts.has_char_app, Hb.
    destruct Hk as [<-|[<-|[<-|[<-|[]]]]]; reflexivity.
  - destruct Hk as [<-|[<-|[<-|[<-|[]]]]];
      (destruct base as [|a [|b [|c t]]]; cbn; repeat split; discriminate).
Qed.

(** The output file of a format lies in the folder of the file, under
    the name [<base>.<format>]. *)
Lemma output_path_place a f k s :
  In k supported ->
  Fs.place (output_path a f k) s
  = match Fs.place (out_folder_of a f) s with
    | Some q => Some (q ++ [(base_of f ++ "." ++ k)%string])
    | None => None
    end.
Proof.
  intros Hk. unfold output_path.
  destruct (output_name_proper (base_of f) k Hk (PathFacts.base_of_plain f))
    as [P [N1 [N2 N3]]].
  now apply FsFacts.place_join.
Qed.

(** The output folder of a file lies in the output root, under the base
    name of the file. *)
Lemma out_folder_place a f s :
  proper_base f ->
  Fs.place (out_folder_of a f) s
  = match Fs.place (out_dir a) s with
    | Some q => Some (q ++ [base_of f])
    | None => None
    end.
Proof.
  intros [N1 [N2 N3]]. unfold out_folder_of.
  apply FsFacts.place_join; trivial. apply PathFacts.base_of_plain.
Qed.

(** Two formats of one file have two output files. *)
Lemma output_path_sibling a f k k' s :
  In k supported -> In k' supported -> k <> k' ->
  ~ same_place (output_path a f k) (output_path a f k') s.
Proof.
  intros Hk Hk' Hne [x [A B]].
  rewrite (output_path_place a f k s Hk) in A.
  rewrite (output_path_place a f k' s Hk') in B.
  destruct (Fs.place (out_folder_of a f) s) as [q|]; [|discriminate].
  injection A as <-. injection B as B.
  apply app_inv_head in B. injection B as B.
  apply append_inj_l in B. injection B as B. now elim Hne.
Qed.

(** Files with two base names have their output files in two folders. *)
Lemma output_path_other a f g k k' s :
  proper_base f -> proper_base g -> In k supported -> In k' supported ->
  base_of g <> base_of f ->
  ~ same_place (output_path a g k') (output_path a f k) s.
Proof.
  intros Pf Pg Hk Hk' Hne [x [A B]].
  rewrite (output_path_place a g k' s Hk'), (out_folder_place a g s Pg) in A.
  rewrite (output_path_place a f k s Hk), (out_folder_place a f s Pf) in B.
  destruct (Fs.place (out_dir a) s) as [q|]; [|discriminate].
  injection A as <-. injection B as B.
  rewrite <- !app_assoc in B. apply app_inv_head in B.
  injection B as B _. now elim Hne.
Qed.

(** A text write that was asked for and went through can be read back;
    one that was not asked for changes nothing. *)
Lemma saved_output a f k b content w w' :
  when b (save_text (output_path a f k) content) w = (Ok tt, w') ->
  (b = true -> Fs.read (output_path a f k) (fs w') = Some content)
  /\ (forall q c, Fs.read q (fs w) = Some c ->
                  ~ same_place (output_path a f k) q (fs w') ->
                  Fs.read q (fs w') = Some c).
Proof.
  intros H. split.
  - intros ->. cbn [when] in H. unfold save_text, fs_call in H.
    destruct (Fs.open_write _ _ _) as [t|] eqn:E; [|discriminate].
    injection H as <-. exact (FsFrame.open_write_read _ _ _ _ E).
  - intros q c Hq Hne.
    refine (read_kept _ (fun e => exists ok,
                           e = EvOpenWrite (output_path a f k) ok)
              q c w _ w' _ _ _ H Hq).
    + apply (steps_when kept kept_refl), keeps_save_text.
    + apply emits_when, emits_fs_call; eauto.
    + intros p [ok [= -> _]]. exact Hne.
Qed.

(** A guarded caption writer leaves the other files as they are. *)
Lemma guarded_caption_kept a f k b (msg : exn -> string) result q c w r w' :
  In k supported ->
  when b (r0 <- try_except
                  (write_timecoded env result f (out_folder_of a f) k) ;;
          match r0 with
          | inl exc => eprint (msg exc)
          | inr _ => ret tt
          end) w = (r, w') ->
  Fs.read q (fs w) = Some c ->
  ~ same_place (output_path a f k) q (fs w') ->
  Fs.read q (fs w') = Some c.
Proof.
  intros Hk H Hq Hne.
  assert (C : Py.contains [k] k = true)
    by (apply PyFacts.contains_spec; now left).
  refine (read_kept _ (output_event a [k] f) q c w r w' _ _ _ H Hq).
  - apply (steps_when kept kept_refl). now apply keeps_guarded.
  - apply emits_when, emits_bind.
    + now apply emits_try, emits_write_timecoded.
    + intros [exc|[]]; [now apply emits_emit | apply emits_ret].
  - intros p [k' [[<-|[]] [_ ->]]]. exact Hne.
Qed.

(** When the output step of a file returns, the text and the JSON file
    that were asked for hold the transcript and the serialised result. *)
Lemma write_outputs_saved a fmts f result w w3 :
  write_outputs env fmts f (out_folder_of a f) (base_of f) result w
  = (Ok tt, w3) ->
  (In "txt" fmts ->
   Fs.read (output_path a f "txt") (fs w3) = Some (transcript env result))
  /\ (In "json" fmts ->
      Fs.read (output_path a f "json") (fs w3) = Some (json_dumps env result)).
Proof.
  unfold write_outputs. intros H.
  unfold bind at 1 in H.
  destruct (when (Py.contains fmts "txt") _ w) as [[[]|e] w1] eqn:E1;
    [|discriminate].
  unfold bind at 1 in H.
  destruct (when (Py.contains fmts "json") _ w1) as [[[]|e] w2] eqn:E2;
    [|discriminate].
  unfold bind at 1 in H.
  destruct (when (Py.contains fmts "srt") _ w2) as [[[]|e] w4] eqn:E3;
    [|discriminate].
  unfold bind at 1 in H.
  destruct (when (Py.contains fmts "vtt") _ w4) as [[[]|e] w5] eqn:E4;
    [|discriminate].
  injection H as <-. cbn [fs].
  assert (Ssrt : In "srt" supported) by (simpl; tauto).
  assert (Svtt : In "vtt" supported) by (simpl; tauto).
  destruct (saved_output a f "txt" _ _ _ _ E1) as [T1 _].
  destruct (saved_output a f "json" _ _ _ _ E2) as [J2 K2].
  assert (K3 : forall q c, Fs.read q (fs w2) = Some c ->
             ~ same_place (output_path a f "srt") q (fs w4) ->
             Fs.read q (fs w4) = Some c).
  { intros q c.
    exact (guarded_caption_kept a f "srt" _ _ _ _ _ _ _ _ Ssrt E3). }
  assert (K4 : forall q c, Fs.read q (fs w4) = Some c ->
             ~ same_place (output_path a f "vtt") q (fs w5) ->
             Fs.read q (fs w5) = Some c).
  { intros q c.
    exact (guarded_caption_kept a f "vtt" _ _ _ _ _ _ _ _ Svtt E4). }
  split; intros Hin; apply PyFacts.contains_spec in Hin.
  - apply K4; [apply K3; [apply K2; [exact (T1 Hin)|]|]|];
      apply output_path_sibling; simpl; try tauto; discriminate.
  - apply K4; [apply K3; [exact (J2 Hin)|]|];
      apply output_path_sibling; simpl; try tauto; discriminate.
Qed.

(** The loop over files with other base names leaves the output files of
    [f] as they are. *)
Lemma batch_keeps_outputs a fmts f k files fl c w r w' :
  proper_base f -> Forall proper_base files -> In k supported ->
  (forall g, In g files -> base_of g <> base_of f) ->
  batch env a fmts files fl w = (r, w') ->
  Fs.read (output_path a f k) (fs w) = Some c ->
  Fs.read (output_path a f k) (fs w') = Some c.
Proof.
  intros Pf Pfiles Hk Hother.
  apply (read_kept _ (batch_event env a fmts files)).
  - apply keeps_batch.
  - apply emits_batch.
  - intros p [g [Hg [_ [k' [_ [Hk' ->]]]]]].
    rewrite Forall_forall in Pfiles.
    apply output_path_other; auto.
Qed.

(** A loop that returns 0 has run the output step of each file the
    recognition capability accepts, and the step returned. *)
Lemma batch_outputs a fmts pre f post result : forall fl w w',
  batch env a fmts (pre ++ f :: post) fl w = (Ok 0%Z, w') ->
  transcription env a f = inr result ->
  exists w1 w2 fl',
    write_outputs env fmts f (out_folder_of a f) (base_of f) result w1
    = (Ok tt, w2)
    /\ batch env a fmts post fl' w2 = (Ok 0%Z, w').
Proof.
  induction pre as [|g pre IH]; intros fl w w' H T; cbn [app] in H;
    apply batch_step in H; cbn zeta in H;
    destruct H as [[_ [H _]]|[t1 [_ [[m [Tm H]]|[res [ro [w3 [Tr [W H]]]]]]]]];
    try discriminate.
  - congruence.
  - destruct ro as [[]|e]; [|destruct H; discriminate].
    assert (res = result) as -> by congruence. eauto.
  - destruct (fail_on_error a); [destruct H; discriminate|].
    exact (IH _ _ _ H T).
  - destruct ro as [[]|e]; [|destruct H; discriminate].
    exact (IH _ _ _ H T).
Qed.

End Outputs.

(** ** Directory creation *)

Module FsMakedirs.
Import Fs FsFacts.

(** [mkdir_p] fails only on a regular file along the path. *)
Lemma mkdir_p_none cs : forall t,
  mkdir_p cs t = None ->
  exists q rest c, cs = q ++ rest /\ lookup q t = Some (File c).
Proof.
  induction cs as [|c0 cs IH]; intros t H.
  - destruct t as [c|es]; [|discriminate]. now exists [], [], c.
  - destruct t as [c|es]; [now exists [], (c0 :: cs), c|].
    simpl in H.
    destruct (mkdir_p cs _) as [child'|] eqn:E; [discriminate|].
    destruct (IH _ E) as [q [rest [c [-> L]]]].
    exists (c0 :: q), rest, c. split; trivial. simpl.
    destruct (get c0 es) as [child|]; trivial.
    destruct q; simpl in L; [discriminate|]. discriminate.
Qed.

(** A regular file along the path makes [mkdir_p] fail. *)
Lemma mkdir_p_blocked q : forall rest t c,
  lookup q t = Some (File c) -> mkdir_p (q ++ rest) t = None.
Proof.
  induction q as [|c0 q IH]; intros rest t c L.
  - injection L as ->. now destruct rest.
  - destruct t as [s|es]; [discriminate|]. simpl in L |- *.
    destruct (get c0 es) as [child|]; [|discriminate].
    now rewrite (IH rest child c L).
Qed.

(** After [mkdir_p] every directory along the path is there. *)
Lemma mkdir_p_prefix cs t t' q rest :
  mkdir_p cs t = Some t' -> cs = q ++ rest ->
  exists es, lookup q t' = Some (Dir es).
Proof.
  intros H ->. destruct (mkdir_p_lookup _ _ _ H) as [_ [es L]].
  rewrite lookup_app in L.
  destruct (lookup q t') as [[c|es']|]; [|eauto|discriminate].
  destruct rest; discriminate.
Qed.

End FsMakedirs.

(** ** The progress report *)

Section Progress.

Variable env : Env.

Lemma stdout_app xs ys : stdout (xs ++ ys) = stdout xs ++ stdout ys.
Proof.
  induction xs as [|e xs IH]; simpl; trivial.
  destruct e; simpl; now rewrite ?IH.
Qed.

Lemma stdout_quiet evs : Forall quiet evs -> stdout evs = [].
Proof.
  induction 1 as [|e evs He _ IH]; trivial.
  destruct e; simpl; trivial. contradiction.
Qed.

Lemma emits_quiet_caption result f d k (msg : exn -> string) b :
  emits quiet
    (when b (r0 <- try_except (write_timecoded env result f d k) ;;
             match r0 with
             | inl exc => eprint (msg exc)
             | inr _ => ret tt
             end)).
Proof.
  apply emits_when, emits_bind.
  - apply emits_try. unfold write_timecoded.
    destruct (render_captions env k result) as [m|[written [m|]]].
    + apply emits_raise.
    + apply emits_bind; [now apply emits_fs_call | intros _; apply emits_raise].
    + apply emits_bind; [now apply emits_fs_call | intros _; apply emits_ret].
  - intros [exc|[]]; [now apply emits_emit | apply emits_ret].
Qed.

Lemma quiet_step {A} (m : M A) w r w' :
  emits quiet m -> m w = (r, w') -> stdout (trace w') = stdout (trace w).
Proof.
  intros Q H. destruct (Q _ _ _ H) as [evs [-> F]].
  now rewrite stdout_app, (stdout_quiet _ F), app_nil_r.
Qed.

(** An output step that returns prints its one line last. *)
Lemma write_outputs_stdout fmts f d base result w w3 :
  write_outputs env fmts f d base result w = (Ok tt, w3) ->
  stdout (trace w3)
  = stdout (trace w) ++ [("Saved transcripts to: " ++ d)%string].
Proof.
  unfold write_outputs. intros H.
  unfold bind at 1 in H.
  destruct (when (Py.contains fmts "txt") _ w) as [[[]|e] w1] eqn:E1;
    [|discriminate].
  unfold bind at 1 in H.
  destruct (when (Py.contains fmts "json") _ w1) as [[[]|e] w2] eqn:E2;
    [|discriminate].
  unfold bind at 1 in H.
  destruct (when (Py.contains fmts "srt") _ w2) as [[[]|e] w4] eqn:E3;
    [|discriminate].
  unfold bind at 1 in H.
  destruct (when (Py.contains fmts "vtt") _ w4) as [[[]|e] w5] eqn:E4;
    [|discriminate].
  injection H as <-. cbn [trace]. rewrite stdout_app. f_equal.
  apply quiet_step in E1; [|apply emits_when; now apply emits_fs_call].
  apply quiet_step in E2; [|apply emits_when; now apply emits_fs_call].
  apply quiet_step in E3;
    [|apply (emits_quiet_caption result f d "srt"
               (fun exc => "Failed SRT writing for " ++ f ++ ": "
                           ++ exn_message env exc)%string)].
  apply quiet_step in E4;
    [|apply (emits_quiet_caption result f d "vtt"
               (fun exc => "Failed VTT writing for " ++ f ++ ": "
                           ++ exn_message env exc)%string)].
  congruence.
Qed.

(** The report of a loop that returns 0, and the diagnostics of the
    files the recognition capability refused. *)
Lemma batch_progress a fmts files : forall fl w w',
  batch env a fmts files fl w = (Ok 0%Z, w') ->
  exists evs,
    trace w' = trace w ++ evs
    /\ stdout evs = progress env a files
    /\ forall f m, In f files -> transcription env a f = inl m ->
         In (EvStderr ("Failed transcription for " ++ f ++ ": " ++ m)) evs.
Proof.
  induction files as [|f rest IH]; intros fl w w' H.
  - cbn [batch] in H. exists [].
    destruct (_ && _); [discriminate|]. injection H as <-.
    rewrite app_nil_r. repeat split. intros f m [].
  - apply batch_step in H. cbn zeta in H.
    destruct H as [[_ [H _]]|[t1 [_ [[m [Tm H]]|[res [ro [w3 [Tr [W H]]]]]]]]].
    + discriminate.
    + destruct (fail_on_error a); [destruct H; discriminate|].
      destruct (IH _ _ _ H) as [evs [T [S D]]]. cbn [trace] in T.
      rewrite <- !app_assoc in T. eexists. split; [exact T|]. split.
      * cbn [app stdout progress flat_map]. unfold attempt_event.
        cbn [stdout]. unfold fails at 1. rewrite Tm. cbn [app].
        now rewrite S.
      * intros g m' [<-|Hg] Tg.
        -- assert (m' = m) as -> by congruence.
           do 3 right. now left.
        -- do 4 right. exact (D g m' Hg Tg).
    + destruct ro as [[]|e]; [|destruct H; discriminate].
      destruct (IH _ _ _ H) as [evs [T [S D]]].
      destruct (emits_write_outputs env a fmts f res _ _ _ W) as [ev1 [T1 _]].
      pose proof (write_outputs_stdout _ _ _ _ _ _ _ W) as S1.
      rewrite T1, stdout_app in S1. apply app_inv_head in S1.
      cbn [trace] in T1. rewrite T, T1, <- !app_assoc.
      eexists. split; [reflexivity|]. split.
      * cbn [app stdout progress flat_map]. unfold attempt_event.
        cbn [stdout]. unfold fails at 1. rewrite Tr. cbn [app].
        now rewrite stdout_app, S1, S.
      * intros g m' [<-|Hg] Tg; [congruence|].
        rewrite !in_app_iff. right. right. exact (D g m' Hg Tg).
Qed.

End Progress.

(** ** The order of directory entries *)

Module OrderFacts.

Lemma ascii_compare_trans c1 c2 c3 o :
  Ascii.compare c1 c2 = o -> Ascii.compare c2 c3 = o ->
  Ascii.compare c1 c3 = o.
Proof.
  unfold Ascii.compare. destruct o; intros H1 H2.
  - apply N.compare_eq_iff in H1. apply N.compare_eq_iff in H2.
    apply N.compare_eq_iff. congruence.
  - apply N.compare_lt_iff in H1. apply N.compare_lt_iff in H2.
    apply N.compare_lt_iff. now apply N.lt_trans with (N_of_ascii c2).
  - apply N.compare_gt_iff in H1. apply N.compare_gt_iff in H2.
    apply N.compare_gt_iff. now apply N.lt_trans with (N_of_ascii c2).
Qed.

Lemma ascii_compare_eq c1 c2 : Ascii.compare c1 c2 = Eq -> c1 = c2.
Proof. apply Ascii.compare_eq_iff. Qed.

(** The order of [sorted] on strings is transitive. *)
Lemma leb_trans s1 : forall s2 s3,
  String.leb s1 s2 = true -> String.leb s2 s3 = true ->
  String.leb s1 s3 = true.
Proof.
  unfold String.leb.
  induction s1 as [|c1 s1 IH]; intros [|c2 s2] [|c3 s3]; cbn; trivial;
    try discriminate.
  destruct (Ascii.compare c1 c2) eqn:C12; try discriminate;
    destruct (Ascii.compare c2 c3) eqn:C23; try discriminate; intros H1 H2.
  - rewrite (ascii_compare_trans _ _ _ _ C12 C23). now apply IH with s2.
  - apply ascii_compare_eq in C12. subst. now rewrite C23.
  - apply ascii_compare_eq in C23. subst. now rewrite C12.
  - now rewrite (ascii_compare_trans _ _ _ _ C12 C23).
Qed.

Lemma insert_sorted_comm x y xs :
  Py.insert_sorted x (Py.insert_sorted y xs)
  = Py.insert_sorted y (Py.insert_sorted x xs).
Proof.
  induction xs as [|z zs IH]; cbn [Py.insert_sorted].
  - destruct (String.leb x y) eqn:XY, (String.leb y x) eqn:YX; trivial.
    + now rewrite (String.leb_antisym _ _ XY YX).
    + destruct (String.leb_total x y); congruence.
  - destruct (String.leb y z) eqn:YZ, (String.leb x z) eqn:XZ;
      cbn [Py.insert_sorted]; rewrite ?YZ, ?XZ.
    + destruct (String.leb x y) eqn:XY, (String.leb y x) eqn:YX; trivial.
      * now rewrite (String.leb_antisym _ _ XY YX).
      * destruct (String.leb_total x y); congruence.
    + destruct (String.leb x y) eqn:XY; trivial.
      rewrite (leb_trans _ _ _ XY YZ) in XZ. discriminate.
    + destruct (String.leb y x) eqn:YX; trivial.
      rewrite (leb_trans _ _ _ YX XZ) in YZ. discriminate.
    + now rewrite IH.
Qed.

(** [sorted] gives one list for all the orders of its input. *)
Lemma sorted_permutation xs ys :
  Permutation xs ys -> Py.sorted xs = Py.sorted ys.
Proof.
  unfold Py.sorted.
  induction 1 as [|x xs ys _ IH|x y xs|xs ys zs _ IH1 _ IH2];
    cbn [fold_right]; trivial.
  - now rewrite IH.
  - apply insert_sorted_comm.
  - congruence.
Qed.

Lemma filter_permutation {A} (f : A -> bool) xs ys :
  Permutation xs ys -> Permutation (filter f xs) (filter f ys).
Proof.
  induction 1 as [|x xs ys _ IH|x y xs|xs ys zs _ IH1 _ IH2]; cbn.
  - constructor.
  - destruct (f x); [now constructor | exact IH].
  - destruct (f x), (f y); try apply Permutation_refl. apply perm_swap.
  - now apply perm_trans with (filter f ys).
Qed.

Lemma flat_map_flat_map {A B C} (g : B -> list C) (h : A -> list B) l :
  flat_map g (flat_map h l) = flat_map (fun e => flat_map g (h e)) l.
Proof.
  induction l as [|e l IH]; cbn; trivial.
  now rewrite flat_map_app, IH.
Qed.

Lemma flat_map_Forall2 {A B} (R : A -> A -> Prop) (g g' : A -> list B) l l' :
  Forall2 R l l' ->
  (forall e e', In e l -> R e e' -> Permutation (g e) (g' e')) ->
  Permutation (flat_map g l) (flat_map g' l').
Proof.
  induction 1 as [|e e' l l' He _ IH]; intros Hg; cbn.
  - constructor.
  - apply Permutation_app.
    + apply Hg; [now left | exact He].
    + apply IH. intros x x' Hx. apply Hg. now right.
Qed.

(** Entries that go by the same names and kinds give the same file
    names. *)
Lemma filenames_Forall2 es es' :
  Forall2 (fun e e' => fst e = fst e' /\ reordered (snd e) (snd e')) es es' ->
  Fs.filenames es = Fs.filenames es'.
Proof.
  unfold Fs.filenames.
  induction 1 as [|[k n] [k' n'] es es' [Hk Hn] _ IH]; cbn; trivial.
  cbn in Hk, Hn. subst k'. destruct Hn; cbn; now rewrite IH.
Qed.

End OrderFacts.

Section Order.

Variable exts : list string.

(** The walk of a directory and of a reordered one collect the same
    paths. *)
Lemma walk_reordered n : forall n' top,
  reordered n n' ->
  Permutation (flat_map (collect exts) (Fs.walk_node top n))
              (flat_map (collect exts) (Fs.walk_node top n')).
Proof.
  induction n as [content|es IH] using FsFacts.node_induction;
    intros n' top R; inversion R as [|? es1 es' P F]; subst.
  - constructor.
  - cbn [Fs.walk_node flat_map]. rewrite !OrderFacts.flat_map_flat_map.
    apply Permutation_app.
    + unfold collect. apply Permutation_map, OrderFacts.filter_permutation.
      rewrite <- (OrderFacts.filenames_Forall2 _ _ F).
      unfold Fs.filenames.
      now apply Permutation_map, OrderFacts.filter_permutation.
    + apply perm_trans
        with (flat_map
                (fun e => flat_map (collect exts)
                            (Fs.walk_node (OsPath.join top (fst e)) (snd e)))
                es1).
      * now apply Permutation_flat_map.
      * apply OrderFacts.flat_map_Forall2 with (1 := F).
        intros e e' He [Hk Hr]. rewrite <- Hk.
        rewrite Forall_forall in IH. apply IH; trivial.
        apply Permutation_in with es1; [now apply Permutation_sym | exact He].
Qed.

End Order.

(** ** Well-named trees *)

Module NameFacts.
Import Fs.

Lemma get_In k n es :
  NoDup (map fst es) -> In (k, n) es -> get k es = Some n.
Proof.
  induction es as [|[k0 n0] es IH]; intros N H; [destruct H|].
  cbn. inversion N as [|? ? Hk N']; subst.
  destruct (String.eqb_spec k0 k) as [->|Hne].
  - destruct H as [[= ->]|H]; trivial.
    elim Hk. now apply (in_map fst) in H.
  - destruct H as [[= -> ->]|H]; [now elim Hne | auto].
Qed.

Lemma NoDup_map_filter {A B} (f : A -> B) (g : A -> bool) l :
  NoDup (map f l) -> NoDup (map f (filter g l)).
Proof.
  induction l as [|x l IH]; cbn; trivial.
  intros N. inversion N as [|? ? Hx N']; subst.
  destruct (g x); cbn; auto. constructor; auto.
  intros H. apply Hx. apply in_map_iff in H. destruct H as [y [E H]].
  apply filter_In in H. apply in_map_iff. exists y. tauto.
Qed.

(** Lists that go by different keys have nothing in common. *)
Lemma NoDup_flat_map {A B K} (g : A -> list B) (key : A -> K) (h : B -> K) l :
  NoDup (map key l) ->
  (forall e, In e l -> NoDup (g e)) ->
  (forall e p, In e l -> In p (g e) -> h p = key e) ->
  NoDup (flat_map g l).
Proof.
  induction l as [|e l IH]; cbn; intros N Hg Hh; [constructor|].
  inversion N as [|? ? He N']; subst.
  apply NoDup_app; auto.
  intros p Hp Hq. apply in_flat_map in Hq. destruct Hq as [e' [He' Hq]].
  apply He. apply in_map_iff. exists e'. split; trivial.
  rewrite <- (Hh e p), <- (Hh e' p); auto.
Qed.

End NameFacts.

Section Once.

Variable exts : list string.

(** Where a file under a well-named directory is found. *)
Lemma file_under_lookup top n p name :
  file_under top n p name -> well_named n -> top <> "" ->
  exists seq c,
    seq <> [] /\ p <> "" /\ Fs.names_directory p = false
    /\ Fs.components p = Fs.components top ++ seq
    /\ Fs.lookup seq n = Some (Fs.File c)
    /\ Forall (fun x => x <> "..") seq
    /\ forall s, Fs.origin p s = Fs.origin top s.
Proof.
  induction 1 as [top es name content Hin|top es d sub path name Hin _ IH];
    intros W Htop; inversion W as [|? N F]; subst;
    rewrite Forall_forall in F.
  - destruct (F _ Hin) as [[A [B [Z C]]] _]. cbn [fst] in A, B, C, Z.
    exists [name], content. split; [discriminate|].
    split; [apply PathFacts.join_nonempty; now left|].
    split.
    { rewrite (PathFacts.names_directory_join _ _ C).
      destruct (String.eqb_spec name ""); [contradiction|].
      now destruct (String.eqb_spec name "."). }
    split.
    { rewrite (PathFacts.components_join _ _ C).
      now rewrite (proper_components _ C A B). }
    split; [cbn; now rewrite (NameFacts.get_In _ _ _ N Hin)|].
    split; [now repeat constructor|].
    intros s. now apply FsFacts.origin_join.
  - destruct (F _ Hin) as [[A [B [Z C]]] Wsub].
    cbn [fst snd] in A, B, C, Z, Wsub.
    destruct (IH Wsub) as [seq [c [Hs [Hp [Hn [Hc [Hl [Hz Ho]]]]]]]].
    { apply PathFacts.join_nonempty. now left. }
    exists (d :: seq), c. split; [discriminate|].
    split; trivial. split; trivial. split; [|split; [|split]].
    + rewrite Hc, (PathFacts.components_join _ _ C).
      rewrite (proper_components _ C A B). now rewrite <- app_assoc.
    + cbn. now rewrite (NameFacts.get_In _ _ _ N Hin).
    + now constructor.
    + intros s. rewrite Ho. now apply FsFacts.origin_join.
Qed.

(** The paths the walk collects below a well-named directory lead
    through the tree. *)
Lemma walk_components top n p :
  well_named n -> top <> "" ->
  In p (flat_map (collect exts) (Fs.walk_node top n)) ->
  exists seq c,
    seq <> [] /\ p <> "" /\ Fs.names_directory p = false
    /\ Fs.components p = Fs.components top ++ seq
    /\ Fs.lookup seq n = Some (Fs.File c)
    /\ Forall (fun x => x <> "..") seq
    /\ forall s, Fs.origin p s = Fs.origin top s.
Proof.
  intros W Htop H. apply walk_node_files in H. destruct H as [name [U _]].
  now apply file_under_lookup with name.
Qed.

(** The walk of a well-named directory collects no path twice. *)
Lemma walk_NoDup n : forall top,
  well_named n -> top <> "" ->
  NoDup (flat_map (collect exts) (Fs.walk_node top n)).
Proof.
  induction n as [content|es IH] using FsFacts.node_induction;
    intros top W Htop; [constructor|].
  inversion W as [|? N F]; subst.
  cbn [Fs.walk_node flat_map]. rewrite OrderFacts.flat_map_flat_map.
  rewrite Forall_forall in IH, F.
  assert (Below : forall e p,
             In e es ->
             In p (flat_map (collect exts)
                     (Fs.walk_node (OsPath.join top (fst e)) (snd e))) ->
             exists seq, seq <> []
                         /\ Fs.components p
                            = Fs.components top ++ fst e :: seq).
  { intros [d sub] p He Hp. destruct (F _ He) as [[A [B [Z C]]] Wsub].
    cbn [fst snd] in *.
    destruct (walk_components _ _ _ Wsub
                (PathFacts.join_nonempty top d (or_introl Htop)) Hp)
      as [seq [c [Hs [_ [_ [Hc _]]]]]].
    exists seq. split; trivial.
    rewrite Hc, (PathFacts.components_join _ _ C).
    rewrite (proper_components _ C A B). now rewrite <- app_assoc. }
  assert (Here : forall name,
             In name (Fs.filenames es) ->
             Fs.components (OsPath.join top name)
             = Fs.components top ++ [name]).
  { intros name Hn. apply FsFacts.filenames_In in Hn.
    destruct Hn as [content Hn]. destruct (F _ Hn) as [[A [B [Z C]]] _].
    cbn [fst] in *. rewrite (PathFacts.components_join _ _ C).
    now rewrite (proper_components _ C A B). }
  apply NoDup_app.
  - unfold collect. apply Finite.Injective_map_NoDup_in.
    + intros x y Hx Hy E. apply filter_In in Hx, Hy.
      apply (f_equal Fs.components) in E.
      rewrite (Here x), (Here y) in E by tauto.
      apply app_inv_head in E. now injection E.
    + apply NoDup_filter. unfold Fs.filenames.
      now apply NameFacts.NoDup_map_filter.
  - apply NameFacts.NoDup_flat_map
      with (key := fst)
           (h := fun p => nth (length (Fs.components top))
                              (Fs.components p) ""); trivial.
    + intros [d sub] He. destruct (F _ He) as [_ Wsub].
      apply (IH _ He); trivial.
      apply PathFacts.join_nonempty. now left.
    + intros e p He Hp. destruct (Below e p He Hp) as [seq [_ ->]].
      now rewrite nth_middle.
  - intros p Hp Hq. unfold collect in Hp. apply in_map_iff in Hp.
    destruct Hp as [name [<- Hp]]. apply filter_In in Hp.
    apply in_flat_map in Hq. destruct Hq as [e [He Hq]].
    destruct (Below e _ He Hq) as [seq [Hs E]].
    rewrite (Here name) in E by tauto. apply app_inv_head in E.
    injection E as _ E. now elim Hs.
Qed.

End Once.


(** ** Normal forms of format names *)

Module FormatFacts.

Lemma lower_char_idem c : Py.lower_char (Py.lower_char c) = Py.lower_char c.
Proof. destruct c as [[] [] [] [] [] [] [] []]; reflexivity. Qed.

Lemma isspace_lower_char c : Py.isspace (Py.lower_char c) = Py.isspace c.
Proof. destruct c as [[] [] [] [] [] [] [] []]; reflexivity. Qed.

Lemma lower_char_comma c :
  Ascii.eqb (Py.lower_char c) "," = Ascii.eqb c ",".
Proof. destruct c as [[] [] [] [] [] [] [] []]; reflexivity. Qed.

Lemma lower_idem s : Py.lower (Py.lower s) = Py.lower s.
Proof.
  induction s as [|c s IH]; cbn [Py.lower]; trivial.
  now rewrite lower_char_idem, IH.
Qed.

Lemma lstrip_lower s : Py.lstrip (Py.lower s) = Py.lower (Py.lstrip s).
Proof.
  induction s as [|c s IH]; cbn [Py.lower Py.lstrip]; trivial.
  rewrite isspace_lower_char. now destruct (Py.isspace c).
Qed.

Lemma rstrip_lower s : Py.rstrip (Py.lower s) = Py.lower (Py.rstrip s).
Proof.
  induction s as [|c s IH]; cbn [Py.lower Py.rstrip]; trivial.
  rewrite IH, isspace_lower_char.
  destruct (Py.rstrip s); cbn [Py.lower]; trivial.
  now destruct (Py.isspace c).
Qed.

Lemma strip_lower s : Py.strip (Py.lower s) = Py.lower (Py.strip s).
Proof. unfold Py.strip. now rewrite lstrip_lower, rstrip_lower. Qed.

Lemma rstrip_idem s : Py.rstrip (Py.rstrip s) = Py.rstrip s.
Proof.
  induction s as [|c s IH]; cbn [Py.rstrip]; trivial.
  destruct (Py.rstrip s) as [|a r] eqn:R.
  - destruct (Py.isspace c) eqn:Sp; cbn [Py.rstrip]; trivial.
    now rewrite Sp.
  - cbn [Py.rstrip] in IH |- *. now rewrite IH.
Qed.

(** What [lstrip] leaves does not begin with a blank. *)
Lemma lstrip_head s c t : Py.lstrip s = String c t -> Py.isspace c = false.
Proof.
  induction s as [|a s IH]; cbn [Py.lstrip]; [discriminate|].
  destruct (Py.isspace a) eqn:Sp; trivial. now intros [= <- _].
Qed.

Lemma rstrip_keeps_head c t :
  Py.isspace c = false -> exists r, Py.rstrip (String c t) = String c r.
Proof.
  intros Sp. cbn [Py.rstrip]. destruct (Py.rstrip t); [rewrite Sp|]; eauto.
Qed.

Lemma strip_idem s : Py.strip (Py.strip s) = Py.strip s.
Proof.
  unfold Py.strip. destruct (Py.lstrip s) as [|c t] eqn:L; trivial.
  pose proof (lstrip_head _ _ _ L) as Sp.
  destruct (rstrip_keeps_head c t Sp) as [r E]. rewrite E.
  cbn [Py.lstrip]. rewrite Sp, <- E. apply rstrip_idem.
Qed.

Lemma lower_empty s : Py.lower s = "" -> s = "".
Proof. destruct s; [trivial | discriminate]. Qed.

Lemma has_comma_lower s : Py.has_char "," (Py.lower s) = Py.has_char "," s.
Proof.
  induction s as [|c s IH]; cbn [Py.lower Py.has_char]; trivial.
  now rewrite lower_char_comma, IH.
Qed.

Lemma has_char_lstrip c s :
  Py.has_char c s = false -> Py.has_char c (Py.lstrip s) = false.
Proof.
  induction s as [|a s IH]; cbn [Py.lstrip]; trivial.
  destruct (Py.isspace a); trivial.
  cbn [Py.has_char]. intros H. apply orb_false_iff in H. now apply IH.
Qed.

Lemma has_char_rstrip c s :
  Py.has_char c s = false -> Py.has_char c (Py.rstrip s) = false.
Proof.
  induction s as [|a s IH]; cbn [Py.rstrip Py.has_char]; trivial.
  intros H. apply orb_false_iff in H. destruct H as [Ha H].
  specialize (IH H). destruct (Py.rstrip s).
  - destruct (Py.isspace a); cbn [Py.has_char]; trivial. now rewrite Ha.
  - cbn [Py.has_char] in IH |- *. now rewrite Ha.
Qed.

(** The pieces of a split hold no separator. *)
Lemma split_pieces c s e : In e (Py.split c s) -> Py.has_char c e = false.
Proof.
  revert e. induction s as [|a s IH]; intros e; cbn [Py.split].
  - now intros [<-|[]].
  - destruct (Ascii.eqb a c) eqn:E.
    + intros [<-|H]; [reflexivity | now apply IH].
    + destruct (Py.split c s) as [|h r] eqn:Sp;
        [elim (PathFacts.split_nonempty c s Sp)|].
      intros [<-|H].
      * cbn [Py.has_char]. rewrite E. apply IH. now left.
      * apply IH. now right.
Qed.

End FormatFacts.

(** ** Outputs are no inputs *)

Module AudioFacts.
Import Fs FsFacts.

Lemma same_audio_refl exts t : same_audio exts t t.
Proof. intros q. repeat split; eauto. Qed.

Lemma same_audio_trans exts t1 t2 t3 :
  same_audio exts t1 t2 -> same_audio exts t2 t3 -> same_audio exts t1 t3.
Proof.
  intros H12 H23 q. destruct (H12 q) as [A1 [B1 C1]].
  destruct (H23 q) as [A2 [B2 C2]]. repeat split.
  - intros top. now rewrite A2, A1.
  - intros c L. destruct (B1 c L) as [c' L']. eauto.
  - intros c' L W. destruct (C2 c' L W) as [c L']. eauto.
Qed.

(** The file names of a directory after [put]. *)
Lemma filenames_put_same c n child' es :
  get c es = Some n -> regular n = regular child' ->
  filenames (put c child' es) = filenames es.
Proof.
  unfold filenames. induction es as [|[k m] es IH]; cbn [get put];
    [discriminate|].
  destruct (String.eqb_spec k c) as [->|Hne].
  - intros [= ->] K. cbn [filter snd]. destruct n, child'; try discriminate;
      reflexivity.
  - intros G K. cbn [filter snd]. destruct m; cbn [map]; now rewrite IH.
Qed.

Lemma filenames_put_new c child' es :
  get c es = None ->
  filenames (put c child' es)
  = if regular child' then filenames es ++ [c] else filenames es.
Proof.
  unfold filenames. induction es as [|[k m] es IH]; cbn [get put].
  - now destruct child'.
  - destruct (String.eqb_spec k c) as [->|Hne]; [discriminate|].
    intros G. cbn [filter snd]. specialize (IH G).
    destruct m, (regular child'); cbn [map app]; now rewrite IH.
Qed.

(** The walks below a directory after [put]. *)
Lemma subwalks_put exts c child' es top :
  (forall top', flat_map (collect exts) (walk_node top' child')
                = found exts top' (get c es)) ->
  flat_map (fun e => flat_map (collect exts)
                       (walk_node (OsPath.join top (fst e)) (snd e)))
    (put c child' es)
  = flat_map (fun e => flat_map (collect exts)
                         (walk_node (OsPath.join top (fst e)) (snd e)))
      es.
Proof.
  induction es as [|[k n] es IH]; cbn [get put]; intros Hsame.
  - cbn [flat_map fst snd]. rewrite Hsame. reflexivity.
  - destruct (String.eqb_spec k c) as [->|Hne].
    + cbn [flat_map fst snd]. now rewrite Hsame.
    + cbn [flat_map fst snd]. now rewrite IH.
Qed.

(** Replacing an entry by one of the same kind that collects the same,
    or adding a directory or an unwanted file that collects nothing,
    changes nothing for the locator. *)
Lemma collect_put exts c child' es top :
  (forall top', flat_map (collect exts) (walk_node top' child')
                = found exts top' (get c es)) ->
  match get c es with
  | Some n => regular n = regular child'
  | None => regular child' = true -> wanted exts c = false
  end ->
  flat_map (collect exts) (walk_node top (Dir (put c child' es)))
  = flat_map (collect exts) (walk_node top (Dir es)).
Proof.
  intros Hsame Hkind. cbn [walk_node flat_map].
  rewrite !OrderFacts.flat_map_flat_map, (subwalks_put _ _ _ _ _ Hsame).
  f_equal. unfold collect.
  destruct (get c es) as [n|] eqn:G.
  - now rewrite (filenames_put_same _ _ _ _ G Hkind).
  - rewrite (filenames_put_new _ _ _ G).
    destruct (regular child'); trivial.
    rewrite filter_app, map_app. cbn [filter].
    rewrite (Hkind eq_refl). cbn. now rewrite app_nil_r.
Qed.

Lemma mkdir_p_dir cs t t' : mkdir_p cs t = Some t' -> regular t = false /\ regular t' = false.
Proof.
  destruct t as [c|es]; [destruct cs; discriminate|].
  destruct cs as [|c cs]; cbn [mkdir_p].
  - now intros [= <-].
  - destruct (mkdir_p cs _); [|discriminate]. now intros [= <-].
Qed.

Lemma store_dir c cs s t t' :
  store (c :: cs) s t = Some t' -> regular t = false /\ regular t' = false.
Proof.
  destruct t as [c0|es]; [destruct cs; discriminate|].
  intros H. destruct (store_shape _ _ _ _ _ H) as [n' ->]. now split.
Qed.

(** What [mkdir_p] adds collects nothing. *)
Lemma mkdir_p_found exts cs : forall t t' q top,
  mkdir_p cs t = Some t' ->
  found exts top (lookup q t') = found exts top (lookup q t).
Proof.
  induction cs as [|c rest IH]; intros t t' q top H.
  - destruct t; simpl in H; [discriminate|]. now injection H as <-.
  - destruct t as [s|es]; simpl in H; [discriminate|].
    destruct (mkdir_p rest _) as [child'|] eqn:E; [|discriminate].
    injection H as <-.
    assert (Same : forall q' top',
               found exts top' (lookup q' child')
               = found exts top'
                   (match get c es with
                    | Some ch => lookup q' ch
                    | None => None
                    end)).
    { intros q' top'. rewrite (IH _ _ q' top' E).
      destruct (get c es); trivial. now destruct q'. }
    destruct q as [|c0 q']; cbn [lookup].
    + cbn [found]. apply collect_put.
      * intros top'. pose proof (Same [] top') as X.
        cbn [lookup found] in X. rewrite X. now destruct (get c es).
      * destruct (mkdir_p_dir _ _ _ E) as [K K'].
        destruct (get c es); [congruence | intros X; congruence].
    + destruct (String.eqb_spec c c0) as [<-|Hne].
      * rewrite get_put_same. apply Same.
      * rewrite (get_put_other _ _ _ _ Hne). reflexivity.
Qed.

(** [mkdir_p] makes no regular file. *)
Lemma mkdir_p_new_file cs : forall q t t' c,
  mkdir_p cs t = Some t' -> lookup q t' = Some (File c) ->
  lookup q t = Some (File c).
Proof.
  induction cs as [|c0 rest IH]; intros q t t' c H L.
  - destruct t; simpl in H; [discriminate|]. now injection H as <-.
  - destruct t as [s|es]; simpl in H; [discriminate|].
    destruct (mkdir_p rest _) as [child'|] eqn:E; [|discriminate].
    injection H as <-.
    destruct q as [|c1 q']; [discriminate|]. cbn [lookup] in L |- *.
    destruct (String.eqb_spec c0 c1) as [<-|Hne].
    + rewrite get_put_same in L. pose proof (IH _ _ _ _ E L) as L0.
      destruct (get c0 es); trivial. destruct q'; discriminate.
    + now rewrite (get_put_other _ _ _ _ Hne) in L.
Qed.

(** A file written under a name the locator does not keep changes
    nothing for the locator. *)
Lemma store_found exts cs : forall s t t' q top,
  store cs s t = Some t' -> wanted exts (last cs "") = false ->
  found exts top (lookup q t') = found exts top (lookup q t).
Proof.
  induction cs as [|c rest IH]; intros s t t' q top H Hw; [discriminate|].
  destruct t as [s0|es]; [destruct rest; discriminate|].
  destruct rest as [|c1 rest'].
  - simpl in H. cbn [last] in Hw.
    destruct (get c es) as [[s1|es1]|] eqn:G; try discriminate;
      injection H as <-.
    + destruct q as [|c0 q']; cbn [lookup found].
      * apply collect_put; rewrite G; trivial.
      * destruct (String.eqb_spec c c0) as [<-|Hne].
        -- rewrite get_put_same, G. now destruct q'.
        -- now rewrite (get_put_other _ _ _ _ Hne).
    + destruct q as [|c0 q']; cbn [lookup found].
      * apply collect_put; rewrite G; trivial.
      * destruct (String.eqb_spec c c0) as [<-|Hne].
        -- rewrite get_put_same, G. now destruct q'.
        -- now rewrite (get_put_other _ _ _ _ Hne).
  - rewrite store_below in H.
    destruct (get c es) as [child|] eqn:G; [|discriminate].
    destruct (store (c1 :: rest') s child) as [child'|] eqn:E; [|discriminate].
    injection H as <-.
    assert (Hw' : wanted exts (last (c1 :: rest') "") = false) by exact Hw.
    destruct q as [|c0 q']; cbn [lookup found].
    + apply collect_put; rewrite G.
      * intros top'. exact (IH _ _ _ [] top' E Hw').
      * destruct (store_dir _ _ _ _ _ E). congruence.
    + destruct (String.eqb_spec c c0) as [<-|Hne].
      * rewrite get_put_same, G. exact (IH _ _ _ q' top E Hw').
      * now rewrite (get_put_other _ _ _ _ Hne).
Qed.

(** A regular file that [store] did not write was there before. *)
Lemma store_old_file cs : forall q s t t' c,
  store cs s t = Some t' -> q <> cs -> lookup q t' = Some (File c) ->
  lookup q t = Some (File c).
Proof.
  induction cs as [|c0 rest IH]; intros q s t t' c H Hne L; [discriminate|].
  destruct t as [s0|es]; [destruct rest; discriminate|].
  destruct q as [|c1 q'].
  { destruct (store_shape _ _ _ _ _ H) as [n' ->]. discriminate. }
  destruct rest as [|c2 rest'].
  - simpl in H.
    assert (E : t' = Dir (put c0 (File s) es)).
    { destruct (get c0 es) as [[s1|es1]|]; try discriminate;
        now injection H as <-. }
    subst t'. cbn [lookup] in L |- *.
    destruct (String.eqb_spec c0 c1) as [<-|Hc].
    + rewrite get_put_same in L. destruct q'; [now elim Hne | discriminate].
    + now rewrite (get_put_other _ _ _ _ Hc) in L.
  - rewrite store_below in H.
    destruct (get c0 es) as [child|] eqn:G; [|discriminate].
    destruct (store (c2 :: rest') s child) as [child'|] eqn:E; [|discriminate].
    injection H as <-. cbn [lookup] in L |- *.
    destruct (String.eqb_spec c0 c1) as [<-|Hc].
    + rewrite get_put_same in L. rewrite G.
      apply (IH _ _ _ _ _ E); trivial. intros ->. now elim Hne.
    + now rewrite (get_put_other _ _ _ _ Hc) in L.
Qed.

Lemma mkdir_p_same_audio exts cs t t' :
  mkdir_p cs t = Some t' -> same_audio exts t t'.
Proof.
  intros H q. repeat split.
  - intros top. exact (mkdir_p_found exts _ _ _ _ _ H).
  - intros c L. exists c. exact (FsFrame.mkdir_p_keeps_file _ _ _ _ _ L H).
  - intros c' L _. exists c'. exact (mkdir_p_new_file _ _ _ _ _ H L).
Qed.

Lemma store_same_audio exts cs s t t' :
  store cs s t = Some t' -> wanted exts (last cs "") = false ->
  same_audio exts t t'.
Proof.
  intros H Hw q. repeat split.
  - intros top. exact (store_found exts _ _ _ _ _ _ H Hw).
  - intros c L. destruct (list_eq_dec string_dec q cs) as [->|Hne].
    + exists s. exact (FsFrame.store_lookup _ _ _ _ H).
    + exists c. exact (FsFrame.store_keeps_file _ _ _ _ _ _ L H Hne).
  - intros c' L W. destruct (list_eq_dec string_dec q cs) as [->|Hne].
    + congruence.
    + exists c'. exact (store_old_file _ _ _ _ _ _ H Hne L).
Qed.

End AudioFacts.

Module SuffixFacts.

(** Two ends of one string: one of them is an end of the other. *)
Lemma suffix_comparable a : forall b x y,
  (a ++ x = b ++ y)%string -> ends_with x y \/ ends_with y x.
Proof.
  induction a as [|c a IH]; intros b x y E.
  - left. now exists b.
  - destruct b as [|c' b].
    + right. exists (String c a). symmetry. exact E.
    + injection E as _ E. exact (IH _ _ _ E).
Qed.

(** The last piece of a path keeps every end of the path that holds no
    slash. *)
Lemma last_split_suffix back : forall p,
  Py.has_char "/" back = false ->
  ends_with p back -> ends_with (last (Py.split "/" p) "") back.
Proof.
  intros p Hplain. induction p as [|a t IH]; intros [front E].
  - exists "". destruct front; [exact E | discriminate].
  - destruct front as [|b front].
    + cbn in E. subst back. rewrite (PathFacts.split_plain _ _ Hplain).
      now exists "".
    + injection E as <- E.
      assert (Ht : ends_with t back) by now exists front.
      specialize (IH Ht). cbn [Py.split].
      pose proof (PathFacts.split_nonempty "/" t) as Hne.
      destruct (Py.split "/" t) as [|h r]; [now elim Hne|].
      destruct (Ascii.eqb a "/"); [exact IH|].
      destruct r as [|h' r']; [|exact IH].
      cbn [last] in IH |- *. destruct IH as [f ->].
      now exists (String a f).
Qed.

Lemma last_filter {A} (keep : A -> bool) (l : list A) d :
  l <> [] -> keep (last l d) = true -> last (filter keep l) d = last l d.
Proof.
  intros Hne Hk. destruct (exists_last Hne) as [l0 [b ->]].
  rewrite last_last in Hk |- *. rewrite filter_app. cbn [filter].
  rewrite Hk. apply last_last.
Qed.

(** A path that names a file and is wanted has a wanted last
    component. *)
Lemma root_wanted_last exts root :
  (forall e, In e exts -> Py.has_char "/" e = false) ->
  Fs.names_directory root = false ->
  Py.endswith_any (Py.lower root) exts = true ->
  wanted exts (last (Fs.components root) "") = true.
Proof.
  intros Hplain Hn Hw. unfold Fs.components, Fs.names_directory in *.
  rewrite last_filter;
    [|apply PathFacts.split_nonempty | now rewrite Hn].
  apply PyFacts.endswith_any_spec in Hw. destruct Hw as [e [He Hw]].
  apply PyFacts.endswith_any_spec. exists e. split; trivial.
  apply PyFacts.ends_with_lower in Hw.
  destruct Hw as [front [back [-> Hb]]].
  assert (Pb : Py.has_char "/" back = false)
    by (rewrite <- PathMore.has_char_lower_slash, Hb; auto).
  destruct (last_split_suffix back (front ++ back) Pb) as [f ->];
    [now exists front|].
  apply PyFacts.ends_with_lower. now exists f, back.
Qed.

(** No output file has a name the locator keeps. *)
Lemma unwanted_output base k :
  In k supported -> wanted audio_exts (base ++ "." ++ k) = false.
Proof.
  intros Hk. unfold wanted.
  destruct (Py.endswith_any _ _) eqn:W; trivial. exfalso.
  apply PyFacts.endswith_any_spec in W. destruct W as [e [He [front E]]].
  rewrite PyFacts.lower_app in E.
  assert (C : Py.endswith (Py.lower ("." ++ k)) e = false
              /\ Py.endswith e (Py.lower ("." ++ k)) = false).
  { destruct Hk as [<-|[<-|[<-|[<-|[]]]]];
      destruct He as [<-|[<-|[<-|[<-|[<-|[<-|[<-|[<-|[<-|[]]]]]]]]]];
      split; reflexivity. }
  destruct C as [C1 C2].
  destruct (suffix_comparable _ _ _ _ E) as [X|X];
    apply PyFacts.endswith_spec in X; congruence.
Qed.

End SuffixFacts.

Section Rerun.

Variable env : Env.

Lemma audio_same_refl exts w : audio_same exts w w.
Proof.
  split; [apply same_process_refl|].
  split; [apply FsFacts.dirs_stay_refl | apply AudioFacts.same_audio_refl].
Qed.

Lemma audio_same_trans exts w1 w2 w3 :
  audio_same exts w1 w2 -> audio_same exts w2 w3 -> audio_same exts w1 w3.
Proof.
  intros [P1 [D1 S1]] [P2 [D2 S2]].
  split; [exact (same_process_trans _ _ _ P1 P2)|].
  split; [exact (FsFacts.dirs_stay_trans _ _ _ D1 D2)|].
  exact (AudioFacts.same_audio_trans _ _ _ _ S1 S2).
Qed.

Lemma audio_same_still exts w tr : audio_same exts w (mkWorld (fs w) tr).
Proof. exact (audio_same_refl exts w). Qed.

Lemma audio_same_emit exts e : steps (audio_same exts) (emit e).
Proof. intros w r w' [= <- <-]. apply audio_same_still. Qed.

Lemma audio_same_ensure_dir exts path :
  steps (audio_same exts) (ensure_dir path).
Proof.
  intros w r w'. unfold ensure_dir.
  destruct (Fs.makedirs path (fs w)) as [s done] eqn:E. intros [= <- <-].
  cbn [fs].
  split; [exact (FsFacts.makedirs_process _ _ _ _ E)|].
  split; [exact (FsFacts.makedirs_stay _ _ _ _ E)|].
  unfold Fs.makedirs in E. destruct (String.eqb path "").
  { injection E as <- _. apply AudioFacts.same_audio_refl. }
  destruct (Fs.mkdirs _ _ _ _) as [t d] eqn:M. injection E as <- _.
  cbn [Fs.tree].
  refine (FsFacts.mkdirs_steps (same_audio exts) _ _ _ _ _ _ _ _ _ M).
  - apply AudioFacts.same_audio_refl.
  - apply AudioFacts.same_audio_trans.
  - intros q t0 t1. apply AudioFacts.mkdir_p_same_audio.
Qed.

Lemma audio_same_save_text exts path content :
  (forall s q, Fs.place path s = Some q -> wanted exts (last q "") = false) ->
  steps (audio_same exts) (save_text path content).
Proof.
  intros Hw w r w'. unfold save_text, fs_call.
  destruct (Fs.open_write path content (fs w)) as [s|] eqn:E;
    intros [= <- <-]; [|apply audio_same_still].
  cbn [fs].
  split; [exact (FsFacts.open_write_process _ _ _ _ E)|].
  split; [exact (FsFacts.open_write_stay _ _ _ _ E)|].
  apply FsFacts.open_write_spec in E.
  destruct E as [_ [_ [q [t [Hq [_ [E ->]]]]]]]. cbn [Fs.tree].
  exact (AudioFacts.store_same_audio exts _ _ _ _ E (Hw _ _ Hq)).
Qed.

Lemma audio_same_output a f k content :
  In k supported ->
  steps (audio_same audio_exts) (save_text (output_path a f k) content).
Proof.
  intros Hk. apply audio_same_save_text. intros s q.
  rewrite (output_path_place a f k s Hk).
  destruct (Fs.place (out_folder_of a f) s); [|discriminate].
  intros [= <-]. rewrite last_last.
  now apply SuffixFacts.unwanted_output.
Qed.

(** What a run adds to the file system is no audio file. *)
Lemma audio_same_main a : steps (audio_same audio_exts) (main env a).
Proof.
  exact (steps_main env (audio_same audio_exts)
           (audio_same_refl audio_exts) (audio_same_trans audio_exts)
           (audio_same_emit audio_exts) (audio_same_ensure_dir audio_exts)
           audio_same_output a).
Qed.

(** The locator in terms of what [stat] finds at the root. *)
Lemma find_by_stat t root exts :
  find_audio_files_in t root exts
  = match Fs.stat root t with
    | Some (Fs.File _) =>
        if Py.endswith_any (Py.lower root) exts then [root] else []
    | o => Py.sorted (found exts root o)
    end.
Proof.
  unfold find_audio_files_in, Fs.isfile, Fs.walk.
  destruct (Fs.stat root t) as [[c|es]|]; reflexivity.
Qed.

(** A path that names a file names it by its last component. *)
Lemma place_file_last root s q c :
  Fs.names_directory root = false ->
  Fs.place root s = Some q -> Fs.lookup q (Fs.tree s) = Some (Fs.File c) ->
  last q "" = last (Fs.components root) "".
Proof.
  intros N. apply FsFacts.locate_file_last.
  unfold Fs.names_directory, Fs.components in *.
  destruct (exists_last (PathFacts.split_nonempty "/" root)) as [l0 [b E]].
  rewrite E in N |- *. rewrite last_last in N.
  rewrite filter_app. cbn [filter]. rewrite N. cbn.
  intros X. now apply app_eq_nil in X.
Qed.

(** Nothing is found at a root that names no place. *)
Lemma find_needs_place t root exts :
  Fs.place root t = None -> find_audio_files_in t root exts = [].
Proof.
  intros Q. rewrite find_by_stat. unfold Fs.stat. rewrite Q.
  now destruct (String.eqb root "").
Qed.

(** File systems with the same audio files give the locator the same, at
    a root that names a place in the first. *)
Lemma find_same_audio exts w w' root :
  (forall e, In e exts -> Py.has_char "/" e = false) ->
  audio_same exts w w' ->
  Fs.place root (fs w) <> None ->
  find_audio_files_in (fs w') root exts = find_audio_files_in (fs w) root exts.
Proof.
  intros Hplain [P [D S]] Hq. rewrite !find_by_stat. unfold Fs.stat.
  destruct (String.eqb root ""); trivial.
  destruct (Fs.place root (fs w)) as [q|] eqn:Q; [|now elim Hq].
  pose proof (FsFacts.place_stable _ _ _ _ P D Q) as Q'. rewrite Q'.
  destruct (S q) as [F [Old New]].
  specialize (F root).
  assert (Last : forall c', Fs.lookup q (Fs.tree (fs w')) = Some (Fs.File c') ->
             Fs.names_directory root = false ->
             Py.endswith_any (Py.lower root) exts = true ->
             wanted exts (last q "") = true).
  { intros c' L' N W. rewrite (place_file_last root _ q c' N Q' L').
    exact (SuffixFacts.root_wanted_last exts root Hplain N W). }
  destruct (Fs.names_directory root) eqn:N.
  - destruct (Fs.lookup q (Fs.tree (fs w))) as [[c|es]|],
      (Fs.lookup q (Fs.tree (fs w'))) as [[c'|es']|];
      cbn [found Fs.walk_node flat_map] in F |- *;
      rewrite ?F; trivial; now rewrite <- ?F.
  - destruct (Fs.lookup q (Fs.tree (fs w))) as [[c|es]|] eqn:L.
    + destruct (Old c eq_refl) as [c' ->]. reflexivity.
    + destruct (Fs.lookup q (Fs.tree (fs w'))) as [[c'|es']|] eqn:L';
        [|now rewrite F | now rewrite F].
      cbn [found Fs.walk_node flat_map] in F |- *. rewrite <- F.
      destruct (Py.endswith_any (Py.lower root) exts) eqn:W; trivial.
      destruct (New c' eq_refl (Last c' eq_refl eq_refl eq_refl)) as [c [=]].
    + destruct (Fs.lookup q (Fs.tree (fs w'))) as [[c'|es']|] eqn:L';
        [|now rewrite F | reflexivity].
      cbn [found Fs.walk_node flat_map] in F |- *.
      destruct (Py.endswith_any (Py.lower root) exts) eqn:W; trivial.
      destruct (New c' eq_refl (Last c' eq_refl eq_refl eq_refl)) as [c [=]].
Qed.

End Rerun.

(** ** The first unsupported format *)

Section FirstBad.

Variable env : Env.

Lemma check_formats_first good bad rest w :
  (forall fmt, In fmt good -> In fmt supported) -> ~ In bad supported ->
  check_formats (good ++ bad :: rest) w
  = (Raise (SystemExit 2),
     mkWorld (fs w) (trace w ++ [EvStderr (unsupported_message bad)])).
Proof.
  intros Hgood Hbad. induction good as [|g good IH]; cbn [app check_formats].
  - destruct (Py.contains supported bad) eqn:C.
    + apply PyFacts.contains_spec in C. contradiction.
    + reflexivity.
  - assert (C : Py.contains supported g = true)
      by (apply PyFacts.contains_spec, Hgood; now left).
    rewrite C. cbn [negb]. apply IH. intros fmt Hf. apply Hgood. now right.
Qed.

End FirstBad.

(** ** Running the script again *)

Module FsAgain.
Import Fs FsFacts.

(** Writing a file with what it holds changes nothing. *)
Lemma store_same rest : forall c s t,
  lookup (c :: rest) t = Some (File s) -> store (c :: rest) s t = Some t.
Proof.
  induction rest as [|c1 rest' IH]; intros c s t L;
    (destruct t as [s0|es]; [discriminate|]); cbn [lookup] in L;
    destruct (get c es) as [child|] eqn:G; try discriminate.
  - injection L as ->. simpl. rewrite G. now rewrite (put_get_id _ _ _ G).
  - rewrite store_below, G, (IH _ _ _ L). now rewrite (put_get_id _ _ _ G).
Qed.

(** No file is written where a directory is. *)
Lemma store_on_dir cs : forall s t es,
  lookup cs t = Some (Dir es) -> store cs s t = None.
Proof.
  induction cs as [|c rest IH]; intros s t es L; [reflexivity|].
  destruct t as [s0|es0]; [destruct rest; reflexivity|]. cbn [lookup] in L.
  destruct (get c es0) as [child|] eqn:G; [|discriminate].
  destruct rest as [|c1 rest'].
  - injection L as ->. simpl. now rewrite G.
  - now rewrite store_below, G, (IH _ _ _ L).
Qed.

(** In a directory that is there, a write fails only on a directory of
    the same name. *)
Lemma store_leaf p c s t es :
  lookup p t = Some (Dir es) -> store (p ++ [c]) s t = None ->
  exists es', lookup (p ++ [c]) t = Some (Dir es').
Proof.
  intros L H. rewrite lookup_app, L. cbn [lookup].
  destruct (get c es) as [[s0|es0]|] eqn:G; [| eauto |].
  - assert (S : store [c] s (Dir es) = Some (Dir (put c (File s) es)))
      by (simpl; now rewrite G).
    destruct (store_focus _ _ _ _ _ _ _ L S) as [t' [E _]]. congruence.
  - assert (S : store [c] s (Dir es) = Some (Dir (put c (File s) es)))
      by (simpl; now rewrite G).
    destruct (store_focus _ _ _ _ _ _ _ L S) as [t' [E _]]. congruence.
Qed.

Lemma components_file p : names_directory p = false -> components p <> [].
Proof.
  unfold names_directory, components. intros N.
  destruct (exists_last (PathFacts.split_nonempty "/" p)) as [l0 [b E]].
  rewrite E in N |- *. rewrite last_last in N.
  rewrite filter_app. cbn [filter]. rewrite N. cbn.
  intros X. now apply app_eq_nil in X.
Qed.

(** Writing again what a file holds changes nothing. *)
Lemma open_write_same p c s :
  read p s = Some c -> writable p s -> open_write p c s = Some s.
Proof.
  intros H [q' [Hq' Pq]]. apply read_spec in H.
  destruct H as [Hp [N [q [Hq L]]]].
  assert (q' = q) as -> by congruence.
  unfold open_write. destruct (String.eqb_spec p ""); [contradiction|].
  rewrite N, Hq, Pq. cbn [orb].
  pose proof (locate_file_below _ _ _ _ _ (components_file p N) Hq L) as Hne.
  destruct q as [|c0 rest]; [now elim Hne|].
  rewrite (store_same _ _ _ _ L). now rewrite sys_eta.
Qed.

Lemma open_write_on_dir p c s : isdir p s = true -> open_write p c s = None.
Proof.
  intros H. apply isdir_spec in H. destruct H as [_ [q [es [Hq L]]]].
  unfold open_write. destruct (_ || _); trivial. rewrite Hq.
  destruct (permits s q); trivial. now rewrite (store_on_dir _ _ _ _ L).
Qed.

Lemma open_write_refused p c s : refused p s -> open_write p c s = None.
Proof.
  intros [q [Hq Pq]]. unfold open_write. destruct (_ || _); trivial.
  now rewrite Hq, Pq.
Qed.

(** Where a write went through, the process may write. *)
Lemma open_write_writable p c s s' :
  open_write p c s = Some s' -> writable p s'.
Proof.
  intros H. pose proof (open_write_process _ _ _ _ H) as P.
  pose proof (open_write_stay _ _ _ _ H) as D.
  apply open_write_spec in H. destruct H as [_ [_ [q [t [Hq [Pq _]]]]]].
  exists q. split; [exact (place_stable _ _ _ _ P D Hq)|].
  destruct P as [_ ->]. exact Pq.
Qed.

End FsAgain.

Section Settled.

Variable env : Env.

Lemma isdir_kept {A} (m : M A) q w r w' :
  keeps m -> m w = (r, w') ->
  Fs.isdir q (fs w) = true -> Fs.isdir q (fs w') = true.
Proof.
  intros K H. destruct (K _ _ _ H) as [evs [_ [P [D _]]]].
  now apply FsFacts.isdir_stable.
Qed.

Lemma writable_kept {A} (m : M A) p w r w' :
  keeps m -> m w = (r, w') ->
  writable p (fs w) -> writable p (fs w').
Proof.
  intros K H [q [Hq Pq]]. destruct (K _ _ _ H) as [evs [_ [P [D _]]]].
  exists q. split; [exact (FsFacts.place_stable _ _ _ _ P D Hq)|].
  destruct P as [_ ->]. exact Pq.
Qed.

Lemma refused_kept {A} (m : M A) p w r w' :
  keeps m -> m w = (r, w') ->
  refused p (fs w) -> refused p (fs w').
Proof.
  intros K H [q [Hq Pq]]. destruct (K _ _ _ H) as [evs [_ [P [D _]]]].
  exists q. split; [exact (FsFacts.place_stable _ _ _ _ P D Hq)|].
  destruct P as [_ ->]. exact Pq.
Qed.

(** A command that removes nothing and opens only files at other places
    than [p] leaves [p] settled. *)
Lemma settled_kept {A} (m : M A) (P : event -> Prop) p c w r w' :
  keeps m -> emits P m ->
  (forall p', P (EvOpenWrite p' true) -> ~ same_place p' p (fs w')) ->
  m w = (r, w') ->
  settled p c (fs w) -> settled p c (fs w').
Proof.
  intros K E Hfree H [Hr|[Hd|Hx]].
  - left. exact (read_kept m P p c w r w' K E Hfree H Hr).
  - right. left. exact (isdir_kept m p w r w' K H Hd).
  - right. right. exact (refused_kept m p w r w' K H Hx).
Qed.

(** An output file that the script writes into a folder that is there is
    settled afterwards. *)
Lemma save_text_settles a f k content w r w' :
  In k supported ->
  Fs.isdir (out_folder_of a f) (fs w) = true ->
  save_text (output_path a f k) content w = (r, w') ->
  settled (output_path a f k) content (fs w').
Proof.
  intros Hk D. unfold save_text, fs_call.
  destruct (Fs.open_write _ _ _) as [t|] eqn:E; intros [= <- <-]; cbn [fs].
  - left. exact (FsFrame.open_write_read _ _ _ _ E).
  - right. apply FsFacts.isdir_spec in D.
    destruct D as [Hd [qf [es [Hqf L]]]].
    destruct (output_name_proper (base_of f) k Hk (PathFacts.base_of_plain f))
      as [P [N1 [N2 N3]]].
    pose proof (output_path_place a f k (fs w) Hk) as Hq. rewrite Hqf in Hq.
    unfold Fs.open_write in E. rewrite Hq in E.
    unfold output_path in E at 1 2.
    rewrite (PathFacts.names_directory_join _ _ P) in E.
    destruct (String.eqb_spec (OsPath.join (out_folder_of a f)
                                 (base_of f ++ "." ++ k)) "") as [J|_].
    { elim (PathFacts.join_nonempty _ _ (or_intror N1) J). }
    destruct (String.eqb_spec (base_of f ++ "." ++ k) ""); [contradiction|].
    destruct (String.eqb_spec (base_of f ++ "." ++ k) "."); [contradiction|].
    cbn [orb] in E.
    destruct (Fs.permits (fs w) _) eqn:Pq.
    + left. destruct (Fs.store _ _ _) eqn:S; [discriminate|].
      destruct (FsAgain.store_leaf _ _ _ _ _ L S) as [es' L'].
      apply FsFacts.isdir_spec. split.
      * apply PathFacts.join_nonempty. now right.
      * eauto.
    + right. eexists. split; [exact Hq | exact Pq].
Qed.

(** What a guarded caption writer leaves is what its one write
    leaves. *)
Lemma guarded_caption_state a f k (msg : exn -> string) result written
      failure w r w' :
  render_captions env k result = inr (written, failure) ->
  (r0 <- try_except (write_timecoded env result f (out_folder_of a f) k) ;;
   match r0 with
   | inl exc => eprint (msg exc)
   | inr _ => ret tt
   end) w = (r, w') ->
  r = Ok tt
  /\ exists r1 w1,
       save_text (output_path a f k) written w = (r1, w1) /\ fs w' = fs w1.
Proof.
  intros Hr. unfold bind at 1, try_except, write_timecoded. rewrite Hr.
  unfold bind at 1.
  change (OsPath.join (out_folder_of a f)
            (fst (OsPath.splitext (OsPath.basename f)) ++ "." ++ k))
    with (output_path a f k).
  destruct (save_text (output_path a f k) written w) as [[[]|e] w1] eqn:S.
  - destruct failure as [m|]; cbn; intros [= <- <-]; eauto.
  - assert (X : is_Exception e = true).
    { unfold save_text, fs_call in S.
      destruct (Fs.open_write _ _ _); [discriminate|].
      now injection S as <- _. }
    rewrite X. cbn. intros [= <- <-]. eauto.
Qed.


Lemma keeps_caption_step a f k b (msg : exn -> string) result :
  In k supported ->
  keeps
    (when b
       (r0 <- try_except
                (write_timecoded env result f (out_folder_of a f) k) ;;
        match r0 with
        | inl exc => eprint (msg exc)
        | inr _ => ret tt
        end)).
Proof.
  intros Hk. apply (steps_when kept kept_refl). now apply keeps_guarded.
Qed.

Lemma emits_caption_step a f k b (msg : exn -> string) result :
  In k supported ->
  emits (output_event a [k] f)
    (when b
       (r0 <- try_except
                (write_timecoded env result f (out_folder_of a f) k) ;;
        match r0 with
        | inl exc => eprint (msg exc)
        | inr _ => ret tt
        end)).
Proof.
  intros Hk.
  assert (C : Py.contains [k] k = true)
    by (apply PyFacts.contains_spec; now left).
  apply emits_when, emits_bind.
  - now apply emits_try, emits_write_timecoded.
  - intros [exc|[]]; [now apply emits_emit | apply emits_ret].
Qed.

Lemma keeps_output_step a f k b content :
  keeps (when b (save_text (output_path a f k) content)).
Proof. apply (steps_when kept kept_refl), keeps_save_text. Qed.

(** When the output step of a file returns, each caption file that was
    asked for and rendered is settled. *)
Lemma write_outputs_settles a fmts f result w w3 :
  Fs.isdir (out_folder_of a f) (fs w) = true ->
  write_outputs env fmts f (out_folder_of a f) (base_of f) result w
  = (Ok tt, w3) ->
  forall k written failure,
    k = "srt" \/ k = "vtt" -> In k fmts ->
    render_captions env k result = inr (written, failure) ->
    settled (output_path a f k) written (fs w3).
Proof.
  intros L H. unfold write_outputs in H.
  unfold bind at 1 in H.
  destruct (when (Py.contains fmts "txt") _ w) as [[[]|e] w1] eqn:E1;
    [|discriminate].
  unfold bind at 1 in H.
  destruct (when (Py.contains fmts "json") _ w1) as [[[]|e] w2] eqn:E2;
    [|discriminate].
  unfold bind at 1 in H.
  destruct (when (Py.contains fmts "srt") _ w2) as [[[]|e] w4] eqn:E3;
    [|discriminate].
  unfold bind at 1 in H.
  destruct (when (Py.contains fmts "vtt") _ w4) as [[[]|e] w5] eqn:E4;
    [|discriminate].
  injection H as <-. cbn [fs].
  assert (Ssrt : In "srt" supported) by (simpl; tauto).
  assert (Svtt : In "vtt" supported) by (simpl; tauto).
  pose proof (isdir_kept _ _ _ _ _ (keeps_output_step a f "txt" _ _) E1 L)
    as L1.
  pose proof (isdir_kept _ _ _ _ _ (keeps_output_step a f "json" _ _) E2 L1)
    as L2.
  pose proof (isdir_kept _ _ _ _ _
                (keeps_caption_step a f "srt" _ _ result Ssrt) E3 L2)
    as L4.
  intros k written failure [-> | ->] Hin Hr;
    apply PyFacts.contains_spec in Hin.
  - rewrite Hin in E3. cbn [when] in E3.
    destruct (guarded_caption_state a f "srt"
                (fun exc => "Failed SRT writing for " ++ f ++ ": "
                            ++ exn_message env exc)%string
                result written failure
                _ _ _ Hr E3) as [_ [r1 [wx [Sv Fx]]]].
    refine (settled_kept _ (output_event a ["vtt"] f) _ _ w4 _ w5
              (keeps_caption_step a f "vtt" (Py.contains fmts "vtt")
                 (fun exc => "Failed VTT writing for " ++ f ++ ": "
                             ++ exn_message env exc)%string result Svtt)
              (emits_caption_step a f "vtt" _ _ result Svtt) _ _ _).
    + intros p' [k' [[<-|[]] [_ ->]]].
      apply output_path_sibling; trivial. discriminate.
    + exact E4.
    + rewrite Fx. exact (save_text_settles a f "srt" _ _ _ _ Ssrt L2 Sv).
  - rewrite Hin in E4. cbn [when] in E4.
    destruct (guarded_caption_state a f "vtt"
                (fun exc => "Failed VTT writing for " ++ f ++ ": "
                            ++ exn_message env exc)%string
                result written failure
                _ _ _ Hr E4) as [_ [r1 [wx [Sv Fx]]]].
    rewrite Fx. exact (save_text_settles a f "vtt" _ _ _ _ Svtt L4 Sv).
Qed.

Lemma keeps_write_outputs a fmts f result :
  keeps (write_outputs env fmts f (out_folder_of a f) (base_of f) result).
Proof.
  apply (steps_write_outputs env kept kept_refl kept_trans keeps_emit).
  intros a0 f0 k0 content _. apply keeps_save_text.
Qed.

(** Where the text or the JSON file was written, the process may
    write. *)
Lemma write_outputs_writable a fmts f result w w3 :
  write_outputs env fmts f (out_folder_of a f) (base_of f) result w
  = (Ok tt, w3) ->
  forall k, k = "txt" \/ k = "json" -> In k fmts ->
            writable (output_path a f k) (fs w3).
Proof.
  intros H k Hk Hin. apply PyFacts.contains_spec in Hin.
  assert (Step : forall content w0 w1,
             when (Py.contains fmts k)
               (save_text (output_path a f k) content) w0 = (Ok tt, w1) ->
             writable (output_path a f k) (fs w1)).
  { intros content w0 w1. rewrite Hin. cbn [when].
    unfold save_text, fs_call.
    destruct (Fs.open_write _ _ _) as [t|] eqn:E; [|discriminate].
    intros [= <-]. exact (FsAgain.open_write_writable _ _ _ _ E). }
  unfold write_outputs in H.
  unfold bind at 1 in H.
  destruct (when (Py.contains fmts "txt") _ w) as [[[]|e] w1] eqn:E1;
    [|discriminate].
  destruct Hk as [-> | ->].
  - refine (writable_kept _ _ w1 _ w3 _ H (Step _ _ _ E1)).
    apply (steps_bind kept kept_trans);
      [apply (steps_when kept kept_refl), keeps_save_text | intros _].
    apply (steps_bind kept kept_trans);
      [apply (steps_when kept kept_refl), keeps_guarded; simpl; tauto
      | intros _].
    apply (steps_bind kept kept_trans);
      [apply (steps_when kept kept_refl), keeps_guarded; simpl; tauto
      | intros _].
    apply keeps_emit.
  - unfold bind at 1 in H.
    destruct (when (Py.contains fmts "json") _ w1) as [[[]|e] w2] eqn:E2;
      [|discriminate].
    refine (writable_kept _ _ w2 _ w3 _ H (Step _ _ _ E2)).
    apply (steps_bind kept kept_trans);
      [apply (steps_when kept kept_refl), keeps_guarded; simpl; tauto
      | intros _].
    apply (steps_bind kept kept_trans);
      [apply (steps_when kept kept_refl), keeps_guarded; simpl; tauto
      | intros _].
    apply keeps_emit.
Qed.

(** The turn of a file in a loop that returns 0. *)
Lemma batch_turn a fmts pre f post : forall fl w w',
  batch env a fmts (pre ++ f :: post) fl w = (Ok 0%Z, w') ->
  exists w1,
    Fs.isdir (out_folder_of a f) (fs w1) = true
    /\ match transcription env a f with
       | inl _ =>
           fail_on_error a = false
           /\ exists fl' tr,
                batch env a fmts post fl' (mkWorld (fs w1) tr) = (Ok 0%Z, w')
       | inr result =>
           exists w2 fl',
             write_outputs env fmts f (out_folder_of a f) (base_of f)
               result w1 = (Ok tt, w2)
             /\ batch env a fmts post fl' w2 = (Ok 0%Z, w')
       end.
Proof.
  induction pre as [|g pre IH]; intros fl w w' H; cbn [app] in H;
    apply batch_step in H; cbn zeta in H;
    destruct H as [[_ [H _]]|[t1 [Mk [[m [Tm H]]|[res [ro [w3 [Tr [W H]]]]]]]]];
    try discriminate.
  - rewrite Tm. exists (mkWorld t1 []). cbn [fs].
    split; [exact (FsFacts.makedirs_isdir _ _ _ Mk)|].
    destruct (fail_on_error a); [destruct H; discriminate|].
    split; trivial. do 2 eexists. exact H.
  - rewrite Tr. destruct ro as [[]|e]; [|destruct H; discriminate].
    eexists. split; [|eauto]. exact (FsFacts.makedirs_isdir _ _ _ Mk).
  - destruct (fail_on_error a); [destruct H; discriminate|].
    exact (IH _ _ _ H).
  - destruct ro as [[]|e]; [|destruct H; discriminate].
    exact (IH _ _ _ H).
Qed.

(** A loop that returns 0 leaves what each of its turns leaves, for the
    files whose base name no later file shares. *)
Lemma batch_done a fmts pre f post fl w w' :
  batch env a fmts (pre ++ f :: post) fl w = (Ok 0%Z, w') ->
  proper_base f -> Forall proper_base post ->
  (forall g, In g post -> base_of g <> base_of f) ->
  done_for env a fmts (fs w') f.
Proof.
  intros H Pf Ppost Hother.
  destruct (batch_turn a fmts pre f post fl w w' H) as [w1 [D T]].
  unfold done_for. destruct (transcription env a f) as [m|result].
  - destruct T as [Hff [fl' [tr B]]]. split; trivial.
    exact (isdir_kept _ _ _ _ _ (keeps_batch env a fmts post fl') B D).
  - destruct T as [w2 [fl' [W B]]].
    pose proof (isdir_kept _ _ _ _ _ (keeps_write_outputs a fmts f result) W D)
      as D2.
    split; [exact (isdir_kept _ _ _ _ _ (keeps_batch env a fmts post fl') B D2)|].
    destruct (write_outputs_saved env a fmts f result w1 w2 W) as [St Sj].
    pose proof (write_outputs_writable a fmts f result w1 w2 W) as Wr.
    split; [|split].
    + intros Hin. split.
      * refine (batch_keeps_outputs env a fmts f "txt" post fl' _ w2 _ w' Pf
                  Ppost _ Hother B (St Hin)).
        simpl; tauto.
      * exact (writable_kept _ _ _ _ _ (keeps_batch env a fmts post fl') B
                 (Wr "txt" (or_introl eq_refl) Hin)).
    + intros Hin. split.
      * refine (batch_keeps_outputs env a fmts f "json" post fl' _ w2 _ w' Pf
                  Ppost _ Hother B (Sj Hin)).
        simpl; tauto.
      * exact (writable_kept _ _ _ _ _ (keeps_batch env a fmts post fl') B
                 (Wr "json" (or_intror eq_refl) Hin)).
    + intros k written failure Hk Hin Hr.
      assert (Sk : In k supported) by (destruct Hk as [-> | ->]; simpl; tauto).
      refine (settled_kept (batch env a fmts post fl')
                (batch_event env a fmts post) _ _ w2 _ w'
                (keeps_batch env a fmts post fl')
                (emits_batch env a fmts post fl') _ B _).
      * intros p' [g [Hg [_ [k' [_ [Hk' ->]]]]]].
        rewrite Forall_forall in Ppost. apply output_path_other; auto.
      * exact (write_outputs_settles a fmts f result w1 w2 D W
                 k written failure Hk Hin Hr).
Qed.

(** On a file system that holds what the turn of [f] leaves, the output
    step of [f] changes nothing. *)
Lemma again_output a f k b content t tr :
  (b = true -> Fs.read (output_path a f k) t = Some content
               /\ writable (output_path a f k) t) ->
  exists tr',
    when b (save_text (output_path a f k) content) (mkWorld t tr)
    = (Ok tt, mkWorld t tr').
Proof.
  destruct b; cbn [when]; intros H; [|eexists; reflexivity].
  destruct (H eq_refl) as [R Wr].
  unfold save_text, fs_call. cbn [fs trace].
  rewrite (FsAgain.open_write_same _ _ _ R Wr). eauto.
Qed.

(** A write that fails or writes what is there. *)
Lemma again_write p c t :
  settled p c t ->
  Fs.open_write p c t = Some t \/ Fs.open_write p c t = None.
Proof.
  intros [R|[D|X]].
  - pose proof R as R'. apply FsFacts.read_spec in R'.
    destruct R' as [_ [_ [q [Hq _]]]].
    destruct (Fs.permits t q) eqn:Pq.
    + left. apply FsAgain.open_write_same; trivial. now exists q.
    + right. apply FsAgain.open_write_refused. now exists q.
  - right. now apply FsAgain.open_write_on_dir.
  - right. now apply FsAgain.open_write_refused.
Qed.

Lemma again_caption a f k b (msg : exn -> string) result t tr :
  (b = true -> forall written failure,
     render_captions env k result = inr (written, failure) ->
     settled (output_path a f k) written t) ->
  exists tr',
    when b
      (r0 <- try_except
               (write_timecoded env result f (out_folder_of a f) k) ;;
       match r0 with
       | inl exc => eprint (msg exc)
       | inr _ => ret tt
       end) (mkWorld t tr)
    = (Ok tt, mkWorld t tr').
Proof.
  destruct b; cbn [when]; intros H; [|eexists; reflexivity].
  specialize (H eq_refl).
  unfold bind at 1, try_except, write_timecoded.
  destruct (render_captions env k result) as [m|[written failure]].
  - cbn. unfold eprint, emit. cbn [fs trace]. eauto.
  - unfold bind at 1.
    change (OsPath.join (out_folder_of a f)
              (fst (OsPath.splitext (OsPath.basename f)) ++ "." ++ k))
      with (output_path a f k).
    unfold save_text, fs_call. cbn [fs trace].
    destruct (again_write _ _ _ (H written failure eq_refl)) as [-> | ->].
    + destruct failure; cbn; unfold eprint, emit, ret; cbn [fs trace]; eauto.
    + cbn. unfold eprint, emit. cbn [fs trace]. eauto.
Qed.

Lemma write_outputs_again a fmts f result t tr :
  (In "txt" fmts ->
   Fs.read (output_path a f "txt") t = Some (transcript env result)
   /\ writable (output_path a f "txt") t) ->
  (In "json" fmts ->
   Fs.read (output_path a f "json") t = Some (json_dumps env result)
   /\ writable (output_path a f "json") t) ->
  (forall k written failure,
     k = "srt" \/ k = "vtt" -> In k fmts ->
     render_captions env k result = inr (written, failure) ->
     settled (output_path a f k) written t) ->
  exists tr',
    write_outputs env fmts f (out_folder_of a f) (base_of f) result
      (mkWorld t tr)
    = (Ok tt, mkWorld t tr').
Proof.
  intros Ht Hj Hc. unfold write_outputs.
  destruct (again_output a f "txt" (Py.contains fmts "txt")
              (transcript env result) t tr) as [tr1 E1].
  { intros C. apply Ht. now apply PyFacts.contains_spec. }
  destruct (again_output a f "json" (Py.contains fmts "json")
              (json_dumps env result) t tr1) as [tr2 E2].
  { intros C. apply Hj. now apply PyFacts.contains_spec. }
  destruct (again_caption a f "srt" (Py.contains fmts "srt")
              (fun exc => "Failed SRT writing for " ++ f ++ ": "
                          ++ exn_message env exc)%string result t tr2)
    as [tr3 E3].
  { intros C written failure. apply Hc; [now left|].
    now apply PyFacts.contains_spec. }
  destruct (again_caption a f "vtt" (Py.contains fmts "vtt")
              (fun exc => "Failed VTT writing for " ++ f ++ ": "
                          ++ exn_message env exc)%string result t tr3)
    as [tr4 E4].
  { intros C written failure. apply Hc; [now right|].
    now apply PyFacts.contains_spec. }
  unfold transcript, output_path in E1. cbn [append] in E1.
  unfold output_path in E2. cbn [append] in E2.
  unfold bind at 1. rewrite E1.
  unfold bind at 1. rewrite E2.
  unfold bind at 1. rewrite E3.
  unfold bind at 1. rewrite E4.
  unfold print, emit. cbn [fs trace]. eauto.
Qed.

(** On a file system that holds what the turns of the files leave, the
    loop returns 0 and changes nothing. *)
Lemma batch_again a fmts t files : forall fl tr,
  Forall (done_for env a fmts t) files ->
  (fail_on_error a = true -> fl = []) ->
  exists tr',
    batch env a fmts files fl (mkWorld t tr) = (Ok 0%Z, mkWorld t tr').
Proof.
  induction files as [|f rest IH]; intros fl tr Hdone Hfl.
  - cbn [batch]. destruct (fail_on_error a).
    + rewrite (Hfl eq_refl). eexists. reflexivity.
    + rewrite andb_false_r. eexists. reflexivity.
  - inversion Hdone as [|? ? [D T] Hrest]; subst. cbn [batch].
    unfold bind at 1. unfold ensure_dir. cbn [fs trace].
    rewrite (FsFacts.makedirs_idem _ _ D).
    unfold bind at 1. unfold print, emit. cbn [fs trace].
    unfold bind at 1. rewrite try_transcribe. cbn [fs trace].
    destruct (transcription env a f) as [m|result].
    + unfold bind at 1. unfold eprint, emit. cbn [fs trace].
      rewrite T. apply IH; trivial. intros X. congruence.
    + destruct T as [Ht [Hj Hc]].
      unfold bind at 1.
      match goal with
      | |- context [write_outputs _ _ _ _ _ _ (mkWorld _ ?tr0)] =>
          destruct (write_outputs_again a fmts f result t tr0 Ht Hj Hc)
            as [tr1 E]
      end.
      rewrite E. now apply IH.
Qed.

End Settled.

(** ** What a run adds *)

Module FsGrowth.
Import Fs FsFacts.

Lemma put_keys_In c n es x :
  In x (map fst (put c n es)) -> x = c \/ In x (map fst es).
Proof.
  induction es as [|[k m] es IH]; cbn.
  - intros [<-|[]]. now left.
  - destruct (String.eqb_spec k c) as [->|Hne]; cbn.
    + intros [<-|H]; auto.
    + intros [<-|H]; [auto|]. destruct (IH H); auto.
Qed.

(** [put] replaces an entry or adds one: no name comes to be there
    twice. *)
Lemma put_keys c n es :
  NoDup (map fst es) -> NoDup (map fst (put c n es)).
Proof.
  induction es as [|[k m] es IH]; cbn; intros N.
  - repeat constructor. intros [].
  - inversion N as [|? ? Hk N']; subst.
    destruct (String.eqb_spec k c) as [->|Hne]; cbn.
    + now constructor.
    + constructor; [|auto]. intros H.
      destruct (put_keys_In _ _ _ _ H) as [->|H']; [now elim Hne | auto].
Qed.

Lemma tidier_refl t : tidier t t.
Proof. intros q es' L H. exact (H _ L). Qed.

Lemma tidier_trans t1 t2 t3 : tidier t1 t2 -> tidier t2 t3 -> tidier t1 t3.
Proof.
  intros A B q es3 L H. apply (B q es3 L). intros es2 L2. exact (A q es2 L2 H).
Qed.

Lemma mkdir_p_tidier cs : forall t t', mkdir_p cs t = Some t' -> tidier t t'.
Proof.
  induction cs as [|c rest IH]; intros t t' H.
  - destruct t; simpl in H; [discriminate|]. injection H as <-.
    apply tidier_refl.
  - destruct t as [s|es]; simpl in H; [discriminate|].
    destruct (mkdir_p rest _) as [child'|] eqn:E; [|discriminate].
    injection H as <-. intros q es' L N.
    destruct q as [|c1 q'].
    + injection L as <-. apply put_keys. exact (N es eq_refl).
    + cbn [lookup] in L, N.
      destruct (String.eqb_spec c c1) as [<-|Hne].
      * rewrite get_put_same in L. apply (IH _ _ E q' es' L).
        intros es0 L0. destruct (get c es) as [child|].
        -- exact (N es0 L0).
        -- destruct q'; [injection L0 as <-; constructor | discriminate].
      * rewrite (get_put_other _ _ _ _ Hne) in L.
        destruct (get c1 es) as [ch|]; [|discriminate]. exact (N es' L).
Qed.

Lemma store_tidier cs : forall s t t', store cs s t = Some t' -> tidier t t'.
Proof.
  induction cs as [|c rest IH]; intros s t t' H; [discriminate|].
  destruct t as [s0|es]; [destruct rest; discriminate|].
  intros q es' L N. destruct rest as [|c2 rest'].
  - simpl in H.
    assert (E : t' = Dir (put c (File s) es)).
    { destruct (get c es) as [[s1|es1]|]; try discriminate;
        now injection H as <-. }
    subst t'. destruct q as [|c1 q'].
    + injection L as <-. apply put_keys. exact (N es eq_refl).
    + cbn [lookup] in L, N.
      destruct (String.eqb_spec c c1) as [<-|Hne].
      * rewrite get_put_same in L. destruct q'; discriminate.
      * rewrite (get_put_other _ _ _ _ Hne) in L.
        destruct (get c1 es) as [ch|]; [|discriminate]. exact (N es' L).
  - rewrite store_below in H.
    destruct (get c es) as [child|] eqn:G; [|discriminate].
    destruct (store (c2 :: rest') s child) as [child'|] eqn:E; [|discriminate].
    injection H as <-. destruct q as [|c1 q'].
    + injection L as <-. apply put_keys. exact (N es eq_refl).
    + cbn [lookup] in L, N.
      destruct (String.eqb_spec c c1) as [<-|Hne].
      * rewrite get_put_same in L. rewrite G in N.
        exact (IH _ _ _ E q' es' L N).
      * rewrite (get_put_other _ _ _ _ Hne) in L.
        destruct (get c1 es) as [ch|]; [|discriminate]. exact (N es' L).
Qed.

(** Writing a file makes no directory. *)
Lemma store_old_dir cs : forall q s t t' es',
  store cs s t = Some t' -> lookup q t' = Some (Dir es') ->
  exists es, lookup q t = Some (Dir es).
Proof.
  induction cs as [|c rest IH]; intros q s t t' es' H L; [discriminate|].
  destruct t as [s0|es]; [destruct rest; discriminate|].
  destruct q as [|c1 q']; [cbn; eauto|].
  destruct rest as [|c2 rest'].
  - simpl in H.
    assert (E : t' = Dir (put c (File s) es)).
    { destruct (get c es) as [[s1|es1]|]; try discriminate;
        now injection H as <-. }
    subst t'. cbn [lookup] in L |- *.
    destruct (String.eqb_spec c c1) as [<-|Hne].
    + rewrite get_put_same in L. destruct q'; discriminate.
    + rewrite (get_put_other _ _ _ _ Hne) in L. eauto.
  - rewrite store_below in H.
    destruct (get c es) as [child|] eqn:G; [|discriminate].
    destruct (store (c2 :: rest') s child) as [child'|] eqn:E; [|discriminate].
    injection H as <-. cbn [lookup] in L |- *.
    destruct (String.eqb_spec c c1) as [<-|Hne].
    + rewrite get_put_same in L. rewrite G. exact (IH _ _ _ _ _ E L).
    + rewrite (get_put_other _ _ _ _ Hne) in L. eauto.
Qed.

(** The directories [mkdir_p] makes lie along its path. *)
Lemma mkdir_p_new_dir cs : forall q t t' es',
  mkdir_p cs t = Some t' -> lookup q t' = Some (Dir es') ->
  (exists es, lookup q t = Some (Dir es)) \/ exists r, cs = q ++ r.
Proof.
  induction cs as [|c rest IH]; intros q t t' es' H L.
  - destruct t; simpl in H; [discriminate|]. injection H as <-. eauto.
  - destruct t as [s|es]; simpl in H; [discriminate|].
    destruct (mkdir_p rest _) as [child'|] eqn:E; [|discriminate].
    injection H as <-.
    destruct q as [|c1 q']; [left; cbn; eauto|].
    cbn [lookup] in L |- *.
    destruct (String.eqb_spec c c1) as [<-|Hne].
    + rewrite get_put_same in L.
      destruct (IH _ _ _ _ E L) as [[es0 L0]|[r ->]].
      * destruct (get c es) as [child|]; [left; eauto|].
        destruct q'; [|discriminate]. right. now exists rest.
      * right. now exists r.
    + rewrite (get_put_other _ _ _ _ Hne) in L. left. eauto.
Qed.

(** What is above a directory is a directory. *)
Lemma lookup_above q r t es :
  lookup (q ++ r) t = Some (Dir es) -> exists es0, lookup q t = Some (Dir es0).
Proof.
  rewrite lookup_app. destruct (lookup q t) as [[s|es0]|]; [|eauto|discriminate].
  destruct r; discriminate.
Qed.

(** The directories the walk of [makedirs] makes are places it
    passes. *)
Lemma mkdirs_new ok cs : forall here t t' done q es',
  mkdirs ok here cs t = (t', done) ->
  lookup q t' = Some (Dir es') ->
  (exists es, lookup q t = Some (Dir es))
  \/ exists cs1 cs2, cs = cs1 ++ cs2 /\ locate here cs1 t' = Some q.
Proof.
  induction cs as [|c rest IH]; intros here t t' done q es' H L;
    pose proof (mkdirs_stay _ _ _ _ _ _ H) as D;
    cbn [mkdirs] in H;
    destruct (lookup here t) as [[s|es0]|] eqn:Lh;
    try (injection H as <- _; left; eauto).
  destruct (String.eqb_spec c "..") as [->|Hc].
  - destruct (IH _ _ _ _ _ _ H L) as [X|[cs1 [cs2 [-> X]]]]; [now left|].
    right. exists (".." :: cs1), cs2. split; trivial.
    cbn [locate String.eqb Ascii.eqb Bool.eqb].
    destruct (D _ _ Lh) as [es1 ->]. exact X.
  - assert (Step : forall cs1, locate here (c :: cs1) t'
                               = locate (here ++ [c]) cs1 t').
    { intros cs1. cbn [locate]. now destruct (String.eqb_spec c ".."). }
    destruct (lookup (here ++ [c]) t) as [n|] eqn:Lc.
    + destruct (IH _ _ _ _ _ _ H L) as [X|[cs1 [cs2 [-> X]]]]; [now left|].
      right. exists (c :: cs1), cs2. split; trivial. now rewrite Step.
    + destruct (ok (here ++ [c])); [|injection H as <- _; left; eauto].
      destruct (mkdir_p (here ++ [c]) t) as [t1|] eqn:E;
        [|injection H as <- _; left; eauto].
      destruct (IH _ _ _ _ _ _ H L) as [[es1 L1]|[cs1 [cs2 [-> X]]]].
      * destruct (mkdir_p_new_dir _ _ _ _ _ E L1) as [X|[r Hr]]; [now left|].
        destruct r as [|x r] using rev_ind.
        -- rewrite app_nil_r in Hr. subst q. right. exists [c], rest.
           split; trivial; now rewrite Step.
        -- rewrite app_assoc in Hr. apply app_inj_tail in Hr.
           destruct Hr as [-> _]. left.
           exact (lookup_above _ _ _ _ Lh).
      * right. exists (c :: cs1), cs2. split; trivial. now rewrite Step.
Qed.

Lemma mkdirs_tidier ok cs here t t' done :
  mkdirs ok here cs t = (t', done) -> tidier t t'.
Proof.
  apply (mkdirs_steps tidier ok tidier_refl tidier_trans).
  intros q t0 t1. apply mkdir_p_tidier.
Qed.

(** The walk makes no regular file. *)
Lemma mkdirs_new_file ok cs here t t' done q c :
  mkdirs ok here cs t = (t', done) ->
  lookup q t' = Some (File c) -> lookup q t = Some (File c).
Proof.
  intros H. revert q c.
  refine (mkdirs_steps
            (fun t t' => forall q c, lookup q t' = Some (File c) ->
                                     lookup q t = Some (File c))
            ok _ _ _ cs here t t' done H); auto.
  intros q0 t0 t1 E q c L. exact (AudioFacts.mkdir_p_new_file _ _ _ _ _ E L).
Qed.

Lemma makedirs_new p s s' done q es' :
  makedirs p s = (s', done) ->
  lookup q (tree s') = Some (Dir es') ->
  (exists es, lookup q (tree s) = Some (Dir es))
  \/ exists cs rest,
       components p = cs ++ rest
       /\ locate (origin p s') cs (tree s') = Some q.
Proof.
  unfold makedirs. destruct (p =? "")%string; [intros [= <- _]; eauto|].
  destruct (mkdirs _ _ _ _) as [t d] eqn:E. intros [= <- _]. cbn [tree].
  intros L. destruct (mkdirs_new _ _ _ _ _ _ _ _ E L) as [X|[cs1 [cs2 [A B]]]];
    [now left | right].
  exists cs1, cs2. split; trivial.
Qed.

Lemma makedirs_tidier p s s' done :
  makedirs p s = (s', done) -> tidier (tree s) (tree s').
Proof.
  unfold makedirs. destruct (p =? "")%string;
    [intros [= <- _]; apply tidier_refl|].
  destruct (mkdirs _ _ _ _) as [t d] eqn:E. intros [= <- _].
  exact (mkdirs_tidier _ _ _ _ _ _ E).
Qed.

Lemma makedirs_new_file p s s' done q c :
  makedirs p s = (s', done) ->
  lookup q (tree s') = Some (File c) -> lookup q (tree s) = Some (File c).
Proof.
  unfold makedirs. destruct (p =? "")%string; [now intros [= <- _]|].
  destruct (mkdirs _ _ _ _) as [t d] eqn:E. intros [= <- _].
  apply (mkdirs_new_file _ _ _ _ _ _ _ _ E).
Qed.

End FsGrowth.

Section Growth.

Variable env : Env.

Lemma grown_still w evs : grown w (mkWorld (fs w) (trace w ++ evs)).
Proof.
  exists evs. split; [reflexivity|]. cbn [fs].
  split; [apply same_process_refl|].
  split; [apply FsFacts.dirs_stay_refl|].
  split; [eauto|]. split; [eauto|]. apply FsGrowth.tidier_refl.
Qed.

Lemma grown_refl w : grown w w.
Proof.
  exists []. rewrite app_nil_r. split; trivial.
  split; [apply same_process_refl|].
  split; [apply FsFacts.dirs_stay_refl|].
  split; [eauto|]. split; [eauto|]. apply FsGrowth.tidier_refl.
Qed.

Lemma grown_trans w1 w2 w3 : grown w1 w2 -> grown w2 w3 -> grown w1 w3.
Proof.
  intros [e1 [T1 [P1 [D1 [F1 [G1 N1]]]]]] [e2 [T2 [P2 [D2 [F2 [G2 N2]]]]]].
  exists (e1 ++ e2). rewrite T2, T1, app_assoc. split; trivial.
  split; [exact (same_process_trans _ _ _ P1 P2)|].
  split; [exact (FsFacts.dirs_stay_trans _ _ _ D1 D2)|].
  split; [|split].
  - intros q c L. destruct (F2 _ _ L) as [[c2 L2]|[p [Hin Hp]]].
    + destruct (F1 _ _ L2) as [X|[p [Hin Hp]]]; [now left | right].
      exists p. split; [apply in_or_app; now left|].
      exact (FsFacts.place_stable _ _ _ _ P2 D2 Hp).
    + right. exists p. split; trivial. apply in_or_app. now right.
  - intros q es' L. destruct (G2 _ _ L) as [[es2 L2]|[p [ok [cs [rest X]]]]].
    + destruct (G1 _ _ L2) as [X|[p [ok [cs [rest [Hin [C Hp]]]]]]];
        [now left | right].
      exists p, ok, cs, rest. split; [apply in_or_app; now left|].
      split; trivial. destruct P2 as [C2 _].
      unfold Fs.origin in *. rewrite C2.
      exact (FsFacts.locate_stable _ _ D2 _ _ _ Hp).
    + right. exists p, ok, cs, rest. destruct X as [Hin X].
      split; trivial. apply in_or_app. now right.
  - exact (FsGrowth.tidier_trans _ _ _ N1 N2).
Qed.

Lemma grows_emit e : steps grown (emit e).
Proof. intros w r w' [= <- <-]. apply grown_still. Qed.

Lemma grows_ensure_dir path : steps grown (ensure_dir path).
Proof.
  intros w r w'. unfold ensure_dir.
  destruct (Fs.makedirs path (fs w)) as [s done] eqn:E. intros [= <- <-].
  eexists. cbn [fs trace]. split; [reflexivity|].
  split; [exact (FsFacts.makedirs_process _ _ _ _ E)|].
  split; [exact (FsFacts.makedirs_stay _ _ _ _ E)|].
  split; [|split].
  - intros q c L. left. exists c.
    exact (FsGrowth.makedirs_new_file _ _ _ _ _ _ E L).
  - intros q es' L.
    destruct (FsGrowth.makedirs_new _ _ _ _ _ _ E L) as [X|[cs [rest [A B]]]];
      [now left | right].
    exists path, done, cs, rest. split; [now left | now split].
  - exact (FsGrowth.makedirs_tidier _ _ _ _ E).
Qed.

Lemma grows_save_text path content : steps grown (save_text path content).
Proof.
  intros w r w'. unfold save_text, fs_call.
  destruct (Fs.open_write path content (fs w)) as [s|] eqn:E;
    intros [= <- <-]; [|apply grown_still].
  pose proof (FsFacts.open_write_process _ _ _ _ E) as P.
  pose proof (FsFacts.open_write_stay _ _ _ _ E) as D.
  eexists. cbn [fs trace]. split; [reflexivity|].
  split; trivial. split; trivial.
  apply FsFacts.open_write_spec in E.
  destruct E as [_ [_ [q0 [t [Hq [_ [E ->]]]]]]]. cbn [Fs.tree] in *.
  split; [|split].
  - intros q c L.
    destruct (list_eq_dec string_dec q q0) as [->|Hne].
    + right. exists path. split; [now left|].
      exact (FsFacts.place_stable _ _ _ _ P D Hq).
    + left. exists c. exact (AudioFacts.store_old_file _ _ _ _ _ _ E Hne L).
  - intros q es' L. left. exact (FsGrowth.store_old_dir _ _ _ _ _ _ E L).
  - exact (FsGrowth.store_tidier _ _ _ _ E).
Qed.

Lemma grows_main a : steps grown (main env a).
Proof.
  apply (steps_main env grown grown_refl grown_trans grows_emit
           grows_ensure_dir).
  intros a0 f0 k0 content _. apply grows_save_text.
Qed.

End Growth.

(** ** The turn of a file that is reported saved *)

Section Reported.

Variable env : Env.

(** A trace cut after more attempts than a beginning of it holds is cut
    after that beginning. *)
Lemma split_after pref : forall front x back tail,
  front ++ x :: back = pref ++ tail ->
  length (attempts pref) < length (attempts front) ->
  exists front', front = pref ++ front' /\ tail = front' ++ x :: back.
Proof.
  induction pref as [|e pref IH]; intros front x back tail E L.
  - exists front. now split.
  - destruct front as [|y front]; [cbn in L; lia|].
    cbn [app] in E. injection E as -> E.
    assert (L' : length (attempts pref) < length (attempts front))
      by (destruct e; cbn [attempts length] in L; lia).
    destruct (IH _ _ _ _ E L') as [front' [-> ->]].
    exists front'. now split.
Qed.

Lemma quiet_save_text path content : only is_quiet (save_text path content).
Proof.
  apply only_fs_call; trivial.
  intros q t t' Hq E. exact (FsFacts.open_write_keeps _ _ _ _ _ Hq E).
Qed.

Lemma quiet_guarded result f d k (msg : exn -> string) :
  only is_quiet
    (r0 <- try_except (write_timecoded env result f d k) ;;
     match r0 with
     | inl exc => eprint (msg exc)
     | inr _ => ret tt
     end).
Proof.
  apply only_bind.
  - apply only_try. unfold write_timecoded.
    destruct (render_captions _ _ _) as [m0|[s [m|]]].
    + now apply only_raise.
    + apply only_bind; [apply quiet_save_text|]. intros _.
      now apply only_raise.
    + apply only_bind; [apply quiet_save_text|]. intros _. apply only_ret.
  - intros [exc|[]]; [now apply only_emit | apply only_ret].
Qed.

Lemma reports_bind d (m k : M unit) :
  only is_quiet m -> reports d k -> reports d (m ;; k).
Proof.
  intros Hm Hk w ro w3. unfold bind.
  destruct (m w) as [[[]|e] w1] eqn:E;
    destruct (Hm _ _ _ E) as [[o1 [T1 Q1]] _].
  - intros H. destruct (Hk _ _ _ H) as [o2 [Q2 T2]].
    exists (o1 ++ o2). split.
    + rewrite forallb_app, Q1, Q2. reflexivity.
    + now rewrite T2, T1, <- !app_assoc.
  - intros [= <- <-]. exists o1. split; trivial. now rewrite app_nil_r.
Qed.

(** The output step of a file reports the folder saved exactly when it
    returns. *)
Lemma write_outputs_report fmts f d base result :
  reports d (write_outputs env fmts f d base result).
Proof.
  unfold write_outputs.
  repeat (apply reports_bind; [apply only_when|]);
    try apply quiet_save_text; try apply quiet_guarded.
  intros w ro w3 [= <- <-]. exists []. now split.
Qed.

(** The loop reports nothing saved before it has attempted a file. *)
Lemma no_report_before_attempt a fmts files fl w r w' front back d :
  batch env a fmts files fl w = (r, w') ->
  trace w' = trace w ++ front
             ++ EvStdout ("Saved transcripts to: " ++ d) :: back ->
  attempts front <> [].
Proof.
  intros H T.
  assert (Short : forall e : event,
             (forall s, e <> EvStdout s) ->
             trace w ++ [e]
             = trace w ++ front
               ++ EvStdout ("Saved transcripts to: " ++ d) :: back ->
             False).
  { intros e He E. apply app_inv_head in E.
    destruct front as [|x [|y front]]; try discriminate.
    injection E as E _. now elim (He _ E). }
  destruct files as [|g rest].
  - cbn [batch] in H.
    assert (E : w' = w) by (destruct (_ && _); now injection H as _ <-).
    subst w'. rewrite <- (app_nil_r (trace w)) in T at 1.
    apply app_inv_head in T. destruct front; discriminate.
  - apply batch_step in H. cbn zeta in H.
    assert (Long : forall tail,
               trace w' = (trace w ++ [EvMakedirs (out_folder_of a g) true;
                                       EvStdout ("Transcribing: " ++ g);
                                       attempt_event env a g]) ++ tail ->
               attempts front <> []).
    { intros tail E. rewrite E, <- app_assoc in T. apply app_inv_head in T.
      destruct front as [|x1 [|x2 [|x3 front]]]; cbn [app] in T.
      - discriminate.
      - injection T as _ T _. cbn in T. discriminate.
      - discriminate.
      - injection T as <- <- <- _. discriminate. }
    destruct H as [[_ [_ ->]]|[t1 [Mk [[m [Tm H]]|[res [ro [w3 [Tr [W H]]]]]]]]].
    + exfalso. cbn [trace] in T. refine (Short _ _ T). discriminate.
    + destruct (fail_on_error a).
      * destruct H as [_ ->]. cbn [trace]. eapply Long. reflexivity.
      * destruct (keeps_batch env a fmts _ _ _ _ _ H) as [tail [Tt _]].
        cbn [trace] in Tt. eapply Long. rewrite Tt, <- !app_assoc.
        reflexivity.
    + destruct (keeps_write_outputs env a fmts g res _ _ _ W)
        as [outs [Tw _]].
      cbn [trace] in Tw. destruct ro as [[]|e].
      * destruct (keeps_batch env a fmts _ _ _ _ _ H) as [tail [Tt _]].
        eapply Long. rewrite Tt, Tw, <- !app_assoc. reflexivity.
      * destruct H as [_ ->]. eapply Long. rewrite Tw. reflexivity.
Qed.

(** A loop whose trace reports the folder of [f] saved once the files up
    to [f] were attempted has run the output step of [f], the step
    returned, and what follows the report is the rest of the loop. *)
Lemma batch_saved a fmts pre f post result :
  forall fl w r w' front back,
    batch env a fmts (pre ++ f :: post) fl w = (r, w') ->
    trace w' = trace w ++ front ++ saved_line a f :: back ->
    attempts front = pre ++ [f] ->
    transcription env a f = inr result ->
    exists w1 w2 fl',
      Fs.isdir (out_folder_of a f) (fs w1) = true
      /\ write_outputs env fmts f (out_folder_of a f) (base_of f) result w1
         = (Ok tt, w2)
      /\ batch env a fmts post fl' w2 = (r, w')
      /\ trace w' = trace w2 ++ back.
Proof.
  assert (Cut : forall (tr tr' : list event) front back,
             tr' = tr ++ front ++ saved_line a f :: back ->
             forall pref tail,
               tr' = (tr ++ pref) ++ tail ->
               length (attempts pref) < length (attempts front) ->
               exists front', front = pref ++ front'
                              /\ tail = front' ++ saved_line a f :: back).
  { intros tr tr' front back T2 pref tail T1 L. rewrite T1, <- app_assoc in T2.
    apply app_inv_head in T2. symmetry in T2.
    exact (split_after _ _ _ _ _ T2 L). }
  induction pre as [|g pre IH]; intros fl w r w' front back H T A Tf;
    cbn [app] in H; apply batch_step in H; cbn zeta in H;
    destruct H as [[_ [_ ->]]|[t1 [Mk [[m [Tm H]]|[res [ro [w3 [Tr [W H]]]]]]]]];
    cbn [trace] in T.
  - destruct (Cut _ _ _ _ T [EvMakedirs (out_folder_of a f) false] [])
      as [front' [_ E]]; trivial.
    + cbn [trace]. now rewrite app_nil_r.
    + rewrite A. cbn. lia.
    + destruct front'; discriminate.
  - congruence.
  - assert (res = result) as -> by congruence.
    destruct (write_outputs_report _ _ _ _ _ _ _ _ W) as [outs [Q Tw]].
    cbn [trace] in Tw.
    assert (Qs : ~ In (saved_line a f) outs).
    { intros X. rewrite forallb_forall in Q. specialize (Q _ X).
      discriminate. }
    destruct ro as [[]|e].
    + destruct (keeps_batch env a fmts _ _ _ _ _ H) as [tail [Tt _]].
      destruct (Cut _ _ _ _ T [EvMakedirs (out_folder_of a f) true;
                               EvStdout ("Transcribing: " ++ f)]
                  (attempt_event env a f :: outs
                   ++ saved_line a f :: tail))
        as [front' [-> E]]; trivial.
      * rewrite Tt, Tw. unfold saved_line. now rewrite <- !app_assoc.
      * rewrite A. cbn. lia.
      * cbn [app attempts] in A.
        destruct front' as [|x front2]; [discriminate|].
        injection E as <- E. cbn [attempts attempt_event] in A.
        injection A as A.
        assert (Back : front2 = outs /\ back = tail).
        { apply app_eq_app in E. destruct E as [l [[E1 E2]|[E1 E2]]].
          - destruct l as [|e l].
            + rewrite app_nil_r in E1. now injection E2 as <-.
            + injection E2 as <- _. elim Qs. rewrite E1.
              apply in_or_app. right. now left.
          - destruct l as [|e l].
            + rewrite app_nil_r in E1. now injection E2 as ->.
            + injection E2 as <- E2. exfalso.
              rewrite E1, attempts_app in A. apply app_eq_nil in A.
              destruct A as [_ A]. cbn [attempts saved_line] in A.
              refine (no_report_before_attempt a fmts _ _ _ _ _ l back _ H _ A).
              now rewrite Tt, E2. }
        destruct Back as [-> ->].
        do 3 eexists. split; [|split; [exact W | split; [exact H | exact Tt]]].
        cbn [fs]. exact (FsFacts.makedirs_isdir _ _ _ Mk).
    + destruct H as [-> ->]. rewrite app_nil_r in Tw.
      destruct (Cut _ _ _ _ T [EvMakedirs (out_folder_of a f) true;
                               EvStdout ("Transcribing: " ++ f)]
                  (attempt_event env a f :: outs))
        as [front' [-> E]]; trivial.
      * rewrite Tw, <- !app_assoc. reflexivity.
      * rewrite A. cbn. lia.
      * cbn [app attempts] in A.
        destruct front' as [|x front']; [discriminate|].
        injection E as _ E. elim Qs. rewrite E.
        apply in_or_app. right. now left.
  - destruct (Cut _ _ _ _ T [EvMakedirs (out_folder_of a g) false] [])
      as [front' [_ E]]; trivial.
    + cbn [trace]. now rewrite app_nil_r.
    + rewrite A. cbn. lia.
    + destruct front'; discriminate.
  - set (pref := [EvMakedirs (out_folder_of a g) true;
                  EvStdout ("Transcribing: " ++ g);
                  attempt_event env a g;
                  EvStderr ("Failed transcription for " ++ g ++ ": " ++ m)]).
    assert (Ap : attempts pref = [g]) by reflexivity.
    destruct (fail_on_error a).
    + destruct H as [-> ->].
      destruct (Cut _ _ _ _ T pref []) as [front' [_ E]]; trivial.
      * cbn [trace]. now rewrite app_nil_r, <- app_assoc.
      * rewrite A, Ap. cbn. rewrite length_app. cbn. lia.
      * destruct front'; discriminate.
    + destruct (keeps_batch env a fmts _ _ _ _ _ H) as [tail [Tt _]].
      cbn [trace] in Tt.
      destruct (Cut _ _ _ _ T pref tail) as [front' [-> E]]; trivial.
      * rewrite Tt, <- !app_assoc. reflexivity.
      * rewrite A, Ap. cbn. rewrite length_app. cbn. lia.
      * rewrite attempts_app, Ap in A. injection A as A.
        refine (IH _ _ _ _ front' back H _ A Tf).
        cbn [trace]. now rewrite Tt, E.
  - destruct (write_outputs_report _ _ _ _ _ _ _ _ W) as [outs [Q Tw]].
    cbn [trace] in Tw.
    assert (Qa : attempts outs = []).
    { clear - Q. induction outs as [|e outs IH]; trivial.
      cbn in Q. apply andb_true_iff in Q. destruct Q as [Qe Q].
      destruct e; try discriminate; cbn; auto. }
    destruct ro as [[]|e].
    + set (pref := [EvMakedirs (out_folder_of a g) true;
                    EvStdout ("Transcribing: " ++ g);
                    attempt_event env a g]
                   ++ outs
                   ++ [EvStdout ("Saved transcripts to: "
                                 ++ out_folder_of a g)]).
      assert (Ap : attempts pref = [g]).
      { unfold pref. rewrite !attempts_app, Qa. reflexivity. }
      destruct (keeps_batch env a fmts _ _ _ _ _ H) as [tail [Tt _]].
      destruct (Cut _ _ _ _ T pref tail) as [front' [-> E]]; trivial.
      * rewrite Tt, Tw. unfold pref. now rewrite <- !app_assoc.
      * rewrite A, Ap. cbn. rewrite length_app. cbn. lia.
      * rewrite attempts_app, Ap in A. injection A as A.
        refine (IH _ _ _ _ front' back H _ A Tf).
        now rewrite Tt, E.
    + destruct H as [-> ->]. rewrite app_nil_r in Tw.
      set (pref := [EvMakedirs (out_folder_of a g) true;
                    EvStdout ("Transcribing: " ++ g);
                    attempt_event env a g] ++ outs).
      assert (Ap : attempts pref = [g]).
      { unfold pref. rewrite !attempts_app, Qa. reflexivity. }
      destruct (Cut _ _ _ _ T pref []) as [front' [_ E]]; trivial.
      * rewrite Tw. unfold pref. now rewrite app_nil_r, <- !app_assoc.
      * rewrite A, Ap. cbn. rewrite length_app. cbn. lia.
      * destruct front'; discriminate.
Qed.

(** The same for a run of the script. *)
Lemma main_saved a w r w' pre f post result front back :
  main env a w = (r, w') ->
  (forall fmt, In fmt (parse_formats (formats a)) -> In fmt supported) ->
  find_audio_files_in (fs w) (input a) audio_exts = pre ++ f :: post ->
  trace w' = trace w ++ front ++ saved_line a f :: back ->
  attempts front = pre ++ [f] ->
  transcription env a f = inr result ->
  exists w1 w2 fl',
    Fs.isdir (out_folder_of a f) (fs w1) = true
    /\ write_outputs env (parse_formats (formats a)) f (out_folder_of a f)
         (base_of f) result w1
       = (Ok tt, w2)
    /\ batch env a (parse_formats (formats a)) post fl' w2 = (r, w')
    /\ trace w' = trace w2 ++ back.
Proof.
  intros H Hok Hfiles T A Tf.
  rewrite (main_accept env a w Hok), Hfiles in H.
  apply batch_driver_cases in H.
  destruct H as [[E _]|[[_ [_ [_ ->]]]|[_ [t1 [_ H]]]]].
  - destruct pre; discriminate.
  - cbn [trace] in T. rewrite <- app_assoc in T. apply app_inv_head in T.
    symmetry in T.
    destruct (split_after [EvScan (input a); EvMakedirs (out_dir a) false]
                front _ back [] T) as [front' [_ E]].
    + rewrite A. cbn. rewrite length_app. cbn. lia.
    + destruct front'; discriminate.
  - destruct (keeps_batch env a _ _ _ _ _ _ H) as [tail [Tt _]].
    cbn [trace] in Tt. rewrite Tt, <- !app_assoc in T.
    apply app_inv_head in T. symmetry in T. cbn [app] in T.
    destruct (split_after [EvScan (input a); EvMakedirs (out_dir a) true]
                front _ back tail T) as [front' [-> E]].
    + rewrite A. cbn. rewrite length_app. cbn. lia.
    + cbn [app attempts] in A.
      refine (batch_saved a _ pre f post result _ _ _ _ front' back H _ A Tf).
      cbn [trace]. now rewrite Tt, E.
Qed.

End Reported.

(** ** What the output folder of a file holds *)

Module FolderFacts.
Import Fs FsFacts.

Lemma get_some_In k n es : get k es = Some n -> In (k, n) es.
Proof.
  induction es as [|[k0 n0] es IH]; cbn; [discriminate|].
  destruct (String.eqb_spec k0 k) as [->|Hne].
  - intros [= ->]. now left.
  - intros H. right. auto.
Qed.

Lemma dirnames_In name es :
  In name (dirnames es) <-> exists sub, In (name, Dir sub) es.
Proof.
  unfold dirnames. rewrite in_map_iff. split.
  - intros [[k [c|es']] [<- H]]; apply filter_In in H;
      destruct H as [H T]; [discriminate | eauto].
  - intros [sub H]. exists (name, Dir sub). split; trivial.
    apply filter_In. now split.
Qed.

Lemma filenames_NoDup es : NoDup (map fst es) -> NoDup (filenames es).
Proof.
  unfold filenames. induction es as [|[k n] es IH]; cbn; intros N;
    [constructor|].
  inversion N as [|? ? Hk N']; subst.
  destruct n; cbn; auto. constructor; auto.
  intros H. apply Hk. apply in_map_iff in H. destruct H as [e [E H]].
  apply filter_In in H. apply in_map_iff. exists e. tauto.
Qed.

(** What [stat] finds a directory. *)
Lemma stat_dir p s es :
  stat p s = Some (Dir es)
  <-> p <> "" /\ exists q, place p s = Some q
                           /\ lookup q (tree s) = Some (Dir es).
Proof.
  unfold stat. destruct (String.eqb_spec p "") as [->|Hp].
  - split; [discriminate | intros [H _]; now elim H].
  - destruct (place p s) as [q|].
    + destruct (lookup q (tree s)) as [[c|es0]|] eqn:L.
      * split; [destruct (names_directory p); discriminate|].
        intros [_ [q' [[= <-] L']]]. congruence.
      * split; [intros [= ->]; eauto|].
        intros [_ [q' [[= <-] L']]]. congruence.
      * split; [discriminate|]. intros [_ [q' [[= <-] L']]]. congruence.
    + split; [discriminate|]. intros [_ [q' [[=] _]]].
Qed.

(** An entry of a directory that holds no name twice is found under its
    name. *)
Lemma lookup_entry q t es name n :
  lookup q t = Some (Dir es) -> NoDup (map fst es) -> In (name, n) es ->
  lookup (q ++ [name]) t = Some n.
Proof.
  intros L N H. rewrite lookup_app, L. cbn.
  now rewrite (NameFacts.get_In _ _ _ N H).
Qed.

Lemma entry_lookup q t es name n :
  lookup q t = Some (Dir es) -> lookup (q ++ [name]) t = Some n ->
  In (name, n) es.
Proof.
  intros L H. rewrite lookup_app, L in H. cbn in H.
  destruct (get name es) as [n0|] eqn:G; [|discriminate].
  injection H as <-. now apply get_some_In.
Qed.

(** A walk ends below the place where it starts, unless it leaves that
    place, which is a directory then. *)
Lemma locate_back cs : forall here t q,
  locate here cs t = Some q ->
  (exists r, q = here ++ r) \/ exists es, lookup here t = Some (Dir es).
Proof.
  induction cs as [|c cs IH]; intros here t q H; cbn [locate] in H.
  - injection H as <-. left. exists []. now rewrite app_nil_r.
  - destruct (c =? "..")%string.
    + destruct (lookup here t) as [[s|es]|]; try discriminate. eauto.
    + destruct (IH _ _ _ H) as [[r ->]|[es L]].
      * left. exists (c :: r). now rewrite <- app_assoc.
      * right. exact (lookup_parent _ _ _ _ L).
Qed.

(** A place that the walk along a path passes in [s'], where the path
    names [q0] in [s] already, is above [q0] or was a directory in
    [s]. *)
Lemma walk_passes p s s' cs rest q q0 :
  same_process s s' -> dirs_stay (tree s) (tree s') ->
  place p s = Some q0 ->
  components p = cs ++ rest ->
  locate (origin p s') cs (tree s') = Some q ->
  (exists r, q0 = q ++ r) \/ exists es, lookup q (tree s) = Some (Dir es).
Proof.
  intros [C _] D Hq0 E Hq. unfold place in Hq0.
  rewrite E, locate_app in Hq0.
  destruct (locate (origin p s) cs (tree s)) as [q1|] eqn:Q1; [|discriminate].
  pose proof (locate_stable _ _ D _ _ _ Q1) as Q1'.
  unfold origin in *. rewrite C in Hq. rewrite Q1' in Hq. injection Hq as <-.
  exact (locate_back _ _ _ _ Hq0).
Qed.

End FolderFacts.

Section Folder.

Variable env : Env.

(** A regular file stays one in a command that removes nothing. *)
Lemma file_kept {A} (m : M A) p c w r w' :
  keeps m -> m w = (r, w') ->
  Fs.read p (fs w) = Some c -> exists c', Fs.read p (fs w') = Some c'.
Proof.
  intros K H Hp. destruct (K _ _ _ H) as [evs [_ [P [D F]]]].
  apply FsFacts.read_spec in Hp. destruct Hp as [Hne [N [q [Hq L]]]].
  destruct (F _ _ L) as [c' [L' _]]. exists c'.
  apply FsFacts.read_spec. repeat split; trivial. exists q. split; trivial.
  exact (FsFacts.place_stable _ _ _ _ P D Hq).
Qed.

(** The place of an output file in the tree. *)
Lemma output_place a f k s q0 :
  proper_base f -> In k supported ->
  Fs.place (out_dir a) s = Some q0 ->
  Fs.place (output_path a f k) s
  = Some ((q0 ++ [base_of f]) ++ [(base_of f ++ "." ++ k)%string]).
Proof.
  intros Pf Hk Hq.
  now rewrite (output_path_place a f k s Hk), (out_folder_place a f s Pf), Hq.
Qed.

(** An output file holds what it held unless the loop opens it for
    writing again. *)
Lemma output_kept_unless_rewritten a fmts f k files fl c w r w' evs :
  proper_base f -> Forall proper_base files -> In k supported ->
  batch env a fmts files fl w = (r, w') ->
  trace w' = trace w ++ evs ->
  (forall p, In (EvOpenWrite p true) evs -> p <> output_path a f k) ->
  Fs.read (output_path a f k) (fs w) = Some c ->
  Fs.read (output_path a f k) (fs w') = Some c.
Proof.
  intros Pf Pfiles Hk H T Hfree R.
  destruct (keeps_batch env a fmts _ _ _ _ _ H) as [e1 [T1 [P [D F]]]].
  destruct (emits_batch env a fmts files fl _ _ _ H) as [e2 [T2 FA]].
  rewrite T in T1, T2. apply app_inv_head in T1, T2. subst e1 e2.
  apply FsFacts.read_spec in R. destruct R as [Hne [N [q [Hq L]]]].
  pose proof (FsFacts.place_stable _ _ _ _ P D Hq) as Hq'.
  apply FsFacts.read_spec. repeat split; trivial. exists q. split; trivial.
  destruct (F _ _ L) as [c' [L' [->|[p [Hin Hp]]]]]; trivial.
  exfalso. apply (Hfree p Hin).
  rewrite Forall_forall in FA, Pfiles.
  destruct (FA _ Hin) as [g [Hg [_ [k' [_ [Hk' ->]]]]]].
  rewrite (output_path_place a g k' _ Hk'),
    (out_folder_place a g _ (Pfiles g Hg)) in Hp.
  rewrite (output_path_place a f k _ Hk),
    (out_folder_place a f _ Pf) in Hq'.
  destruct (Fs.place (out_dir a) (fs w')) as [q0|]; [|discriminate].
  rewrite <- Hq' in Hp. injection Hp as Hp.
  apply app_inj_tail in Hp. destruct Hp as [Eb En].
  apply app_inj_tail in Eb. destruct Eb as [_ Eb].
  rewrite Eb in En. apply append_inj_l in En. injection En as ->.
  unfold output_path, out_folder_of. now rewrite Eb.
Qed.

(** The directories a run makes are not in the output folder of a
    file. *)
Lemma no_folder_in_folder a w w' p ok evs q0 f d cs rest :
  same_process (fs w) (fs w') ->
  dirs_stay (Fs.tree (fs w)) (Fs.tree (fs w')) ->
  Forall (main_event env a (parse_formats (formats a))
            (find_audio_files_in (fs w) (input a) audio_exts)) evs ->
  In (EvMakedirs p ok) evs ->
  Fs.place (out_dir a) (fs w) = Some q0 ->
  Fs.components p = cs ++ rest ->
  Fs.locate (Fs.origin p (fs w')) cs (Fs.tree (fs w'))
  = Some (q0 ++ [base_of f] ++ [d]) ->
  exists es, Fs.lookup (q0 ++ [base_of f] ++ [d]) (Fs.tree (fs w))
             = Some (Fs.Dir es).
Proof.
  intros P D FA Hin Hq0 C L. rewrite Forall_forall in FA.
  assert (Long : forall r, q0 <> (q0 ++ [base_of f] ++ [d]) ++ r).
  { intros r E. apply (f_equal (@length string)) in E.
    rewrite !length_app in E. cbn in E. lia. }
  destruct (FA _ Hin) as [->|[g [Hg ->]]].
  - destruct (FolderFacts.walk_passes _ _ _ _ _ _ _ P D Hq0 C L)
      as [[r E]|X]; [now elim (Long r) | exact X].
  - destruct (found_proper _ _ _ Hg) as [[N1 [N2 N3]] _].
    pose proof (PathFacts.base_of_plain g) as Pl.
    unfold out_folder_of in C, L.
    rewrite (PathFacts.components_join _ _ Pl),
      (proper_components _ Pl N1 N2) in C.
    rewrite (FsFacts.origin_join _ _ _ Pl) in L.
    destruct rest as [|x rest] using rev_ind.
    + rewrite app_nil_r in C. subst cs.
      pose proof (FsFacts.place_stable _ _ _ _ P D Hq0) as Hq0'.
      unfold Fs.place in Hq0'. rewrite FsFacts.locate_app, Hq0' in L.
      rewrite (FsFacts.locate_name _ _ _ N3) in L. injection L as L.
      apply app_inv_head in L. discriminate.
    + rewrite app_assoc in C. apply app_inj_tail in C. destruct C as [C _].
      destruct (FolderFacts.walk_passes _ _ _ _ _ _ _ P D Hq0 C L)
        as [[r E]|X]; [now elim (Long r) | exact X].
Qed.

End Folder.

(** ** Where the walk of [makedirs] stops *)

Module FsStops.
Import Fs FsFacts.

(** Nothing is a directory below what is none. *)
Lemma locate_from_none cs : forall here t q,
  (forall es, lookup here t <> Some (Dir es)) ->
  locate here cs t = Some q ->
  forall es, lookup q t <> Some (Dir es).
Proof.
  induction cs as [|c cs IH]; intros here t q N H; cbn [locate] in H.
  - now injection H as <-.
  - destruct (c =? "..")%string.
    + destruct (lookup here t) as [[s|es0]|]; try discriminate.
      now elim (N es0).
    + refine (IH _ _ _ _ H).
      intros es L. destruct (lookup_parent _ _ _ _ L) as [es0 L0].
      now elim (N es0).
Qed.

(** The walk stops at a place that is no directory, or where the
    operating system refuses to make the next one. *)
Lemma mkdirs_stops ok cs : forall here t t',
  mkdirs ok here cs t = (t', false) ->
  exists cs1 cs2 q,
    cs = cs1 ++ cs2 /\ locate here cs1 t' = Some q
    /\ ((forall es, lookup q t' <> Some (Dir es))
        \/ exists c cs3,
             cs2 = c :: cs3 /\ c <> ".." /\ lookup (q ++ [c]) t' = None
             /\ ok (q ++ [c]) = false).
Proof.
  induction cs as [|c rest IH]; intros here t t' H;
    pose proof (mkdirs_stay _ _ _ _ _ _ H) as D;
    cbn [mkdirs] in H;
    destruct (lookup here t) as [[s|es0]|] eqn:Lh;
    try (injection H as <-; exists [], [], here;
         repeat split; left; intros es; congruence);
    try (injection H as <-; exists [], (c :: rest), here;
         repeat split; left; intros es; congruence);
    try discriminate.
  destruct (String.eqb_spec c "..") as [->|Hc].
  - destruct (IH _ _ _ H) as [cs1 [cs2 [q [-> [L X]]]]].
    exists (".." :: cs1), cs2, q. repeat split; trivial.
    cbn [locate String.eqb Ascii.eqb Bool.eqb].
    destruct (D _ _ Lh) as [es1 ->]. exact L.
  - assert (Step : forall cs1, locate here (c :: cs1) t'
                               = locate (here ++ [c]) cs1 t').
    { intros cs1. cbn [locate]. now destruct (String.eqb_spec c ".."). }
    destruct (lookup (here ++ [c]) t) as [n|] eqn:Lc.
    + destruct (IH _ _ _ H) as [cs1 [cs2 [q [-> [L X]]]]].
      exists (c :: cs1), cs2, q. repeat split; trivial. now rewrite Step.
    + destruct (ok (here ++ [c])) eqn:Ok.
      * destruct (mkdir_p (here ++ [c]) t) as [t1|] eqn:E.
        -- destruct (IH _ _ _ H) as [cs1 [cs2 [q [-> [L X]]]]].
           exists (c :: cs1), cs2, q. repeat split; trivial.
           now rewrite Step.
        -- exfalso.
           destruct (FsMakedirs.mkdir_p_none _ _ E) as [q [r [s [A B]]]].
           destruct r as [|x r] using rev_ind.
           ++ rewrite app_nil_r in A. subst q. congruence.
           ++ rewrite app_assoc in A. apply app_inj_tail in A.
              destruct A as [-> _].
              rewrite lookup_app, B in Lh. destruct r; discriminate.
      * injection H as <-. exists [], (c :: rest), here.
        repeat split. right. exists c, rest. now repeat split.
Qed.

(** Where the walk stopped the path names no directory. *)
Lemma mkdirs_stopped ok cs here t t' q es :
  mkdirs ok here cs t = (t', false) ->
  locate here cs t' = Some q -> lookup q t' <> Some (Dir es).
Proof.
  intros H L.
  destruct (mkdirs_stops _ _ _ _ _ H) as [cs1 [cs2 [q1 [-> [L1 X]]]]].
  rewrite locate_app, L1 in L. destruct X as [N|[c [cs3 [-> [Hc [Lc _]]]]]].
  - exact (locate_from_none _ _ _ _ N L es).
  - cbn [locate] in L. destruct (String.eqb_spec c ".."); [contradiction|].
    refine (locate_from_none _ _ _ _ _ L es).
    intros es0. congruence.
Qed.

End FsStops.

(** ** Runs that no exception ends *)

Section TidyRoot.

Variable env : Env.

Lemma Forall_put (P : Fs.node -> Prop) c n es :
  Forall (fun e => P (snd e)) es -> P n ->
  Forall (fun e => P (snd e)) (Fs.put c n es).
Proof.
  intros H Hn. induction H as [|[k m] rest Hm Hrest IH]; cbn [Fs.put].
  - repeat constructor. exact Hn.
  - destruct (String.eqb k c); constructor; trivial.
Qed.

Lemma Forall_get (P : Fs.node -> Prop) c n es :
  Forall (fun e => P (snd e)) es -> Fs.get c es = Some n -> P n.
Proof.
  intros H. induction H as [|[k m] rest Hm Hrest IH]; cbn [Fs.get];
    [discriminate|].
  destruct (String.eqb k c); [now intros [= <-] | exact IH].
Qed.

Lemma only_folders_get b eo n :
  only_folders eo -> Fs.get b eo = Some n ->
  exists sub, n = Fs.Dir sub /\ only_files sub.
Proof.
  exact (Forall_get (fun n => exists sub, n = Fs.Dir sub /\ only_files sub)
           b n eo).
Qed.

Lemma only_files_get name es n :
  only_files es -> Fs.get name es = Some n -> exists content, n = Fs.File content.
Proof. exact (Forall_get (fun n => exists c, n = Fs.File c) name n es). Qed.

Lemma only_folders_put b sub eo :
  only_folders eo -> only_files sub -> only_folders (Fs.put b (Fs.Dir sub) eo).
Proof.
  intros H Hs.
  apply (Forall_put (fun n => exists sub, n = Fs.Dir sub /\ only_files sub));
    eauto.
Qed.

Lemma only_files_put name content es :
  only_files es -> only_files (Fs.put name (Fs.File content) es).
Proof.
  intros H. apply (Forall_put (fun n => exists c, n = Fs.File c)); eauto.
Qed.

(** Through directories that are there the walk of [makedirs] goes as
    the path does. *)
Lemma mkdirs_through ok cs1 : forall here cs2 t q es,
  Fs.locate here cs1 t = Some q -> Fs.lookup q t = Some (Fs.Dir es) ->
  Fs.mkdirs ok here (cs1 ++ cs2) t = Fs.mkdirs ok q cs2 t.
Proof.
  induction cs1 as [|c cs1 IH]; intros here cs2 t q es H L.
  - now injection H as <-.
  - destruct (FsFacts.locate_start _ _ _ _ _ H L) as [es0 L0].
    cbn [app Fs.mkdirs Fs.locate] in *. rewrite L0 in *.
    destruct (c =? "..")%string; [exact (IH _ _ _ _ _ H L)|].
    destruct (FsFacts.locate_start _ _ _ _ _ H L) as [es1 ->].
    exact (IH _ _ _ _ _ H L).
Qed.

Lemma may_write_stable a files s s' :
  same_process s s' -> dirs_stay (Fs.tree s) (Fs.tree s') ->
  Fs.place (out_dir a) s <> None ->
  may_write a files s -> may_write a files s'.
Proof.
  intros P D Hq W q0 f Hq0 Hf.
  destruct (Fs.place (out_dir a) s) as [q|] eqn:Q; [|now elim Hq].
  rewrite (FsFacts.place_stable _ _ _ _ P D Q) in Hq0. injection Hq0 as <-.
  destruct P as [_ ->]. exact (W q f Q Hf).
Qed.

(** Making the folder of a file under a tidy root. *)
Lemma makedirs_tidy a files f s :
  proper_base f -> In f files -> tidy_root a s -> may_write a files s ->
  exists s1,
    Fs.makedirs (out_folder_of a f) s = (s1, true)
    /\ tidy_with a (base_of f) s1 /\ may_write a files s1.
Proof.
  intros Pf Hf [eo [St Hfold]] W.
  pose proof Pf as [Hne [Hdot Hdd]].
  pose proof (PathFacts.base_of_plain f) as Hplain.
  apply FolderFacts.stat_dir in St. destruct St as [Hroot [q0 [Hq0 L]]].
  destruct (W q0 f Hq0 Hf) as [Pm _].
  assert (E : exists t1 sub,
             Fs.mkdirs (Fs.permits s) (Fs.origin (out_folder_of a f) s)
               (Fs.components (out_folder_of a f)) (Fs.tree s) = (t1, true)
             /\ dirs_stay (Fs.tree s) t1
             /\ Fs.lookup q0 t1
                = Some (Fs.Dir (Fs.put (base_of f) (Fs.Dir sub) eo))
             /\ only_files sub).
  { unfold out_folder_of.
    rewrite (FsFacts.origin_join _ _ _ Hplain),
      (PathFacts.components_join _ _ Hplain),
      (proper_components _ Hplain Hne Hdot).
    rewrite (mkdirs_through _ _ _ _ _ _ _ Hq0 L).
    cbn [Fs.mkdirs]. rewrite L.
    destruct (String.eqb_spec (base_of f) ".."); [contradiction|].
    rewrite FsFacts.lookup_app, L. cbn [Fs.lookup].
    destruct (Fs.get (base_of f) eo) as [nd|] eqn:G.
    - destruct (only_folders_get _ _ _ Hfold G) as [sub [-> Hsub]].
      exists (Fs.tree s), sub. split; [reflexivity|].
      split; [apply FsFacts.dirs_stay_refl|]. split; trivial.
      rewrite L. now rewrite (FsFacts.put_get_id _ _ _ G).
    - rewrite Pm.
      assert (M : Fs.mkdir_p [base_of f] (Fs.Dir eo)
                  = Some (Fs.Dir (Fs.put (base_of f) (Fs.Dir []) eo))).
      { cbn [Fs.mkdir_p]. now rewrite G. }
      destruct (FsFacts.mkdir_p_focus _ _ _ _ _ L M) as [t1 [E L1]].
      rewrite E. rewrite FsFacts.lookup_app, L1. cbn [Fs.lookup].
      rewrite FsFacts.get_put_same.
      exists t1, []. split; [reflexivity|].
      split; [exact (FsFacts.mkdir_p_stay _ _ _ E)|]. split; trivial.
      constructor. }
  destruct E as [t1 [sub [E [D [L1 Hsub]]]]].
  exists (Fs.mkSys t1 (Fs.cwd s) (Fs.permits s)).
  assert (P : same_process s (Fs.mkSys t1 (Fs.cwd s) (Fs.permits s)))
    by (split; reflexivity).
  split; [|split].
  - unfold Fs.makedirs.
    destruct (String.eqb_spec (out_folder_of a f) "") as [J|_].
    { elim (PathFacts.join_nonempty _ _ (or_introl Hroot) J). }
    now rewrite E.
  - exists (Fs.put (base_of f) (Fs.Dir sub) eo), sub. split; [|split].
    + apply FolderFacts.stat_dir. split; trivial. exists q0. split; trivial.
      exact (FsFacts.place_stable _ _ _ _ P D Hq0).
    + now apply only_folders_put.
    + apply FsFacts.get_put_same.
  - refine (may_write_stable a files s _ P D _ W). now rewrite Hq0.
Qed.

(** Writing an output file into the folder of a file under a tidy
    root. *)
Lemma open_write_tidy a files f k content s :
  proper_base f -> In f files -> In k supported ->
  tidy_with a (base_of f) s -> may_write a files s ->
  exists s',
    Fs.open_write (output_path a f k) content s = Some s'
    /\ tidy_with a (base_of f) s' /\ may_write a files s'.
Proof.
  intros Pf Hf Hk [eo [sub [St [Hfold G]]]] W.
  pose proof (PathFacts.base_of_plain f) as Hplain.
  apply FolderFacts.stat_dir in St. destruct St as [Hroot [q0 [Hq0 L]]].
  destruct (W q0 f Hq0 Hf) as [_ Pm]. specialize (Pm k Hk).
  set (name := (base_of f ++ "." ++ k)%string) in *.
  destruct (output_name_proper (base_of f) k Hk Hplain) as [Pn [N1 [N2 N3]]].
  fold name in Pn, N1, N2, N3.
  destruct (only_folders_get _ _ _ Hfold G) as [sub0 [[= <-] Hfiles]].
  assert (S : Fs.store [base_of f; name] content (Fs.Dir eo)
              = Some (Fs.Dir (Fs.put (base_of f)
                                (Fs.Dir (Fs.put name (Fs.File content) sub))
                                eo))).
  { rewrite FsFacts.store_below, G. cbn [Fs.store].
    destruct (Fs.get name sub) as [[c|es]|] eqn:Gn; trivial.
    destruct (only_files_get _ _ _ Hfiles Gn) as [c [=]]. }
  destruct (FsFacts.store_focus _ _ _ _ _ _ _ L S) as [t' [E L']].
  exists (Fs.mkSys t' (Fs.cwd s) (Fs.permits s)).
  assert (P : same_process s (Fs.mkSys t' (Fs.cwd s) (Fs.permits s)))
    by (split; reflexivity).
  pose proof (FsFacts.store_stay _ _ _ _ E) as D.
  split; [|split].
  - apply FsFacts.open_write_spec. split; [|split].
    + unfold output_path. apply PathFacts.join_nonempty. now right.
    + unfold output_path. rewrite (PathFacts.names_directory_join _ _ Pn).
      fold name.
      destruct (String.eqb_spec name ""); [contradiction|].
      now destruct (String.eqb_spec name ".").
    + exists ((q0 ++ [base_of f]) ++ [name]), t'.
      split; [exact (output_place a f k s q0 Pf Hk Hq0)|].
      split; trivial. split; trivial. now rewrite <- app_assoc.
  - eexists. eexists. split; [|split].
    + apply FolderFacts.stat_dir. split; trivial. exists q0. split; [|exact L'].
      exact (FsFacts.place_stable _ _ _ _ P D Hq0).
    + apply only_folders_put; trivial. now apply only_files_put.
    + apply FsFacts.get_put_same.
  - refine (may_write_stable a files s _ P D _ W). now rewrite Hq0.
Qed.

Lemma total_ret I {A} (x : A) : total I (ret x) I.
Proof. intros w H. now exists x, w. Qed.

Lemma total_emit I e : total I (emit e) I.
Proof. intros w H. unfold emit. eexists. eexists. split; [reflexivity|]. exact H. Qed.

Lemma total_bind I J K {A B} (m : M A) (k : A -> M B) :
  total I m J -> (forall x, total J (k x) K) -> total I (bind m k) K.
Proof.
  intros Hm Hk w H. unfold bind. destruct (Hm w H) as [x [w1 [-> H1]]].
  exact (Hk x w1 H1).
Qed.

Lemma total_when I b m : total I m I -> total I (when b m) I.
Proof. destruct b; cbn [when]; trivial. intros _. apply total_ret. Qed.

Lemma total_save_text a files f k content :
  proper_base f -> In f files -> In k supported ->
  total (fun s => tidy_with a (base_of f) s /\ may_write a files s)
    (save_text (output_path a f k) content)
    (fun s => tidy_with a (base_of f) s /\ may_write a files s).
Proof.
  intros Pf Hf Hk w [H W].
  destruct (open_write_tidy a files f k content (fs w) Pf Hf Hk H W)
    as [t' [E H']].
  unfold save_text, fs_call. rewrite E. eauto.
Qed.

(** A guarded caption writer returns whatever the writer does. *)
Lemma total_guarded a files f result k :
  proper_base f -> In f files -> In k supported ->
  total (fun s => tidy_with a (base_of f) s /\ may_write a files s)
    (try_except (write_timecoded env result f (out_folder_of a f) k))
    (fun s => tidy_with a (base_of f) s /\ may_write a files s).
Proof.
  intros Pf Hf Hk w H. unfold try_except, write_timecoded.
  destruct (render_captions _ _ _) as [m0|[written failure]].
  - cbn. eauto.
  - unfold bind.
    destruct (total_save_text a files f k written Pf Hf Hk w H)
      as [[] [w1 [E H1]]].
    unfold output_path, base_of in E. rewrite E.
    destruct failure; cbn; eauto.
Qed.

Lemma total_write_outputs a files fmts f result :
  proper_base f -> In f files ->
  total (fun s => tidy_with a (base_of f) s /\ may_write a files s)
    (write_outputs env fmts f (out_folder_of a f) (base_of f) result)
    (fun s => tidy_with a (base_of f) s /\ may_write a files s).
Proof.
  intros Pf Hf. unfold write_outputs.
  repeat (apply total_bind
            with (J := fun s => tidy_with a (base_of f) s
                                /\ may_write a files s);
          [apply total_when | intros _]).
  - apply (total_save_text a files f "txt"); simpl; tauto.
  - apply (total_save_text a files f "json"); simpl; tauto.
  - apply total_bind
      with (J := fun s => tidy_with a (base_of f) s /\ may_write a files s).
    + apply (total_guarded a files f result "srt"); simpl; tauto.
    + intros [exc|[]]; [apply total_emit | apply total_ret].
  - apply total_bind
      with (J := fun s => tidy_with a (base_of f) s /\ may_write a files s).
    + apply (total_guarded a files f result "vtt"); simpl; tauto.
    + intros [exc|[]]; [apply total_emit | apply total_ret].
  - apply total_emit.
Qed.

Lemma tidy_with_root a b s : tidy_with a b s -> tidy_root a s.
Proof. intros [eo [sub [L [Hfold _]]]]. exists eo. now split. Qed.

(** From a tidy output root the loop returns, and the root stays tidy. *)
Lemma batch_returns a fmts all files :
  Forall proper_base files -> incl files all ->
  forall fl,
    total (fun s => tidy_root a s /\ may_write a all s)
      (batch env a fmts files fl)
      (fun s => tidy_root a s /\ may_write a all s).
Proof.
  induction 1 as [|f rest Hp Hrest IH]; intros Hin fl; cbn [batch].
  - destruct (_ && _); apply total_ret.
  - assert (Hf : In f all) by (apply Hin; now left).
    assert (Hin' : incl rest all) by (intros g Hg; apply Hin; now right).
    set (J := fun s => tidy_with a (base_of f) s /\ may_write a all s).
    assert (Back : forall fl', total J (batch env a fmts rest fl')
                                 (fun s => tidy_root a s /\ may_write a all s)).
    { intros fl' w [H W]. apply IH; trivial. split; trivial.
      now apply tidy_with_root with (base_of f). }
    apply total_bind with (J := J).
    { intros w [H W].
      destruct (makedirs_tidy a all f (fs w) Hp Hf H W) as [t1 [E H1]].
      unfold ensure_dir. rewrite E. eauto. }
    intros _. apply total_bind with (J := J); [apply total_emit|]. intros _.
    apply total_bind with (J := J).
    { intros w H. rewrite try_transcribe. eauto. }
    intros [exc|result].
    + apply total_bind with (J := J); [apply total_emit|]. intros _.
      destruct (fail_on_error a); [|apply Back].
      intros w [H W]. exists 1%Z, w. split; trivial. split; trivial.
      now apply tidy_with_root with (base_of f).
    + apply total_bind with (J := J).
      * now apply total_write_outputs.
      * intros _. apply Back.
Qed.

End TidyRoot.

(* ================================================================== *)
(** * The behaviour of the driver *)

(** C1, as stated, fails when the output root cannot be made: here it is
    an existing regular file, fail-fast is off and the one discovered
    file would transcribe; [makedirs] raises, nothing is attempted, and
    the process ends with a traceback and status 1. *)
Lemma fail_fast_off_unwritable_root :
  fail_on_error (mkArgs "in" "in/b.MP3" "medium" "auto" None "txt" false)
  = false
  /\ find_audio_files_in (fs Demo.ready) "in" audio_exts = ["in/b.MP3"]
  /\ fails Demo.env (mkArgs "in" "in/b.MP3" "medium" "auto" None "txt" false)
       "in/b.MP3" = false
  /\ run Demo.env (mkArgs "in" "in/b.MP3" "medium" "auto" None "txt" false)
       Demo.ready
     = (1%Z,
        mkWorld (fs Demo.ready)
          [EvScan "in"; EvMakedirs "in/b.MP3" false; EvTraceback "in/b.MP3"]).
Proof. repeat split. Qed.

(** C1, amended.  Provided no exception leaves [main] (the formats were
    accepted and no directory creation or text/JSON write raised): with
    fail-fast off every discovered file is handed to the recognition
    capability, in order, however many of them fail there, and the
    process exits with status 0; and a status other than 0 needs both the
    fail-fast flag and a file whose transcription failed. *)
Theorem fail_fast_off_attempts_every_file env a w code w' :
  main env a w = (Ok code, w') ->
  let files := find_audio_files_in (fs w) (input a) audio_exts in
  (fail_on_error a = false ->
   run env a w = (0%Z, w')
   /\ attempts (trace w') = attempts (trace w) ++ files)
  /\ (code <> 0%Z ->
      fail_on_error a = true
      /\ exists f, In f files /\ fails env a f = true).
Proof.
  intros H files.
  pose proof (main_returns_accept env a w code w' H) as Hok.
  pose proof (run_returns env a w code w' H) as R.
  rewrite (main_accept env a w Hok) in H. fold files in H.
  apply batch_driver_cases in H.
  destruct H as [[E [[= <-] ->]]|[[_ [_ [[=] _]]]|[_ [t1 [_ H]]]]].
  - rewrite E. split.
    + intros _. split; trivial. cbn [trace].
      now rewrite <- app_assoc, attempts_app.
    + intros Hc. now elim Hc.
  - split.
    + intros Hff. destruct (batch_all _ _ _ _ _ _ _ _ Hff H) as [-> T].
      split; trivial. rewrite T. cbn [trace].
      rewrite <- app_assoc, attempts_app. simpl. now rewrite app_nil_r.
    + intros Hc.
      destruct (batch_nonzero _ _ _ _ _ _ _ _ H Hc) as [_ [Hff [Hfl|Hf]]];
        [now elim Hfl | now split].
Qed.

Lemma fail_fast_off_attempts_every_file_witness :
  run Demo.env (Demo.args "txt,srt" false) Demo.w0
  = (0%Z, snd (main Demo.env (Demo.args "txt,srt" false) Demo.w0))
  /\ attempts (trace (snd (main Demo.env (Demo.args "txt,srt" false) Demo.w0)))
     = ["in/b.MP3"; "in/bad.mp3"; "in/sub/a.wav"].
Proof.
  exact (proj1 (fail_fast_off_attempts_every_file
                  Demo.env (Demo.args "txt,srt" false) Demo.w0 0%Z
                  (snd (main Demo.env (Demo.args "txt,srt" false) Demo.w0))
                  eq_refl)
               eq_refl).
Defined.

(** C2.  A text write that fails is not caught: with the formats txt and
    json, fail-fast off, and a directory where the transcript of the
    first file belongs, [open] raises, the JSON file of that file is never
    written, the second file is never reached, and the process ends with
    a traceback and status 1. *)
Theorem text_write_error_ends_the_batch :
  run Demo.env (Demo.args "txt,json" false) Demo.blocked
  = (1%Z,
     mkWorld Demo.blocked_tree
       [EvScan "in"; EvMakedirs "out" true; EvMakedirs "out/b" true;
        EvStdout "Transcribing: in/b.MP3";
        EvTranscribe "in/b.MP3" "medium" "cpu" false None;
        EvOpenWrite "out/b/b.txt" false;
        EvTraceback "out/b/b.txt"])
  /\ find_audio_files_in Demo.blocked_tree "in" audio_exts
     = ["in/b.MP3"; "in/c.mp3"].
Proof. split; reflexivity. Qed.

(** C3.  A requested format outside the supported set ends the process
    with status 2: the diagnostic is the only thing that happens, whatever
    the file system holds; nothing is scanned and nothing transcribed. *)
Theorem invalid_format_exits_2 env a w :
  (exists fmt, In fmt (parse_formats (formats a)) /\ ~ In fmt supported) ->
  exists fmt,
    run env a w
    = (2%Z, mkWorld (fs w) (trace w ++ [EvStderr (unsupported_message fmt)])).
Proof.
  intros H. destruct (main_reject env a w H) as [fmt E].
  exists fmt. unfold run. now rewrite E.
Qed.

Lemma invalid_format_exits_2_witness :
  exists fmt,
    run Demo.env (Demo.args "txt, JSON ,foo" true) Demo.w0
    = (2%Z, mkWorld Demo.tree [EvStderr (unsupported_message fmt)]).
Proof.
  apply (invalid_format_exits_2 Demo.env (Demo.args "txt, JSON ,foo" true)
           Demo.w0).
  exists "foo". split.
  - vm_compute. tauto.
  - simpl. intros [H|[H|[H|[H|[]]]]]; discriminate.
Defined.



(** C5.  Fail-fast on, and some file handed to the recognition
    capability fails there: the process exits with status 1, and the
    files attempted are exactly the discovered files before the first
    failing one, in order, and that file; so no file after it is
    attempted. *)
Theorem fail_fast_stops_at_first_failure env a w r w' evs :
  main env a w = (r, w') ->
  trace w' = trace w ++ evs ->
  fail_on_error a = true ->
  (exists g, In g (attempts evs) /\ fails env a g = true) ->
  run env a w = (1%Z, w')
  /\ exists pre f post,
       find_audio_files_in (fs w) (input a) audio_exts = pre ++ f :: post
       /\ Forall (fun g => fails env a g = false) pre
       /\ fails env a f = true
       /\ attempts evs = pre ++ [f].
Proof.
  intros H T Hff Hfail.
  destruct (formats_decide (parse_formats (formats a))) as [Hok|Hbad].
  - pose proof H as H0. rewrite (main_accept env a w Hok) in H.
    apply batch_driver_cases in H.
    destruct H as [[_ [_ ->]]|[[_ [_ [_ ->]]]|[_ [t1 [_ H]]]]];
      cbn [trace] in T.
    + rewrite <- app_assoc in T. apply app_inv_head in T. subst evs.
      destruct Hfail as [g [[] _]].
    + rewrite <- app_assoc in T. apply app_inv_head in T. subst evs.
      destruct Hfail as [g [[] _]].
    + destruct (batch_first_failure env a _ _ Hff _ _ _ _ H) as [evs' [T' F]].
      cbn [trace] in T'. rewrite T', <- !app_assoc in T.
      apply app_inv_head in T. subst evs. cbn [app attempts] in Hfail |- *.
      destruct (F Hfail) as [-> R]. split; trivial.
      now apply run_returns.
  - destruct (main_reject env a w Hbad) as [fmt E].
    rewrite E in H. injection H as <- <-. cbn [trace] in T.
    apply app_inv_head in T. subst evs. destruct Hfail as [g [[] _]].
Qed.

Lemma fail_fast_stops_at_first_failure_witness :
  run Demo.env (Demo.args "txt" true) Demo.w0
  = (1%Z, snd (main Demo.env (Demo.args "txt" true) Demo.w0))
  /\ exists pre f post,
       find_audio_files_in Demo.tree "in" audio_exts = pre ++ f :: post
       /\ Forall (fun g => fails Demo.env (Demo.args "txt" true) g = false) pre
       /\ fails Demo.env (Demo.args "txt" true) f = true
       /\ attempts (trace (snd (main Demo.env (Demo.args "txt" true) Demo.w0)))
          = pre ++ [f].
Proof.
  apply (fail_fast_stops_at_first_failure Demo.env (Demo.args "txt" true)
           Demo.w0 (fst (main Demo.env (Demo.args "txt" true) Demo.w0))
           (snd (main Demo.env (Demo.args "txt" true) Demo.w0))
           (trace (snd (main Demo.env (Demo.args "txt" true) Demo.w0)))
           eq_refl eq_refl eq_refl).
  exists "in/bad.mp3". split; [vm_compute; tauto | reflexivity].
Defined.

(** C6.  On an empty list of discovered files the Batch Driver returns 0
    at once, after one line on the error stream.  So when the locator
    finds no audio file the process scans, reports and exits with status
    0, and the recognition capability is not invoked. *)
Theorem no_files_exits_0 env a fmts w :
  batch_driver env a fmts [] w
  = (Ok 0%Z,
     mkWorld (fs w)
       (trace w ++ [EvStderr "No audio files found to transcribe."]))
  /\ ((forall fmt, In fmt (parse_formats (formats a)) -> In fmt supported) ->
      find_audio_files_in (fs w) (input a) audio_exts = [] ->
      fst (run env a w) = 0%Z
      /\ trace (snd (run env a w))
         = trace w ++ [EvScan (input a);
                       EvStderr "No audio files found to transcribe."]
      /\ attempts (trace (snd (run env a w))) = attempts (trace w)).
Proof.
  split; [reflexivity|].
  intros Hok Hnone. rewrite (run_no_files env a w Hok Hnone). cbn [fst snd trace].
  repeat split. rewrite attempts_app. simpl. now rewrite app_nil_r.
Qed.

Lemma no_files_exits_0_witness :
  fst (run Demo.env (mkArgs "in/notes.txt" "out" "medium" "auto" None
                            "txt" true) Demo.w0) = 0%Z.
Proof.
  refine (proj1 (proj2 (no_files_exits_0 Demo.env
                   (mkArgs "in/notes.txt" "out" "medium" "auto" None "txt" true)
                   [] Demo.w0) _ eq_refl)).
  intros fmt [<-|[]]. now left.
Defined.

(** C7, as stated, fails in four ways.  The output folder is not new:
    [out/b] holds an old caption file, and ends with three regular files.
    Two audio files share a base name: [out/a/a.txt] ends with the
    transcript of the later one.  The operating system refuses one of the
    writes: the run ends in an exception and [out/b] holds [b.txt] alone.
    The output root is given through [..] of a directory that is missing:
    the path of the output folder names nothing when the run starts, and
    the folder it names in the end holds the old file, a directory and
    the two outputs. *)
Lemma output_folder_counterexamples :
  (fst (run Demo.env (Demo.args "txt,json" false) Demo.stale) = 0%Z
   /\ fails Demo.env (Demo.args "txt,json" false) "in/b.MP3" = false
   /\ Fs.listdir "out/b"
        (fs (snd (run Demo.env (Demo.args "txt,json" false) Demo.stale)))
      = Some ["old.srt"; "b.txt"; "b.json"])
  /\ (fst (run Demo.env (Demo.args "txt,json" false) Demo.twins) = 0%Z
      /\ find_audio_files_in (fs Demo.twins) "in" audio_exts
         = ["in/a.mp3"; "in/a.wav"]
      /\ transcription Demo.env (Demo.args "txt,json" false) "in/a.mp3"
         = inr "  words of in/a.mp3 "
      /\ Fs.listdir "out/a"
           (fs (snd (run Demo.env (Demo.args "txt,json" false) Demo.twins)))
         = Some ["a.txt"; "a.json"]
      /\ Fs.read "out/a/a.txt"
           (fs (snd (run Demo.env (Demo.args "txt,json" false) Demo.twins)))
         = Some "words of in/a.wav")
  /\ (fst (main Demo.env (Demo.args "txt,json" false)
             (Demo.refusing ["out"; "b"; "b.json"]))
      = Raise (OSError "out/b/b.json")
      /\ fails Demo.env (Demo.args "txt,json" false) "in/b.MP3" = false
      /\ Fs.listdir "out/b"
           (fs (snd (main Demo.env (Demo.args "txt,json" false)
                       (Demo.refusing ["out"; "b"; "b.json"]))))
         = Some ["b.txt"])
  /\ (fst (run Demo.env (Demo.args_to "o/b/c/../.." "txt,json")
             Demo.roundabout) = 0%Z
      /\ out_folder_of (Demo.args_to "o/b/c/../.." "txt,json") "in/b.MP3"
         = "o/b/c/../../b"
      /\ Fs.stat "o/b/c/../../b" (fs Demo.roundabout) = None
      /\ Fs.listdir "o/b/c/../../b"
           (fs (snd (run Demo.env (Demo.args_to "o/b/c/../.." "txt,json")
                       Demo.roundabout)))
         = Some ["old.srt"; "c"; "b.txt"; "b.json"]).
Proof. repeat split. Qed.

(** C7, amended.  A file the recognition capability accepts and whose
    outputs the run reports saved (the line [Saved transcripts to:
    <folder>] is printed once the files up to it have been attempted),
    with exactly the formats txt and json requested, and an output
    folder that held no regular file before the run but, at most,
    [<base>.txt] and [<base>.json]: when the run ends, however it ends,
    the folder [<out_dir>/<base>] holds exactly two regular files,
    [<base>.txt] and [<base>.json]; it holds no directory that was not
    in it before, if the path of the output root named a place when the
    run started; and [<base>.txt] holds the stripped text of the result,
    provided the run does not open it for writing again after the report
    (as it does for a later file of the same base name that the
    recognition capability accepts).  The folder before the run is the
    directory at
    the place that the path of the folder names in the end: the path
    itself names it from the start, unless the output root is given
    through [..] of a directory that the run makes. *)
Theorem text_and_json_outputs env a w r w' pre f post result front back :
  main env a w = (r, w') ->
  (forall k, In k (parse_formats (formats a)) <-> k = "txt" \/ k = "json") ->
  find_audio_files_in (fs w) (input a) audio_exts = pre ++ f :: post ->
  transcription env a f = inr result ->
  trace w' = trace w ++ front
             ++ EvStdout ("Saved transcripts to: " ++ out_folder_of a f)
             :: back ->
  attempts front = pre ++ [f] ->
  (forall q es0,
     Fs.place (out_folder_of a f) (fs w') = Some q ->
     Fs.lookup q (Fs.tree (fs w)) = Some (Fs.Dir es0) ->
     NoDup (map fst es0)
     /\ forall name, In name (Fs.filenames es0) ->
                     name = (base_of f ++ ".txt")%string
                     \/ name = (base_of f ++ ".json")%string) ->
  exists es,
    Fs.stat (out_folder_of a f) (fs w') = Some (Fs.Dir es)
    /\ out_folder_of a f = OsPath.join (out_dir a) (base_of f)
    /\ base_of f = fst (OsPath.splitext (OsPath.basename f))
    /\ Permutation (Fs.filenames es)
         [base_of f ++ ".txt"; base_of f ++ ".json"]%string
    /\ (Fs.place (out_dir a) (fs w) <> None ->
        Fs.place (out_folder_of a f) (fs w)
        = Fs.place (out_folder_of a f) (fs w')
        /\ forall d, In d (Fs.dirnames es) ->
             exists es0,
               Fs.stat (out_folder_of a f) (fs w) = Some (Fs.Dir es0)
               /\ In d (Fs.dirnames es0))
    /\ ((forall p, In (EvOpenWrite p true) back ->
                   p <> OsPath.join (out_folder_of a f)
                          (base_of f ++ ".txt")) ->
        Fs.read (OsPath.join (out_folder_of a f) (base_of f ++ ".txt"))
          (fs w')
        = Some (Py.strip (match result_text env result with
                          | Some t => t
                          | None => ""
                          end))).
Proof.
  intros H Hfmts Hfiles Tf T A Hbefore.
  assert (Hok : forall fmt, In fmt (parse_formats (formats a)) ->
                            In fmt supported).
  { intros fmt Hin. apply Hfmts in Hin. destruct Hin as [-> | ->];
      simpl; tauto. }
  assert (Stxt : In "txt" supported) by (simpl; tauto).
  assert (Sjson : In "json" supported) by (simpl; tauto).
  assert (Itxt : In "txt" (parse_formats (formats a)))
    by (apply Hfmts; now left).
  assert (Ijson : In "json" (parse_formats (formats a)))
    by (apply Hfmts; now right).
  destruct (main_saved env a w r w' pre f post result front back
              H Hok Hfiles T A Tf) as [w1 [w2 [fl' [D1 [W [B TB]]]]]].
  assert (Pall : Forall proper_base (pre ++ f :: post)).
  { apply Forall_forall. intros g Hg. rewrite <- Hfiles in Hg.
    exact (proj1 (found_proper _ _ _ Hg)). }
  apply Forall_app in Pall. destruct Pall as [_ Pall].
  inversion Pall as [|? ? Pf Ppost]; subst.
  destruct (keeps_main env a w r w' H) as [evsK [TK [P [D _]]]].
  destruct (grows_main env a w r w' H) as [evs [TG [_ [_ [GF [GD GN]]]]]].
  destruct (main_events env a w r w' H) as [evsE [TE FA]].
  rewrite TG in TE. apply app_inv_head in TE. subst evsE.
  set (b := base_of f) in *.
  (* the folder is a directory at the end *)
  assert (D' : Fs.isdir (out_folder_of a f) (fs w') = true).
  { refine (isdir_kept _ _ _ _ _ (keeps_batch env a _ _ _) B _).
    exact (isdir_kept _ _ _ _ _ (keeps_write_outputs env a _ f result) W D1). }
  apply FsFacts.isdir_spec in D'. destruct D' as [Hne [F [es [HF' L]]]].
  pose proof HF' as Hq0'. rewrite (out_folder_place a f _ Pf) in Hq0'.
  destruct (Fs.place (out_dir a) (fs w')) as [q0|] eqn:Q0'; [|discriminate].
  injection Hq0' as Hq0'. fold b in Hq0'. subst F.
  set (F := q0 ++ [b]) in *.
  assert (N : NoDup (map fst es)).
  { apply (GN F es L). intros es0 L0.
    exact (proj1 (Hbefore F es0 HF' L0)). }
  (* the two files are there *)
  destruct (write_outputs_saved env a _ f result w1 w2 W) as [St Sj].
  assert (Here : forall k c,
             In k supported ->
             Fs.read (output_path a f k) (fs w2) = Some c ->
             In (b ++ "." ++ k)%string (Fs.filenames es)).
  { intros k c Hk R.
    destruct (file_kept _ _ _ _ _ _ (keeps_batch env a _ _ _) B R) as [c' R'].
    apply FsFacts.read_spec in R'. destruct R' as [_ [_ [q [Hq Lq]]]].
    rewrite (output_place a f k _ q0 Pf Hk Q0') in Hq. injection Hq as <-.
    fold b F in Lq.
    apply FsFacts.filenames_In. exists c'.
    exact (FolderFacts.entry_lookup _ _ _ _ _ L Lq). }
  exists es. split; [|split; [reflexivity | split; [reflexivity | split;
                                                    [|split]]]].
  - apply FolderFacts.stat_dir. split; trivial. now exists F.
  - apply NoDup_Permutation.
    + now apply FolderFacts.filenames_NoDup.
    + repeat constructor; [|intros []].
      intros [E|[]]. pose proof (PathFacts.txt_json_differ b) as X.
      apply String.eqb_neq in X. congruence.
    + intros name. split.
      * intros Hn. apply FsFacts.filenames_In in Hn. destruct Hn as [c Hn].
        pose proof (FolderFacts.lookup_entry _ _ _ _ _ L N Hn) as Ln.
        destruct (GF _ _ Ln) as [[c0 L0]|[p [Hin Hp]]].
        -- destruct (FsFacts.lookup_parent _ _ _ _ L0) as [es0 LF].
           destruct (Hbefore F es0 HF' LF) as [_ Hnames].
           assert (X : name = (b ++ ".txt")%string
                       \/ name = (b ++ ".json")%string).
           { apply Hnames, FsFacts.filenames_In. exists c0.
             exact (FolderFacts.entry_lookup _ _ _ _ _ LF L0). }
           destruct X as [-> | ->]; simpl; tauto.
        -- rewrite Forall_forall in FA.
           destruct (FA _ Hin) as [g [Hg [_ [k [Hk [Sk ->]]]]]].
           destruct (found_proper _ _ _ Hg) as [Pg _].
           rewrite (output_place a g k _ q0 Pg Sk Q0') in Hp.
           injection Hp as Hp. unfold F in Hp.
           apply app_inj_tail in Hp. destruct Hp as [Eb En].
           apply app_inj_tail in Eb. destruct Eb as [_ Eb].
           fold b in Eb. rewrite Eb in En.
           apply Hfmts in Hk. destruct Hk as [-> | ->]; subst name;
             simpl; tauto.
      * intros [<-|[<-|[]]].
        -- exact (Here "txt" _ Stxt (St Itxt)).
        -- exact (Here "json" _ Sjson (Sj Ijson)).
  - intros Hroot.
    destruct (Fs.place (out_dir a) (fs w)) as [q1|] eqn:Hq0;
      [|now elim Hroot].
    pose proof (FsFacts.place_stable _ _ _ _ P D Hq0) as Hq1.
    rewrite Q0' in Hq1. injection Hq1 as <-.
    assert (HF : Fs.place (out_folder_of a f) (fs w) = Some F)
      by (rewrite (out_folder_place a f _ Pf), Hq0; reflexivity).
    split; [now rewrite HF, HF'|].
    assert (Before : forall es0,
               Fs.lookup F (Fs.tree (fs w)) = Some (Fs.Dir es0) ->
               Fs.stat (out_folder_of a f) (fs w) = Some (Fs.Dir es0)).
    { intros es0 L0. apply FolderFacts.stat_dir. split; trivial.
      now exists F. }
    intros d Hd. apply FolderFacts.dirnames_In in Hd. destruct Hd as [sub Hd].
    pose proof (FolderFacts.lookup_entry _ _ _ _ _ L N Hd) as Ld.
    assert (Old : exists es1, Fs.lookup (F ++ [d]) (Fs.tree (fs w))
                              = Some (Fs.Dir es1)).
    { destruct (GD _ _ Ld) as [X|[p [ok [cs [rest [Hin [C Lc]]]]]]]; trivial.
      unfold F in *. rewrite <- app_assoc in Lc |- *.
      exact (no_folder_in_folder env a w w' p ok evs q0 f d cs rest
               P D FA Hin Hq0 C Lc). }
    destruct Old as [es1 L1].
    destruct (FsFacts.lookup_parent _ _ _ _ L1) as [es0 LF].
    exists es0. split; [exact (Before es0 LF)|].
    apply FolderFacts.dirnames_In. exists es1.
    exact (FolderFacts.entry_lookup _ _ _ _ _ LF L1).
  - intros Hfree.
    exact (output_kept_unless_rewritten env a _ f "txt" post fl' _ w2 _ w'
             back Pf Ppost Stxt B TB Hfree (St Itxt)).
Qed.

Lemma text_and_json_outputs_witness :
  exists es,
    Fs.stat "out/b"
      (fs (snd (main Demo.env (Demo.args "txt,json" false) Demo.rerun)))
    = Some (Fs.Dir es)
    /\ Permutation (Fs.filenames es) ["b.txt"; "b.json"]
    /\ Fs.read "out/b/b.txt"
         (fs (snd (main Demo.env (Demo.args "txt,json" false) Demo.rerun)))
       = Some "words of in/b.MP3".
Proof.
  destruct (text_and_json_outputs Demo.env (Demo.args "txt,json" false)
              Demo.rerun
              (fst (main Demo.env (Demo.args "txt,json" false) Demo.rerun))
              (snd (main Demo.env (Demo.args "txt,json" false) Demo.rerun))
              [] "in/b.MP3" [] "  words of in/b.MP3 "
              (firstn 7 (trace (snd (main Demo.env
                                       (Demo.args "txt,json" false)
                                       Demo.rerun))))
              [] eq_refl)
    as [es [S [_ [_ [Pm [_ R]]]]]].
  - intros k. simpl. split.
    + intros [<-|[<-|[]]]; [now left | now right].
    + intros [->| ->]; [now left | right; now left].
  - reflexivity.
  - reflexivity.
  - reflexivity.
  - reflexivity.
  - intros q es0 [= <-] [= <-]. split.
    + repeat constructor. intros [].
    + intros name [<-|[]]. now left.
  - exists es. split; [exact S|]. split; [exact Pm|].
    apply R. intros p [].
Defined.

(** C8.  The format list is taken entry by entry, the entries being the
    pieces between the commas.  An entry of nothing but white space is
    dropped without a word; another entry is accepted when it is one of
    txt, json, srt, vtt, in small letters or capitals, with white space
    before it and after it, or none.  The process is rejected with status
    2 exactly when some entry is neither; otherwise validation passes and
    leaves no trace.  [" TXT,Json,,"] passes, as txt and json. *)
Theorem format_list_normalisation env a w :
  (exists es, entries_of (formats a) es)
  /\ (forall es,
        entries_of (formats a) es ->
        (fst (run env a w) = 2%Z
         <-> exists e, In e es /\ ~ blank e /\ ~ names_format e)
        /\ (check_formats (parse_formats (formats a)) w = (Ok tt, w)
            <-> forall e, In e es -> blank e \/ names_format e))
  /\ parse_formats " TXT,Json,," = ["txt"; "json"]
  /\ check_formats (parse_formats " TXT,Json,,") w = (Ok tt, w).
Proof.
  split; [|split; [|split]].
  - exists (Py.split "," (formats a)). apply EntryFacts.split_entries.
  - intros es Hes.
    assert (Hgood : (forall fmt, In fmt (parse_formats (formats a)) ->
                                 In fmt supported)
                    <-> forall e, In e es -> blank e \/ names_format e).
    { split.
      - intros Hok e Hin.
        destruct (EntryFacts.blank_decide e) as [B|B]; [now left|].
        destruct (EntryFacts.names_format_decide e) as [N|N]; [now right|].
        assert (Hbad : has_bad_entry (formats a))
          by (apply (EntryFacts.bad_entries _ _ Hes); eauto).
        apply has_bad_entry_parse in Hbad.
        destruct Hbad as [fmt [Hf Hn]]. elim (Hn (Hok fmt Hf)).
      - intros Hall fmt Hf.
        destruct (in_dec string_dec fmt supported) as [H|H]; trivial.
        assert (Hbad : has_bad_entry (formats a))
          by (apply has_bad_entry_parse; eauto).
        apply (EntryFacts.bad_entries _ _ Hes) in Hbad.
        destruct Hbad as [e [Hin [B N]]].
        destruct (Hall e Hin); contradiction. }
    split.
    + rewrite <- (EntryFacts.bad_entries _ _ Hes), run_status. split.
      * intros S. apply has_bad_entry_parse.
        destruct (formats_decide (parse_formats (formats a))) as [Hok|Hbad];
          trivial.
        rewrite (main_accept env a w Hok) in S.
        destruct (batch_driver _ _ _ _ _) as [r w'] eqn:E.
        destruct (batch_driver_status _ _ _ _ _ _ _ E) as [X|X];
          cbn [fst] in S; rewrite X in S; discriminate.
      * intros Hbad. apply has_bad_entry_parse in Hbad.
        destruct (main_reject env a w Hbad) as [fmt ->]. reflexivity.
    + rewrite <- Hgood. split.
      * intros E.
        destruct (formats_decide (parse_formats (formats a))) as [Hok|Hbad];
          trivial.
        destruct (check_formats_reject _ w Hbad) as [fmt [_ [_ R]]].
        congruence.
      * apply check_formats_accept.
  - reflexivity.
  - reflexivity.
Qed.

Lemma format_list_normalisation_witness :
  check_formats (parse_formats "txt ,Json,, VTT") Demo.w0 = (Ok tt, Demo.w0)
  /\ fst (run Demo.env (Demo.args "txt ,mp3" false) Demo.w0) = 2%Z.
Proof.
  split.
  - refine (proj2 (proj2 (proj1 (proj2
              (format_list_normalisation Demo.env
                 (Demo.args "txt ,Json,, VTT" false) Demo.w0))
              ["txt "; "Json"; ""; " VTT"]
              (conj eq_refl _))) _).
    + repeat (apply Forall_cons || apply Forall_nil);
        cbn; repeat split; discriminate.
    + intros e [<-|[<-|[<-|[<-|[]]]]].
      * right. exists "", "txt", " ", "txt". simpl. tauto.
      * right. exists "", "Json", "", "json". simpl. tauto.
      * left. exact I.
      * right. exists " ", "VTT", "", "vtt". simpl. tauto.
  - refine (proj2 (proj1 (proj1 (proj2
              (format_list_normalisation Demo.env
                 (Demo.args "txt ,mp3" false) Demo.w0))
              ["txt "; "mp3"]
              (conj eq_refl _))) _).
    + repeat (apply Forall_cons || apply Forall_nil);
        cbn; repeat split; discriminate.
    + exists "mp3". split; [simpl; tauto|]. split.
      * intros [H _]. simpl in H.
        repeat (destruct H as [H|H]; [discriminate H|]). exact H.
      * intros N. apply EntryFacts.names_format_spec in N.
        destruct N as [_ N]. vm_compute in N.
        repeat (destruct N as [N|N]; [discriminate N|]). exact N.
Defined.

(** C9.  In every run, each file handed to the recognition capability
    has had its output folder made before, with success, and the folder
    is a directory when the run ends, also when transcription failed.
    Making a directory that exists succeeds and changes nothing. *)
Theorem output_folder_made_before_attempt env a w r w' :
  main env a w = (r, w') ->
  (exists evs,
      trace w' = trace w ++ evs
      /\ (forall front f m d b l back,
             evs = front ++ EvTranscribe f m d b l :: back ->
             In (EvMakedirs (out_folder_of a f) true) front)
      /\ (forall f, In f (attempts evs) ->
                    Fs.isdir (out_folder_of a f) (fs w') = true))
  /\ (forall p w0,
         Fs.isdir p (fs w0) = true ->
         ensure_dir p w0
         = (Ok tt, mkWorld (fs w0) (trace w0 ++ [EvMakedirs p true]))).
Proof.
  intros H. split.
  - assert (sound : forall evs,
               folders_first a [] evs ->
               forall front f m d b l back,
                 evs = front ++ EvTranscribe f m d b l :: back ->
                 In (EvMakedirs (out_folder_of a f) true) front).
    { intros evs F front f m d b l back E.
      destruct (folders_first_sound _ _ _ _ _ _ _ _ _ _ F E) as [[]|X].
      exact X. }
    destruct (formats_decide (parse_formats (formats a))) as [Hok|Hbad].
    + rewrite (main_accept env a w Hok) in H.
      apply batch_driver_cases in H.
      destruct H as [[_ [_ ->]]|[[_ [_ [_ ->]]]|[_ [t1 [_ H]]]]];
        cbn [trace fs].
      * rewrite <- app_assoc. eexists. split; [reflexivity|].
        split; [apply sound; simpl; trivial | intros f []].
      * rewrite <- app_assoc. eexists. split; [reflexivity|].
        split; [apply sound; simpl; trivial | intros f []].
      * destruct (batch_folders env _ _ _ _ _ _ _ [out_dir a] H)
          as [evs [T [F D]]].
        cbn [trace] in T. rewrite <- !app_assoc in T.
        eexists. split; [exact T|].
        split; [apply sound; simpl; exact F | exact D].
    + destruct (main_reject env a w Hbad) as [fmt E].
      rewrite E in H. injection H as <- <-. cbn [trace fs].
      eexists. split; [reflexivity|].
      split; [apply sound; simpl; trivial | intros f []].
  - intros p w0 Hd. unfold ensure_dir, fs_call.
    now rewrite (FsFacts.makedirs_idem _ _ Hd).
Qed.

Lemma output_folder_made_before_attempt_witness :
  Fs.isdir "out/bad" (fs (snd (main Demo.env (Demo.args "txt" false) Demo.w0)))
  = true.
Proof.
  destruct (output_folder_made_before_attempt
              Demo.env (Demo.args "txt" false) Demo.w0
              (fst (main Demo.env (Demo.args "txt" false) Demo.w0))
              (snd (main Demo.env (Demo.args "txt" false) Demo.w0))
              eq_refl) as [[evs [T [_ D]]] _].
  apply (D "in/bad.mp3").
  apply (f_equal (skipn (length (trace Demo.w0)))) in T.
  rewrite skipn_app, skipn_all, Nat.sub_diag in T. cbn [app skipn] in T.
  rewrite <- T. vm_compute. tauto.
Defined.

(** C10.  On an empty list of discovered files the Batch Driver leaves
    the file system as it was.  So when the locator finds no audio file
    the process ends with the file system it started with: the output
    root is not created, and none of its calls is a directory creation or
    a file write. *)
Theorem no_files_no_write env a fmts w :
  fs (snd (batch_driver env a fmts [] w)) = fs w
  /\ ((forall fmt, In fmt (parse_formats (formats a)) -> In fmt supported) ->
      find_audio_files_in (fs w) (input a) audio_exts = [] ->
      fs (snd (run env a w)) = fs w
      /\ Fs.stat (out_dir a) (fs (snd (run env a w)))
         = Fs.stat (out_dir a) (fs w)
      /\ exists evs,
           trace (snd (run env a w)) = trace w ++ evs
           /\ forallb (fun e => negb (touches_fs e)) evs = true).
Proof.
  split; [reflexivity|].
  intros Hok Hnone. rewrite (run_no_files env a w Hok Hnone). cbn [snd fs trace].
  split; trivial. split; trivial. eexists. split; reflexivity.
Qed.

Lemma no_files_no_write_witness :
  fs (snd (run Demo.env (mkArgs "in/notes.txt" "out" "medium" "auto" None
                                "txt" true) Demo.w0)) = Demo.tree.
Proof.
  refine (proj1 (proj2 (no_files_no_write Demo.env
                   (mkArgs "in/notes.txt" "out" "medium" "auto" None "txt" true)
                   [] Demo.w0) _ eq_refl)).
  intros fmt [<-|[]]. now left.
Defined.

(** X1.  Exceptions of the caption writers are caught: when neither txt
    nor json is requested, the output step of a file returns whatever the
    writers and the file system do, so the formats and files that follow
    are not affected. *)
Theorem caption_errors_are_caught env fmts file_path out_folder base result :
  Py.contains fmts "txt" = false ->
  Py.contains fmts "json" = false ->
  returns (write_outputs env fmts file_path out_folder base result).
Proof.
  intros Ht Hj. unfold write_outputs. rewrite Ht, Hj. cbn [when].
  repeat (apply returns_bind; [|intros _]);
    try apply returns_ret; try apply returns_emit;
    match goal with |- returns (when ?b _) => destruct b; cbn [when] end;
    try apply returns_ret;
    (apply returns_bind;
     [apply returns_try with (p := is_output), only_write_timecoded
     |intros [exc|[]]; [apply returns_emit | apply returns_ret]]).
Qed.

Lemma caption_errors_are_caught_witness :
  exists x w',
    write_outputs Demo.env ["srt"; "vtt"] "in/b.MP3" "out/b" "b" "words"
      Demo.blocked
    = (Ok x, w').
Proof.
  exact (caption_errors_are_caught Demo.env ["srt"; "vtt"] "in/b.MP3"
           "out/b" "b" "words" eq_refl eq_refl Demo.blocked).
Defined.

(** X2.  With supported formats, an output root that exists or can be
    made and then holds nothing but folders of regular files (a new or an
    empty root, or one left by earlier runs), and an operating system
    that lets the process make the output folders and the output files of
    the discovered files there (so no name is too long), no exception
    leaves [main]: every directory creation and every write of the run
    succeeds. *)
Theorem tidy_root_run_returns env a w :
  (forall fmt, In fmt (parse_formats (formats a)) -> In fmt supported) ->
  (exists s1,
      Fs.makedirs (out_dir a) (fs w) = (s1, true)
      /\ tidy_root a s1
      /\ may_write a (find_audio_files_in (fs w) (input a) audio_exts) s1) ->
  exists code w', main env a w = (Ok code, w').
Proof.
  intros Hok [s1 [Mk [Htidy W]]]. rewrite (main_accept env a w Hok).
  assert (Hproper : Forall proper_base
                      (find_audio_files_in (fs w) (input a) audio_exts)).
  { apply Forall_forall. intros g Hg. exact (proj1 (found_proper _ _ _ Hg)). }
  destruct (find_audio_files_in (fs w) (input a) audio_exts) as [|f rest]
    eqn:Hfiles; cbn [batch_driver].
  - eexists. eexists. reflexivity.
  - unfold bind at 1, ensure_dir. cbn [fs trace]. rewrite Mk.
    destruct (batch_returns env a (parse_formats (formats a)) (f :: rest)
                (f :: rest) Hproper (incl_refl _) []
                (mkWorld s1 ((trace w ++ [EvScan (input a)])
                             ++ [EvMakedirs (out_dir a) true]))
                (conj Htidy W))
      as [code [w' [E _]]].
    exists code, w'. exact E.
Qed.

Lemma tidy_root_run_returns_witness :
  exists code w', main Demo.env (Demo.args "txt,json,srt,vtt" false) Demo.w0
                  = (Ok code, w').
Proof.
  apply tidy_root_run_returns.
  - intros fmt [<-|[<-|[<-|[<-|[]]]]]; simpl; tauto.
  - eexists. split; [reflexivity|]. split.
    + exists []. split; [reflexivity | constructor].
    + intros q0 f _ _. split; [reflexivity | intros k _; reflexivity].
Defined.

(* ================================================================== *)
(** * The functions of the script *)

(** X3.  An input path that does not exist is no error: with supported
    formats the locator finds nothing, the process reports that no audio
    file was found and exits with status 0, and the file system is left
    as it was. *)
Theorem missing_input_exits_0 env a w :
  (forall fmt, In fmt (parse_formats (formats a)) -> In fmt supported) ->
  Fs.stat (input a) (fs w) = None ->
  run env a w
  = (0%Z,
     mkWorld (fs w)
       (trace w ++ [EvScan (input a);
                    EvStderr "No audio files found to transcribe."])).
Proof.
  intros Hok Hmiss. apply run_no_files; trivial.
  unfold find_audio_files_in, Fs.isfile, Fs.walk. now rewrite Hmiss.
Qed.

Lemma missing_input_exits_0_witness :
  run Demo.env (mkArgs "nowhere" "out" "medium" "auto" None "txt" true) Demo.w0
  = (0%Z,
     mkWorld Demo.tree
       [EvScan "nowhere"; EvStderr "No audio files found to transcribe."]).
Proof.
  apply (missing_input_exits_0 Demo.env
           (mkArgs "nowhere" "out" "medium" "auto" None "txt" true) Demo.w0).
  - intros fmt [<-|[]]. now left.
  - reflexivity.
Defined.

(** X4.  The result of the locator on a directory does not depend on the
    order in which the directories list their entries: two trees that
    differ in that order only (and in the content of files) give the same
    list of paths.  This is what [sorted] is there for. *)
Theorem locator_ignores_the_listing_order t t' root es es' exts :
  Fs.stat root t = Some (Fs.Dir es) ->
  Fs.stat root t' = Some (Fs.Dir es') ->
  reordered (Fs.Dir es) (Fs.Dir es') ->
  find_audio_files_in t root exts = find_audio_files_in t' root exts.
Proof.
  intros H H' R.
  rewrite (find_in_directory exts t root es H),
    (find_in_directory exts t' root es' H').
  apply OrderFacts.sorted_permutation. now apply walk_reordered.
Qed.

Lemma locator_ignores_the_listing_order_witness :
  find_audio_files_in Demo.tree "in" audio_exts
  = find_audio_files_in Demo.shuffled "in" audio_exts.
Proof.
  apply (locator_ignores_the_listing_order Demo.tree Demo.shuffled "in"
           _ _ audio_exts eq_refl eq_refl).
  apply ReorderedDir
    with (es1 := rev [("b.MP3", Fs.File ""); ("bad.mp3", Fs.File "");
                      ("notes.txt", Fs.File "");
                      ("sub", Fs.Dir [("a.wav", Fs.File "")])]).
  - apply Permutation_rev.
  - repeat constructor.
    apply ReorderedDir with (es1 := [("a.wav", Fs.File "")]);
      repeat constructor.
Defined.

(** X5.  When the directory tree under the root is well named (entry
    names are not empty, not [.] or [..], hold no slash, and no directory
    holds a name twice), the locator lists no path twice, and every path
    it lists is the path of a regular file. *)
Theorem discovered_files_exist_once t root exts :
  (forall es, Fs.stat root t = Some (Fs.Dir es) -> well_named (Fs.Dir es)) ->
  NoDup (find_audio_files_in t root exts)
  /\ forall p, In p (find_audio_files_in t root exts) ->
               Fs.isfile p t = true.
Proof.
  intros W. destruct (Fs.stat root t) as [[c|es]|] eqn:S.
  - assert (Hf : Fs.isfile root t = true) by (unfold Fs.isfile; now rewrite S).
    unfold find_audio_files_in. rewrite Hf.
    destruct (Py.endswith_any _ _).
    + split; [repeat constructor; intros [] | now intros p [<-|[]]].
    + split; [constructor | intros p []].
  - rewrite (find_in_directory exts t root es S).
    specialize (W es eq_refl).
    assert (Hroot : root <> ""
                    /\ exists q, Fs.place root t = Some q
                                 /\ Fs.lookup q (Fs.tree t) = Some (Fs.Dir es)).
    { unfold Fs.stat in S. destruct (String.eqb_spec root ""); [discriminate|].
      split; trivial. destruct (Fs.place root t) as [q|]; [|discriminate].
      exists q. split; trivial.
      destruct (Fs.lookup q (Fs.tree t)) as [[c|es']|];
        [destruct (Fs.names_directory root); discriminate | exact S
        | discriminate]. }
    destruct Hroot as [Hne [q [Hq L]]]. split.
    + apply Permutation_NoDup
        with (1 := Permutation_sym (PyFacts.sorted_perm _)).
      now apply (walk_NoDup exts).
    + intros p Hp. apply (proj1 (PyFacts.sorted_In _ _)) in Hp.
      destruct (walk_components exts _ _ _ W Hne Hp)
        as [seq [c [_ [Hp' [Hn [Hc [Hl [Hz Ho]]]]]]]].
      apply FsFacts.isfile_read. exists c. apply FsFacts.read_spec.
      repeat split; trivial. exists (q ++ seq). split.
      * unfold Fs.place in *. rewrite Ho, Hc, FsFacts.locate_app, Hq.
        now apply FsFacts.locate_names.
      * now rewrite FsFacts.lookup_app, L.
  - unfold find_audio_files_in, Fs.isfile, Fs.walk. rewrite S.
    split; [constructor | intros p []].
Qed.

Lemma discovered_files_exist_once_witness :
  NoDup (find_audio_files_in Demo.tree "in" audio_exts)
  /\ forall p, In p (find_audio_files_in Demo.tree "in" audio_exts) ->
               Fs.isfile p Demo.tree = true.
Proof.
  apply (discovered_files_exist_once Demo.tree "in" audio_exts).
  intros es [= <-].
  assert (N : forall k, k <> "" /\ k <> "." /\ k <> ".." ->
                        Py.has_char "/" k = false -> entry_name k)
    by (intros k [A [B Z]] C; repeat split; trivial).
  constructor.
  - repeat constructor; simpl; intros H;
      repeat (destruct H as [H|H]; try discriminate H); trivial.
  - repeat constructor; try discriminate;
      simpl; intros H; exact H.
Defined.

(** An entry called [..] is not well named: the path the walk gives the
    file below it leads elsewhere. *)
Lemma an_entry_called_dot_dot :
  find_audio_files_in Demo.misnamed "in" audio_exts = ["in/../x.mp3"]
  /\ Fs.isfile "in/../x.mp3" Demo.misnamed = false.
Proof. split; reflexivity. Qed.

(** X6.  The base name of a discovered audio file (its file name
    without the extension) is never empty, never [.] or [..], and holds
    no slash; so its output folder is a folder of that name directly
    under the output root, never the output root itself. *)
Theorem discovered_files_get_a_folder_of_their_own t root a p :
  In p (find_audio_files_in t root audio_exts) ->
  base_of p <> "" /\ base_of p <> "." /\ base_of p <> ".."
  /\ Py.has_char "/" (base_of p) = false
  /\ Fs.components (out_folder_of a p)
     = Fs.components (out_dir a) ++ [base_of p].
Proof.
  intros H. destruct (found_proper t root p H) as [[A [B Z]] C].
  pose proof (PathFacts.base_of_plain p) as P.
  repeat split; trivial.
  unfold out_folder_of. rewrite (PathFacts.components_join _ _ P).
  now rewrite (proper_components _ P A B).
Qed.

Lemma discovered_files_get_a_folder_of_their_own_witness :
  base_of "in/sub/a.wav" <> "" /\ base_of "in/sub/a.wav" <> "."
  /\ base_of "in/sub/a.wav" <> ".."
  /\ Py.has_char "/" (base_of "in/sub/a.wav") = false
  /\ Fs.components (out_folder_of (Demo.args "txt" false) "in/sub/a.wav")
     = Fs.components "out" ++ [base_of "in/sub/a.wav"].
Proof.
  apply (discovered_files_get_a_folder_of_their_own Demo.tree "in"
           (Demo.args "txt" false) "in/sub/a.wav").
  vm_compute. tauto.
Defined.

(** X7.  Whatever a run writes, it changes nothing for the locator: on
    the file system the run leaves behind, the locator returns what it
    returned before, from every root that named a place before the run
    (a root in which every [..] follows a directory that was there).  So
    the output root may lie inside the input directory, and a second run
    discovers the files of the first. *)
Theorem outputs_are_never_taken_for_input env a w r w' root :
  main env a w = (r, w') ->
  Fs.place root (fs w) <> None ->
  find_audio_files_in (fs w') root audio_exts
  = find_audio_files_in (fs w) root audio_exts.
Proof.
  intros H Hroot. apply find_same_audio; trivial.
  - intros e He. exact (proj1 (audio_exts_plain e He)).
  - exact (audio_same_main env a w r w' H).
Qed.

Lemma outputs_are_never_taken_for_input_witness :
  find_audio_files_in
    (fs (snd (main Demo.env (mkArgs "." "." "medium" "auto" None "txt" false)
                Demo.w0)))
    "." audio_exts
  = find_audio_files_in Demo.tree "." audio_exts.
Proof.
  exact (outputs_are_never_taken_for_input Demo.env
           (mkArgs "." "." "medium" "auto" None "txt" false) Demo.w0
           (fst (main Demo.env (mkArgs "." "." "medium" "auto" None "txt" false)
                   Demo.w0))
           (snd (main Demo.env (mkArgs "." "." "medium" "auto" None "txt" false)
                   Demo.w0))
           "." eq_refl ltac:(discriminate)).
Defined.

(** A root that leads through [..] of a folder the run makes is another
    matter: it names nothing before the run, and the input directory
    after it. *)
Lemma a_root_through_a_new_folder :
  find_audio_files_in (fs Demo.ready) "out/b/../../in" audio_exts = []
  /\ find_audio_files_in
       (fs (snd (main Demo.env (Demo.args "txt" false) Demo.ready)))
       "out/b/../../in" audio_exts
     = ["out/b/../../in/b.MP3"].
Proof. split; reflexivity. Qed.

(** X8.  [ensure_dir] returns when the path names a directory in the
    end, and raises [OSError] when it does not.  Either way nothing is
    removed and no file is written: what was a directory is one
    afterwards, the regular files are the same and hold the same, and
    every directory that was not there before is a place that the walk
    along the path passes; so what was made before an error stays.  The
    walk takes [..] as the operating system does.  An error means that
    the path is empty, or that the walk came to a place that is no
    directory, a regular file say, or that the operating system refused
    to make the next directory, for a name that is too long say. *)
Theorem ensure_dir_makes_the_whole_path path w r w' :
  ensure_dir path w = (r, w') ->
  (r = Ok tt /\ Fs.isdir path (fs w') = true
   \/ r = Raise (OSError path) /\ Fs.isdir path (fs w') = false)
  /\ trace w' = trace w ++ [EvMakedirs path (Fs.isdir path (fs w'))]
  /\ same_process (fs w) (fs w')
  /\ (forall q, Fs.isdir q (fs w) = true -> Fs.isdir q (fs w') = true)
  /\ (forall q c, Fs.lookup q (Fs.tree (fs w')) = Some (Fs.File c)
                  <-> Fs.lookup q (Fs.tree (fs w)) = Some (Fs.File c))
  /\ (forall q es',
        Fs.lookup q (Fs.tree (fs w')) = Some (Fs.Dir es') ->
        (exists es, Fs.lookup q (Fs.tree (fs w)) = Some (Fs.Dir es))
        \/ exists cs rest,
             Fs.components path = cs ++ rest
             /\ Fs.locate (Fs.origin path (fs w')) cs (Fs.tree (fs w'))
                = Some q)
  /\ (Fs.isdir path (fs w') = false ->
      path = ""
      \/ exists cs rest q,
           Fs.components path = cs ++ rest
           /\ Fs.locate (Fs.origin path (fs w')) cs (Fs.tree (fs w'))
              = Some q
           /\ ((forall es, Fs.lookup q (Fs.tree (fs w')) <> Some (Fs.Dir es))
               \/ exists c rest',
                    rest = c :: rest' /\ c <> ".."
                    /\ Fs.lookup (q ++ [c]) (Fs.tree (fs w')) = None
                    /\ Fs.permits (fs w) (q ++ [c]) = false)).
Proof.
  unfold ensure_dir.
  destruct (Fs.makedirs path (fs w)) as [s done] eqn:E. intros [= <- <-].
  cbn [fs trace].
  pose proof (FsFacts.makedirs_process _ _ _ _ E) as P.
  pose proof (FsFacts.makedirs_stay _ _ _ _ E) as D.
  assert (Dir : Fs.isdir path s = done).
  { destruct done; [exact (FsFacts.makedirs_isdir _ _ _ E)|].
    destruct (Fs.isdir path s) eqn:I; trivial.
    apply FsFacts.isdir_spec in I. destruct I as [Hne [q [es [Hq L]]]].
    unfold Fs.makedirs in E.
    destruct (String.eqb_spec path ""); [contradiction|].
    destruct (Fs.mkdirs _ _ _ _) as [t d] eqn:M. injection E as <- ->.
    cbn [Fs.tree] in *. unfold Fs.place, Fs.origin in Hq. cbn [Fs.cwd] in Hq.
    elim (FsStops.mkdirs_stopped _ _ _ _ _ _ es M Hq L). }
  split; [|split; [|split; [|split; [|split; [|split]]]]]; trivial.
  - rewrite Dir. destruct done; [now left | now right].
  - now rewrite Dir.
  - intros q. now apply FsFacts.isdir_stable.
  - intros q c. split.
    + exact (FsGrowth.makedirs_new_file _ _ _ _ _ _ E).
    + exact (FsFrame.makedirs_keeps_file _ _ _ _ _ _ E).
  - intros q es'. exact (FsGrowth.makedirs_new _ _ _ _ _ _ E).
  - rewrite Dir. intros ->. unfold Fs.makedirs in E.
    destruct (String.eqb_spec path ""); [now left | right].
    destruct (Fs.mkdirs _ _ _ _) as [t d] eqn:M. injection E as <- ->.
    cbn [Fs.tree Fs.permits].
    destruct (FsStops.mkdirs_stops _ _ _ _ _ M)
      as [cs1 [cs2 [q [C [L X]]]]].
    exists cs1, cs2, q. repeat split; trivial.
Qed.

Lemma ensure_dir_makes_the_whole_path_witness :
  (fst (ensure_dir "out/x/../y" Demo.w0) = Ok tt
   /\ Fs.isdir "out/x/../y" (fs (snd (ensure_dir "out/x/../y" Demo.w0)))
      = true
   \/ fst (ensure_dir "out/x/../y" Demo.w0) = Raise (OSError "out/x/../y")
      /\ Fs.isdir "out/x/../y" (fs (snd (ensure_dir "out/x/../y" Demo.w0)))
         = false)
  /\ (fst (ensure_dir "in/notes.txt/x" Demo.w0) = Ok tt
      /\ Fs.isdir "in/notes.txt/x"
           (fs (snd (ensure_dir "in/notes.txt/x" Demo.w0))) = true
      \/ fst (ensure_dir "in/notes.txt/x" Demo.w0)
         = Raise (OSError "in/notes.txt/x")
         /\ Fs.isdir "in/notes.txt/x"
              (fs (snd (ensure_dir "in/notes.txt/x" Demo.w0))) = false).
Proof.
  split.
  - exact (proj1 (ensure_dir_makes_the_whole_path "out/x/../y" Demo.w0
                    (fst (ensure_dir "out/x/../y" Demo.w0))
                    (snd (ensure_dir "out/x/../y" Demo.w0)) eq_refl)).
  - exact (proj1 (ensure_dir_makes_the_whole_path "in/notes.txt/x" Demo.w0
                    (fst (ensure_dir "in/notes.txt/x" Demo.w0))
                    (snd (ensure_dir "in/notes.txt/x" Demo.w0)) eq_refl)).
Defined.



(** Another spelling of a path is the same place: a write through
    [in/../in/b.MP3] changes what [in/b.MP3] reads. *)
Lemma another_spelling_of_the_same_file :
  Fs.read "in/b.MP3" (fs Demo.ready) = Some ""
  /\ Fs.components "in/b.MP3" <> Fs.components "in/../in/b.MP3"
  /\ Fs.read "in/b.MP3"
       (fs (snd (save_text "in/../in/b.MP3" "hello" Demo.ready)))
     = Some "hello".
Proof. repeat split. discriminate. Qed.

(** X10.  [save_text] makes no directory: writing a file into a folder
    that is not there (or is a regular file) raises, and nothing is
    created. *)
Theorem save_text_makes_no_folder d name content w :
  d <> "" -> Fs.isdir d (fs w) = false ->
  Py.has_char "/" name = false ->
  save_text (OsPath.join d name) content w
  = (Raise (OSError (OsPath.join d name)),
     mkWorld (fs w) (trace w ++ [EvOpenWrite (OsPath.join d name) false])).
Proof.
  intros Hd Hdir Hplain.
  assert (E : Fs.open_write (OsPath.join d name) content (fs w) = None).
  { unfold Fs.open_write.
    rewrite (PathFacts.names_directory_join d name Hplain).
    pose proof (PathFacts.components_plain name Hplain) as Cn.
    destruct ((name =? "") || (name =? "."))%string eqn:B;
      [now rewrite orb_true_r|].
    rewrite orb_false_r.
    destruct (String.eqb (OsPath.join d name) ""); trivial.
    unfold Fs.place.
    rewrite (FsFacts.origin_join _ _ _ Hplain),
      (PathFacts.components_join d name Hplain), Cn, FsFacts.locate_app.
    destruct (Fs.locate (Fs.origin d (fs w)) (Fs.components d)
                (Fs.tree (fs w))) as [q|] eqn:Q; trivial.
    assert (N : forall es, Fs.lookup q (Fs.tree (fs w)) <> Some (Fs.Dir es)).
    { intros es L. assert (X : Fs.isdir d (fs w) = true)
        by (apply FsFacts.isdir_spec; split; trivial; now exists q, es).
      congruence. }
    cbn [Fs.locate]. destruct (name =? "..")%string.
    - destruct (Fs.lookup q (Fs.tree (fs w))) as [[c|es]|] eqn:L;
        try reflexivity.
      now elim (N es).
    - destruct (Fs.permits (fs w) (q ++ [name])); trivial.
      now rewrite (FsFrame.store_needs_parent _ _ _ _ _ N). }
  unfold save_text, fs_call. now rewrite E.
Qed.

Lemma save_text_makes_no_folder_witness :
  save_text (OsPath.join "nowhere" "x.txt") "hello" Demo.w0
  = (Raise (OSError (OsPath.join "nowhere" "x.txt")),
     mkWorld (fs Demo.w0)
       (trace Demo.w0 ++ [EvOpenWrite (OsPath.join "nowhere" "x.txt") false])).
Proof.
  apply (save_text_makes_no_folder "nowhere" "x.txt" "hello" Demo.w0);
    [discriminate | reflexivity | reflexivity].
Defined.

(** X11.  Every call of the recognition capability in a run is for a
    discovered file, with the model and the language of the arguments;
    the device it gets is the one asked for, except that [auto] becomes
    [cuda] when CUDA is available and [cpu] when it is not; and half
    precision is on exactly when that device is [cuda]. *)
Theorem model_calls_follow_the_device_policy env a w r w' evs f m d b l :
  main env a w = (r, w') ->
  trace w' = trace w ++ evs ->
  In (EvTranscribe f m d b l) evs ->
  In f (find_audio_files_in (fs w) (input a) audio_exts)
  /\ m = model a /\ l = language a
  /\ d = (if (device a =? "auto")%string
          then (if cuda_is_available env then "cuda" else "cpu")
          else device a)
  /\ b = (d =? "cuda")%string.
Proof.
  intros H T Hin. destruct (main_events env a w r w' H) as [evs' [T' F]].
  rewrite T' in T. apply app_inv_head in T. subst evs'.
  rewrite Forall_forall in F. specialize (F _ Hin). cbn in F.
  destruct F as [Hf E]. unfold attempt_event in E.
  injection E as -> -> ->. repeat split; trivial.
Qed.

Lemma model_calls_follow_the_device_policy_witness :
  In "in/b.MP3" (find_audio_files_in Demo.tree "in" audio_exts)
  /\ "medium" = model (Demo.args "txt" false)
  /\ None = language (Demo.args "txt" false)
  /\ "cpu" = "cpu"
  /\ false = ("cpu" =? "cuda")%string.
Proof.
  apply (model_calls_follow_the_device_policy Demo.env (Demo.args "txt" false)
           Demo.w0 (fst (main Demo.env (Demo.args "txt" false) Demo.w0))
           (snd (main Demo.env (Demo.args "txt" false) Demo.w0))
           (trace (snd (main Demo.env (Demo.args "txt" false) Demo.w0)))
           "in/b.MP3" "medium" "cpu" false None eq_refl eq_refl).
  vm_compute. tauto.
Defined.

(** X12.  Parsing the format list goes entry by entry and keeps the
    order and the repetitions: the parse of two lists joined by a comma is
    the parse of the first followed by the parse of the second.  Every
    parsed entry is in normal form: not empty, stripped, in lowercase,
    and parsing it again gives that one entry. *)
Theorem format_list_keeps_order_and_normal_form s1 s2 :
  parse_formats (s1 ++ "," ++ s2) = parse_formats s1 ++ parse_formats s2
  /\ forall fmt, In fmt (parse_formats s1) ->
       fmt <> "" /\ Py.strip fmt = fmt /\ Py.lower fmt = fmt
       /\ parse_formats fmt = [fmt].
Proof.
  split.
  - unfold parse_formats.
    change ("," ++ s2)%string with (String "," s2).
    now rewrite PathFacts.split_sep, filter_app, map_app.
  - intros fmt H. apply parse_formats_In in H.
    destruct H as [e [Hin [Hne ->]]].
    assert (N : Py.lower (Py.strip e) <> "").
    { intros E. apply Hne. now apply FormatFacts.lower_empty. }
    assert (S : Py.strip (Py.lower (Py.strip e)) = Py.lower (Py.strip e))
      by now rewrite FormatFacts.strip_lower, FormatFacts.strip_idem.
    assert (C : Py.has_char "," (Py.lower (Py.strip e)) = false).
    { rewrite FormatFacts.has_comma_lower. unfold Py.strip.
      apply FormatFacts.has_char_rstrip, FormatFacts.has_char_lstrip.
      now apply FormatFacts.split_pieces with s1. }
    repeat split; trivial.
    + apply FormatFacts.lower_idem.
    + unfold parse_formats. rewrite (PathFacts.split_plain _ _ C).
      cbn [filter]. rewrite S. unfold Py.truthy.
      destruct (String.eqb_spec (Py.lower (Py.strip e)) ""); [contradiction|].
      cbn. now rewrite S, FormatFacts.lower_idem.
Qed.

Lemma format_list_keeps_order_and_normal_form_witness :
  parse_formats (" TXT,Json" ++ "," ++ "txt") = ["txt"; "json"; "txt"]
  /\ parse_formats "json" = ["json"].
Proof.
  destruct (format_list_keeps_order_and_normal_form " TXT,Json" "txt")
    as [A B].
  split; [exact A|]. apply (B "json"). simpl. tauto.
Defined.

(** X13.  The diagnostic of a rejected format list names the first
    entry, in the order given, that is not supported; entries after it
    are not looked at. *)
Theorem rejection_names_the_first_bad_format env a w good bad rest :
  parse_formats (formats a) = good ++ bad :: rest ->
  (forall fmt, In fmt good -> In fmt supported) ->
  ~ In bad supported ->
  run env a w
  = (2%Z, mkWorld (fs w) (trace w ++ [EvStderr (unsupported_message bad)])).
Proof.
  intros E Hgood Hbad. unfold run, main, bind.
  now rewrite E, (check_formats_first good bad rest w Hgood Hbad).
Qed.

Lemma rejection_names_the_first_bad_format_witness :
  run Demo.env (Demo.args "txt, foo ,bar" false) Demo.w0
  = (2%Z, mkWorld Demo.tree [EvStderr (unsupported_message "foo")]).
Proof.
  apply (rejection_names_the_first_bad_format Demo.env
           (Demo.args "txt, foo ,bar" false) Demo.w0 ["txt"] "foo" ["bar"]
           eq_refl).
  - intros fmt [<-|[]]. now left.
  - simpl. intros [H|[H|[H|[H|[]]]]]; discriminate.
Defined.

(** X14.  A run calls [makedirs] for the output root and for the output
    folders of discovered files only, and opens no file for writing but
    [<out_dir>/<base>/<base>.<fmt>] for a discovered file that the
    recognition capability accepted and a format [fmt] that was requested
    and is supported.  So nothing is written for a file whose
    transcription failed, and nothing in a format that was not asked
    for.  What is there after the run and was not there before came from
    these calls: a directory is a place that the walk along the path of
    the output root or of an output folder passes (the root, the folders,
    and the missing directories that lead to them), and a regular file
    is the output file of such a file and format. *)
Theorem writes_go_to_requested_outputs env a w r w' evs :
  main env a w = (r, w') ->
  trace w' = trace w ++ evs ->
  (forall p ok, In (EvMakedirs p ok) evs ->
     p = out_dir a
     \/ exists f, In f (find_audio_files_in (fs w) (input a) audio_exts)
                  /\ p = OsPath.join (out_dir a) (base_of f))
  /\ (forall p ok, In (EvOpenWrite p ok) evs ->
        exists f k,
          In f (find_audio_files_in (fs w) (input a) audio_exts)
          /\ fails env a f = false
          /\ In k (parse_formats (formats a)) /\ In k supported
          /\ p = OsPath.join (OsPath.join (out_dir a) (base_of f))
                   (base_of f ++ "." ++ k))
  /\ (forall q es',
        Fs.lookup q (Fs.tree (fs w')) = Some (Fs.Dir es') ->
        (exists es, Fs.lookup q (Fs.tree (fs w)) = Some (Fs.Dir es))
        \/ exists p cs rest,
             (p = out_dir a
              \/ exists f,
                   In f (find_audio_files_in (fs w) (input a) audio_exts)
                   /\ p = OsPath.join (out_dir a) (base_of f))
             /\ Fs.components p = cs ++ rest
             /\ Fs.locate (Fs.origin p (fs w')) cs (Fs.tree (fs w'))
                = Some q)
  /\ (forall q c,
        Fs.lookup q (Fs.tree (fs w')) = Some (Fs.File c) ->
        (exists c0, Fs.lookup q (Fs.tree (fs w)) = Some (Fs.File c0))
        \/ exists f k,
             In f (find_audio_files_in (fs w) (input a) audio_exts)
             /\ fails env a f = false
             /\ In k (parse_formats (formats a)) /\ In k supported
             /\ Fs.place (OsPath.join (OsPath.join (out_dir a) (base_of f))
                            (base_of f ++ "." ++ k)) (fs w')
                = Some q).
Proof.
  intros H T. destruct (main_events env a w r w' H) as [evs' [T' F]].
  rewrite T' in T. apply app_inv_head in T. subst evs'.
  destruct (grows_main env a w r w' H) as [evs' [TG [_ [_ [GF [GD _]]]]]].
  rewrite T' in TG. apply app_inv_head in TG. subst evs'.
  rewrite Forall_forall in F.
  assert (Mk : forall p ok, In (EvMakedirs p ok) evs ->
             p = out_dir a
             \/ exists f,
                  In f (find_audio_files_in (fs w) (input a) audio_exts)
                  /\ p = OsPath.join (out_dir a) (base_of f)).
  { intros p ok Hin.
    destruct (F _ Hin) as [E|[f [Hf E]]]; [now left | right].
    now exists f. }
  assert (Op : forall p ok, In (EvOpenWrite p ok) evs ->
             exists f k,
               In f (find_audio_files_in (fs w) (input a) audio_exts)
               /\ fails env a f = false
               /\ In k (parse_formats (formats a)) /\ In k supported
               /\ p = OsPath.join (OsPath.join (out_dir a) (base_of f))
                        (base_of f ++ "." ++ k)).
  { intros p ok Hin.
    destruct (F _ Hin) as [f [Hf [Ok [k [Hk [Hs E]]]]]].
    exists f, k. repeat split; trivial. }
  split; [exact Mk|]. split; [exact Op|]. split.
  - intros q es' L.
    destruct (GD _ _ L) as [X|[p [ok [cs [rest [Hin [C Lc]]]]]]];
      [now left | right].
    exists p, cs, rest. split; [exact (Mk _ _ Hin) | now split].
  - intros q c L.
    destruct (GF _ _ L) as [X|[p [Hin Hp]]]; [now left | right].
    destruct (Op _ _ Hin) as [f [k [Hf [Ok [Hk [Hs ->]]]]]].
    exists f, k. repeat split; trivial.
Qed.

Lemma writes_go_to_requested_outputs_witness :
  (forall p ok,
     In (EvMakedirs p ok)
        (trace (snd (main Demo.env (Demo.args "txt" false) Demo.w0))) ->
     p = "out"
     \/ exists f, In f (find_audio_files_in Demo.tree "in" audio_exts)
                  /\ p = OsPath.join "out" (base_of f))
  /\ (forall p ok,
        In (EvOpenWrite p ok)
           (trace (snd (main Demo.env (Demo.args "txt" false) Demo.w0))) ->
        exists f k,
          In f (find_audio_files_in Demo.tree "in" audio_exts)
          /\ fails Demo.env (Demo.args "txt" false) f = false
          /\ In k (parse_formats "txt") /\ In k supported
          /\ p = OsPath.join (OsPath.join "out" (base_of f))
                   (base_of f ++ "." ++ k)).
Proof.
  destruct (writes_go_to_requested_outputs Demo.env (Demo.args "txt" false)
              Demo.w0 (fst (main Demo.env (Demo.args "txt" false) Demo.w0))
              (snd (main Demo.env (Demo.args "txt" false) Demo.w0))
              (trace (snd (main Demo.env (Demo.args "txt" false) Demo.w0)))
              eq_refl eq_refl) as [Mk [Op _]].
  split; [exact Mk | exact Op].
Defined.

(** X15.  A run removes nothing: every directory there was is a
    directory afterwards, every regular file is a regular file
    afterwards, and a regular file that the run did not open for writing
    (with success) holds what it held before. *)
Theorem run_removes_nothing env a w r w' evs :
  main env a w = (r, w') ->
  trace w' = trace w ++ evs ->
  (forall q, Fs.isdir q (fs w) = true -> Fs.isdir q (fs w') = true)
  /\ (forall q, Fs.isfile q (fs w) = true -> Fs.isfile q (fs w') = true)
  /\ (forall q c,
        Fs.read q (fs w) = Some c ->
        (forall p, In (EvOpenWrite p true) evs ->
                   ~ same_place p q (fs w')) ->
        Fs.read q (fs w') = Some c).
Proof.
  intros H T. destruct (keeps_main env a w r w' H) as [evs' [T' [P [D F]]]].
  rewrite T' in T. apply app_inv_head in T. subst evs'.
  split; [|split].
  - intros q. now apply FsFacts.isdir_stable.
  - intros q Hq. apply FsFacts.isfile_read in Hq. destruct Hq as [c Hq].
    apply FsFacts.read_spec in Hq. destruct Hq as [Hne [N [q0 [Hq0 L]]]].
    destruct (F _ _ L) as [c' [L' _]].
    apply FsFacts.isfile_read. exists c'. apply FsFacts.read_spec.
    repeat split; trivial. exists q0. split; trivial.
    exact (FsFacts.place_stable _ _ _ _ P D Hq0).
  - intros q c Hq Hfree. apply FsFacts.read_spec in Hq.
    destruct Hq as [Hne [N [q0 [Hq0 L]]]].
    pose proof (FsFacts.place_stable _ _ _ _ P D Hq0) as Hq0'.
    apply FsFacts.read_spec. repeat split; trivial. exists q0. split; trivial.
    destruct (F _ _ L) as [c' [L' [->|[p [Hin Hp]]]]]; trivial.
    elim (Hfree p Hin). now exists q0.
Qed.

Lemma run_removes_nothing_witness :
  Fs.read "in/b.MP3"
    (fs (snd (main Demo.env (Demo.args "txt" false) Demo.w0)))
  = Some "".
Proof.
  refine (proj2 (proj2 (run_removes_nothing Demo.env (Demo.args "txt" false)
                          Demo.w0
                          (fst (main Demo.env (Demo.args "txt" false) Demo.w0))
                          (snd (main Demo.env (Demo.args "txt" false) Demo.w0))
                          (trace (snd (main Demo.env (Demo.args "txt" false)
                                         Demo.w0)))
                          eq_refl eq_refl))
            "in/b.MP3" "" eq_refl _).
  intros p Hin. vm_compute in Hin.
  repeat (destruct Hin as [Hin|Hin];
          [try discriminate Hin; injection Hin as <-;
           intros [q [A B]]; vm_compute in A, B; congruence
          |]).
  destruct Hin.
Defined.

(** A regular file can be read through another path than the one the
    run writes it through: here [out/b/../b/b.txt] is [out/b/b.txt], the
    paths differ step by step, and the run changes what is read. *)
Lemma a_file_read_through_another_path :
  Fs.read "out/b/../b/b.txt" (fs Demo.rerun) = Some "old"
  /\ (forall p,
        In (EvOpenWrite p true)
           (trace (snd (main Demo.env (Demo.args "txt" false) Demo.rerun))) ->
        Fs.components p <> Fs.components "out/b/../b/b.txt")
  /\ Fs.read "out/b/../b/b.txt"
       (fs (snd (main Demo.env (Demo.args "txt" false) Demo.rerun)))
     = Some "words of in/b.MP3".
Proof.
  repeat split. intros p Hin. vm_compute in Hin.
  repeat (destruct Hin as [Hin|Hin];
          [try discriminate Hin; injection Hin as <-; vm_compute; discriminate
          |]).
  destruct Hin.
Qed.

(** X16.  After a run that returns 0, for every discovered file that the
    recognition capability accepted and whose base name no later
    discovered file shares: if txt was requested, [<base>.txt] in its
    output folder holds the stripped text of its result; if json was
    requested, [<base>.json] holds the serialised result. *)
Theorem transcripts_are_saved_in_their_folders env a w w' pre f post result :
  main env a w = (Ok 0%Z, w') ->
  find_audio_files_in (fs w) (input a) audio_exts = pre ++ f :: post ->
  transcription env a f = inr result ->
  (forall g, In g post -> base_of g <> base_of f) ->
  (In "txt" (parse_formats (formats a)) ->
   Fs.read (output_path a f "txt") (fs w') = Some (transcript env result))
  /\ (In "json" (parse_formats (formats a)) ->
      Fs.read (output_path a f "json") (fs w')
      = Some (json_dumps env result)).
Proof.
  intros H Hfiles T Hother.
  pose proof (main_returns_accept env a w _ w' H) as Hok.
  rewrite (main_accept env a w Hok), Hfiles in H.
  apply batch_driver_cases in H.
  destruct H as [[E _]|[[_ [_ [[=] _]]]|[_ [t1 [_ H]]]]].
  { destruct pre; discriminate. }
  destruct (batch_outputs env a _ pre f post result _ _ _ H T)
    as [w1 [w2 [fl' [W B]]]].
  assert (Pall : Forall proper_base (pre ++ f :: post)).
  { apply Forall_forall. intros g Hg. rewrite <- Hfiles in Hg.
    exact (proj1 (found_proper _ _ _ Hg)). }
  apply Forall_app in Pall. destruct Pall as [_ Pall].
  inversion Pall as [|? ? Pf Ppost]; subst.
  destruct (write_outputs_saved env a _ f result w1 w2 W) as [St Sj].
  split; intros Hin.
  - refine (batch_keeps_outputs env a _ f "txt" post fl' _ w2 _ w' Pf Ppost
              _ Hother B (St Hin)).
    simpl; tauto.
  - refine (batch_keeps_outputs env a _ f "json" post fl' _ w2 _ w' Pf Ppost
              _ Hother B (Sj Hin)).
    simpl; tauto.
Qed.

Lemma transcripts_are_saved_in_their_folders_witness :
  (In "txt" (parse_formats "txt,json") ->
   Fs.read (output_path (Demo.args "txt,json" false) "in/b.MP3" "txt")
     (fs (snd (main Demo.env (Demo.args "txt,json" false) Demo.w0)))
   = Some (transcript Demo.env "  words of in/b.MP3 "))
  /\ (In "json" (parse_formats "txt,json") ->
      Fs.read (output_path (Demo.args "txt,json" false) "in/b.MP3" "json")
        (fs (snd (main Demo.env (Demo.args "txt,json" false) Demo.w0)))
      = Some (json_dumps Demo.env "  words of in/b.MP3 ")).
Proof.
  apply (transcripts_are_saved_in_their_folders Demo.env
           (Demo.args "txt,json" false) Demo.w0
           (snd (main Demo.env (Demo.args "txt,json" false) Demo.w0))
           [] "in/b.MP3" ["in/bad.mp3"; "in/sub/a.wav"]
           "  words of in/b.MP3 " eq_refl eq_refl eq_refl).
  intros g [<-|[<-|[]]]; vm_compute; discriminate.
Defined.

(** X17.  In a run that returns 0, standard output holds, file by file
    in the order of discovery, the line [Transcribing: <file>], followed
    by [Saved transcripts to: <folder>] exactly for the files the
    recognition capability accepted; and for every file it refused, the
    error stream holds [Failed transcription for <file>: <message>]. *)
Theorem progress_lines_tell_what_was_saved env a w w' evs :
  main env a w = (Ok 0%Z, w') ->
  trace w' = trace w ++ evs ->
  stdout evs
  = progress env a (find_audio_files_in (fs w) (input a) audio_exts)
  /\ forall f m,
       In f (find_audio_files_in (fs w) (input a) audio_exts) ->
       transcription env a f = inl m ->
       In (EvStderr ("Failed transcription for " ++ f ++ ": " ++ m)) evs.
Proof.
  intros H T.
  pose proof (main_returns_accept env a w _ w' H) as Hok.
  rewrite (main_accept env a w Hok) in H.
  apply batch_driver_cases in H.
  destruct H as [[E [_ ->]]|[[_ [_ [[=] _]]]|[_ [t1 [_ H]]]]].
  - cbn [trace] in T. rewrite <- app_assoc in T. apply app_inv_head in T.
    subst evs. rewrite E. split; [reflexivity | intros f m []].
  - destruct (batch_progress env a _ _ _ _ _ H) as [evs' [T' [S D]]].
    cbn [trace] in T'. rewrite T', <- !app_assoc in T.
    apply app_inv_head in T. subst evs. split; [exact S|].
    intros f m Hf Tf. do 2 right. exact (D f m Hf Tf).
Qed.

Lemma progress_lines_tell_what_was_saved_witness :
  stdout (trace (snd (main Demo.env (Demo.args "txt" false) Demo.w0)))
  = progress Demo.env (Demo.args "txt" false)
      (find_audio_files_in Demo.tree "in" audio_exts)
  /\ forall f m,
       In f (find_audio_files_in Demo.tree "in" audio_exts) ->
       transcription Demo.env (Demo.args "txt" false) f = inl m ->
       In (EvStderr ("Failed transcription for " ++ f ++ ": " ++ m))
          (trace (snd (main Demo.env (Demo.args "txt" false) Demo.w0))).
Proof.
  exact (progress_lines_tell_what_was_saved Demo.env (Demo.args "txt" false)
           Demo.w0 (snd (main Demo.env (Demo.args "txt" false) Demo.w0))
           (trace (snd (main Demo.env (Demo.args "txt" false) Demo.w0)))
           eq_refl eq_refl).
Defined.

(** X18.  The exit status of the process is 0, 1 or 2, whatever the
    arguments, the file system and the recognition capability. *)
Theorem exit_status_is_0_1_or_2 env a w :
  fst (run env a w) = 0%Z \/ fst (run env a w) = 1%Z
  \/ fst (run env a w) = 2%Z.
Proof.
  rewrite run_status.
  destruct (formats_decide (parse_formats (formats a))) as [Hok|Hbad].
  - rewrite (main_accept env a w Hok).
    destruct (batch_driver _ _ _ _ _) as [r w'] eqn:E.
    destruct (batch_driver_status _ _ _ _ _ _ _ E) as [X|X]; cbn [fst]; auto.
  - destruct (main_reject env a w Hbad) as [fmt ->]. cbn. auto.
Qed.

(** X19.  What can end [main] with an exception: the rejection of the
    format list ([SystemExit] 2); a directory that could not be made, the
    output root or the output folder of a discovered file; or a text or
    JSON file of an accepted file that could not be opened.  The failed
    call is the last event of the trace.  Errors of the recognition
    capability and of the caption writers never leave [main]. *)
Theorem uncaught_exceptions_are_file_system_errors env a w e w' :
  main env a w = (Raise e, w') ->
  (e = SystemExit 2 /\ has_bad_entry (formats a))
  \/ (exists p tr,
         e = OSError p /\ trace w' = tr ++ [EvMakedirs p false]
         /\ (p = out_dir a
             \/ exists f,
                  In f (find_audio_files_in (fs w) (input a) audio_exts)
                  /\ p = out_folder_of a f))
  \/ (exists f k tr,
         In f (find_audio_files_in (fs w) (input a) audio_exts)
         /\ fails env a f = false
         /\ (k = "txt" \/ k = "json")
         /\ In k (parse_formats (formats a))
         /\ e = OSError (output_path a f k)
         /\ trace w' = tr ++ [EvOpenWrite (output_path a f k) false]).
Proof.
  intros H.
  destruct (formats_decide (parse_formats (formats a))) as [Hok|Hbad].
  - rewrite (main_accept env a w Hok) in H.
    apply batch_driver_cases in H.
    destruct H as [[_ [[=] _]]|[[_ [_ [[= ->] ->]]]|[_ [t1 [_ H]]]]].
    + right. left. cbn [trace]. eauto 8.
    + apply stops_batch in H.
      destruct H as [tr [ev [T [[f [Hf [-> ->]]]|[f [Hf [Ok [k [Hk [Hin [-> ->]]]]]]]]]]].
      * right. left. eauto 8.
      * right. right. exists f, k, tr. auto 8.
  - left. destruct (main_reject env a w Hbad) as [fmt E].
    rewrite E in H. injection H as <- _. split; trivial.
    now apply has_bad_entry_parse.
Qed.

Lemma uncaught_exceptions_are_file_system_errors_witness :
  exists f k tr,
    In f (find_audio_files_in Demo.blocked_tree "in" audio_exts)
    /\ fails Demo.env (Demo.args "txt,json" false) f = false
    /\ (k = "txt" \/ k = "json")
    /\ In k (parse_formats "txt,json")
    /\ OSError "out/b/b.txt"
       = OSError (output_path (Demo.args "txt,json" false) f k)
    /\ trace (snd (main Demo.env (Demo.args "txt,json" false) Demo.blocked))
       = tr ++ [EvOpenWrite (output_path (Demo.args "txt,json" false) f k)
                  false].
Proof.
  destruct (uncaught_exceptions_are_file_system_errors Demo.env
              (Demo.args "txt,json" false) Demo.blocked
              (OSError "out/b/b.txt")
              (snd (main Demo.env (Demo.args "txt,json" false) Demo.blocked))
              eq_refl) as [[E _]|[[p [tr [_ [T _]]]]|H]].
  - discriminate E.
  - exfalso. apply (f_equal (fun l => last l (EvScan ""))) in T.
    rewrite last_last in T. vm_compute in T. discriminate T.
  - exact H.
Defined.

(** X20.  When [main] returns a status other than 0, the status is 1,
    fail-fast is on, and the last things that happened are the call of
    the recognition capability on a discovered file, its failure, and the
    diagnostic of that failure: [main] returns from the handler, and the
    test on the list of failures after the loop never decides. *)
Theorem status_1_follows_the_diagnostic env a w code w' :
  main env a w = (Ok code, w') ->
  code <> 0%Z ->
  code = 1%Z /\ fail_on_error a = true
  /\ exists tr f m,
       In f (find_audio_files_in (fs w) (input a) audio_exts)
       /\ transcription env a f = inl m
       /\ trace w'
          = tr ++ [attempt_event env a f;
                   EvStderr ("Failed transcription for " ++ f ++ ": " ++ m)].
Proof.
  intros H Hc.
  pose proof (main_returns_accept env a w code w' H) as Hok.
  rewrite (main_accept env a w Hok) in H.
  apply batch_driver_cases in H.
  destruct H as [[_ [[= ->] _]]|[[_ [_ [[=] _]]]|[_ [t1 [_ H]]]]].
  - now elim Hc.
  - destruct (batch_nonzero _ _ _ _ _ _ _ _ H Hc) as [-> [Hff _]].
    repeat split; trivial.
    exact (batch_status_1 env a _ _ _ _ _ _ (fun _ => eq_refl) H Hc).
Qed.

Lemma status_1_follows_the_diagnostic_witness :
  1%Z = 1%Z /\ fail_on_error (Demo.args "txt" true) = true
  /\ exists tr f m,
       In f (find_audio_files_in Demo.tree "in" audio_exts)
       /\ transcription Demo.env (Demo.args "txt" true) f = inl m
       /\ trace (snd (main Demo.env (Demo.args "txt" true) Demo.w0))
          = tr ++ [attempt_event Demo.env (Demo.args "txt" true) f;
                   EvStderr ("Failed transcription for " ++ f ++ ": " ++ m)].
Proof.
  apply (status_1_follows_the_diagnostic Demo.env (Demo.args "txt" true)
           Demo.w0 1%Z (snd (main Demo.env (Demo.args "txt" true) Demo.w0))
           eq_refl).
  discriminate.
Defined.

(** X21.  Caption errors are swallowed, so status 0 alone does not say
    that a caption file was written.  What it does say: in a run that
    returns 0, for a discovered file the recognition capability accepted
    and whose base name no later file shares, each caption kind (srt or
    vtt) that was requested and for which the caption writer put out a
    text (whether or not it failed afterwards) has its file
    [<out_dir>/<base>/<base>.<kind>] holding that text at the end, unless
    a directory sits at that very path or the operating system refuses
    to open a file at that place (a name that is too long, say). *)
Theorem captions_are_saved_unless_a_directory_is_in_the_way
        env a w w' pre f post result k written failure :
  main env a w = (Ok 0%Z, w') ->
  find_audio_files_in (fs w) (input a) audio_exts = pre ++ f :: post ->
  transcription env a f = inr result ->
  (forall g, In g post -> base_of g <> base_of f) ->
  k = "srt" \/ k = "vtt" ->
  In k (parse_formats (formats a)) ->
  render_captions env k result = inr (written, failure) ->
  Fs.read (output_path a f k) (fs w') = Some written
  \/ Fs.isdir (output_path a f k) (fs w') = true
  \/ refused (output_path a f k) (fs w').
Proof.
  intros H Hfiles T Hother Hk Hin Hr.
  pose proof (main_returns_accept env a w _ w' H) as Hok.
  rewrite (main_accept env a w Hok), Hfiles in H.
  apply batch_driver_cases in H.
  destruct H as [[E _]|[[_ [_ [[=] _]]]|[_ [t1 [_ H]]]]].
  { destruct pre; discriminate. }
  assert (Pall : Forall proper_base (pre ++ f :: post)).
  { apply Forall_forall. intros g Hg. rewrite <- Hfiles in Hg.
    exact (proj1 (found_proper _ _ _ Hg)). }
  apply Forall_app in Pall. destruct Pall as [_ Pall].
  inversion Pall as [|? ? Pf Ppost]; subst.
  destruct (batch_done env a _ pre f post _ _ _ H Pf Ppost Hother) as [_ D].
  rewrite T in D. destruct D as [_ [_ D]].
  exact (D k written failure Hk Hin Hr).
Qed.

Lemma captions_are_saved_unless_a_directory_is_in_the_way_witness :
  Fs.read (output_path (Demo.args "srt,vtt" false) "in/b.MP3" "vtt")
    (fs (snd (main Demo.env (Demo.args "srt,vtt" false) Demo.w0)))
  = Some "WEBVTT"
  \/ Fs.isdir (output_path (Demo.args "srt,vtt" false) "in/b.MP3" "vtt")
       (fs (snd (main Demo.env (Demo.args "srt,vtt" false) Demo.w0)))
     = true
  \/ refused (output_path (Demo.args "srt,vtt" false) "in/b.MP3" "vtt")
       (fs (snd (main Demo.env (Demo.args "srt,vtt" false) Demo.w0))).
Proof.
  apply (captions_are_saved_unless_a_directory_is_in_the_way Demo.env
           (Demo.args "srt,vtt" false) Demo.w0
           (snd (main Demo.env (Demo.args "srt,vtt" false) Demo.w0))
           [] "in/b.MP3" ["in/bad.mp3"; "in/sub/a.wav"]
           "  words of in/b.MP3 " "vtt" "WEBVTT" None
           eq_refl eq_refl eq_refl).
  - intros g [<-|[<-|[]]]; vm_compute; discriminate.
  - now right.
  - vm_compute. tauto.
  - reflexivity.
Defined.

(** A caption file that the operating system refuses to make is a third
    way: the error is swallowed like the others, the run returns 0, and
    there is neither a file nor a directory. *)
Lemma a_caption_the_system_refuses :
  fst (main Demo.env (Demo.args "vtt" false)
         (Demo.refusing ["out"; "b"; "b.vtt"]))
  = Ok 0%Z
  /\ render_captions Demo.env "vtt" "  words of in/b.MP3 "
     = inr ("WEBVTT", None)
  /\ Fs.read "out/b/b.vtt"
       (fs (snd (main Demo.env (Demo.args "vtt" false)
                   (Demo.refusing ["out"; "b"; "b.vtt"]))))
     = None
  /\ Fs.isdir "out/b/b.vtt"
       (fs (snd (main Demo.env (Demo.args "vtt" false)
                   (Demo.refusing ["out"; "b"; "b.vtt"]))))
     = false.
Proof. repeat split. Qed.

(** X22.  Running the script again changes nothing: after a run that
    returned 0 on discovered files with pairwise different base names, a
    second run with the same arguments on the file system the first one
    left, with the recognition capability and the caption writer
    answering as before, returns 0 as well and leaves the file system as
    it found it, whatever was printed in between. *)
Theorem second_run_changes_nothing env a w w1 tr :
  main env a w = (Ok 0%Z, w1) ->
  NoDup (map base_of (find_audio_files_in (fs w) (input a) audio_exts)) ->
  exists w2,
    main env a (mkWorld (fs w1) tr) = (Ok 0%Z, w2) /\ fs w2 = fs w1.
Proof.
  intros H Hbases.
  pose proof (main_returns_accept env a w _ w1 H) as Hok.
  pose proof (audio_same_main env a w _ w1 H) as Hau.
  rewrite (main_accept env a _ Hok). cbn [fs trace].
  rewrite (main_accept env a w Hok) in H.
  assert (Pall : Forall proper_base
                   (find_audio_files_in (fs w) (input a) audio_exts)).
  { apply Forall_forall. intros g Hg. exact (proj1 (found_proper _ _ _ Hg)). }
  apply batch_driver_cases in H.
  destruct H as [[E [_ ->]]|[[_ [_ [[=] _]]]|[Hne [t1 [Mk H]]]]].
  - cbn [fs]. rewrite E. cbn [batch_driver]. eexists. split; reflexivity.
  - assert (Hsame : find_audio_files_in (fs w1) (input a) audio_exts
                    = find_audio_files_in (fs w) (input a) audio_exts).
    { apply find_same_audio; trivial.
      - intros e He. exact (proj1 (audio_exts_plain e He)).
      - intros Q. apply Hne. exact (find_needs_place _ _ _ Q). }
    rewrite Hsame.
    assert (Hdone : Forall (done_for env a (parse_formats (formats a)) (fs w1))
                      (find_audio_files_in (fs w) (input a) audio_exts)).
    { apply Forall_forall. intros f Hf.
      destruct (in_split _ _ Hf) as [pre [post E]].
      rewrite E in H, Hbases, Pall.
      apply Forall_app in Pall. destruct Pall as [_ Pall].
      inversion Pall as [|? ? Pf Ppost]; subst.
      apply (batch_done env a _ pre f post _ _ _ H Pf Ppost).
      intros g Hg Eg. rewrite map_app in Hbases. cbn [map] in Hbases.
      apply NoDup_remove_2 in Hbases. apply Hbases.
      apply in_or_app. right. rewrite <- Eg. now apply in_map. }
    assert (Droot : Fs.isdir (out_dir a) (fs w1) = true).
    { refine (isdir_kept _ _ _ _ _ (keeps_batch env a _ _ _) H _).
      exact (FsFacts.makedirs_isdir _ _ _ Mk). }
    destruct (find_audio_files_in (fs w) (input a) audio_exts) as [|f rest];
      [now elim Hne|].
    cbn [batch_driver]. unfold bind at 1, ensure_dir, fs_call.
    cbn [fs trace]. rewrite (FsFacts.makedirs_idem _ _ Droot).
    match goal with
    | |- context [batch _ _ _ _ _ (mkWorld _ ?tr0)] =>
        destruct (batch_again env a _ (fs w1) (f :: rest) [] tr0 Hdone
                    (fun _ => eq_refl)) as [tr' E]
    end.
    rewrite E. eauto.
Qed.

Lemma second_run_changes_nothing_witness :
  exists w2,
    main Demo.env (Demo.args "txt,json,srt,vtt" false)
      (mkWorld
         (fs (snd (main Demo.env (Demo.args "txt,json,srt,vtt" false)
                     Demo.w0))) [])
    = (Ok 0%Z, w2)
    /\ fs w2
       = fs (snd (main Demo.env (Demo.args "txt,json,srt,vtt" false)
                    Demo.w0)).
Proof.
  apply (second_run_changes_nothing Demo.env
           (Demo.args "txt,json,srt,vtt" false) Demo.w0
           (snd (main Demo.env (Demo.args "txt,json,srt,vtt" false) Demo.w0))
           [] eq_refl).
  vm_compute.
  apply NoDup_cons; [intros [E|[E|[]]]; discriminate E|].
  apply NoDup_cons; [intros [E|[]]; discriminate E|].
  apply NoDup_cons; [intros []|]. apply NoDup_nil.
Defined.
